(** * TOON (Token-Oriented Object Notation) codec: a shallow embedding of
    toon.h / toon.cpp and the properties of its encoder and decoder.

    Conventions of the embedding.
    - A [std::string] is a [list ascii] (a sequence of bytes); [lit "..."]
      writes a literal.  [s[i]] is [char_at s i]; as in C++11 it yields the NUL
      byte at [i = size].
    - [size_t] offsets are [nat]; [int] values are [Z].
    - A [double] is an IEEE-754 binary64 value, [spec_float] with
      [prec = 53] and [emax = 1024].
    - [std::map<string, Toon>] is an association list; [map_assign] keeps it
      in ascending key order without duplicates, as the map does.
    - A function appending to its [out] parameter is the function returning
      the appended text. *)

From Stdlib Require Import Ascii String List ZArith Lia Bool Arith.
From Stdlib Require Import DecimalString SpecFloat.
From Stdlib Require Decimal DecimalPos.
Import ListNotations.

Local Open Scope Z_scope.
Local Open Scope list_scope.

(** ** Bytes and [std::string] *)

Definition lit (s : string) : list ascii := list_ascii_of_string s.

Definition code (c : ascii) : Z := Z.of_N (N_of_ascii c).

Definition chr (n : Z) : ascii := ascii_of_N (Z.to_N (n mod 256)).

Definition NUL : ascii := zero.

(** [s[i]] *)
Definition char_at (s : list ascii) (i : nat) : ascii := nth i s NUL.

(** [s == t] on strings *)
Fixpoint str_eqb (s t : list ascii) : bool :=
  match s, t with
  | [], [] => true
  | a :: s', b :: t' => Ascii.eqb a b && str_eqb s' t'
  | _, _ => false
  end.

(** [s < t] on strings: lexicographic on unsigned bytes *)
Fixpoint str_ltb (s t : list ascii) : bool :=
  match s, t with
  | _, [] => false
  | [], _ :: _ => true
  | a :: s', b :: t' =>
      if code a <? code b then true
      else if code b <? code a then false
      else str_ltb s' t'
  end.

(** [s.find(c) != npos] *)
Definition str_contains (s : list ascii) (c : ascii) : bool :=
  existsb (Ascii.eqb c) s.

(** [s.substr(pos, n)] for [pos <= size] *)
Definition substr (s : list ascii) (pos n : nat) : list ascii :=
  firstn n (skipn pos s).

(** [s.compare(pos, n, t) == 0]: the at most [n] bytes from [pos] equal [t] *)
Definition compare_eq (s : list ascii) (pos n : nat) (t : list ascii) : bool :=
  str_eqb (substr s pos n) t.

(** longest prefix whose elements satisfy [p], and what follows it *)
Fixpoint span {A : Type} (p : A -> bool) (l : list A) : list A * list A :=
  match l with
  | [] => ([], [])
  | a :: l' =>
      if p a then let '(u, v) := span p l' in (a :: u, v) else ([], l)
  end.

(** [s.find_last_not_of(set)]: [None] is [npos] *)
Fixpoint find_last_not_of (s : list ascii) (set : list ascii) : option nat :=
  match s with
  | [] => None
  | c :: s' =>
      match find_last_not_of s' set with
      | Some k => Some (S k)
      | None => if str_contains set c then None else Some O
      end
  end.

(** [s.find_first_not_of(set)] *)
Fixpoint find_first_not_of (s : list ascii) (set : list ascii) : option nat :=
  match s with
  | [] => None
  | c :: s' =>
      if str_contains set c
      then option_map S (find_first_not_of s' set)
      else Some O
  end.

(** ** The C library functions the codec calls *)

Module Libc.

Definition isdigit (c : ascii) : bool := (48 <=? code c) && (code c <=? 57).

Definition isspace (c : ascii) : bool :=
  (code c =? 32) || ((9 <=? code c) && (code c <=? 13)).

Definition isxdigit (c : ascii) : bool :=
  isdigit c || ((97 <=? code c) && (code c <=? 102))
            || ((65 <=? code c) && (code c <=? 70)).

Definition isalnum_ (c : ascii) : bool :=
  isdigit c || ((97 <=? code c) && (code c <=? 122))
            || ((65 <=? code c) && (code c <=? 90)) || (code c =? 95).

Definition tolower (c : ascii) : ascii :=
  if (65 <=? code c) && (code c <=? 90) then chr (code c + 32) else c.

Definition digit_val (c : ascii) : Z := code c - 48.

Definition xdigit_val (c : ascii) : Z :=
  if isdigit c then code c - 48
  else if (97 <=? code c) then code c - 97 + 10
  else code c - 65 + 10.

(** value of a run of decimal digits *)
Definition dec_value (ds : list ascii) : Z :=
  fold_left (fun acc c => acc * 10 + digit_val c) ds 0.

Definition hex_value (ds : list ascii) : Z :=
  fold_left (fun acc c => acc * 16 + xdigit_val c) ds 0.

(** [snprintf(buf, n, "%d", v)] and [std::to_string] of an integer *)
Definition print_int (v : Z) : list ascii :=
  lit (NilZero.string_of_int (Z.to_int v)).

Definition INT_MAX : Z := 2147483647.

(** [std::stoi] on a non-empty run of decimal digits: [None] stands for the
    [std::out_of_range] exception *)
Definition stoi (n : list ascii) : option Z :=
  let v := dec_value n in if v <=? INT_MAX then Some v else None.

(** [n.c_str()] as C sees it: the bytes before the first NUL *)
Definition c_str (s : list ascii) : list ascii :=
  fst (span (fun c => negb (Ascii.eqb c NUL)) s).

Definition INT_MIN : Z := -2147483648.

(** *** [strtod] (ISO C 7.20.1.3, "C" locale) *)

Definition binary64 (m e : Z) (neg : bool) : spec_float :=
  binary_normalize 53 1024 (if neg then - m else m) e neg.

(** the double nearest to [m * 10^e] *)
Definition decimal_to_double (neg : bool) (m e : Z) : spec_float :=
  if m =? 0 then S754_zero neg
  else if 0 <=? e then binary64 (m * 10 ^ e) 0 neg
  else SFdiv 53 1024 (S754_finite neg (Z.to_pos m) 0)
                     (S754_finite false (Z.to_pos (10 ^ (- e))) 0).

(** an optional sign: is it negative, and the rest *)
Definition scan_sign (s : list ascii) : bool * list ascii :=
  match s with
  | c :: r =>
      if Ascii.eqb c "-" then (true, r)
      else if Ascii.eqb c "+" then (false, r)
      else (false, s)
  | [] => (false, s)
  end.

(** an optional exponent part introduced by one of the letters [marks]:
    its value and the rest; nothing is consumed unless a digit follows *)
Definition scan_exponent (marks : list ascii) (s : list ascii)
  : Z * list ascii :=
  match s with
  | c :: r =>
      if str_contains marks c then
        let '(neg, r1) := scan_sign r in
        let '(ds, r2) := span isdigit r1 in
        match ds with
        | [] => (0, s)
        | _ => ((if neg then - dec_value ds else dec_value ds), r2)
        end
      else (0, s)
  | [] => (0, s)
  end.

(** digits, an optional point, digits *)
Definition scan_mantissa (isd : ascii -> bool) (s : list ascii)
  : list ascii * list ascii * list ascii :=
  let '(ip, r1) := span isd s in
  match r1 with
  | c :: r =>
      if Ascii.eqb c "." then
        let '(fp, r2) := span isd r in (ip, fp, r2)
      else (ip, [], r1)
  | [] => (ip, [], r1)
  end.

Definition starts_with_ci (s : list ascii) (t : list ascii) : bool :=
  str_eqb (map tolower (firstn (length t) s)) t.

(** the subject sequence after white space and sign: value and rest, or
    [None] when no conversion can be performed *)
Definition strtod_subject (neg : bool) (s : list ascii)
  : option (spec_float * list ascii) :=
  if starts_with_ci s (lit "infinity") then
    Some (S754_infinity neg, skipn 8 s)
  else if starts_with_ci s (lit "inf") then
    Some (S754_infinity neg, skipn 3 s)
  else if starts_with_ci s (lit "nan") then
    let r := skipn 3 s in
    match r with
    | c :: r1 =>
        if Ascii.eqb c "(" then
          match snd (span isalnum_ r1) with
          | c2 :: r2 =>
              if Ascii.eqb c2 ")" then Some (S754_nan, r2)
              else Some (S754_nan, r)
          | [] => Some (S754_nan, r)
          end
        else Some (S754_nan, r)
    | [] => Some (S754_nan, r)
    end
  else
    let hex :=
      if starts_with_ci s (lit "0x") then
        let '(ip, fp, r) := scan_mantissa isxdigit (skipn 2 s) in
        match ip ++ fp with
        | [] => None
        | ds =>
            let '(e, r') := scan_exponent (lit "pP") r in
            Some (binary64 (hex_value ds) (e - 4 * Z.of_nat (length fp)) neg,
                  r')
        end
      else None in
    match hex with
    | Some res => Some res
    | None =>
        let '(ip, fp, r) := scan_mantissa isdigit s in
        match ip ++ fp with
        | [] => None
        | ds =>
            let '(e, r') := scan_exponent (lit "eE") r in
            Some (decimal_to_double neg (dec_value ds)
                    (e - Z.of_nat (length fp)), r')
        end
    end.

(** [strtod(s, &end)]: the value, and the offset of [end] in [s] *)
Definition strtod (s : list ascii) : spec_float * nat :=
  let '(neg, r) := scan_sign (snd (span isspace s)) in
  match strtod_subject neg r with
  | Some (v, rest) => (v, (length s - length rest)%nat)
  | None => (S754_zero false, O)
  end.

(** the conversion of an [int] to [double]: exact, 32 bits fit in 53 *)
Definition int_to_double (n : Z) : spec_float :=
  binary_normalize 53 1024 n 0 false.

(** [static_cast<int>(d)]: the fractional part is discarded; [None] where
    the behaviour is undefined (the truncated value is not an [int], or [d]
    is not finite) *)
Definition double_to_int (d : spec_float) : option Z :=
  match d with
  | S754_zero _ => Some 0
  | S754_finite s m e =>
      let q := if 0 <=? e then Zpos m * 2 ^ e else Zpos m / 2 ^ (- e) in
      let v := if s then - q else q in
      if (INT_MIN <=? v) && (v <=? INT_MAX) then Some v else None
  | _ => None
  end.

End Libc.

(** *** [snprintf(buf, n, "%.17g", v)] for a finite [v] *)

Module Printf.

(** [10^x <= a / b], for positive [a] and [b] *)
Definition pow10_le (x a b : Z) : bool :=
  if 0 <=? x then 10 ^ x * b <=? a else b <=? a * 10 ^ (- x).

(** the decimal exponent of [a / b]: the [x] with [10^x <= a/b < 10^(x+1)] *)
Definition decimal_exponent (a b : Z) : Z :=
  let x0 := (Z.log2 a - Z.log2 b) * 1233 / 4096 in
  if pow10_le (x0 + 2) a b then x0 + 2
  else if pow10_le (x0 + 1) a b then x0 + 1
  else if pow10_le x0 a b then x0
  else if pow10_le (x0 - 1) a b then x0 - 1
  else x0 - 2.

(** [a / b] rounded to the nearest integer, ties to even *)
Definition round_half_even (a b : Z) : Z :=
  let q := a / b in
  let r := a mod b in
  if (b <? 2 * r) || ((b =? 2 * r) && Z.odd q) then q + 1 else q.

(** the 17 significant decimal digits of [m * 2^e] and its decimal
    exponent, as the conversion [%.16e] determines them *)
Definition decimal17 (m e : Z) : Z * Z :=
  let a := m * 2 ^ (Z.max e 0) in
  let b := 2 ^ (Z.max (- e) 0) in
  let x := decimal_exponent a b in
  let p := 16 - x in
  let d := round_half_even (a * 10 ^ (Z.max p 0)) (b * 10 ^ (Z.max (- p) 0)) in
  if 10 ^ 17 <=? d then (10 ^ 16, x + 1) else (d, x).

Fixpoint strip_zeros_rev (r : list ascii) : list ascii :=
  match r with
  | c :: r' => if Ascii.eqb c "0" then strip_zeros_rev r' else r
  | [] => []
  end.

(** the fractional digits without their trailing zeros, with the point
    when a digit remains *)
Definition fraction (ds : list ascii) : list ascii :=
  match rev (strip_zeros_rev (rev ds)) with
  | [] => []
  | fs => "."%char :: fs
  end.

Definition exponent_field (x : Z) : list ascii :=
  let a := Libc.print_int (Z.abs x) in
  ("e"%char :: (if x <? 0 then "-"%char else "+"%char) ::
   (if Z.abs x <? 10 then ["0"%char] else [])) ++ a.

Definition print_g17 (v : spec_float) : list ascii :=
  match v with
  | S754_zero s => if s then lit "-0" else lit "0"
  | S754_finite s m e =>
      let '(d, x) := decimal17 (Zpos m) e in
      let ds := Libc.print_int d in
      (if s then ["-"%char] else []) ++
      (if (x <? -4) || (17 <=? x) then
         firstn 1 ds ++ fraction (skipn 1 ds) ++ exponent_field x
       else if 0 <=? x then
         firstn (Z.to_nat (x + 1)) ds ++ fraction (skipn (Z.to_nat (x + 1)) ds)
       else
         "0"%char :: fraction (repeat "0"%char (Z.to_nat (- x - 1)) ++ ds))
  | S754_infinity s => if s then lit "-inf" else lit "inf"
  | S754_nan => lit "nan"
  end.

End Printf.

(** ** namespace helper_toon *)

Module helper_toon.

Definition wrap32 (n : Z) : Z := n mod 2 ^ 32.

(** the body of [for (int j = 0; j < 4; j++)], [n] iterations left:
    the value, the offset [i] and the error text *)
Fixpoint hex_loop (n : nat) (str : list ascii) (i : nat) (val : Z)
  : Z * nat * list ascii :=
  match n with
  | O => (val, i, [])
  | S n' =>
      let c := char_at str i in
      let i := S i in
      let val := wrap32 (Z.shiftl val 4) in
      if (code "0" <=? code c) && (code c <=? code "9") then
        hex_loop n' str i (wrap32 (val + (code c - code "0")))
      else if (code "a" <=? code c) && (code c <=? code "f") then
        hex_loop n' str i (wrap32 (val + (code c - code "a" + 10)))
      else if (code "A" <=? code c) && (code c <=? code "F") then
        hex_loop n' str i (wrap32 (val + (code c - code "A" + 10)))
      else (0, i, lit "invalid unicode escape")
  end.

Definition parse_unicode_codepoint (str : list ascii) (i : nat)
  : Z * nat * list ascii :=
  if (length str <=? i + 4)%nat then (0, i, lit "unfinished unicode escape")
  else hex_loop 4 str i 0.

Definition encode_utf8 (cp : Z) : list ascii :=
  let cp := if 1114111 <? cp (* 0x10ffff *) then 65533 (* 0xfffd *) else cp in
  let cp :=
    if ((55296 <=? cp) && (cp <=? 57343))        (* 0xd800 .. 0xdfff *)
       || ((64976 <=? cp) && (cp <=? 65007))     (* 0xfdd0 .. 0xfdef *)
       || (Z.land cp 65534 =? 65534)             (* (cp & 0xfffe) == 0xfffe *)
    then 65533 else cp in
  if cp <=? 127 then
    [chr cp]
  else if cp <=? 2047 then
    [chr (Z.lor 192 (Z.land (Z.shiftr cp 6) 31));
     chr (Z.lor 128 (Z.land cp 63))]
  else if cp <=? 65535 then
    [chr (Z.lor 224 (Z.land (Z.shiftr cp 12) 15));
     chr (Z.lor 128 (Z.land (Z.shiftr cp 6) 63));
     chr (Z.lor 128 (Z.land cp 63))]
  else
    [chr (Z.lor 240 (Z.land (Z.shiftr cp 18) 7));
     chr (Z.lor 128 (Z.land (Z.shiftr cp 12) 63));
     chr (Z.lor 128 (Z.land (Z.shiftr cp 6) 63));
     chr (Z.lor 128 (Z.land cp 63))].

End helper_toon.

(** ** namespace toon: the value model *)

Module toon.

Inductive Type_ : Set := NUL_ | NUMBER | BOOL | STRING | ARRAY | OBJECT.

#[local] Set Warnings "-register-all".

(** A [Toon] is a shared pointer to an immutable [ToonValue]; the value is
    one of the six final classes (two of them for numbers). *)
Inductive Toon : Type :=
| ToonNull
| ToonDouble (m_value : spec_float)
| ToonInt (m_value : Z)
| ToonBoolean (m_value : bool)
| ToonString (m_value : list ascii)
| ToonArray (m_value : list Toon)
| ToonObject (m_value : list (list ascii * Toon)).

Definition array := list Toon.
Definition object := list (list ascii * Toon).

Definition type (v : Toon) : Type_ :=
  match v with
  | ToonNull => NUL_
  | ToonDouble _ | ToonInt _ => NUMBER
  | ToonBoolean _ => BOOL
  | ToonString _ => STRING
  | ToonArray _ => ARRAY
  | ToonObject _ => OBJECT
  end.

Definition is_object (v : Toon) : bool :=
  match v with ToonObject _ => true | _ => false end.

Definition is_array (v : Toon) : bool :=
  match v with ToonArray _ => true | _ => false end.

Definition array_items (v : Toon) : array :=
  match v with ToonArray a => a | _ => [] end.

Definition object_items (v : Toon) : object :=
  match v with ToonObject o => o | _ => [] end.

(** *** [std::map<string, Toon>] *)

(** [m.find(key)] *)
Fixpoint map_find (key : list ascii) (m : object) : option Toon :=
  match m with
  | [] => None
  | (k, v) :: m' => if str_eqb key k then Some v else map_find key m'
  end.

(** [m[key] = v]: replaces the entry of [key] or adds one in key order *)
Fixpoint map_assign (key : list ascii) (v : Toon) (m : object) : object :=
  match m with
  | [] => [(key, v)]
  | (k, x) :: m' =>
      if str_eqb key k then (key, v) :: m'
      else if str_ltb key k then (key, v) :: m
      else (k, x) :: map_assign key v m'
  end.

(** *** [operator[]] *)

(** [ToonValue::operator[](size_t)], overridden by [ToonArray] *)
Definition index (v : Toon) (i : nat) : Toon :=
  match v with
  | ToonArray m_value =>
      if (length m_value <=? i)%nat then ToonNull else nth i m_value ToonNull
  | _ => ToonNull
  end.

(** [ToonValue::operator[](const string &)], overridden by [ToonObject] *)
Definition lookup (v : Toon) (key : list ascii) : Toon :=
  match v with
  | ToonObject m_value =>
      match map_find key m_value with
      | None => ToonNull
      | Some x => x
      end
  | _ => ToonNull
  end.

(** ** namespace toon: the encoder *)

Definition dump_null : list ascii := lit "null".

Definition isfinite (v : spec_float) : bool :=
  match v with
  | S754_zero _ | S754_finite _ _ _ => true
  | S754_infinity _ | S754_nan => false
  end.

Definition dump_double (value : spec_float) : list ascii :=
  if isfinite value then Printf.print_g17 value else lit "null".

Definition dump_int (value : Z) : list ascii := Libc.print_int value.

Definition dump_bool (value : bool) : list ascii :=
  if value then lit "true" else lit "false".

Definition special : list ascii :=
  [","%char; ":"%char; "010"%char; "["%char; "]"%char; "{"%char; "}"%char;
   "#"%char].

Definition needs_quoting (value : list ascii) : bool :=
  match value with
  | [] => true
  | c0 :: _ =>
      if str_eqb value (lit "null") || str_eqb value (lit "true")
         || str_eqb value (lit "false") then true
      else if (Libc.isdigit c0 || Ascii.eqb c0 "-")
              && (snd (Libc.strtod (Libc.c_str value))
                  =? length (Libc.c_str value))%nat then true
      else existsb (fun c => str_contains special c) value
  end.

Definition hex_digit (n : Z) : ascii :=
  nth (Z.to_nat n) (lit "0123456789abcdef") "0"%char.

(** [snprintf(buf, sizeof buf, "\\u%04x", ch)] for a byte [ch <= 0x1f] *)
Definition print_u04x (ch : ascii) : list ascii :=
  ["\"%char; "u"%char;
   hex_digit (code ch / 4096 mod 16); hex_digit (code ch / 256 mod 16);
   hex_digit (code ch / 16 mod 16); hex_digit (code ch mod 16)].

(** what the loop of [dump(const string &)] appends for one byte *)
Definition escape_char (ch : ascii) : list ascii :=
  if Ascii.eqb ch "\" then ["\"%char; "\"%char]
  else if Ascii.eqb ch "034" then ["\"%char; "034"%char]
  else if Ascii.eqb ch "008"%char then ["\"%char; "b"%char]
  else if Ascii.eqb ch "012"%char then ["\"%char; "f"%char]
  else if Ascii.eqb ch "010"%char then ["\"%char; "n"%char]
  else if Ascii.eqb ch "013"%char then ["\"%char; "r"%char]
  else if Ascii.eqb ch "009"%char then ["\"%char; "t"%char]
  else if code ch <=? 31 then print_u04x ch
  else [ch].

Definition dump_string (value : list ascii) : list ascii :=
  if negb (needs_quoting value) then value
  else ["034"%char] ++ flat_map escape_char value ++ ["034"%char].

(** [indent(out, level)] *)
Definition indent (level : Z) : list ascii :=
  concat (repeat (lit "  ") (Z.to_nat level)).

(** the inner loop of the eligibility check: every key is found in [o] *)
Fixpoint has_all_keys (keys : list (list ascii)) (o : object) : bool :=
  match keys with
  | [] => true
  | k :: keys' =>
      match map_find k o with
      | None => false
      | Some _ => has_all_keys keys' o
      end
  end.

(** the loop over [values[1..]] of the eligibility check *)
Fixpoint all_objects_from (keys : list (list ascii)) (values : array) : bool :=
  match values with
  | [] => true
  | v :: values' =>
      if negb (is_object v)
         || negb (length (object_items v) =? length keys)%nat then false
      else if has_all_keys keys (object_items v)
           then all_objects_from keys values'
           else false
  end.

(** [keys] and [all_objects] as computed for a non-empty array *)
Definition tabular_keys (values : array) : list (list ascii) :=
  match values with
  | ToonObject o :: _ => map fst o
  | _ => []
  end.

Definition all_objects (values : array) : bool :=
  match values with
  | ToonObject o :: rest => all_objects_from (map fst o) rest
  | _ => false
  end.

Section Dump.

(** [Toon::dump]: the virtual call the container encoders recurse with *)
Variable Toon_dump : Toon -> Z -> list ascii.

(** [obj.at(key).dump(out, level)]; [at] throws [std::out_of_range] on a
    missing key, which the eligibility check has excluded: the text is
    empty there *)
Fixpoint dump_at (obj : object) (key : list ascii) (level : Z)
  : list ascii :=
  match obj with
  | [] => []
  | (k, x) :: obj' =>
      if str_eqb key k then Toon_dump x level else dump_at obj' key level
  end.

(** the header loop [for i < keys.size()] *)
Fixpoint dump_header_keys (keys : list (list ascii)) : list ascii :=
  match keys with
  | [] => []
  | k :: keys' =>
      k ++ (match keys' with [] => [] | _ => lit ", " end)
        ++ dump_header_keys keys'
  end.

(** the cell loop [for j < keys.size()] of one row *)
Fixpoint dump_cells (obj : object) (keys : list (list ascii)) (level : Z)
  : list ascii :=
  match keys with
  | [] => []
  | k :: keys' =>
      dump_at obj k level
        ++ (match keys' with [] => [] | _ => lit ", " end)
        ++ dump_cells obj keys' level
  end.

(** the row loop [for i < values.size()] *)
Fixpoint dump_rows (values : array) (keys : list (list ascii)) (level : Z)
  : list ascii :=
  match values with
  | [] => []
  | v :: values' =>
      indent (level + 1)
        ++ (match v with
            | ToonObject obj => dump_cells obj keys (level + 1)
            | _ => dump_cells [] keys (level + 1)
            end)
        ++ (match values' with [] => [] | _ => ["010"%char] end)
        ++ dump_rows values' keys level
  end.

(** the element loop of the [[N]:] form *)
Fixpoint dump_elements (values : array) (level : Z) : list ascii :=
  match values with
  | [] => []
  | v :: values' =>
      Toon_dump v level
        ++ (match values' with [] => [] | _ => lit ", " end)
        ++ dump_elements values' level
  end.

Definition dump_array (values : array) (level : Z) : list ascii :=
  match values with
  | [] => lit "[0]:"
  | _ :: _ =>
      let keys := tabular_keys values in
      if all_objects values && negb (match keys with [] => true | _ => false end)
      then
        lit "[{" ++ dump_header_keys keys ++ lit "}]:" ++ ["010"%char]
          ++ dump_rows values keys level
      else
        lit "[" ++ Libc.print_int (Z.of_nat (length values)) ++ lit "]: "
          ++ dump_elements values level
  end.

(** the loop of [dump(const Toon::object &)]; [first] is the flag *)
Fixpoint dump_entries (values : object) (first : bool) (level : Z)
  : list ascii :=
  match values with
  | [] => []
  | (k, x) :: values' =>
      (if negb first then ["010"%char] ++ indent level else [])
        ++ k ++ lit ": "
        ++ (if is_object x || is_array x then
              (if is_object x then ["010"%char] else [])
                ++ (if is_object x then indent (level + 1) else [])
                ++ Toon_dump x (level + 1)
            else Toon_dump x level)
        ++ dump_entries values' false level
  end.

Definition dump_object (values : object) (level : Z) : list ascii :=
  dump_entries values true level.

End Dump.

(** [Toon::dump(string &out, int level)] *)
Fixpoint dump (v : Toon) (level : Z) {struct v} : list ascii :=
  match v with
  | ToonNull => dump_null
  | ToonDouble value => dump_double value
  | ToonInt value => dump_int value
  | ToonBoolean value => dump_bool value
  | ToonString value => dump_string value
  | ToonArray values => dump_array dump values level
  | ToonObject values => dump_object dump values level
  end.

(** *** [operator==]

    [Toon::operator==] first compares the two pointers, then the types, then
    calls [Value<tag, T>::equals], which casts the other value to its own
    class.  The model compares two distinct nodes.  A [ToonInt] and a
    [ToonDouble] have the same type tag and different classes: the cast
    reads an object of the wrong class and the result is undefined, [None].
    [std::vector] and [std::map] compare sizes, then elements in order up to
    the first difference. *)
Fixpoint equals (a b : Toon) {struct a} : option bool :=
  match a, b with
  | ToonNull, ToonNull => Some true
  | ToonDouble x, ToonDouble y => Some (SFeqb x y)
  | ToonInt x, ToonInt y => Some (x =? y)
  | ToonDouble _, ToonInt _ | ToonInt _, ToonDouble _ => None
  | ToonBoolean x, ToonBoolean y => Some (Bool.eqb x y)
  | ToonString x, ToonString y => Some (str_eqb x y)
  | ToonArray xs, ToonArray ys =>
      if negb (length xs =? length ys)%nat then Some false
      else
        (fix all2 (xs ys : list Toon) {struct xs} : option bool :=
           match xs, ys with
           | x :: xs', y :: ys' =>
               match equals x y with
               | Some true => all2 xs' ys'
               | r => r
               end
           | _, _ => Some true
           end) xs ys
  | ToonObject xs, ToonObject ys =>
      if negb (length xs =? length ys)%nat then Some false
      else
        (fix all2 (xs ys : object) {struct xs} : option bool :=
           match xs, ys with
           | (k, x) :: xs', (l, y) :: ys' =>
               if negb (str_eqb k l) then Some false
               else match equals x y with
                    | Some true => all2 xs' ys'
                    | r => r
                    end
           | _, _ => Some true
           end) xs ys
  | _, _ => Some false
  end.

(** *** The accessors

    [ToonValue] gives the defaults, the classes override their own. *)

Definition number_value (v : Toon) : spec_float :=
  match v with
  | ToonDouble d => d
  | ToonInt n => Libc.int_to_double n
  | _ => S754_zero false
  end.

Definition int_value (v : Toon) : option Z :=
  match v with
  | ToonDouble d => Libc.double_to_int d
  | ToonInt n => Some n
  | _ => Some 0
  end.

Definition bool_value (v : Toon) : bool :=
  match v with
  | ToonBoolean b => b
  | _ => false
  end.

Definition string_value (v : Toon) : list ascii :=
  match v with
  | ToonString s => s
  | _ => []
  end.

(** *** [operator<]

    [Toon::operator<] compares the two pointers, then the type tags in the
    order of [enum Type], then calls [Value<tag, T>::less], which casts as
    [equals] does.  [std::vector] and [std::map] compare with
    [std::lexicographical_compare], which asks [*first1 < *first2] and then
    [*first2 < *first1]; a pair of a map is less when its key is, or when
    the keys are equivalent and its value is.  [less a b] is [a < b] and
    [greater a b] is [b < a], both by recursion on [a]. *)

Definition type_rank (t : Type_) : Z :=
  match t with
  | NUL_ => 0
  | NUMBER => 1
  | BOOL => 2
  | STRING => 3
  | ARRAY => 4
  | OBJECT => 5
  end.

Fixpoint less (a b : Toon) {struct a} : option bool :=
  match a, b with
  | ToonNull, ToonNull => Some false
  | ToonDouble x, ToonDouble y => Some (SFltb x y)
  | ToonInt x, ToonInt y => Some (x <? y)
  | ToonDouble _, ToonInt _ | ToonInt _, ToonDouble _ => None
  | ToonBoolean x, ToonBoolean y => Some (negb x && y)
  | ToonString x, ToonString y => Some (str_ltb x y)
  | ToonArray xs, ToonArray ys =>
      (fix lex (xs ys : list Toon) {struct xs} : option bool :=
         match xs, ys with
         | x :: xs', y :: ys' =>
             match less x y with
             | Some false =>
                 match greater x y with
                 | Some false => lex xs' ys'
                 | Some true => Some false
                 | None => None
                 end
             | r => r
             end
         | [], _ :: _ => Some true
         | _, [] => Some false
         end) xs ys
  | ToonObject xs, ToonObject ys =>
      (fix lex (xs ys : object) {struct xs} : option bool :=
         match xs, ys with
         | (k, x) :: xs', (l, y) :: ys' =>
             match (if str_ltb k l then Some true
                    else if str_ltb l k then Some false else less x y) with
             | Some false =>
                 match (if str_ltb l k then Some true
                        else if str_ltb k l then Some false
                             else greater x y) with
                 | Some false => lex xs' ys'
                 | Some true => Some false
                 | None => None
                 end
             | r => r
             end
         | [], _ :: _ => Some true
         | _, [] => Some false
         end) xs ys
  | _, _ => Some (type_rank (type a) <? type_rank (type b))
  end
with greater (a b : Toon) {struct a} : option bool :=
  match a, b with
  | ToonNull, ToonNull => Some false
  | ToonDouble x, ToonDouble y => Some (SFltb y x)
  | ToonInt x, ToonInt y => Some (y <? x)
  | ToonDouble _, ToonInt _ | ToonInt _, ToonDouble _ => None
  | ToonBoolean x, ToonBoolean y => Some (negb y && x)
  | ToonString x, ToonString y => Some (str_ltb y x)
  | ToonArray xs, ToonArray ys =>
      (fix lex (xs ys : list Toon) {struct xs} : option bool :=
         match xs, ys with
         | x :: xs', y :: ys' =>
             match greater x y with
             | Some false =>
                 match less x y with
                 | Some false => lex xs' ys'
                 | Some true => Some false
                 | None => None
                 end
             | r => r
             end
         | _ :: _, [] => Some true
         | [], _ => Some false
         end) xs ys
  | ToonObject xs, ToonObject ys =>
      (fix lex (xs ys : object) {struct xs} : option bool :=
         match xs, ys with
         | (k, x) :: xs', (l, y) :: ys' =>
             match (if str_ltb l k then Some true
                    else if str_ltb k l then Some false
                         else greater x y) with
             | Some false =>
                 match (if str_ltb k l then Some true
                        else if str_ltb l k then Some false else less x y) with
                 | Some false => lex xs' ys'
                 | Some true => Some false
                 | None => None
                 end
             | r => r
             end
         | _ :: _, [] => Some true
         | [], _ => Some false
         end) xs ys
  | _, _ => Some (type_rank (type b) <? type_rank (type a))
  end.

(** ** namespace toon: the decoder *)

(** [struct ToonParser]: the offset, the error text (a reference to the
    caller's string) and the sticky flag; the member [str], a reference to
    the constant input, is the variable of the section below. *)
Record ToonParser : Type := mkParser {
  i : nat;
  err : list ascii;
  failed : bool
}.

Definition set_i (p : ToonParser) (k : nat) : ToonParser :=
  mkParser k (err p) (failed p).

(** How a call ends: it returns a value and leaves a parser state, or an
    exception leaves it, or the model ran out of fuel. *)
Inductive outcome (A : Type) : Type :=
| Returns (a : A) (p : ToonParser)
| Throws (what : list ascii)
| OutOfFuel.

Arguments Returns {A} a p.
Arguments Throws {A} what.
Arguments OutOfFuel {A}.

Definition bind {A B : Type} (m : outcome A)
  (k : A -> ToonParser -> outcome B) : outcome B :=
  match m with
  | Returns a p => k a p
  | Throws w => Throws w
  | OutOfFuel => OutOfFuel
  end.

Notation "'let*' ( x , p ) ':=' m 'in' k" :=
  (bind m (fun x p => k))
  (at level 10, x name, p name, m at level 100, k at level 200).

(** [Toon fail(string &&msg)] *)
Definition fail (msg : list ascii) (p : ToonParser) : Toon * ToonParser :=
  (ToonNull,
   mkParser (i p) (if negb (failed p) then msg else err p) true).

Definition is_blank (c : ascii) : bool :=
  Ascii.eqb c " " || Ascii.eqb c "013" || Ascii.eqb c "009".

Definition is_newline (c : ascii) : bool := Ascii.eqb c "010".

Section Parser.

Variable str : list ascii.

Definition size : nat := length str.

(** [while (i < str.size() && cond(str[i])) i++], [n] iterations left *)
Fixpoint scan_loop (cond : ascii -> bool) (n : nat) (i : nat) : nat :=
  match n with
  | O => i
  | S n' =>
      if (i <? size)%nat && cond (char_at str i)
      then scan_loop cond n' (S i) else i
  end.

Definition scan_while (cond : ascii -> bool) (i : nat) : nat :=
  scan_loop cond (size - i) i.

Definition consume_whitespace (p : ToonParser) : ToonParser :=
  set_i p (scan_while is_blank (i p)).

(** the [while (true)] of [consume_garbage], [n] iterations left *)
Fixpoint garbage_loop (n : nat) (p : ToonParser) : ToonParser :=
  match n with
  | O => p
  | S n' =>
      let p := consume_whitespace p in
      if (i p <? size)%nat && Ascii.eqb (char_at str (i p)) "#" then
        garbage_loop n' (set_i p (scan_while (fun c => negb (is_newline c)) (i p)))
      else if (i p <? size)%nat && is_newline (char_at str (i p)) then
        garbage_loop n' (set_i p (S (i p)))
      else p
  end.

Definition consume_garbage (p : ToonParser) : ToonParser :=
  garbage_loop (S (size - i p)) p.

Definition get_next_token (p : ToonParser) : ascii * ToonParser :=
  let p := consume_whitespace p in
  if (i p =? size)%nat then (NUL, p)
  else (char_at str (i p), set_i p (S (i p))).

(** [while (start > 0 && str[start - 1] != '\n') start--] *)
Fixpoint line_start (start : nat) : nat :=
  match start with
  | O => O
  | S k => if is_newline (char_at str k) then start else line_start k
  end.

(** the counting loop of [get_indent], [n] iterations left.  The source
    counts in an [int]: the model follows it as long as the count stays
    within [INT_MAX], that is for a line that begins with fewer than 2^28
    tabs; past that the addition overflows and the source has no defined
    result. *)
Fixpoint indent_loop (n : nat) (start : nat) (count : Z) : Z :=
  match n with
  | O => count
  | S n' =>
      if (start <? size)%nat
         && (Ascii.eqb (char_at str start) " "
             || Ascii.eqb (char_at str start) "009")
      then indent_loop n' (S start)
             (count + (if Ascii.eqb (char_at str start) "009" then 8 else 1))
      else count
  end.

Definition get_indent (p : ToonParser) : Z :=
  let start := line_start (i p) in
  indent_loop (size - start) start 0.

(** the [while] of [parse_quoted_string], [n] iterations left; [out] is
    the local string *)
Fixpoint quoted_loop (n : nat) (p : ToonParser) (out : list ascii)
  : Toon * ToonParser :=
  match n with
  | O => fail (lit "unfinished string") p
  | S n' =>
      if (i p <? size)%nat && negb (Ascii.eqb (char_at str (i p)) "034")
      then
        if Ascii.eqb (char_at str (i p)) "\" then
          let p := set_i p (S (i p)) in
          let unicode :=
            if Ascii.eqb (char_at str (i p)) "u" then
              let '(cp, i', unicode_err) :=
                helper_toon.parse_unicode_codepoint str (i p) in
              let p := set_i p i' in
              match unicode_err with
              | [] => inr (p, out ++ helper_toon.encode_utf8 cp)
              | _ => inl (fail unicode_err p)
              end
            else inr (p, out) in
          match unicode with
          | inl r => r
          | inr (p, out) =>
              if (i p =? size)%nat then fail (lit "unfinished escape") p
              else
                let esc := char_at str (i p) in
                let p := set_i p (S (i p)) in
                if Ascii.eqb esc "n" then quoted_loop n' p (out ++ ["010"%char])
                else if Ascii.eqb esc "r" then quoted_loop n' p (out ++ ["013"%char])
                else if Ascii.eqb esc "t" then quoted_loop n' p (out ++ ["009"%char])
                else if Ascii.eqb esc "034" || Ascii.eqb esc "\"
                then quoted_loop n' p (out ++ [esc])
                else fail (lit "invalid escape") p
          end
        else
          quoted_loop n' (set_i p (S (i p))) (out ++ [char_at str (i p)])
      else if (i p =? size)%nat then fail (lit "unfinished string") p
      else (ToonString out, set_i p (S (i p)))
  end.

Definition parse_quoted_string (p : ToonParser) : Toon * ToonParser :=
  let p := set_i p (S (i p)) in
  quoted_loop (S (size - i p)) p [].

Definition parse_unquoted_string (p : ToonParser) : Toon * ToonParser :=
  let j := scan_while (fun c => negb (str_contains special c)) (i p) in
  let out := substr str (i p) (j - i p) in
  let out :=
    match find_last_not_of out (lit " " ++ ["009"%char; "013"%char]) with
    | Some last => firstn (S last) out
    | None => out
    end in
  (ToonString out, set_i p j).

Definition is_number_char (c : ascii) : bool :=
  Libc.isdigit c || Ascii.eqb c "." || Ascii.eqb c "-"
  || Ascii.eqb c "e" || Ascii.eqb c "E".

Definition parse_number (p : ToonParser) : Toon * ToonParser :=
  let start := i p in
  let j := scan_while is_number_char start in
  let n := substr str start (j - start) in
  (ToonDouble (fst (Libc.strtod (Libc.c_str n))), set_i p j).

(** the key loop of a tabular header, [n] iterations left *)
Fixpoint header_loop (n : nat) (i : nat) (keys : list (list ascii))
  : nat * list (list ascii) :=
  match n with
  | O => (i, keys)
  | S n' =>
      if (i <? size)%nat && negb (Ascii.eqb (char_at str i) "}") then
        let i := scan_while is_blank i in
        let j := scan_while
                   (fun c => negb (Ascii.eqb c ",") && negb (Ascii.eqb c "}"))
                   i in
        let key := substr str i (j - i) in
        let keys :=
          match find_first_not_of key (lit " "),
                find_last_not_of key (lit " ") with
          | Some first, Some last =>
              keys ++ [substr key first (last - first + 1)]
          | Some first, None => keys ++ [skipn first key]
          | None, _ => keys
          end in
        let i := if (j <? size)%nat && Ascii.eqb (char_at str j) ","
                 then S j else j in
        header_loop n' i keys
      else (i, keys)
  end.

(** the header of an array: is it tabular, the keys, the count, and the
    offset after it; [None] when [std::stoi] throws *)
Definition parse_array_header (i : nat)
  : option (bool * list (list ascii) * Z * nat) :=
  let i := S i in
  let header :=
    if (i <? size)%nat && Ascii.eqb (char_at str i) "{" then
      let '(i, keys) := header_loop (S (size - S i)) (S i) [] in
      let i := if (i <? size)%nat then S i else i in
      Some (true, keys, -1, i)
    else
      let j := scan_while Libc.isdigit i in
      match substr str i (j - i) with
      | [] => Some (false, [], -1, j)
      | n => match Libc.stoi n with
             | Some count => Some (false, [], count, j)
             | None => None
             end
      end in
  match header with
  | None => None
  | Some (tabular, keys, count, i) =>
      let i := scan_while (fun c => negb (Ascii.eqb c "]")) i in
      let i := if (i <? size)%nat then S i else i in
      let i := if (i <? size)%nat && Ascii.eqb (char_at str i) ":"
               then S i else i in
      Some (tabular, keys, count, i)
  end.

Section Bodies.

(** the recursive calls *)
Variable parse_value_rec : ToonParser -> outcome Toon.
Variable parse_array_rec : Z -> ToonParser -> outcome Toon.
Variable parse_object_rec : Z -> ToonParser -> outcome Toon.

Definition parse_value_body (p : ToonParser) : outcome Toon :=
  let p := consume_whitespace p in
  if (i p =? size)%nat then
    let '(v, p) := fail (lit "unexpected end of input") p in Returns v p
  else
    let ch := char_at str (i p) in
    if Ascii.eqb ch "034" then
      let '(v, p) := parse_quoted_string p in Returns v p
    else if Ascii.eqb ch "[" then parse_array_rec (-1) p
    else if compare_eq str (i p) 4 (lit "null") then
      Returns ToonNull (set_i p (i p + 4))
    else if compare_eq str (i p) 4 (lit "true") then
      Returns (ToonBoolean true) (set_i p (i p + 4))
    else if compare_eq str (i p) 5 (lit "false") then
      Returns (ToonBoolean false) (set_i p (i p + 5))
    else if Libc.isdigit ch || Ascii.eqb ch "-" then
      let '(v, p) := parse_number p in Returns v p
    else
      let '(v, p) := parse_unquoted_string p in Returns v p.

(** one row: the loop [for (j = 0; j < keys.size(); ++j)] over the keys
    left.  The result is [inl] for the early [return Toon()], else the
    object, the flag [row_failed] and the state. *)
Fixpoint row_loop (keys : list (list ascii)) (obj : object)
  (p : ToonParser) : outcome (Toon + object * bool) :=
  match keys with
  | [] => Returns (inr (obj, false)) p
  | key :: keys' =>
      let p := consume_whitespace p in
      if (i p =? size)%nat || is_newline (char_at str (i p)) then
        Returns (inr (obj, true)) p
      else
        let* (val, p) := parse_value_rec p in
        if failed p then Returns (inl ToonNull) p
        else
          let obj := map_assign key val obj in
          let p := consume_whitespace p in
          let p :=
            if negb (match keys' with [] => true | _ => false end)
               && (i p <? size)%nat && Ascii.eqb (char_at str (i p)) ","
            then set_i p (S (i p)) else p in
          row_loop keys' obj p
  end.

(** the [while (i < str.size())] of the tabular body *)
Fixpoint rows_loop (n : nat) (parent_indent : Z)
  (keys : list (list ascii)) (arr : array) (p : ToonParser)
  : outcome Toon :=
  match n with
  | O => OutOfFuel
  | S n' =>
      if (i p <? size)%nat then
        let p := consume_garbage p in
        if (i p =? size)%nat then Returns (ToonArray arr) p
        else
          let row_start_index := i p in
          let current_indent := get_indent p in
          if negb (parent_indent =? -1)
             && (current_indent <=? parent_indent)
          then Returns (ToonArray arr) (set_i p row_start_index)
          else
            let* (row, p) := row_loop keys [] p in
            match row with
            | inl v => Returns v p
            | inr (obj, row_failed) =>
                if negb row_failed
                then rows_loop n' parent_indent keys
                       (arr ++ [ToonObject obj]) p
                else Returns (ToonArray arr) p
            end
      else Returns (ToonArray arr) p
  end.

(** the [for (int k = 0; count < 0 || k < count; ++k)] of the
    [[N]:] body *)
Fixpoint elements_loop (n : nat) (count k : Z) (arr : array)
  (p : ToonParser) : outcome Toon :=
  match n with
  | O => OutOfFuel
  | S n' =>
      if (count <? 0) || (k <? count) then
        let p := consume_garbage p in
        if (i p =? size)%nat then Returns (ToonArray arr) p
        else
          let* (v, p) := parse_value_rec p in
          let arr := arr ++ [v] in
          let p := consume_whitespace p in
          if (i p <? size)%nat && Ascii.eqb (char_at str (i p)) "," then
            elements_loop n' count (k + 1) arr (set_i p (S (i p)))
          else if count <? 0 then Returns (ToonArray arr) p
          else elements_loop n' count (k + 1) arr p
      else Returns (ToonArray arr) p
  end.

Definition parse_array_body (n : nat) (parent_indent : Z)
  (p : ToonParser) : outcome Toon :=
  match parse_array_header (i p) with
  | None => Throws (lit "stoi")
  | Some (tabular, keys, count, j) =>
      let p := set_i p j in
      if tabular then rows_loop n parent_indent keys [] p
      else elements_loop n count 0 [] p
  end.

(** the [while (i < str.size())] of [parse_object] *)
Fixpoint entries_loop (n : nat) (parent_indent : Z) (obj : object)
  (p : ToonParser) : outcome Toon :=
  match n with
  | O => OutOfFuel
  | S n' =>
      if (i p <? size)%nat then
        let p := consume_garbage p in
        let saved_i := i p in
        let current_indent := get_indent p in
        if (current_indent <=? parent_indent)
           && negb (match obj with [] => true | _ => false end)
        then Returns (ToonObject obj) (set_i p saved_i)
        else
          let j := scan_while (fun c => negb (Ascii.eqb c ":")) (i p) in
          let key := substr str (i p) (j - i p) in
          let p := set_i p j in
          if (i p =? size)%nat then Returns (ToonObject obj) p
          else
            let p := set_i p (S (i p)) in
            let p := consume_whitespace p in
            let* (v, p) :=
              if (i p <? size)%nat && is_newline (char_at str (i p)) then
                let p := set_i p (S (i p)) in
                let p := consume_garbage p in
                if Ascii.eqb (char_at str (i p)) "["
                then parse_array_rec current_indent p
                else parse_object_rec current_indent p
              else
                if Ascii.eqb (char_at str (i p)) "["
                then parse_array_rec current_indent p
                else parse_value_rec p in
            entries_loop n' parent_indent (map_assign key v obj) p
      else Returns (ToonObject obj) p
  end.

Definition parse_object_body (n : nat) (parent_indent : Z)
  (p : ToonParser) : outcome Toon :=
  entries_loop n parent_indent [] p.

End Bodies.

(** the three mutually recursive member functions; [fuel] bounds the
    depth of the calls and the iterations of their loops *)
Fixpoint parse_value (fuel : nat) (p : ToonParser) : outcome Toon :=
  match fuel with
  | O => OutOfFuel
  | S fuel' => parse_value_body (parse_array fuel') p
  end
with parse_array (fuel : nat) (parent_indent : Z) (p : ToonParser)
  : outcome Toon :=
  match fuel with
  | O => OutOfFuel
  | S fuel' => parse_array_body (parse_value fuel') fuel' parent_indent p
  end.

Fixpoint parse_object (fuel : nat) (parent_indent : Z) (p : ToonParser)
  : outcome Toon :=
  match fuel with
  | O => OutOfFuel
  | S fuel' =>
      parse_object_body (parse_value fuel') (parse_array fuel')
        (parse_object fuel') fuel' parent_indent p
  end.

End Parser.

(** [Toon Toon::parse(const string &in, string &err, ToonParse)]: the value
    returned, with the parser state left ([err] is the caller's string) *)
Definition parse (fuel : nat) (input : list ascii) (err0 : list ascii)
  : outcome Toon :=
  let parser := mkParser O err0 false in
  let parser := consume_garbage input parser in
  if (i parser =? length input)%nat then Returns ToonNull parser
  else if Ascii.eqb (char_at input (i parser)) "[" then
    parse_value input fuel parser
  else if str_contains input ":" then parse_object input fuel (-1) parser
  else parse_value input fuel parser.

End toon.

Import toon.

(** ** The rules of the format, as its description words them

    These definitions follow the prose of the format's description; the
    theorems below compare them with the encoder and decoder above. *)

(** a text that is, as a whole, a numeric literal for [strtod] *)
Definition numeric_literal (s : list ascii) : bool :=
  negb (match s with [] => true | _ => false end)
  && (snd (Libc.strtod s) =? length s)%nat.

(** the quoting decision: empty, or a keyword, or a numeric literal, or
    holding one of the special characters *)
Definition quoting_condition (s : list ascii) : Prop :=
  s = [] \/ s = lit "null" \/ s = lit "true" \/ s = lit "false"
  \/ numeric_literal s = true
  \/ exists c, In c s /\ In c special.

(** the quoting decision with the guard of the encoder: a numeric literal
    counts when the string begins with a digit or a minus sign, and it is
    read as C reads it, up to the first NUL byte *)
Definition quoting_condition_guarded (s : list ascii) : Prop :=
  s = [] \/ s = lit "null" \/ s = lit "true" \/ s = lit "false"
  \/ ((exists c r, s = c :: r /\ (Libc.isdigit c = true \/ c = "-"%char))
      /\ numeric_literal (Libc.c_str s) = true)
  \/ exists c, In c s /\ In c special.

(** the quoted form of a string *)
Definition quoted (s : list ascii) : list ascii :=
  ["034"%char] ++ flat_map escape_char s ++ ["034"%char].







(** ** The vocabulary of the proofs *)

(** *** Fuel *)

(** [o'] does what [o] does, when [o] did not run out of fuel *)
Definition refines {A : Type} (o o' : outcome A) : Prop :=
  o <> OutOfFuel -> o' = o.

(** *** The sticky error *)

(** what [fail] leaves in the parser *)
Definition record (p : ToonParser) (msg : list ascii) : ToonParser :=
  snd (fail msg p).

(** from [p0] to [p] a recorded failure was kept *)
Definition frame (p0 p : ToonParser) : Prop :=
  failed p0 = true -> failed p = true /\ err p = err p0.

(** a call that returns keeps a recorded failure *)
Definition oframe {A : Type} (p0 : ToonParser) (o : outcome A) : Prop :=
  forall a q, o = Returns a q -> frame p0 q.

(** *** Reading a text from an offset *)

(** at offset [k] of [str], the text [rest] is left to read *)
Definition left_at (str : list ascii) (k : nat) (rest : list ascii) : Prop :=
  (k <= length str)%nat /\ skipn k str = rest.

(** what stops a scan: the end of the text, or a byte that fails [cond] *)
Definition stops (cond : ascii -> bool) (suf : list ascii) : Prop :=
  match suf with
  | [] => True
  | c :: _ => cond c = false
  end.

(** blanks and newlines between tokens *)
Definition is_gap (c : ascii) : bool := is_blank c || is_newline c.

(** a token starts here: not a blank, a newline or a comment *)
Definition token_start (suf : list ascii) : Prop :=
  match suf with
  | [] => True
  | c :: _ => is_blank c = false /\ is_newline c = false /\ c <> "#"%char
  end.

(** what may follow a value: the end of the text or a special byte *)
Definition value_end (suf : list ascii) : Prop :=
  stops (fun c => negb (str_contains special c)) suf.

(** what may follow an array or an entry: the end of the text or a newline *)
Definition line_end (suf : list ascii) : Prop :=
  match suf with
  | [] => True
  | c :: _ => c = "010"%char
  end.

(** *** Strings that are read back *)

(** a byte the decoder reads back from what the encoder writes for it in a
    quoted string: not a control character other than newline, carriage
    return and tab *)
Definition decodable (c : ascii) : bool :=
  (32 <=? code c) || Ascii.eqb c "010" || Ascii.eqb c "013"
  || Ascii.eqb c "009".

(** [t] is a prefix of [s] *)
Definition starts_with (s t : list ascii) : bool :=
  str_eqb (firstn (length t) s) t.

(** a string that is emitted unquoted and read back as itself *)
Definition plain_string (s : list ascii) : bool :=
  negb (needs_quoting s)
  && match s with
     | [] => false
     | c :: _ =>
         negb (is_blank c) && negb (Ascii.eqb c "034")
         && negb (Libc.isdigit c) && negb (Ascii.eqb c "-")
     end
  && negb (starts_with s (lit "null")) && negb (starts_with s (lit "true"))
  && negb (starts_with s (lit "false"))
  && negb (is_blank (last s NUL)).

(** a string that is emitted quoted and read back as itself *)
Definition quoted_string (s : list ascii) : bool :=
  needs_quoting s && forallb decodable s.

(** a string that is read back as itself *)
Definition safe_string (s : list ascii) : bool :=
  plain_string s || quoted_string s.

(** the bytes 0x00 .. 0x1F, then the double quote and the backslash *)
Definition control_string : list ascii :=
  map (fun n => chr (Z.of_nat n)) (seq 0 32) ++ ["034"%char; "\"%char].

(** *** Lines and what follows a block

    A nested object and a tabular array are read up to the first line that
    is indented no more than their parent; the decoder then stands on the
    first token of that line. *)

(** offset [k] is preceded by [m] spaces, themselves preceded by a newline
    or by the beginning of the text *)
Definition at_line (str : list ascii) (k m : nat) : Prop :=
  exists pre0,
    firstn k str = pre0 ++ repeat " "%char m
    /\ (pre0 = [] \/ exists pre1, pre0 = pre1 ++ ["010"%char])
    /\ (k <= length str)%nat.

(** what follows a value in the text: nothing, or a newline, [m] spaces
    and a token *)
Inductive suffix : Type :=
  | Eof
  | Line (m : nat) (tok : list ascii).

Definition gap (s : suffix) : list ascii :=
  match s with
  | Eof => []
  | Line m _ => "010"%char :: repeat " "%char m
  end.

Definition after (s : suffix) : list ascii :=
  match s with
  | Eof => []
  | Line _ tok => tok
  end.

Definition text (s : suffix) : list ascii := gap s ++ after s.

Definition width (s : suffix) : nat :=
  match s with
  | Eof => O
  | Line m _ => m
  end.

(** the line that follows is indented no more than [parent_indent], and a
    token starts it *)
Definition suffix_ok (s : suffix) (parent_indent : Z) : Prop :=
  match s with
  | Eof => True
  | Line m tok =>
      Z.of_nat m <= parent_indent /\ tok <> [] /\ token_start tok
  end.

(** a call returned [v] and stands, after a gap [g], on the token that
    follows [s] *)
Definition returns_before (str : list ascii) (p : ToonParser) (v : Toon)
  (s : suffix) (o : outcome Toon) : Prop :=
  exists k g,
    o = Returns v (set_i p k)
    /\ forallb is_gap g = true
    /\ left_at str k (g ++ after s)
    /\ (after s = [] -> g = [])
    /\ (s <> Eof -> at_line str (k + length g) (width s)).

(** a call returned [v] and stands on the token that follows [s] *)
Definition returns_at (str : list ascii) (p : ToonParser) (v : Toon)
  (s : suffix) (o : outcome Toon) : Prop :=
  exists k,
    o = Returns v (set_i p k)
    /\ left_at str k (after s)
    /\ (s <> Eof -> at_line str k (width s)).

(** *** Scalars, arrays of scalars and keys *)

(** Null, a boolean, or a string that is read back as itself *)
Definition scalar (v : Toon) : bool :=
  match v with
  | ToonNull | ToonBoolean _ => true
  | ToonString s => safe_string s
  | _ => false
  end.

(** an array of scalars whose count [std::stoi] reads *)
Definition flat_array (a : array) : bool :=
  forallb scalar a && (Z.of_nat (length a) <=? Libc.INT_MAX).

(** keys in strictly ascending order, as [std::map] holds them *)
Fixpoint ascending (o : object) : bool :=
  match o with
  | [] => true
  | (k, _) :: rest =>
      forallb (fun kv => str_ltb k (fst kv)) rest && ascending rest
  end.

(** a key the decoder reads back: no colon in it, and it does not begin
    with a blank, a newline, [#] or [[] *)
Definition key_ok (k : list ascii) : bool :=
  forallb (fun c => negb (Ascii.eqb c ":")) k
  && match k with
     | [] => true
     | c :: _ =>
         negb (is_blank c) && negb (is_newline c) && negb (Ascii.eqb c "#")
         && negb (Ascii.eqb c "[")
     end.

(** *** Nested documents *)

(** a key the decoder reads back from a tabular header: not empty, no comma
    and no closing brace in it, no blank first and no space last *)
Definition header_key_ok (k : list ascii) : bool :=
  match k with
  | [] => false
  | c :: _ => negb (is_blank c)
  end
  && forallb (fun c => negb (Ascii.eqb c ",") && negb (Ascii.eqb c "}")) k
  && negb (Ascii.eqb (last k NUL) " ").

Fixpoint keys_eqb (k l : list (list ascii)) : bool :=
  match k, l with
  | [], [] => true
  | a :: k', b :: l' => str_eqb a b && keys_eqb k' l'
  | _, _ => false
  end.

(** a row of a tabular array: an object with the keys of the header whose
    values are scalars *)
Definition row_ok (keys : list (list ascii)) (v : Toon) : bool :=
  match v with
  | ToonObject o =>
      keys_eqb (map fst o) keys && forallb (fun kv => scalar (snd kv)) o
  | _ => false
  end.

(** an array that is emitted in the tabular form and read back *)
Definition tabular_array (a : array) : bool :=
  match a with
  | ToonObject o :: _ =>
      negb (match o with [] => true | _ => false end)
      && forallb header_key_ok (map fst o) && ascending o
      && forallb (row_ok (map fst o)) a
  | _ => false
  end.

(** a value that is read back wherever it stands: a scalar, an array of
    scalars, a tabular array, or a non-empty object whose keys are in
    ascending order and read back and whose values are such values *)
Fixpoint nested_value (x : Toon) : bool :=
  match x with
  | ToonNull | ToonBoolean _ => true
  | ToonString s => safe_string s
  | ToonArray a => flat_array a || tabular_array a
  | ToonObject o =>
      negb (match o with [] => true | _ => false end)
      && ascending o
      && (fix entries (l : object) : bool :=
            match l with
            | [] => true
            | kv :: r =>
                key_ok (fst kv) && nested_value (snd kv) && entries r
            end) o
  | ToonDouble _ | ToonInt _ => false
  end.

(** A document that is read back: a nested value; a string at the top
    holds no colon.  No number and no empty object occurs in it, and the
    objects of an array are the rows of a table. *)
Definition document (v : Toon) : bool :=
  match v with
  | ToonString s => safe_string s && negb (str_contains s ":")
  | _ => nested_value v
  end.

(** fuel that suffices to decode the text of a document *)
Fixpoint fuel_for (v : Toon) : nat :=
  match v with
  | ToonArray a => (length a + 3)%nat
  | ToonObject o =>
      (length o + 3
       + (fix total (l : object) : nat :=
            match l with
            | [] => O
            | kv :: r => fuel_for (snd kv) + total r
            end) o)%nat
  | _ => 1%nat
  end.

(** the cells of a row, the rows of a table indented by [m] spaces, each
    after its newline *)
Definition cells_text (o : object) : list ascii :=
  dump_elements dump (map snd o) 0.

Definition rows_text (rows : array) (m : nat) : list ascii :=
  flat_map (fun r => "010"%char :: repeat " "%char m
                     ++ cells_text (object_items r)) rows.

(** the text of the value of an entry of an object at level [L] *)
Definition value_text (L : nat) (x : Toon) : list ascii :=
  match x with
  | ToonObject _ =>
      "010"%char :: repeat " "%char (2 * S L) ++ dump x (Z.of_nat (S L))
  | ToonArray _ => dump x (Z.of_nat (S L))
  | _ => dump x (Z.of_nat L)
  end.

(** what follows the value of an entry: the entries left of the object at
    level [L], then what follows the object *)
Definition rest_suffix (rest : object) (L : nat) (s : suffix) : suffix :=
  match rest with
  | [] => s
  | _ => Line (2 * L) (dump_entries dump rest true (Z.of_nat L) ++ text s)
  end.

(** the value read back from the text of [v], and how [operator==]
    compares [v] with it *)
Definition read_back (v : Toon) : option (Toon * option bool) :=
  match parse 50 (dump v 0) [] with
  | Returns w _ => Some (w, equals v w)
  | _ => None
  end.

(** *** Bytes at which [parse_value] reads an empty string

    a special byte that is neither a newline, [#] nor [[]: [parse_value]
    falls through to [parse_unquoted_string], which stops at once *)
Definition stuck_char (c : ascii) : bool :=
  existsb (Ascii.eqb c) [","%char; ":"%char; "]"%char; "{"%char; "}"%char].

(** *** UTF-8 (RFC 3629), as a reference to read [encode_utf8] against *)

Definition continuation (b : Z) : bool := (128 <=? b) && (b <=? 191).

(** the code point a well-formed UTF-8 sequence of one character stands
    for; [None] for every other byte sequence (a stray or missing
    continuation byte, an overlong form, a surrogate, a value above
    U+10FFFF) *)
Definition utf8_decode (bs : list ascii) : option Z :=
  match map code bs with
  | [b0] => if b0 <=? 127 then Some b0 else None
  | [b0; b1] =>
      if (194 <=? b0) && (b0 <=? 223) && continuation b1
      then Some ((b0 - 192) * 64 + (b1 - 128))
      else None
  | [b0; b1; b2] =>
      if (224 <=? b0) && (b0 <=? 239) && continuation b1 && continuation b2
      then
        let cp := (b0 - 224) * 4096 + (b1 - 128) * 64 + (b2 - 128) in
        if (2048 <=? cp) && negb ((55296 <=? cp) && (cp <=? 57343))
        then Some cp else None
      else None
  | [b0; b1; b2; b3] =>
      if (240 <=? b0) && (b0 <=? 244) && continuation b1 && continuation b2
         && continuation b3
      then
        let cp := (b0 - 240) * 262144 + (b1 - 128) * 4096 + (b2 - 128) * 64
                  + (b3 - 128) in
        if (65536 <=? cp) && (cp <=? 1114111) then Some cp else None
      else None
  | _ => None
  end.

(** a code point that is a Unicode character: at most U+10FFFF, not a
    surrogate, and not one of the noncharacters U+FDD0..U+FDEF, U+xxFFFE,
    U+xxFFFF *)
Definition unicode_character (cp : Z) : bool :=
  (cp <=? 1114111)
  && negb ((55296 <=? cp) && (cp <=? 57343))
  && negb ((64976 <=? cp) && (cp <=? 65007))
  && negb (65534 <=? cp mod 65536).

(** *** What a call of the decoder returns *)

(** the texts the decoder passes to [fail] *)
Definition error_messages : list (list ascii) :=
  [lit "unexpected end of input"; lit "unfinished string";
   lit "unfinished escape"; lit "invalid escape";
   lit "unfinished unicode escape"; lit "invalid unicode escape"].

(** the error text is the caller's [e0] while no failure is recorded, and
    one of the texts of the decoder once one is *)
Definition reported (e0 : list ascii) (p : ToonParser) : Prop :=
  if failed p then In (err p) error_messages else err p = e0.

(** every value a call returns satisfies [V], in a state that satisfies
    [St] *)
Definition yields (St : ToonParser -> Prop) (V : Toon -> Prop)
  (o : outcome Toon) : Prop :=
  forall v q, o = Returns v q -> V v /\ St q.

Definition row_yields (St : ToonParser -> Prop) (V : Toon -> Prop)
  (o : outcome (Toon + object * bool)) : Prop :=
  forall r q, o = Returns r q ->
    St q /\ match r with
           | inl v => V v
           | inr (obj, _) => V (ToonObject obj)
           end.

Definition is_nan (d : spec_float) : bool :=
  match d with
  | S754_nan => true
  | _ => false
  end.

(** the shape of the values the decoder builds: no [ToonInt] and no NaN in
    them, and the keys of every object in strictly ascending order *)
Fixpoint parsed_shape (v : Toon) : bool :=
  match v with
  | ToonInt _ => false
  | ToonDouble d => negb (is_nan d)
  | ToonArray a => forallb parsed_shape a
  | ToonObject o =>
      ascending o
      && (fix entries (l : object) : bool :=
            match l with
            | [] => true
            | kv :: r => parsed_shape (snd kv) && entries r
            end) o
  | _ => true
  end.

(** *** The three comparisons of two values *)

Definition is_lt (c : comparison) : bool :=
  match c with Lt => true | _ => false end.

Definition is_eq (c : comparison) : bool :=
  match c with Eq => true | _ => false end.

Definition is_gt (c : comparison) : bool :=
  match c with Gt => true | _ => false end.

(** [a < b], [a == b] and [b < a] are all defined, and the one that holds
    is the one [c] names *)
Definition ordered (a b : Toon) (c : comparison) : Prop :=
  less a b = Some (is_lt c) /\ equals a b = Some (is_eq c)
  /\ less b a = Some (is_gt c).

(** *** Documents with [int] numbers

    The decoder reads every number back as a [double]: an [int] comes back
    as the [double] of the same value. *)

(** an [int]: 32 bits *)
Definition int_ok (n : Z) : bool :=
  (Libc.INT_MIN <=? n) && (n <=? Libc.INT_MAX).

(** a scalar, or an [int] *)
Definition cell (v : Toon) : bool :=
  match v with
  | ToonInt n => int_ok n
  | _ => scalar v
  end.

(** the value with every [ToonInt] replaced by the [ToonDouble] of the same
    number *)
Fixpoint decoded (v : Toon) : Toon :=
  match v with
  | ToonInt n => ToonDouble (Libc.int_to_double n)
  | ToonArray a => ToonArray (map decoded a)
  | ToonObject o =>
      ToonObject
        ((fix entries (l : object) : object :=
            match l with
            | [] => []
            | kv :: r => (fst kv, decoded (snd kv)) :: entries r
            end) o)
  | _ => v
  end.

Definition decoded_entries (o : object) : object :=
  map (fun kv => (fst kv, decoded (snd kv))) o.

(** an array of cells whose count [std::stoi] reads *)
Definition cells_array (a : array) : bool :=
  forallb cell a && (Z.of_nat (length a) <=? Libc.INT_MAX).

(** a row of a table of cells *)
Definition table_row (keys : list (list ascii)) (v : Toon) : bool :=
  match v with
  | ToonObject o =>
      keys_eqb (map fst o) keys && forallb (fun kv => cell (snd kv)) o
  | _ => false
  end.

(** a tabular array whose cells are scalars or [int]s *)
Definition table (a : array) : bool :=
  match a with
  | ToonObject o :: _ =>
      negb (match o with [] => true | _ => false end)
      && forallb header_key_ok (map fst o) && ascending o
      && forallb (table_row (map fst o)) a
  | _ => false
  end.

(** a nested value whose scalars may be [int]s *)
Fixpoint numbered_value (x : Toon) : bool :=
  match x with
  | ToonDouble _ => false
  | ToonArray a => cells_array a || table a
  | ToonObject o =>
      negb (match o with [] => true | _ => false end)
      && ascending o
      && (fix entries (l : object) : bool :=
            match l with
            | [] => true
            | kv :: r =>
                key_ok (fst kv) && numbered_value (snd kv) && entries r
            end) o
  | _ => cell x
  end.

(** a document of the class of [document], with [int]s among its scalars *)
Definition numbered_document (v : Toon) : bool :=
  match v with
  | ToonString s => safe_string s && negb (str_contains s ":")
  | _ => numbered_value v
  end.

(** a row of a table of cells, in ascending key order *)
Definition table_row_good (keys : list (list ascii)) (r : Toon) : Prop :=
  exists o, r = ToonObject o /\ map fst o = keys
            /\ forallb (fun kv => cell (snd kv)) o = true
            /\ ascending o = true.

(** with fuel [f], [parse_object] reads the text of every nested object
    with [int]s back as the decoded object *)
Definition object_reads_decoded (f : nat) : Prop :=
  forall o str L P p s,
    numbered_value (ToonObject o) = true ->
    (fuel_for (ToonObject o) <= f)%nat ->
    left_at str (i p) (dump (ToonObject o) (Z.of_nat L) ++ text s) ->
    at_line str (i p) (2 * L) ->
    suffix_ok s P -> P < Z.of_nat (2 * L) -> failed p = false ->
    returns_at str p (decoded (ToonObject o)) s (parse_object str f P p).

(** *** Blanks, line ends and comments

    what is left of a text after the blanks, the line ends and the comments
    at its head; [in_comment] says that the text begins inside a comment *)
Fixpoint drop_garbage (in_comment : bool) (s : list ascii) : list ascii :=
  match s with
  | [] => []
  | c :: r =>
      if in_comment then drop_garbage (negb (is_newline c)) r
      else if is_gap c then drop_garbage false r
      else if Ascii.eqb c "#" then drop_garbage true r
      else s
  end.

(** *** Indentation

    the bytes that [get_indent] counts, and what it counts for a run of
    them: one for a space, eight for a tab *)
Definition is_indent (c : ascii) : bool :=
  Ascii.eqb c " " || Ascii.eqb c "009".

Fixpoint indent_width (blanks : list ascii) : Z :=
  match blanks with
  | [] => 0
  | c :: r => (if Ascii.eqb c "009" then 8 else 1) + indent_width r
  end.

(** the text before a line: nothing, or lines that end with a newline *)
Definition line_break (before : list ascii) : Prop :=
  before = [] \/ exists pre1, before = pre1 ++ ["010"%char].

(** *** An array whose header count differs from its elements

    the text of an array in the form [[N]:] with the count [c] in the
    header and the elements of [a] after it *)
Definition counted_array_text (c : nat) (a : array) : list ascii :=
  "["%char :: Libc.print_int (Z.of_nat c)
  ++ "]"%char :: ":"%char
     :: match a with
        | [] => []
        | _ => " "%char :: dump_elements dump a 0
        end.

(** *** A table with a short row

    the text of the table [before ++ ToonObject o :: rest] with the row
    [o] cut after its first [j] cells *)
Definition short_table_text (before : array) (o : object) (j : nat)
  (rest : array) : list ascii :=
  "["%char :: "{"%char
  :: dump_header_keys (tabular_keys (before ++ ToonObject o :: rest))
  ++ "}"%char :: "]"%char :: ":"%char
     :: rows_text before 2
     ++ ("010"%char :: repeat " "%char 2 ++ cells_text (firstn j o))
     ++ rows_text rest 2.

(** *** The order of [operator<]

    two comparisons in a row: what [a ? b] and [b ? c] say of [a ? c],
    when they say something *)
Definition seq_cmp (c1 c2 : comparison) : option comparison :=
  match c1, c2 with
  | Eq, c => Some c
  | c, Eq => Some c
  | Lt, Lt => Some Lt
  | Gt, Gt => Some Gt
  | _, _ => None
  end.

(** a [double] that is not a NaN, as a key of the lexicographic order that
    [<] follows *)
Definition float_key (x : spec_float) : Z * Z * Z :=
  match x with
  | S754_infinity true => (-2, 0, 0)
  | S754_finite true m e => (-1, - e, Zneg m)
  | S754_zero _ | S754_nan => (0, 0, 0)
  | S754_finite false m e => (1, e, Zpos m)
  | S754_infinity false => (2, 0, 0)
  end.

Definition lex_compare (k l : Z * Z * Z) : comparison :=
  match fst (fst k) ?= fst (fst l) with
  | Eq => match snd (fst k) ?= snd (fst l) with
          | Eq => snd k ?= snd l
          | r => r
          end
  | r => r
  end.

(** how two strings compare *)
Definition str_ordered (s t : list ascii) (c : comparison) : Prop :=
  str_ltb s t = is_lt c /\ str_eqb s t = is_eq c /\ str_ltb t s = is_gt c.

(** the comparisons of [a] compose *)
Definition composes (a : Toon) : Prop :=
  forall b c c1 c2 c3,
    parsed_shape a = true -> parsed_shape b = true -> parsed_shape c = true ->
    ordered a b c1 -> ordered b c c2 -> seq_cmp c1 c2 = Some c3 ->
    ordered a c c3.

(** *** The offset stays in the text

    a call that returns leaves the offset at a byte of the text or at its
    end *)
Definition within_text {A : Type} (str : list ascii) (o : outcome A) : Prop :=
  forall v q, o = Returns v q -> (i q <= length str)%nat.

(** *** Values that are read back where a scalar can stand

    Between the commas of an [[N]:] array and in the cells of a table the
    encoder writes a value on the line: a scalar, or an array of such
    values in the [[N]:] form. *)

(** the same [double], bit for bit *)
Definition float_same (x y : spec_float) : bool :=
  match x, y with
  | S754_zero a, S754_zero b => Bool.eqb a b
  | S754_infinity a, S754_infinity b => Bool.eqb a b
  | S754_nan, S754_nan => true
  | S754_finite a m e, S754_finite b n f =>
      Bool.eqb a b && Pos.eqb m n && Z.eqb e f
  | _, _ => false
  end.

(** a finite [double] whose [%.17g] text [parse_number] takes whole (digits,
    a point, a minus sign and [e]: no plus sign in the exponent) and
    [strtod] reads back as the same [double], as ISO C promises for 17
    significant digits *)
Definition double_ok (d : spec_float) : bool :=
  isfinite d && forallb is_number_char (Printf.print_g17 d)
  && float_same (fst (Libc.strtod (Libc.c_str (Printf.print_g17 d)))) d.

(** a value written on the line: Null, a boolean, a string or a [double]
    that is read back, or an array of such values whose count
    [std::stoi] reads *)
Fixpoint inline (v : Toon) : bool :=
  match v with
  | ToonNull | ToonBoolean _ => true
  | ToonString s => safe_string s
  | ToonDouble d => double_ok d
  | ToonArray a =>
      (Z.of_nat (length a) <=? Libc.INT_MAX)
      && (fix all (l : array) : bool :=
            match l with
            | [] => true
            | x :: r => inline x && all r
            end) a
  | ToonInt _ | ToonObject _ => false
  end.

(** fuel that suffices to decode the text of a value *)
Fixpoint fuel_need (v : Toon) : nat :=
  match v with
  | ToonArray a =>
      (length a + 3
       + (fix total (l : array) : nat :=
            match l with
            | [] => O
            | x :: r => fuel_need x + total r
            end) a)%nat
  | ToonObject o =>
      (length o + 3
       + (fix total (l : object) : nat :=
            match l with
            | [] => O
            | kv :: r => fuel_need (snd kv) + total r
            end) o)%nat
  | _ => 1%nat
  end.

(** what may follow a value on the line: the end of the line, or a comma,
    a space and the next value *)
Definition follows_ok (follow : list ascii) : Prop :=
  line_end follow
  \/ exists c t, follow = ","%char :: " "%char :: c :: t
                 /\ is_blank c = false /\ Ascii.eqb c "," = false.

(** where the decoder stands after a value that [follow] follows: before
    [follow], or, when an array has taken the comma that follows it, after
    the comma or after the comma and the space *)
Definition sep (follow r : list ascii) : Prop :=
  r = follow
  \/ exists more, follow = ","%char :: " "%char :: more
                  /\ (r = " "%char :: more \/ r = more).

(** [parse_value] reads the text of [v] back *)
Definition reads (v : Toon) : Prop :=
  forall str m p level follow,
    (fuel_need v <= S m)%nat ->
    left_at str (i p) (dump v level ++ follow) -> follows_ok follow ->
    exists k r,
      parse_value str (S m) p = Returns v (set_i p k)
      /\ left_at str k r /\ sep follow r.

(** *** Documents that are read back

    The rows of a table hold inline values in their cells; an object holds
    inline values, arrays of them, tables and objects. *)

(** a row of a table: an object with the keys of the header whose values
    are inline *)
Definition inline_row (keys : list (list ascii)) (v : Toon) : bool :=
  match v with
  | ToonObject o =>
      keys_eqb (map fst o) keys && forallb (fun kv => inline (snd kv)) o
  | _ => false
  end.

(** an array that is emitted in the tabular form and read back *)
Definition inline_table (a : array) : bool :=
  match a with
  | ToonObject o :: _ =>
      negb (match o with [] => true | _ => false end)
      && forallb header_key_ok (map fst o) && ascending o
      && forallb (inline_row (map fst o)) a
  | _ => false
  end.

(** a value that is read back wherever it stands: an inline value, a
    table, or a non-empty object whose keys are in ascending order and
    read back and whose values are such values *)
Fixpoint readable (x : Toon) : bool :=
  match x with
  | ToonArray a => inline x || inline_table a
  | ToonObject o =>
      negb (match o with [] => true | _ => false end)
      && ascending o
      && (fix entries (l : object) : bool :=
            match l with
            | [] => true
            | kv :: r => key_ok (fst kv) && readable (snd kv) && entries r
            end) o
  | _ => inline x
  end.

(** A document that is read back: a readable value; a string at the top
    holds no colon.  No [int], no number that [parse_number] or [strtod]
    reads as another and no empty object occurs in it, and the objects of
    an array are the rows of a table. *)
Definition readable_document (v : Toon) : bool :=
  match v with
  | ToonString s => safe_string s && negb (str_contains s ":")
  | _ => readable v
  end.

(** a row of a table in ascending key order, with inline cells *)
Definition inline_row_good (keys : list (list ascii)) (r : Toon) : Prop :=
  exists o, r = ToonObject o /\ map fst o = keys
            /\ forallb (fun kv => inline (snd kv)) o = true
            /\ ascending o = true.

(** with fuel [f], [parse_object] reads back the text of every readable
    object that needs no more fuel, at every level and before every line
    that is indented no more than its parent *)
Definition object_read_back (f : nat) : Prop :=
  forall o str L P p s,
    readable (ToonObject o) = true ->
    (fuel_need (ToonObject o) <= f)%nat ->
    left_at str (i p) (dump (ToonObject o) (Z.of_nat L) ++ text s) ->
    at_line str (i p) (2 * L) ->
    suffix_ok s P -> P < Z.of_nat (2 * L) -> failed p = false ->
    returns_at str p (ToonObject o) s (parse_object str f P p).

(** * Properties *)

(** ** Fuel: a call that returns or throws does the same with more fuel *)

Lemma refines_refl {A : Type} (o : outcome A) : refines o o.
Proof. intros _. reflexivity. Qed.

Lemma refines_bind {A B : Type} (m m' : outcome A)
  (k k' : A -> ToonParser -> outcome B) :
  refines m m' ->
  (forall a p, refines (k a p) (k' a p)) ->
  refines (bind m k) (bind m' k').
Proof.
  intros Hm Hk H. destruct m as [a p| w |]; simpl in *.
  - rewrite Hm by discriminate. simpl. apply Hk, H.
  - rewrite Hm by discriminate. reflexivity.
  - contradiction.
Qed.

Create HintDb toon.
#[local] Hint Resolve refines_refl : toon.

Ltac split_if :=
  match goal with
  | |- context [if ?b then _ else _] => destruct b
  | |- context [match ?x with inl _ => _ | inr _ => _ end] => destruct x
  | |- context [let '(_, _) := ?x in _] => destruct x
  end.

Section FuelMonotone.

Variable str : list ascii.

Section BodiesMonotone.

Variables pv pv' : ToonParser -> outcome Toon.
Variables pa pa' po po' : Z -> ToonParser -> outcome Toon.
Hypothesis Hpv : forall p, refines (pv p) (pv' p).
Hypothesis Hpa : forall x p, refines (pa x p) (pa' x p).
Hypothesis Hpo : forall x p, refines (po x p) (po' x p).

Lemma parse_value_body_refines p :
  refines (parse_value_body str pa p) (parse_value_body str pa' p).
Proof.
  unfold parse_value_body. repeat split_if; auto with toon.
Qed.

Lemma row_loop_refines keys : forall obj p,
  refines (row_loop str pv keys obj p) (row_loop str pv' keys obj p).
Proof.
  induction keys as [|key keys IH]; intros obj p; simpl.
  - apply refines_refl.
  - split_if; [apply refines_refl|].
    apply refines_bind; [apply Hpv|].
    intros val q. split_if; [apply refines_refl|]. apply IH.
Qed.

Lemma rows_loop_refines n : forall n' parent_indent keys arr p,
  (n <= n')%nat ->
  refines (rows_loop str pv n parent_indent keys arr p)
          (rows_loop str pv' n' parent_indent keys arr p).
Proof.
  induction n as [|n IH]; intros n' parent_indent keys arr p Hle.
  - intros H. exfalso. apply H. reflexivity.
  - destruct n' as [|n']; [lia|]. simpl.
    repeat split_if; try apply refines_refl;
      (apply refines_bind; [apply row_loop_refines|]);
      intros [v|[obj row_failed]] q; try apply refines_refl;
      (split_if; [|apply refines_refl]); apply IH; lia.
Qed.

Lemma elements_loop_refines n : forall n' count k arr p,
  (n <= n')%nat ->
  refines (elements_loop str pv n count k arr p)
          (elements_loop str pv' n' count k arr p).
Proof.
  induction n as [|n IH]; intros n' count k arr p Hle.
  - intros H. exfalso. apply H. reflexivity.
  - destruct n' as [|n']; [lia|]. simpl.
    repeat split_if; try apply refines_refl;
      (apply refines_bind; [apply Hpv|]);
      intros v q; repeat split_if; try apply refines_refl; apply IH; lia.
Qed.

Lemma parse_array_body_refines n n' parent_indent p :
  (n <= n')%nat ->
  refines (parse_array_body str pv n parent_indent p)
          (parse_array_body str pv' n' parent_indent p).
Proof.
  intros Hle. unfold parse_array_body.
  destruct (parse_array_header str (i p)) as [[[[tabular keys] count] j]|];
    [|apply refines_refl].
  destruct tabular.
  - apply rows_loop_refines, Hle.
  - apply elements_loop_refines, Hle.
Qed.

Lemma entries_loop_refines n : forall n' parent_indent obj p,
  (n <= n')%nat ->
  refines (entries_loop str pv pa po n parent_indent obj p)
          (entries_loop str pv' pa' po' n' parent_indent obj p).
Proof.
  induction n as [|n IH]; intros n' parent_indent obj p Hle.
  - intros H. exfalso. apply H. reflexivity.
  - destruct n' as [|n']; [lia|]. simpl.
    repeat split_if; try apply refines_refl;
      (apply refines_bind; [auto|intros v q; apply IH; lia]).
Qed.

End BodiesMonotone.

Lemma parse_value_array_refines n :
  (forall n' p, (n <= n')%nat ->
     refines (parse_value str n p) (parse_value str n' p)) /\
  (forall n' x p, (n <= n')%nat ->
     refines (parse_array str n x p) (parse_array str n' x p)).
Proof.
  induction n as [|n [IHv IHa]]; split; intros;
    try (intros Hf; exfalso; apply Hf; reflexivity);
    (destruct n' as [|n']; [lia|]); simpl.
  - apply parse_value_body_refines. intros. apply IHa. lia.
  - apply parse_array_body_refines; [|lia]. intros. apply IHv. lia.
Qed.

Lemma parse_value_refines n n' p :
  (n <= n')%nat -> refines (parse_value str n p) (parse_value str n' p).
Proof. intros. apply parse_value_array_refines. assumption. Qed.

Lemma parse_array_refines n n' x p :
  (n <= n')%nat -> refines (parse_array str n x p) (parse_array str n' x p).
Proof. intros. apply parse_value_array_refines. assumption. Qed.

Lemma parse_object_refines n : forall n' x p,
  (n <= n')%nat -> refines (parse_object str n x p) (parse_object str n' x p).
Proof.
  induction n as [|n IH]; intros n' x p Hle.
  - intros Hf. exfalso. apply Hf. reflexivity.
  - destruct n' as [|n']; [lia|]. simpl. unfold parse_object_body.
    apply entries_loop_refines; [| | |lia]; intros.
    + apply parse_value_refines. lia.
    + apply parse_array_refines. lia.
    + apply IH. lia.
Qed.

End FuelMonotone.

(** [Toon::parse] with more fuel *)
Lemma parse_refines n n' input err0 :
  (n <= n')%nat -> refines (parse n input err0) (parse n' input err0).
Proof.
  intros Hle. unfold parse. repeat split_if; try apply refines_refl.
  - apply parse_value_refines, Hle.
  - apply parse_object_refines, Hle.
  - apply parse_value_refines, Hle.
Qed.

Lemma parse_returns_mono n n' input err0 v p :
  parse n input err0 = Returns v p -> (n <= n')%nat ->
  parse n' input err0 = Returns v p.
Proof.
  intros H Hle. rewrite <- H. apply parse_refines; [exact Hle|].
  rewrite H. discriminate.
Qed.

(** ** Strings *)

Lemma str_eqb_eq s : forall t, str_eqb s t = true <-> s = t.
Proof.
  induction s as [|a s IH]; intros [|b t]; simpl; split; intros H;
    try reflexivity; try discriminate.
  - apply andb_true_iff in H. destruct H as [Hab Hst].
    apply Ascii.eqb_eq in Hab. apply IH in Hst. congruence.
  - injection H as -> ->. rewrite Ascii.eqb_refl. simpl. apply IH. reflexivity.
Qed.

Lemma str_eqb_refl s : str_eqb s s = true.
Proof. apply str_eqb_eq. reflexivity. Qed.

Lemma str_eqb_neq s t : str_eqb s t = false <-> s <> t.
Proof.
  split.
  - intros H E. apply str_eqb_eq in E. congruence.
  - intros H. destruct (str_eqb s t) eqn:E; [|reflexivity].
    apply str_eqb_eq in E. contradiction.
Qed.

Lemma str_contains_In s c : str_contains s c = true <-> In c s.
Proof.
  unfold str_contains. rewrite existsb_exists. split.
  - intros [x [Hx E]]. apply Ascii.eqb_eq in E. subst. exact Hx.
  - intros H. exists c. split; [exact H|apply Ascii.eqb_refl].
Qed.

(** ** The value model *)

Lemma map_find_In key o x :
  NoDup (map fst o) -> In (key, x) o -> map_find key o = Some x.
Proof.
  induction o as [|[k y] o IH]; simpl; intros Hnd Hin; [contradiction|].
  inversion Hnd as [|? ? Hnotin Hnd']; subst.
  destruct Hin as [E|Hin].
  - injection E as -> ->. rewrite str_eqb_refl. reflexivity.
  - destruct (str_eqb key k) eqn:E.
    + apply str_eqb_eq in E. subst. exfalso. apply Hnotin.
      change k with (fst (k, x)). apply in_map, Hin.
    + apply IH; assumption.
Qed.

Lemma map_find_not_In key o :
  ~ In key (map fst o) -> map_find key o = None.
Proof.
  induction o as [|[k y] o IH]; simpl; intros Hnin; [reflexivity|].
  destruct (str_eqb key k) eqn:E.
  - apply str_eqb_eq in E. subst. exfalso. apply Hnin. left. reflexivity.
  - apply IH. intros H. apply Hnin. right. exact H.
Qed.

Lemma map_find_Some_In key o x :
  map_find key o = Some x -> In key (map fst o).
Proof.
  induction o as [|[k y] o IH]; simpl; intros H; [discriminate|].
  destruct (str_eqb key k) eqn:E.
  - apply str_eqb_eq in E. left. symmetry. exact E.
  - right. apply IH, H.
Qed.

(** C10. Indexing never fails.  [v[i]] is the [i]-th element when [v] is an
    array and [i] is below its length, and Null otherwise; [v[key]] is the
    value mapped to [key] when [v] is an object holding [key], and Null
    otherwise. *)
Theorem C10_indexing_total (v : Toon) (n : nat) (key : list ascii) :
  (forall a x, v = ToonArray a -> nth_error a n = Some x -> index v n = x) /\
  ((forall a, v = ToonArray a -> (length a <= n)%nat) -> index v n = ToonNull) /\
  (forall o x, v = ToonObject o -> NoDup (map fst o) -> In (key, x) o ->
               lookup v key = x) /\
  ((forall o, v = ToonObject o -> ~ In key (map fst o)) ->
   lookup v key = ToonNull).
Proof.
  refine (conj _ (conj _ (conj _ _))).
  - intros a x -> Hn. simpl.
    assert (Hlt : (n < length a)%nat)
      by (apply nth_error_Some; rewrite Hn; discriminate).
    destruct (Nat.leb_spec (length a) n); [lia|].
    apply nth_error_nth with (d := ToonNull) in Hn. exact Hn.
  - intros H. destruct v; simpl; try reflexivity.
    specialize (H _ eq_refl).
    destruct (Nat.leb_spec (length m_value) n); [reflexivity|lia].
  - intros o x -> Hnd Hin. simpl. rewrite (map_find_In _ _ _ Hnd Hin).
    reflexivity.
  - intros H. destruct v; simpl; try reflexivity.
    rewrite map_find_not_In; [reflexivity|]. apply H. reflexivity.
Qed.

Lemma C10_indexing_total_witness :
  index (ToonArray [ToonNull; ToonBoolean true]) 1 = ToonBoolean true /\
  index (ToonArray [ToonNull; ToonBoolean true]) 2 = ToonNull /\
  index (ToonBoolean true) 0 = ToonNull /\
  lookup (ToonObject [(lit "a", ToonBoolean false); (lit "b", ToonInt 7)])
         (lit "b") = ToonInt 7 /\
  lookup (ToonObject [(lit "a", ToonBoolean false)]) (lit "z") = ToonNull /\
  lookup (ToonString (lit "a")) (lit "a") = ToonNull.
Proof.
  refine (conj _ (conj _ (conj _ (conj _ (conj _ _))))).
  - apply (proj1 (C10_indexing_total
                    (ToonArray [ToonNull; ToonBoolean true]) 1 []))
      with (a := [ToonNull; ToonBoolean true]); reflexivity.
  - apply (proj1 (proj2 (C10_indexing_total
                           (ToonArray [ToonNull; ToonBoolean true]) 2 []))).
    intros a E. injection E as <-. simpl. lia.
  - apply (proj1 (proj2 (C10_indexing_total (ToonBoolean true) 0 []))).
    intros a E. discriminate E.
  - apply (proj1 (proj2 (proj2 (C10_indexing_total
             (ToonObject [(lit "a", ToonBoolean false); (lit "b", ToonInt 7)])
             0 (lit "b")))))
      with (o := [(lit "a", ToonBoolean false); (lit "b", ToonInt 7)]).
    + reflexivity.
    + simpl. repeat constructor; simpl; intuition discriminate.
    + simpl. right. left. reflexivity.
  - apply (proj2 (proj2 (proj2 (C10_indexing_total
             (ToonObject [(lit "a", ToonBoolean false)]) 0 (lit "z"))))).
    intros o E. injection E as <-. simpl. intuition discriminate.
  - apply (proj2 (proj2 (proj2 (C10_indexing_total
             (ToonString (lit "a")) 0 (lit "a"))))).
    intros o E. discriminate E.
Defined.

(** ** The encoder *)

(** C9. The empty array is encoded as the text [[0]:] and nothing more; the
    empty object as the empty text. *)
Theorem C9_empty_containers (level : Z) :
  dump (ToonArray []) level = lit "[0]:" /\ dump (ToonObject []) level = [].
Proof. split; reflexivity. Qed.

(** *** The quoting decision *)

Lemma existsb_special s :
  existsb (fun c => str_contains special c) s = true <->
  exists c, In c s /\ In c special.
Proof.
  rewrite existsb_exists. split; intros [c [H1 H2]]; exists c; split; auto;
    apply str_contains_In; assumption.
Qed.

Lemma needs_quoting_guarded s :
  needs_quoting s = true <-> quoting_condition_guarded s.
Proof.
  unfold quoting_condition_guarded. destruct s as [|c0 r].
  - simpl. split; auto.
  - unfold needs_quoting.
    destruct (str_eqb (c0 :: r) (lit "null")) eqn:E1.
    { apply str_eqb_eq in E1. simpl. split; auto. }
    destruct (str_eqb (c0 :: r) (lit "true")) eqn:E2.
    { apply str_eqb_eq in E2. simpl. split; auto. }
    destruct (str_eqb (c0 :: r) (lit "false")) eqn:E3.
    { apply str_eqb_eq in E3. simpl. split; auto. }
    apply str_eqb_neq in E1, E2, E3. cbn [orb].
    assert (Hne : Libc.c_str (c0 :: r) = [] -> Libc.isdigit c0 || Ascii.eqb c0 "-" = false).
    { unfold Libc.c_str. simpl. destruct (Ascii.eqb c0 NUL) eqn:E0.
      - apply Ascii.eqb_eq in E0. subst. reflexivity.
      - simpl. destruct (span _ r). discriminate. }
    destruct ((Libc.isdigit c0 || Ascii.eqb c0 "-")
              && (snd (Libc.strtod (Libc.c_str (c0 :: r)))
                  =? length (Libc.c_str (c0 :: r)))%nat) eqn:E4.
    + split; auto. intros _. right. right. right. right. left.
      apply andb_true_iff in E4. destruct E4 as [Hd Hn]. split.
      * exists c0, r. split; [reflexivity|].
        apply orb_true_iff in Hd. destruct Hd as [Hd|Hd]; [left; exact Hd|].
        right. apply Ascii.eqb_eq in Hd. exact Hd.
      * unfold numeric_literal. rewrite Hn.
        destruct (Libc.c_str (c0 :: r)) eqn:Ec; [|reflexivity].
        rewrite Hne in Hd by reflexivity. discriminate.
    + rewrite existsb_special. split; [intros H; do 5 right; exact H|].
      intros [H|[H|[H|[H|[H|H]]]]]; try discriminate; try contradiction;
        [|exact H].
      exfalso. destruct H as [[c [r' [E [Hd|Hd]]]] Hn];
        injection E as <- <-; unfold numeric_literal in Hn;
        apply andb_true_iff in Hn; destruct Hn as [_ Hn];
        rewrite Hn, andb_true_r in E4.
      * rewrite Hd in E4. discriminate.
      * subst c0. discriminate.
Qed.

(** C4 (as the encoder decides).  A string is emitted quoted exactly when
    it is empty, or is [null], [true] or [false], or begins with a digit or
    a minus sign and is, up to its first NUL byte, a numeric literal, or
    holds one of [, : newline [ ] { } #]; otherwise it is emitted verbatim. *)
Theorem C4_quoting_decision (s : list ascii) :
  (quoting_condition_guarded s -> dump_string s = quoted s) /\
  (~ quoting_condition_guarded s -> dump_string s = s).
Proof.
  unfold dump_string, quoted. split; intros H.
  - apply needs_quoting_guarded in H. rewrite H. reflexivity.
  - destruct (needs_quoting s) eqn:E; [|reflexivity].
    exfalso. apply H, needs_quoting_guarded, E.
Qed.

Lemma C4_quoting_decision_witness :
  dump_string (lit "12.5") = quoted (lit "12.5") /\
  dump_string (lit "hello world") = lit "hello world".
Proof.
  split.
  - apply (proj1 (C4_quoting_decision (lit "12.5"))).
    right. right. right. right. left. split.
    + exists "1"%char, (lit "2.5"). split; [reflexivity|left; reflexivity].
    + reflexivity.
  - apply (proj2 (C4_quoting_decision (lit "hello world"))).
    intros H. apply needs_quoting_guarded in H. discriminate H.
Defined.

(** C4 as worded fails: [.5] is a numeric literal, and it is emitted
    verbatim, without quotes. *)
Lemma C4_counterexample :
  quoting_condition (lit ".5") /\ dump_string (lit ".5") = lit ".5"
  /\ dump_string (lit ".5") <> quoted (lit ".5").
Proof.
  split; [|split].
  - right. right. right. right. left. reflexivity.
  - reflexivity.
  - discriminate.
Qed.

(** *** The array rendering decision *)






Lemma has_all_keys_spec keys o :
  has_all_keys keys o = true <-> forall k, In k keys -> In k (map fst o).
Proof.
  induction keys as [|k keys IH]; simpl.
  - split; [intros _ k []|reflexivity].
  - destruct (map_find k o) eqn:E.
    + rewrite IH. split.
      * intros H k' [<-|Hin]; [eapply map_find_Some_In, E|apply H, Hin].
      * intros H k' Hin. apply H. right. exact Hin.
    + split; [discriminate|]. intros H. exfalso.
      assert (Hin : In k (map fst o)) by (apply H; left; reflexivity).
      clear -E Hin. induction o as [|[k' x] o IHo]; simpl in *; [contradiction|].
      destruct (str_eqb k k') eqn:Ek; [discriminate|].
      destruct Hin as [->|Hin]; [rewrite str_eqb_refl in Ek; discriminate|].
      apply IHo; assumption.
Qed.






(** ** The decoder: the sticky error *)

Lemma frame_refl p : frame p p.
Proof. intros H. split; [exact H|reflexivity]. Qed.

Lemma frame_same p0 p q :
  frame p0 p -> err q = err p -> failed q = failed p -> frame p0 q.
Proof. intros H He Hf H0. destruct (H H0). split; congruence. Qed.

Lemma frame_set_i p0 p k : frame p0 p -> frame p0 (set_i p k).
Proof. intros H. apply (frame_same p0 p); auto. Qed.

Lemma frame_fail p0 p msg : frame p0 p -> frame p0 (snd (fail msg p)).
Proof.
  intros H H0. destruct (H H0) as [Hf He]. simpl. rewrite Hf. simpl. auto.
Qed.

Lemma oframe_returns {A : Type} p0 (a : A) q :
  frame p0 q -> oframe p0 (Returns a q).
Proof. intros H a' q' E. injection E as <- <-. exact H. Qed.

Lemma oframe_fail p0 p msg :
  frame p0 p -> oframe p0 (let '(v, q) := fail msg p in Returns v q).
Proof. intros H. apply oframe_returns. apply (frame_fail _ _ msg H). Qed.

Lemma oframe_bind {A B : Type} p0 (m : outcome A)
  (k : A -> ToonParser -> outcome B) :
  oframe p0 m -> (forall a q, frame p0 q -> oframe p0 (k a q)) ->
  oframe p0 (bind m k).
Proof.
  intros Hm Hk b r E. destruct m as [a q| |]; simpl in E; try discriminate.
  eapply Hk; [|exact E]. eapply Hm. reflexivity.
Qed.

Lemma oframe_stuck {A : Type} p0 (o : outcome A) :
  (forall a q, o <> Returns a q) -> oframe p0 o.
Proof. intros H a q E. exfalso. exact (H a q E). Qed.

Section Sticky.

Variable str : list ascii.

Lemma garbage_loop_same n : forall p,
  err (garbage_loop str n p) = err p /\
  failed (garbage_loop str n p) = failed p.
Proof.
  induction n as [|n IH]; intros p; simpl; [auto|].
  repeat split_if;
    try (match goal with
         | |- context [garbage_loop str n ?q] =>
             destruct (IH q) as [-> ->]
         end); auto.
Qed.

Lemma frame_consume_whitespace p0 p :
  frame p0 p -> frame p0 (consume_whitespace str p).
Proof. apply frame_set_i. Qed.

Lemma frame_consume_garbage p0 p :
  frame p0 p -> frame p0 (consume_garbage str p).
Proof.
  intros H. apply (frame_same p0 p); auto; apply garbage_loop_same.
Qed.

Hint Resolve frame_refl frame_set_i frame_fail frame_consume_whitespace
  frame_consume_garbage oframe_returns oframe_fail : toon.

Lemma frame_quoted_loop p0 n : forall p out,
  frame p0 p -> frame p0 (snd (quoted_loop str n p out)).
Proof.
  induction n as [|n IH]; intros p out H; cbn [quoted_loop];
    [auto with toon|].
  repeat first
    [ progress cbv beta iota
    | match goal with
      | |- context [if ?b then _ else _] => destruct b
      | |- context [helper_toon.parse_unicode_codepoint ?s ?k] =>
          destruct (helper_toon.parse_unicode_codepoint s k)
            as [[? ?] [|? ?]]
      end ]; cbn [snd]; auto 6 with toon.
Qed.

Lemma oframe_split p0 (r : Toon * ToonParser) :
  frame p0 (snd r) -> oframe p0 (let '(v, q) := r in Returns v q).
Proof. destruct r. simpl. auto with toon. Qed.

Section BodiesSticky.

Variable pv : ToonParser -> outcome Toon.
Variables pa po : Z -> ToonParser -> outcome Toon.
Hypothesis Hpv : forall p0 p, frame p0 p -> oframe p0 (pv p).
Hypothesis Hpa : forall p0 x p, frame p0 p -> oframe p0 (pa x p).
Hypothesis Hpo : forall p0 x p, frame p0 p -> oframe p0 (po x p).

Lemma oframe_parse_value_body p0 p :
  frame p0 p -> oframe p0 (parse_value_body str pa p).
Proof.
  intros H. unfold parse_value_body.
  repeat match goal with
         | |- context [if ?b then _ else _] => destruct b
         end;
    first [ solve [auto with toon]
          | apply oframe_split;
            first [ apply frame_quoted_loop
                  | unfold parse_number, parse_unquoted_string;
                    cbn [snd] ];
            auto with toon ].
Qed.

Lemma oframe_row_loop p0 keys : forall obj p,
  frame p0 p -> oframe p0 (row_loop str pv keys obj p).
Proof.
  induction keys as [|key keys IH]; intros obj p H; simpl;
    [auto with toon|].
  split_if; [auto with toon|].
  apply oframe_bind; [auto with toon|]. intros val q Hq.
  split_if; [auto with toon|]. apply IH. split_if; auto with toon.
Qed.

Lemma oframe_rows_loop p0 n : forall parent_indent keys arr p,
  frame p0 p -> oframe p0 (rows_loop str pv n parent_indent keys arr p).
Proof.
  induction n as [|n IH]; intros parent_indent keys arr p H; simpl;
    [apply oframe_stuck; discriminate|].
  repeat split_if; auto with toon.
  apply oframe_bind; [apply oframe_row_loop; auto with toon|].
  intros [v|[obj row_failed]] q Hq; [auto with toon|].
  split_if; auto with toon.
Qed.

Lemma oframe_elements_loop p0 n : forall count k arr p,
  frame p0 p -> oframe p0 (elements_loop str pv n count k arr p).
Proof.
  induction n as [|n IH]; intros count k arr p H; simpl;
    [apply oframe_stuck; discriminate|].
  repeat split_if; auto with toon;
    (apply oframe_bind; [auto with toon|]); intros v q Hq;
    repeat split_if; auto with toon.
Qed.

Lemma oframe_parse_array_body p0 n parent_indent p :
  frame p0 p -> oframe p0 (parse_array_body str pv n parent_indent p).
Proof.
  intros H. unfold parse_array_body.
  destruct (parse_array_header str (i p)) as [[[[tabular keys] count] j]|];
    [|apply oframe_stuck; discriminate].
  destruct tabular.
  - apply oframe_rows_loop. auto with toon.
  - apply oframe_elements_loop. auto with toon.
Qed.

Lemma oframe_entries_loop p0 n : forall parent_indent obj p,
  frame p0 p ->
  oframe p0 (entries_loop str pv pa po n parent_indent obj p).
Proof.
  induction n as [|n IH]; intros parent_indent obj p H; simpl;
    [apply oframe_stuck; discriminate|].
  repeat split_if; auto with toon;
    (apply oframe_bind; [solve [auto 12 with toon]|]); intros v q Hq;
    apply IH; exact Hq.
Qed.

End BodiesSticky.

Lemma oframe_parse_value_array n :
  (forall p0 p, frame p0 p -> oframe p0 (parse_value str n p)) /\
  (forall p0 x p, frame p0 p -> oframe p0 (parse_array str n x p)).
Proof.
  induction n as [|n [IHv IHa]]; split; intros; simpl;
    try (apply oframe_stuck; discriminate).
  - apply oframe_parse_value_body; assumption.
  - apply oframe_parse_array_body; assumption.
Qed.

Lemma oframe_parse_object n : forall p0 x p,
  frame p0 p -> oframe p0 (parse_object str n x p).
Proof.
  induction n as [|n IH]; intros p0 x p H; simpl;
    [apply oframe_stuck; discriminate|].
  unfold parse_object_body. apply oframe_entries_loop; try assumption;
    intros; apply oframe_parse_value_array; assumption.
Qed.

End Sticky.

Lemma record_sequence msgs : forall p,
  failed p = true ->
  failed (fold_left record msgs p) = true /\
  err (fold_left record msgs p) = err p.
Proof.
  induction msgs as [|m msgs IH]; intros p H; simpl; [auto|].
  destruct (IH (record p m)) as [Hf He]; [reflexivity|].
  split; [exact Hf|]. rewrite He. unfold record. simpl. rewrite H. reflexivity.
Qed.

(** C8. The error message is first-error-sticky.  After any sequence of
    failures recorded in a parser that had not failed, the stored message
    is the first one; and once the flag is set, no call of the decoder
    changes the stored message. *)
Theorem C8_first_error_sticky :
  (forall p msg msgs,
     failed p = false ->
     failed (fold_left record (msg :: msgs) p) = true /\
     err (fold_left record (msg :: msgs) p) = msg) /\
  (forall str fuel x p v q,
     failed p = true ->
     parse_value str fuel p = Returns v q \/
     parse_array str fuel x p = Returns v q \/
     parse_object str fuel x p = Returns v q ->
     failed q = true /\ err q = err p).
Proof.
  split.
  - intros p msg msgs H. simpl.
    destruct (record_sequence msgs (record p msg)) as [Hf He]; [reflexivity|].
    split; [exact Hf|]. rewrite He. unfold record. simpl. rewrite H.
    reflexivity.
  - intros str fuel x p v q H [E|[E|E]].
    + eapply (proj1 (oframe_parse_value_array str fuel)); eauto using frame_refl.
    + eapply (proj2 (oframe_parse_value_array str fuel)); eauto using frame_refl.
    + eapply oframe_parse_object; eauto using frame_refl.
Qed.

Lemma C8_first_error_sticky_witness :
  err (fold_left record [lit "unfinished string"; lit "invalid escape"]
         (mkParser 0 [] false)) = lit "unfinished string"
  /\ err (mkParser 4 (lit "first") true) = lit "first".
Proof.
  split.
  - apply (proj1 C8_first_error_sticky (mkParser 0 [] false)
             (lit "unfinished string") [lit "invalid escape"]).
    reflexivity.
  - symmetry.
    apply (proj2 C8_first_error_sticky
             (["034"%char] ++ lit "a\q") 3%nat 0
             (mkParser 0 (lit "first") true) ToonNull
             (mkParser 4 (lit "first") true)).
    + reflexivity.
    + left. reflexivity.
Defined.

(** ** The decoder: escapes *)

Lemma parse_plus n input err0 v p :
  parse n input err0 = Returns v p ->
  forall k, parse (n + k) input err0 = Returns v p.
Proof. intros H k. apply (parse_returns_mono n); [exact H|lia]. Qed.

(** C2 (what the decoder does).  Whenever the loop of the quoted string
    stands at a backslash followed by [u], the call fails, whatever the four
    characters after it: [parse_unicode_codepoint] is entered at the [u]
    itself and reads it as the first hex digit. *)
Theorem C2_unicode_escape_rejected (str : list ascii) (n : nat)
  (p : ToonParser) (out : list ascii) :
  (i p < length str)%nat ->
  char_at str (i p) = "\"%char ->
  char_at str (S (i p)) = "u"%char ->
  fst (quoted_loop str (S n) p out) = ToonNull /\
  failed (snd (quoted_loop str (S n) p out)) = true /\
  (failed p = false ->
   err (snd (quoted_loop str (S n) p out)) = lit "unfinished unicode escape"
   \/ err (snd (quoted_loop str (S n) p out)) = lit "invalid unicode escape").
Proof.
  intros Hlt Hb Hu. cbn [quoted_loop]. unfold size.
  destruct (Nat.ltb_spec (i p) (length str)) as [_|]; [|lia].
  rewrite Hb. cbn [Ascii.eqb Bool.eqb negb andb]. cbn [set_i i].
  rewrite Hu. cbn [Ascii.eqb Bool.eqb].
  unfold helper_toon.parse_unicode_codepoint.
  destruct (length str <=? S (i p) + 4)%nat.
  - cbn. repeat split; auto. intros ->. left. reflexivity.
  - cbn [helper_toon.hex_loop]. rewrite Hu. cbn.
    repeat split; auto. intros ->. right. reflexivity.
Qed.

Lemma C2_unicode_escape_rejected_witness :
  fst (quoted_loop (["034"%char] ++ lit "\u0041" ++ ["034"%char]) 8
         (mkParser 1 [] false) []) = ToonNull.
Proof.
  apply (C2_unicode_escape_rejected
           (["034"%char] ++ lit "\u0041" ++ ["034"%char]) 7
           (mkParser 1 [] false) []).
  - simpl. lia.
  - reflexivity.
  - reflexivity.
Defined.

(** The quoted string holding the escape of U+0041 is not decoded to [A]:
    the decoder fails with "invalid unicode escape". *)
Lemma unicode_escape_0041 (k : nat) (err0 : list ascii) :
  parse (1 + k) (["034"%char] ++ lit "\u0041" ++ ["034"%char]) err0
  = Returns ToonNull (mkParser 3 (lit "invalid unicode escape") true).
Proof. apply parse_plus. reflexivity. Qed.

(** C5 (what the codec does).  The encoder writes the control characters
    as [\u00XX], [\b] and [\f]; the decoder accepts none of the three: the
    text encoded for the string of all control characters, the quote and the
    backslash is rejected, and so is the text encoded for backspace and
    newline. *)
Theorem C5_control_characters_rejected (k : nat) (err0 : list ascii) :
  parse (1 + k) (dump (ToonString control_string) 0) err0
  = Returns ToonNull (mkParser 3 (lit "invalid unicode escape") true)
  /\ dump (ToonString ["008"%char; "010"%char]) 0
     = ["034"%char] ++ lit "\b\n" ++ ["034"%char]
  /\ parse (1 + k) (dump (ToonString ["008"%char; "010"%char]) 0) err0
     = Returns ToonNull (mkParser 3 (lit "invalid escape") true).
Proof.
  split; [|split].
  - apply parse_plus. reflexivity.
  - reflexivity.
  - apply parse_plus. reflexivity.
Qed.

(** ** The decoder: failures *)

(** C7 (what the decoder does).  After a failure inside the value of an
    entry, [parse_object] stores the value and returns the object, not
    Null; and the loop of the [[N]:] body goes on reading elements. *)
Theorem C7_failure_not_propagated (k : nat) (err0 : list ascii) :
  parse (3 + k) (lit "bad: " ++ ["034"%char] ++ lit "unterminated") err0
  = Returns (ToonObject [(lit "bad", ToonNull)])
            (mkParser 18 (lit "unfinished string") true)
  /\ parse (5 + k)
       (lit "[2]: " ++ ["034"%char] ++ lit "a\q" ++ ["034"%char] ++ lit ", b")
       err0
     = Returns (ToonArray [ToonNull; ToonNull])
               (mkParser 13 (lit "invalid escape") true).
Proof.
  split; apply parse_plus; reflexivity.
Qed.

(** ** The decoder: the top-level dispatch *)

(** C6 (what the decoder does).  The test for a colon reads the whole
    input, not what is left after the leading comments: a scalar after a
    comment that holds a colon is parsed as an object, here the empty one. *)
Theorem C6_colon_in_comment (k : nat) (err0 : list ascii) :
  let input := lit "# a:b" ++ ["010"%char] ++ lit "hello" in
  let parser := consume_garbage input (mkParser 0 err0 false) in
  skipn (i parser) input = lit "hello"
  /\ str_contains (skipn (i parser) input) ":" = false
  /\ parse (2 + k) input err0 = Returns (ToonObject []) (mkParser 11 err0 false)
  /\ parse_value input (1 + k) parser
     = Returns (ToonString (lit "hello")) (mkParser 11 err0 false).
Proof.
  cbv zeta. split; [|split; [|split]]; reflexivity.
Qed.

(** ** Scanning a text laid out as [pre ++ mid ++ suf] *)

Lemma char_at_app pre c rest : char_at (pre ++ c :: rest) (length pre) = c.
Proof. unfold char_at. rewrite nth_middle. reflexivity. Qed.

Lemma char_at_end pre : char_at pre (length pre) = NUL.
Proof. unfold char_at. apply nth_overflow. lia. Qed.

Lemma substr_app pre mid suf :
  substr (pre ++ mid ++ suf) (length pre) (length mid) = mid.
Proof.
  unfold substr. rewrite skipn_app, skipn_all, Nat.sub_diag. simpl.
  rewrite firstn_app, firstn_all, Nat.sub_diag. simpl. apply app_nil_r.
Qed.

Lemma scan_loop_app cond mid : forall pre suf n,
  forallb cond mid = true -> stops cond suf ->
  (length mid + length suf <= n)%nat ->
  scan_loop (pre ++ mid ++ suf) cond n (length pre)
  = (length pre + length mid)%nat.
Proof.
  induction mid as [|c mid IH]; intros pre suf n Hmid Hsuf Hn.
  - simpl. rewrite Nat.add_0_r. destruct n as [|n]; [reflexivity|].
    simpl. unfold size. destruct suf as [|c r].
    + rewrite app_nil_r, Nat.ltb_irrefl. reflexivity.
    + rewrite char_at_app. simpl in Hsuf. rewrite Hsuf, andb_false_r.
      reflexivity.
  - simpl in Hmid. apply andb_true_iff in Hmid. destruct Hmid as [Hc Hmid].
    destruct n as [|n]; [simpl in Hn; lia|].
    cbn [scan_loop]. unfold size.
    replace (length pre <? length (pre ++ (c :: mid) ++ suf))%nat with true
      by (symmetry; apply Nat.ltb_lt; rewrite !length_app; simpl; lia).
    cbn [app]. rewrite char_at_app, Hc. cbn [andb].
    replace (pre ++ c :: mid ++ suf) with ((pre ++ [c]) ++ mid ++ suf)
      by (rewrite <- app_assoc; reflexivity).
    replace (S (length pre)) with (length (pre ++ [c]))
      by (rewrite length_app; simpl; lia).
    rewrite IH; [rewrite length_app; simpl; lia|assumption|assumption|].
    simpl in Hn. lia.
Qed.

Lemma scan_while_app cond pre mid suf :
  forallb cond mid = true -> stops cond suf ->
  scan_while (pre ++ mid ++ suf) cond (length pre)
  = (length pre + length mid)%nat.
Proof.
  intros Hmid Hsuf. unfold scan_while, size. apply scan_loop_app; auto.
  rewrite !length_app. lia.
Qed.

Lemma span_split {A : Type} (cond : A -> bool) (l : list A) :
  l = fst (span cond l) ++ snd (span cond l)
  /\ forallb cond (fst (span cond l)) = true
  /\ match snd (span cond l) with
     | [] => True
     | c :: _ => cond c = false
     end.
Proof.
  induction l as [|a l IH]; simpl; [auto|].
  destruct (cond a) eqn:E.
  - destruct (span cond l) as [u v]. simpl in *.
    destruct IH as [-> [Hu Hv]]. rewrite E, Hu. auto.
  - simpl. rewrite E. auto.
Qed.

Lemma garbage_loop_gap n : forall gap pre suf p,
  i p = length pre ->
  forallb is_gap gap = true -> token_start suf ->
  (length gap < n)%nat ->
  garbage_loop (pre ++ gap ++ suf) n p
  = set_i p (length pre + length gap).
Proof.
  induction n as [|n IH]; intros gap pre suf p Hi Hgap Hsuf Hn; [lia|].
  cbn [garbage_loop]. unfold consume_whitespace. rewrite Hi.
  destruct (span_split is_blank gap) as [Eg [Hb Hrest]].
  destruct (span is_blank gap) as [b rest]. cbn [fst snd] in *. subst gap.
  rewrite <- app_assoc.
  assert (Hstop : stops is_blank (rest ++ suf)).
  { destruct rest as [|c r]; simpl; [|exact Hrest].
    destruct suf; simpl in *; tauto. }
  rewrite (scan_while_app is_blank pre b (rest ++ suf) Hb Hstop).
  cbn [set_i i]. unfold size.
  replace (pre ++ b ++ rest ++ suf) with ((pre ++ b) ++ rest ++ suf)
    by (rewrite <- app_assoc; reflexivity).
  replace (length pre + length b)%nat with (length (pre ++ b))
    by (rewrite length_app; reflexivity).
  destruct rest as [|c rest].
  - cbn [app]. destruct suf as [|c suf].
    + rewrite app_nil_r, Nat.ltb_irrefl. cbn [andb].
      rewrite !length_app. cbn. rewrite Nat.add_0_r. reflexivity.
    + rewrite char_at_app. destruct Hsuf as [_ [Hnl Hc]].
      rewrite Hnl, andb_false_r.
      replace (Ascii.eqb c "#") with false
        by (symmetry; apply Ascii.eqb_neq; exact Hc).
      rewrite andb_false_r, !length_app. cbn. rewrite Nat.add_0_r.
      reflexivity.
  - rewrite forallb_app in Hgap. apply andb_true_iff in Hgap.
    destruct Hgap as [_ Hgap]. cbn [forallb] in Hgap.
    apply andb_true_iff in Hgap. destruct Hgap as [Hc Hgap].
    unfold is_gap in Hc. rewrite Hrest in Hc. cbn [orb] in Hc.
    cbn [app]. rewrite char_at_app, Hc.
    assert (Hnot : Ascii.eqb c "#" = false).
    { unfold is_newline in Hc. apply Ascii.eqb_eq in Hc. subst c.
      reflexivity. }
    rewrite Hnot, andb_false_r.
    replace (length (pre ++ b) <? length ((pre ++ b) ++ c :: rest ++ suf))%nat
      with true
      by (symmetry; apply Nat.ltb_lt; rewrite !length_app; simpl; lia).
    cbn [andb].
    replace ((pre ++ b) ++ c :: rest ++ suf)
      with (((pre ++ b) ++ [c]) ++ rest ++ suf)
      by (rewrite <- !app_assoc; reflexivity).
    rewrite IH.
    + unfold set_i. cbn [i err failed]. f_equal. rewrite !length_app.
      simpl. lia.
    + unfold set_i. cbn [i]. rewrite !length_app. simpl. lia.
    + exact Hgap.
    + exact Hsuf.
    + rewrite !length_app in Hn. simpl in Hn. lia.
Qed.

Lemma consume_garbage_gap gap pre suf p :
  i p = length pre ->
  forallb is_gap gap = true -> token_start suf ->
  consume_garbage (pre ++ gap ++ suf) p
  = set_i p (length pre + length gap).
Proof.
  intros Hi Hgap Hsuf. unfold consume_garbage.
  apply garbage_loop_gap; auto. unfold size. rewrite Hi, !length_app. lia.
Qed.

Lemma consume_whitespace_stop pre suf p :
  i p = length pre -> stops is_blank suf ->
  consume_whitespace (pre ++ suf) p = set_i p (length pre).
Proof.
  intros Hi Hsuf. unfold consume_whitespace. rewrite Hi.
  pose proof (scan_while_app is_blank pre [] suf eq_refl Hsuf) as H.
  cbn [app length] in H. rewrite H, Nat.add_0_r. reflexivity.
Qed.

(** ** Round trip: strings *)

Lemma char_at_app2 pre a b rest :
  char_at (pre ++ a :: b :: rest) (S (length pre)) = b.
Proof.
  replace (pre ++ a :: b :: rest) with ((pre ++ [a]) ++ b :: rest)
    by (rewrite <- app_assoc; reflexivity).
  replace (S (length pre)) with (length (pre ++ [a]))
    by (rewrite length_app; simpl; lia).
  apply char_at_app.
Qed.

Lemma ltb_app_cons pre (c : ascii) rest :
  (length pre <? length (pre ++ c :: rest))%nat = true.
Proof. apply Nat.ltb_lt. rewrite length_app. simpl. lia. Qed.

Lemma eqb_app_cons pre (c : ascii) rest :
  (length pre =? length (pre ++ c :: rest))%nat = false.
Proof. apply Nat.eqb_neq. rewrite length_app. simpl. lia. Qed.

Lemma ltb_app_cons2 pre (a b : ascii) rest :
  (S (length pre) <? length (pre ++ a :: b :: rest))%nat = true.
Proof. apply Nat.ltb_lt. rewrite length_app. simpl. lia. Qed.

Lemma eqb_app_cons2 pre (a b : ascii) rest :
  (S (length pre) =? length (pre ++ a :: b :: rest))%nat = false.
Proof. apply Nat.eqb_neq. rewrite length_app. simpl. lia. Qed.

(** one iteration of the loop of [parse_quoted_string] reads back the
    escape of a decodable byte *)
Lemma quoted_loop_step c pre rest p out n :
  decodable c = true -> i p = length pre ->
  quoted_loop (pre ++ escape_char c ++ rest) (S n) p out
  = quoted_loop (pre ++ escape_char c ++ rest) n
      (set_i p (length pre + length (escape_char c))) (out ++ [c]).
Proof.
  intros Hd Hi. unfold escape_char.
  repeat match goal with
         | |- context [if Ascii.eqb c ?x then _ else _] =>
             let E := fresh "E" in
             destruct (Ascii.eqb c x) eqn:E;
             [apply Ascii.eqb_eq in E; subst c|]
         end;
    try (vm_compute in Hd; discriminate Hd);
    try (cbn [quoted_loop app]; unfold size, set_i; cbn [i err failed];
         repeat (progress
                   (rewrite ?Hi, ?ltb_app_cons, ?char_at_app, ?char_at_app2,
                      ?eqb_app_cons2;
                    cbn [Ascii.eqb Bool.eqb negb andb orb i err failed]));
         cbn [length]; repeat f_equal; lia).
  destruct (code c <=? 31) eqn:Ec.
  - exfalso. unfold decodable in Hd. rewrite E3, E4, E5 in Hd.
    rewrite !orb_false_r in Hd. apply Z.leb_le in Hd, Ec. lia.
  - cbn [quoted_loop app]. unfold size, set_i. cbn [i err failed].
    rewrite Hi, ltb_app_cons, char_at_app. rewrite E0, E. cbn [negb andb].
    cbn [length]. repeat f_equal. lia.
Qed.

Lemma escape_char_length c : (1 <= length (escape_char c))%nat.
Proof.
  unfold escape_char, print_u04x.
  repeat match goal with
         | |- context [if ?b then _ else _] => destruct b
         end; simpl; lia.
Qed.

Lemma quoted_loop_decode todo : forall pre suf p out n,
  i p = length pre -> forallb decodable todo = true ->
  (length (flat_map escape_char todo) < n)%nat ->
  quoted_loop (pre ++ flat_map escape_char todo ++ "034"%char :: suf) n p out
  = (ToonString (out ++ todo),
     set_i p (length pre + length (flat_map escape_char todo) + 1)).
Proof.
  induction todo as [|c todo IH]; intros pre suf p out n Hi Hd Hn.
  - destruct n as [|n]; [simpl in Hn; lia|].
    cbn [flat_map app quoted_loop]. unfold size.
    rewrite Hi, ltb_app_cons, char_at_app, eqb_app_cons.
    cbn [Ascii.eqb Bool.eqb negb andb]. rewrite app_nil_r. cbn [length].
    repeat f_equal. lia.
  - cbn [forallb] in Hd. apply andb_true_iff in Hd. destruct Hd as [Hc Hd].
    cbn [flat_map] in *. rewrite length_app in Hn.
    destruct n as [|n]; [lia|].
    rewrite <- app_assoc.
    rewrite (quoted_loop_step c pre _ p out n Hc Hi).
    replace (pre ++ escape_char c ++ flat_map escape_char todo ++ "034"%char :: suf)
      with ((pre ++ escape_char c) ++ flat_map escape_char todo ++ "034"%char :: suf)
      by (rewrite <- app_assoc; reflexivity).
    rewrite IH.
    + f_equal; [f_equal; rewrite <- app_assoc; reflexivity|].
      unfold set_i. cbn [i err failed]. f_equal. rewrite !length_app. lia.
    + unfold set_i. cbn [i]. rewrite length_app. reflexivity.
    + exact Hd.
    + pose proof (escape_char_length c). lia.
Qed.

Lemma parse_quoted_string_decode s pre suf p :
  i p = length pre -> forallb decodable s = true ->
  parse_quoted_string (pre ++ quoted s ++ suf) p
  = (ToonString s, set_i p (length pre + length (quoted s))).
Proof.
  intros Hi Hd. unfold parse_quoted_string, quoted.
  replace (pre ++ (["034"%char] ++ flat_map escape_char s ++ ["034"%char]) ++ suf)
    with ((pre ++ ["034"%char]) ++ flat_map escape_char s ++ "034"%char :: suf)
    by (rewrite <- !app_assoc; reflexivity).
  rewrite quoted_loop_decode.
  - unfold set_i. cbn [i err failed app]. do 2 f_equal.
    repeat (rewrite ?length_app; cbn [length]). lia.
  - unfold set_i. cbn [i]. rewrite Hi, length_app. simpl. lia.
  - exact Hd.
  - unfold set_i, size. cbn [i]. rewrite Hi, !length_app. simpl. lia.
Qed.

Lemma find_last_not_of_last set : forall s,
  s <> [] -> str_contains set (last s NUL) = false ->
  find_last_not_of s set = Some (length s - 1)%nat.
Proof.
  induction s as [|c s IH]; intros Hne Hlast; [contradiction|].
  destruct s as [|d s].
  - simpl in *. rewrite Hlast. reflexivity.
  - cbn [find_last_not_of]. cbn [find_last_not_of] in IH.
    rewrite IH; [|discriminate|exact Hlast]. simpl. f_equal. lia.
Qed.

Lemma parse_unquoted_string_plain s pre suf p :
  i p = length pre ->
  forallb (fun c => negb (str_contains special c)) s = true ->
  value_end suf -> s <> [] -> is_blank (last s NUL) = false ->
  parse_unquoted_string (pre ++ s ++ suf) p
  = (ToonString s, set_i p (length pre + length s)).
Proof.
  intros Hi Hs Hsuf Hne Hlast. unfold parse_unquoted_string.
  rewrite Hi, (scan_while_app _ pre s suf Hs Hsuf).
  replace (length pre + length s - length pre)%nat with (length s) by lia.
  rewrite substr_app, (find_last_not_of_last _ s Hne).
  - replace (S (length s - 1)) with (length s)
      by (destruct s; [contradiction|simpl; lia]).
    rewrite firstn_all. reflexivity.
  - unfold is_blank in Hlast. unfold str_contains.
    cbn [lit list_ascii_of_string app existsb].
    apply orb_false_iff in Hlast. destruct Hlast as [Hl H3].
    apply orb_false_iff in Hl. destruct Hl as [H1 H2].
    rewrite H1, H2, H3. reflexivity.
Qed.

Lemma compare_eq_app pre rest n t :
  compare_eq (pre ++ rest) (length pre) n t = str_eqb (firstn n rest) t.
Proof.
  unfold compare_eq, substr. rewrite skipn_app, skipn_all, Nat.sub_diag.
  reflexivity.
Qed.

Lemma starts_with_app t : forall s suf,
  forallb (fun c => negb (str_contains special c)) t = true ->
  value_end suf ->
  str_eqb (firstn (length t) (s ++ suf)) t = starts_with s t.
Proof.
  unfold starts_with.
  induction t as [|a t IH]; intros s suf Ht Hsuf; [reflexivity|].
  cbn [forallb] in Ht. apply andb_true_iff in Ht. destruct Ht as [Ha Ht].
  destruct s as [|b s].
  - cbn [app length firstn]. destruct suf as [|c suf]; [reflexivity|].
    cbn [firstn str_eqb]. unfold value_end in Hsuf. cbn [stops] in Hsuf.
    destruct (Ascii.eqb c a) eqn:E; [|reflexivity].
    apply Ascii.eqb_eq in E. subst c. congruence.
  - cbn [app length firstn str_eqb]. rewrite IH by assumption. reflexivity.
Qed.

Lemma needs_quoting_false s :
  needs_quoting s = false ->
  s <> [] /\ forallb (fun c => negb (str_contains special c)) s = true.
Proof.
  unfold needs_quoting. destruct s as [|c0 r]; [discriminate|].
  repeat match goal with
         | |- context [if ?b then _ else _] => destruct b
         end; try discriminate.
  intros H. split; [discriminate|].
  rewrite forallb_forall. intros c Hin.
  destruct (str_contains special c) eqn:E; [|reflexivity].
  exfalso. assert (Ht : existsb (fun c => str_contains special c) (c0 :: r) = true).
  { apply existsb_exists. exists c. auto. }
  rewrite H in Ht. discriminate.
Qed.

(** ** Round trip: scalars *)

Lemma i_set_i p k : i (set_i p k) = k.
Proof. reflexivity. Qed.

Lemma set_i_set_i p k l : set_i (set_i p k) l = set_i p l.
Proof. reflexivity. Qed.

Ltac at_token Hi :=
  unfold set_i; cbn [i err failed lit list_ascii_of_string app];
  rewrite ?eqb_app_cons, ?ltb_app_cons, ?char_at_app, ?compare_eq_app;
  cbn [Ascii.eqb Bool.eqb negb andb orb firstn str_eqb].

Lemma parse_value_body_keyword (text : list ascii) v pre suf p pa :
  (text = lit "null" /\ v = ToonNull)
  \/ (text = lit "true" /\ v = ToonBoolean true)
  \/ (text = lit "false" /\ v = ToonBoolean false) ->
  i p = length pre ->
  parse_value_body (pre ++ text ++ suf) pa p
  = Returns v (set_i p (length pre + length text)).
Proof.
  intros Hv Hi. unfold parse_value_body.
  destruct Hv as [[-> ->]|[[-> ->]|[-> ->]]];
    (rewrite (consume_whitespace_stop pre _ p Hi) by reflexivity);
    unfold size; at_token Hi; reflexivity.
Qed.

Lemma not_special_bracket c :
  negb (str_contains special c) = true -> Ascii.eqb c "[" = false.
Proof.
  intros H. destruct (Ascii.eqb c "[") eqn:E; [|reflexivity].
  apply Ascii.eqb_eq in E. subst c. discriminate H.
Qed.

Lemma parse_value_body_string s level pre suf p pa :
  safe_string s = true -> i p = length pre -> value_end suf ->
  parse_value_body (pre ++ dump (ToonString s) level ++ suf) pa p
  = Returns (ToonString s)
      (set_i p (length pre + length (dump (ToonString s) level))).
Proof.
  intros Hs Hi Hsuf. cbn [dump]. unfold dump_string.
  unfold safe_string, plain_string, quoted_string in Hs.
  destruct (needs_quoting s) eqn:Enq; cbn [negb andb orb] in Hs; cbn [negb].
  - (* quoted *)
    fold (quoted s).
    assert (Hsz : (length pre =? length (pre ++ quoted s ++ suf))%nat = false).
    { apply Nat.eqb_neq. rewrite !length_app. unfold quoted. simpl. lia. }
    assert (Hch : char_at (pre ++ quoted s ++ suf) (length pre) = "034"%char)
      by exact (char_at_app pre "034"%char _).
    unfold parse_value_body.
    rewrite (consume_whitespace_stop pre _ p Hi) by reflexivity.
    unfold size. rewrite !i_set_i, Hsz, Hch.
    cbn [Ascii.eqb Bool.eqb].
    rewrite parse_quoted_string_decode; [reflexivity|reflexivity|exact Hs].
  - (* plain *)
    destruct (needs_quoting_false s Enq) as [Hne Hplain].
    destruct s as [|c0 r]; [contradiction|].
    repeat (apply andb_true_iff in Hs; destruct Hs as [Hs ?]).
    repeat match goal with
           | H : negb _ = true |- _ => apply negb_true_iff in H
           end.
    assert (Hb : Ascii.eqb c0 "[" = false).
    { apply not_special_bracket.
      cbn [forallb] in Hplain. apply andb_true_iff in Hplain. tauto. }
    unfold parse_value_body.
    rewrite (consume_whitespace_stop pre _ p Hi)
      by (cbn [app stops]; assumption).
    unfold size, set_i. cbn [i err failed app].
    rewrite eqb_app_cons, char_at_app.
    change (pre ++ c0 :: r ++ suf) with (pre ++ (c0 :: r) ++ suf).
    rewrite !compare_eq_app.
    change 4%nat with (length (lit "null")) at 1.
    rewrite (starts_with_app (lit "null")) by (reflexivity || assumption).
    change (length (lit "null")) with (length (lit "true")).
    rewrite (starts_with_app (lit "true")) by (reflexivity || assumption).
    change 5%nat with (length (lit "false")) at 1.
    rewrite (starts_with_app (lit "false")) by (reflexivity || assumption).
    repeat match goal with
           | H : _ = false |- _ => rewrite H
           end.
    cbn [orb].
    rewrite (parse_unquoted_string_plain (c0 :: r) pre suf); auto.
Qed.

Lemma parse_value_body_scalar v level pre suf p pa :
  scalar v = true -> i p = length pre -> value_end suf ->
  parse_value_body (pre ++ dump v level ++ suf) pa p
  = Returns v (set_i p (length pre + length (dump v level))).
Proof.
  intros Hv Hi Hsuf. destruct v; try discriminate Hv.
  - apply parse_value_body_keyword; auto.
  - apply parse_value_body_keyword; [|exact Hi].
    destruct m_value; auto.
  - apply parse_value_body_string; assumption.
Qed.

(** ** Round trip: the element count *)

Lemma dec_fold_uint d : forall d',
  fold_left (fun acc c => acc * 10 + Libc.digit_val c)
    (lit (NilEmpty.string_of_uint d)) (Z.of_N (DecimalPos.Unsigned.of_lu d'))
  = Z.of_N (DecimalPos.Unsigned.of_lu (Decimal.revapp d d')).
Proof.
  induction d; intros d';
    cbn [NilEmpty.string_of_uint lit list_ascii_of_string fold_left
         Decimal.revapp];
    [reflexivity|..];
    rewrite <- IHd; f_equal; cbn [DecimalPos.Unsigned.of_lu];
    rewrite ?N2Z.inj_add, ?N2Z.inj_mul;
    generalize (Z.of_N (DecimalPos.Unsigned.of_lu d')); intros z;
    unfold Libc.digit_val;
    match goal with
    | |- context [code ?c] =>
        let v := eval vm_compute in (code c) in change (code c) with v
    end;
    change (Z.of_N 10) with 10;
    try match goal with
        | |- context [Z.of_N ?k] =>
            let v := eval vm_compute in (Z.of_N k) in
            change (Z.of_N k) with v
        end; lia.
Qed.

Lemma digits_uint d :
  forallb Libc.isdigit (lit (NilEmpty.string_of_uint d)) = true.
Proof.
  induction d; unfold lit in *;
    cbn [NilEmpty.string_of_uint list_ascii_of_string forallb];
    [reflexivity|..]; rewrite IHd; reflexivity.
Qed.

Lemma print_int_nat n :
  forallb Libc.isdigit (Libc.print_int (Z.of_nat n)) = true
  /\ Libc.print_int (Z.of_nat n) <> []
  /\ Libc.dec_value (Libc.print_int (Z.of_nat n)) = Z.of_nat n.
Proof.
  unfold Libc.print_int, Libc.dec_value.
  destruct (Z.of_nat n) as [|q|q] eqn:E; [| |lia].
  - repeat split; try reflexivity. discriminate.
  - cbn [Z.to_int NilZero.string_of_int NilZero.string_of_uint].
    pose proof (DecimalPos.Unsigned.to_uint_nonnil q) as Hnn.
    assert (Hs : NilZero.string_of_uint (Pos.to_uint q)
                 = NilEmpty.string_of_uint (Pos.to_uint q)).
    { destruct (Pos.to_uint q); [contradiction|..]; reflexivity. }
    rewrite Hs. split; [apply digits_uint|]. split.
    + destruct (Pos.to_uint q); [contradiction|..]; discriminate.
    + change 0 with (Z.of_N (DecimalPos.Unsigned.of_lu Decimal.Nil)).
      rewrite dec_fold_uint. fold (Decimal.rev (Pos.to_uint q)).
      rewrite <- DecimalPos.Unsigned.of_uint_alt, DecimalPos.Unsigned.of_to. reflexivity.
Qed.

(** ** Reading a text from an offset: what is left is [skipn i str] *)

Lemma left_at_split str k rest :
  left_at str k rest -> exists pre, str = pre ++ rest /\ length pre = k.
Proof.
  intros [Hk Hs]. exists (firstn k str). split.
  - rewrite <- Hs. symmetry. apply firstn_skipn.
  - apply firstn_length_le, Hk.
Qed.

Lemma left_at_advance str k mid suf :
  left_at str k (mid ++ suf) -> left_at str (k + length mid) suf.
Proof.
  intros H. destruct (left_at_split _ _ _ H) as [pre [-> <-]]. split.
  - rewrite !length_app. lia.
  - rewrite skipn_app, skipn_all2 by lia.
    replace (length pre + length mid - length pre)%nat with (length mid) by lia.
    rewrite skipn_app, skipn_all, Nat.sub_diag. reflexivity.
Qed.

Lemma left_at_start str : left_at str 0 str.
Proof. split; [lia|reflexivity]. Qed.

Lemma left_at_end str k : left_at str k [] -> k = length str.
Proof.
  intros H. destruct (left_at_split _ _ _ H) as [pre [-> <-]].
  rewrite app_nil_r. reflexivity.
Qed.

Lemma left_at_char str k c rest :
  left_at str k (c :: rest) ->
  char_at str k = c /\ (k <? size str)%nat = true
  /\ (k =? size str)%nat = false.
Proof.
  intros H. destruct (left_at_split _ _ _ H) as [pre [-> <-]]. unfold size.
  rewrite char_at_app, ltb_app_cons, eqb_app_cons. auto.
Qed.

Lemma scan_while_at str cond k mid suf :
  left_at str k (mid ++ suf) ->
  forallb cond mid = true -> stops cond suf ->
  scan_while str cond k = (k + length mid)%nat.
Proof.
  intros H Hm Hs. destruct (left_at_split _ _ _ H) as [pre [-> <-]].
  apply scan_while_app; assumption.
Qed.

Lemma substr_at str k mid suf :
  left_at str k (mid ++ suf) -> substr str k (length mid) = mid.
Proof.
  intros H. destruct (left_at_split _ _ _ H) as [pre [-> <-]].
  apply substr_app.
Qed.

Lemma consume_garbage_at str p gap suf :
  left_at str (i p) (gap ++ suf) ->
  forallb is_gap gap = true -> token_start suf ->
  consume_garbage str p = set_i p (i p + length gap).
Proof.
  intros H Hg Hs. destruct (left_at_split _ _ _ H) as [pre [-> Hp]].
  rewrite <- Hp. apply consume_garbage_gap; auto.
Qed.

Lemma consume_whitespace_at str p gap suf :
  left_at str (i p) (gap ++ suf) ->
  forallb is_blank gap = true -> stops is_blank suf ->
  consume_whitespace str p = set_i p (i p + length gap).
Proof.
  intros H Hg Hs. unfold consume_whitespace.
  rewrite (scan_while_at str is_blank (i p) gap suf H Hg Hs). reflexivity.
Qed.

Lemma parse_value_scalar_at str m p v level suf :
  scalar v = true ->
  left_at str (i p) (dump v level ++ suf) -> value_end suf ->
  parse_value str (S m) p
  = Returns v (set_i p (i p + length (dump v level))).
Proof.
  intros Hv H Hs. destruct (left_at_split _ _ _ H) as [pre [-> Hp]].
  rewrite <- Hp. cbn [parse_value].
  apply parse_value_body_scalar; auto.
Qed.

(** ** Round trip: the first byte of a scalar and the header of an array *)

Lemma line_end_value_end suf : line_end suf -> value_end suf.
Proof. destruct suf as [|c r]; simpl; [auto|]. intros ->. reflexivity. Qed.

Lemma not_special_chars c :
  negb (str_contains special c) = true ->
  is_newline c = false /\ Ascii.eqb c "#" = false /\ Ascii.eqb c "[" = false
  /\ Ascii.eqb c "," = false /\ Ascii.eqb c ":" = false.
Proof.
  intros H. unfold is_newline.
  repeat split;
    match goal with
    | |- Ascii.eqb c ?x = false =>
        destruct (Ascii.eqb c x) eqn:E; [|reflexivity];
        apply Ascii.eqb_eq in E; subst c; discriminate H
    end.
Qed.

Lemma scalar_first_char v level :
  scalar v = true ->
  exists c t, dump v level = c :: t /\ is_blank c = false
    /\ is_newline c = false /\ Ascii.eqb c "#" = false
    /\ Ascii.eqb c "[" = false.
Proof.
  intros Hv. destruct v; try discriminate Hv.
  - exists "n"%char, (lit "ull"). repeat split.
  - destruct m_value.
    + exists "t"%char, (lit "rue"). repeat split.
    + exists "f"%char, (lit "alse"). repeat split.
  - cbn [dump]. unfold dump_string. cbn [scalar] in Hv.
    unfold safe_string, plain_string, quoted_string in Hv.
    destruct (needs_quoting m_value) eqn:Enq; cbn [negb andb orb] in Hv |- *.
    + eexists _, _. repeat split.
    + destruct (needs_quoting_false _ Enq) as [Hne Hplain].
      destruct m_value as [|c0 r]; [contradiction|].
      repeat (apply andb_true_iff in Hv; destruct Hv as [Hv ?]).
      cbn [forallb] in Hplain. apply andb_true_iff in Hplain.
      destruct Hplain as [Hc0 _].
      destruct (not_special_chars c0 Hc0) as [? [? [? _]]].
      exists c0, r. repeat split; auto.
      apply negb_true_iff. assumption.
Qed.

Lemma isdigit_not_brace c : Libc.isdigit c = true -> Ascii.eqb c "{" = false.
Proof.
  intros H. destruct (Ascii.eqb c "{") eqn:E; [|reflexivity].
  apply Ascii.eqb_eq in E. subst c. discriminate H.
Qed.

Lemma parse_array_header_at str k n rest :
  left_at str k
    ("["%char :: Libc.print_int (Z.of_nat n) ++ "]"%char :: ":"%char :: rest) ->
  Z.of_nat n <= Libc.INT_MAX ->
  parse_array_header str k
  = Some (false, [], Z.of_nat n,
          (k + length (Libc.print_int (Z.of_nat n)) + 3)%nat).
Proof.
  intros H Hmax.
  destruct (print_int_nat n) as [Hdig [Hne Hval]].
  set (digits := Libc.print_int (Z.of_nat n)) in *.
  assert (H1 : left_at str (S k) (digits ++ "]"%char :: ":"%char :: rest)).
  { replace (S k) with (k + length ["["%char])%nat by (simpl; lia).
    apply left_at_advance. exact H. }
  assert (H2 : left_at str (S k + length digits) ("]"%char :: ":"%char :: rest))
    by (apply left_at_advance; exact H1).
  assert (H3 : left_at str (S (S k + length digits)) (":"%char :: rest)).
  { replace (S (S k + length digits))
      with (S k + length digits + length ["]"%char])%nat by (simpl; lia).
    apply left_at_advance. exact H2. }
  unfold parse_array_header.
  destruct digits as [|d0 ds] eqn:Ed; [contradiction|]. rewrite <- Ed in *.
  assert (H1' := H1). rewrite Ed in H1'. cbn [app] in H1'.
  destruct (left_at_char _ _ _ _ H1') as [Hc [Hlt _]].
  rewrite Hc, Hlt.
  rewrite isdigit_not_brace
    by (rewrite Ed in Hdig; cbn [forallb] in Hdig;
        apply andb_true_iff in Hdig; tauto).
  cbn [andb].
  rewrite (scan_while_at str Libc.isdigit (S k) digits _ H1 Hdig)
    by reflexivity.
  replace (S k + length digits - S k)%nat with (length digits) by lia.
  rewrite (substr_at str (S k) digits _ H1).
  rewrite Ed at 1. rewrite <- Ed.
  unfold Libc.stoi. rewrite Hval.
  replace (Z.of_nat n <=? Libc.INT_MAX) with true
    by (symmetry; apply Z.leb_le; exact Hmax).
  rewrite (scan_while_at str _ (S k + length digits) [] _ H2 eq_refl)
    by reflexivity.
  cbn [length]. rewrite Nat.add_0_r.
  destruct (left_at_char _ _ _ _ H2) as [_ [Hlt2 _]]. rewrite Hlt2.
  destruct (left_at_char _ _ _ _ H3) as [Hc3 [Hlt3 _]]. rewrite Hlt3, Hc3.
  cbn [Ascii.eqb Bool.eqb andb]. do 3 f_equal. lia.
Qed.

Lemma left_at_nil_ltb str k : left_at str k [] -> (k <? size str)%nat = false.
Proof.
  intros H. apply left_at_end in H. subst k. apply Nat.ltb_irrefl.
Qed.

Lemma dump_elements_cons v rest level :
  dump_elements dump (v :: rest) level
  = dump v level
    ++ match rest with
       | [] => []
       | _ => ","%char :: " "%char :: dump_elements dump rest level
       end.
Proof.
  cbn [dump_elements]. destruct rest; reflexivity.
Qed.

Ltac norm_state := repeat (rewrite i_set_i || rewrite set_i_set_i).

(** ** Round trip: keys in ascending order *)

Lemma str_ltb_irrefl s : str_ltb s s = false.
Proof.
  induction s as [|a s IH]; [reflexivity|].
  cbn [str_ltb]. rewrite Z.ltb_irrefl. exact IH.
Qed.

Lemma str_ltb_asym s : forall t, str_ltb s t = true -> str_ltb t s = false.
Proof.
  induction s as [|a s IH]; intros [|b t] H; try reflexivity;
    try discriminate H.
  cbn [str_ltb] in *.
  destruct (code a <? code b) eqn:E1.
  - apply Z.ltb_lt in E1.
    replace (code b <? code a) with false by (symmetry; apply Z.ltb_ge; lia).
    replace (code a <? code b) with true by (symmetry; apply Z.ltb_lt; lia).
    reflexivity.
  - destruct (code b <? code a) eqn:E2; [discriminate H|].
    apply IH, H.
Qed.

Lemma map_assign_last key x : forall obj,
  forallb (fun kv => str_ltb (fst kv) key) obj = true ->
  map_assign key x obj = obj ++ [(key, x)].
Proof.
  induction obj as [|[k y] obj IH]; intros H; [reflexivity|].
  cbn [forallb fst] in H. apply andb_true_iff in H. destruct H as [Hk H].
  cbn [map_assign app].
  replace (str_eqb key k) with false.
  - rewrite (str_ltb_asym _ _ Hk), IH by exact H. reflexivity.
  - symmetry. apply str_eqb_neq. intros ->.
    rewrite str_ltb_irrefl in Hk. discriminate.
Qed.

Lemma left_at_ltb str k rest :
  left_at str k rest -> rest <> [] -> (k <? size str)%nat = true.
Proof.
  intros H Hne. destruct rest as [|c r]; [contradiction|].
  apply (left_at_char _ _ _ _ H).
Qed.

Lemma set_i_same p : set_i p (i p) = p.
Proof. destruct p. reflexivity. Qed.

Lemma key_ok_token k rest :
  key_ok k = true -> token_start (k ++ ":"%char :: rest).
Proof.
  unfold key_ok. intros H. apply andb_true_iff in H. destruct H as [_ H].
  destruct k as [|c k]; cbn [app token_start].
  - repeat split. discriminate.
  - repeat (apply andb_true_iff in H; destruct H as [H ?]).
    repeat match goal with
           | H : negb _ = true |- _ => apply negb_true_iff in H
           end.
    repeat split; auto. apply Ascii.eqb_neq. assumption.
Qed.

(** ** Round trip: the dispatch at the top *)

Lemma escape_char_no_colon c :
  decodable c = true -> Ascii.eqb c ":" = false ->
  str_contains (escape_char c) ":" = false.
Proof.
  intros Hd Hc. unfold escape_char.
  repeat match goal with
         | |- context [if Ascii.eqb c ?x then _ else _] =>
             let E := fresh "E" in
             destruct (Ascii.eqb c x) eqn:E; [reflexivity|]
         end.
  destruct (code c <=? 31) eqn:Ec.
  - exfalso. unfold decodable in Hd. rewrite E3, E4, E5 in Hd.
    rewrite !orb_false_r in Hd. apply Z.leb_le in Hd, Ec. lia.
  - unfold str_contains. cbn [existsb]. rewrite Ascii.eqb_sym, Hc. reflexivity.
Qed.

Lemma str_contains_app s t c :
  str_contains (s ++ t) c = str_contains s c || str_contains t c.
Proof. unfold str_contains. apply existsb_app. Qed.

Lemma dump_string_no_colon s :
  safe_string s = true -> str_contains s ":" = false ->
  str_contains (dump_string s) ":" = false.
Proof.
  intros Hs Hc. unfold dump_string.
  unfold safe_string, plain_string, quoted_string in Hs.
  destruct (needs_quoting s); cbn [negb andb orb] in Hs |- *; [|exact Hc].
  rewrite !str_contains_app. cbn [str_contains existsb Ascii.eqb Bool.eqb orb].
  rewrite orb_false_r.
  induction s as [|c s IH]; [reflexivity|].
  cbn [forallb] in Hs. apply andb_true_iff in Hs. destruct Hs as [Hd Hs].
  unfold str_contains in Hc. cbn [existsb] in Hc.
  apply orb_false_iff in Hc. destruct Hc as [Hc Hc'].
  cbn [flat_map]. rewrite str_contains_app, IH by assumption.
  rewrite escape_char_no_colon; auto; rewrite Ascii.eqb_sym; exact Hc.
Qed.

Lemma equals_scalar v : scalar v = true -> equals v v = Some true.
Proof.
  destruct v; try discriminate; intros _; cbn [equals].
  - reflexivity.
  - rewrite Bool.eqb_reflx. reflexivity.
  - rewrite str_eqb_refl. reflexivity.
Qed.

Lemma parse_dispatch input c t fuel err0 :
  input = c :: t ->
  is_blank c = false -> is_newline c = false -> Ascii.eqb c "#" = false ->
  parse fuel input err0
  = if Ascii.eqb c "[" then parse_value input fuel (mkParser 0 err0 false)
    else if str_contains input ":"
         then parse_object input fuel (-1) (mkParser 0 err0 false)
         else parse_value input fuel (mkParser 0 err0 false).
Proof.
  intros E Hb Hnl Hh. unfold parse.
  rewrite (consume_garbage_at input (mkParser 0 err0 false) [] input);
    [|apply left_at_start|reflexivity
     |rewrite E; repeat split; auto; apply Ascii.eqb_neq; exact Hh].
  cbn [i set_i length Nat.add err failed].
  rewrite E. cbn [length Nat.eqb]. unfold char_at. cbn [nth]. reflexivity.
Qed.

(** ** Indentation of the line of an offset *)

Lemma line_start_app sp : forall pre0 rest,
  forallb (fun c => negb (is_newline c)) sp = true ->
  (pre0 = [] \/ exists pre1, pre0 = pre1 ++ ["010"%char]) ->
  line_start (pre0 ++ sp ++ rest) (length pre0 + length sp) = length pre0.
Proof.
  induction sp as [|c sp IH] using rev_ind; intros pre0 rest Hsp Hpre.
  - cbn [length app]. rewrite Nat.add_0_r.
    destruct Hpre as [->|[pre1 ->]]; [reflexivity|].
    rewrite length_app. cbn [length]. rewrite Nat.add_1_r.
    cbn [line_start]. rewrite <- app_assoc. cbn [app].
    rewrite char_at_app. reflexivity.
  - rewrite forallb_app in Hsp. apply andb_true_iff in Hsp.
    destruct Hsp as [Hsp Hc]. cbn [forallb] in Hc. rewrite andb_true_r in Hc.
    apply negb_true_iff in Hc.
    rewrite length_app. cbn [length].
    replace (length pre0 + (length sp + 1))%nat
      with (S (length pre0 + length sp)) by lia.
    cbn [line_start].
    replace (pre0 ++ (sp ++ [c]) ++ rest) with ((pre0 ++ sp) ++ c :: rest)
      by (rewrite <- !app_assoc; reflexivity).
    replace (length pre0 + length sp)%nat with (length (pre0 ++ sp))
      by apply length_app.
    rewrite char_at_app, Hc.
    rewrite length_app, <- app_assoc. apply (IH pre0 (c :: rest) Hsp Hpre).
Qed.

Lemma indent_loop_spaces m : forall pre rest n count,
  match rest with
  | [] => True
  | c :: _ => Ascii.eqb c " " = false /\ Ascii.eqb c "009" = false
  end ->
  (m + length rest <= n)%nat ->
  indent_loop (pre ++ repeat " "%char m ++ rest) n (length pre) count
  = count + Z.of_nat m.
Proof.
  induction m as [|m IH]; intros pre rest n count Hrest Hn.
  - cbn [repeat app]. rewrite Z.add_0_r.
    destruct n as [|n]; [reflexivity|]. cbn [indent_loop]. unfold size.
    destruct rest as [|c r].
    + rewrite app_nil_r, Nat.ltb_irrefl. reflexivity.
    + rewrite char_at_app. destruct Hrest as [-> ->].
      rewrite andb_false_r. reflexivity.
  - destruct n as [|n]; [lia|]. cbn [repeat app indent_loop]. unfold size.
    rewrite ltb_app_cons, char_at_app. cbn [Ascii.eqb Bool.eqb andb orb].
    replace (pre ++ " "%char :: repeat " "%char m ++ rest)
      with ((pre ++ [" "%char]) ++ repeat " "%char m ++ rest)
      by (rewrite <- app_assoc; reflexivity).
    replace (S (length pre)) with (length (pre ++ [" "%char]))
      by (rewrite length_app; cbn [length]; lia).
    rewrite IH; [lia|exact Hrest|lia].
Qed.

Lemma repeat_space_no_newline m :
  forallb (fun c => negb (is_newline c)) (repeat " "%char m) = true.
Proof. induction m; [reflexivity|exact IHm]. Qed.

Lemma get_indent_at_line str p m rest :
  at_line str (i p) m -> left_at str (i p) rest ->
  match rest with
  | [] => True
  | c :: _ => is_blank c = false
  end ->
  get_indent str p = Z.of_nat m.
Proof.
  intros [pre0 [Hpre [Hnl Hk]]] [_ Hrest] Hc. unfold get_indent.
  assert (Hstr : str = pre0 ++ repeat " "%char m ++ rest).
  { rewrite <- (firstn_skipn (i p) str), Hpre, Hrest, <- app_assoc.
    reflexivity. }
  assert (Hi : i p = (length pre0 + length (repeat " "%char m))%nat).
  { rewrite <- length_app, <- Hpre. symmetry. apply firstn_length_le, Hk. }
  rewrite Hi, Hstr, line_start_app;
    [|apply repeat_space_no_newline|exact Hnl].
  unfold size. rewrite indent_loop_spaces; [lia| |].
  - destruct rest as [|c r]; [exact I|]. unfold is_blank in Hc.
    apply orb_false_iff in Hc. destruct Hc as [Hc H3].
    apply orb_false_iff in Hc. tauto.
  - rewrite !length_app, repeat_length. lia.
Qed.

Lemma at_line_start str : at_line str 0 0.
Proof. exists []. repeat split; auto. lia. Qed.

Lemma at_line_after str k m rest :
  left_at str k ("010"%char :: repeat " "%char m ++ rest) ->
  at_line str (k + 1 + m) m.
Proof.
  intros H. destruct (left_at_split _ _ _ H) as [pre [-> <-]].
  exists (pre ++ ["010"%char]). split; [|split].
  - replace (pre ++ "010"%char :: repeat " "%char m ++ rest)
      with ((pre ++ ["010"%char] ++ repeat " "%char m) ++ rest)
      by (rewrite <- !app_assoc; reflexivity).
    rewrite firstn_app.
    replace (length pre + 1 + m)%nat
      with (length (pre ++ ["010"%char] ++ repeat " "%char m))
      by (rewrite !length_app, repeat_length; cbn [length]; lia).
    rewrite firstn_all, Nat.sub_diag. cbn [firstn].
    rewrite app_nil_r, app_assoc. reflexivity.
  - right. exists pre. reflexivity.
  - rewrite !length_app. cbn [length]. rewrite length_app, repeat_length. lia.
Qed.

(** ** Round trip: the header and the lines of a table *)

Lemma failed_set_i p k : failed (set_i p k) = failed p.
Proof. reflexivity. Qed.

Lemma repeat_space_gap m : forallb is_gap (repeat " "%char m) = true.
Proof. induction m; [reflexivity|exact IHm]. Qed.

Lemma gap_is_gap s : forallb is_gap (gap s) = true.
Proof. destruct s; [reflexivity|]. cbn [gap forallb]. apply repeat_space_gap. Qed.

Lemma text_line_end s : line_end (text s).
Proof. destruct s; [exact I|reflexivity]. Qed.

Lemma rows_text_line_end rows w s : line_end (rows_text rows w ++ text s).
Proof. destruct rows; [apply text_line_end|reflexivity]. Qed.

(** the decoder stands before the line that follows a block: it skips the
    gap and finds the indentation of that line *)
Lemma suffix_line str p m tok P :
  left_at str (i p) (text (Line m tok)) -> suffix_ok (Line m tok) P ->
  consume_garbage str p = set_i p (i p + S m)
  /\ left_at str (i p + S m) tok
  /\ at_line str (i p + S m) m
  /\ get_indent str (set_i p (i p + S m)) = Z.of_nat m
  /\ ((i p + S m =? size str)%nat = false).
Proof.
  intros H [Hm [Hne Htok]]. unfold text in H. cbn [gap after] in H.
  assert (Hlen : length ("010"%char :: repeat " "%char m) = S m)
    by (cbn [length]; rewrite repeat_length; reflexivity).
  assert (H1 : left_at str (i p + S m) tok).
  { rewrite <- Hlen. apply left_at_advance. exact H. }
  assert (Hat : at_line str (i p + S m) m).
  { replace (i p + S m)%nat with (i p + 1 + m)%nat by lia.
    apply (at_line_after str (i p) m tok). exact H. }
  split; [|split; [exact H1|split; [exact Hat|split]]].
  - rewrite <- Hlen. apply (consume_garbage_at str p _ tok H); [|exact Htok].
    apply (gap_is_gap (Line m tok)).
  - apply (get_indent_at_line str _ m tok); rewrite ?i_set_i; auto.
    destruct tok as [|c t]; [exact I|]. apply Htok.
  - destruct tok as [|c t]; [contradiction|].
    apply (left_at_char _ _ _ _ H1).
Qed.

Lemma header_key_parts k :
  header_key_ok k = true ->
  (exists c t, k = c :: t /\ is_blank c = false /\ Ascii.eqb c "}" = false)
  /\ forallb (fun c => negb (Ascii.eqb c ",") && negb (Ascii.eqb c "}")) k
     = true
  /\ find_first_not_of k (lit " ") = Some O
  /\ find_last_not_of k (lit " ") = Some (length k - 1)%nat.
Proof.
  unfold header_key_ok. intros H.
  apply andb_true_iff in H. destruct H as [H Hlast].
  apply andb_true_iff in H. destruct H as [Hfirst Hall].
  destruct k as [|c t]; [discriminate|].
  apply negb_true_iff in Hfirst, Hlast.
  assert (Hsp : Ascii.eqb c " " = false).
  { unfold is_blank in Hfirst. apply orb_false_iff in Hfirst.
    destruct Hfirst as [Hfirst _]. apply orb_false_iff in Hfirst. tauto. }
  split; [|split; [exact Hall|split]].
  - exists c, t. repeat split; auto.
    cbn [forallb] in Hall. apply andb_true_iff in Hall.
    destruct Hall as [Hc _]. apply andb_true_iff in Hc.
    destruct Hc as [_ Hc]. apply negb_true_iff in Hc. exact Hc.
  - cbn [find_first_not_of lit list_ascii_of_string str_contains existsb].
    rewrite Hsp. reflexivity.
  - apply find_last_not_of_last; [discriminate|].
    cbn [lit list_ascii_of_string str_contains existsb].
    rewrite Hlast. reflexivity.
Qed.

Lemma dump_header_keys_cons k rest :
  dump_header_keys (k :: rest)
  = k ++ match rest with
         | [] => []
         | _ => ","%char :: " "%char :: dump_header_keys rest
         end.
Proof. cbn [dump_header_keys]. destruct rest; reflexivity. Qed.

Lemma header_loop_keys todo : forall str n k acc g rest,
  forallb header_key_ok todo = true ->
  forallb is_blank g = true -> (todo = [] -> g = []) ->
  left_at str k (g ++ dump_header_keys todo ++ "}"%char :: rest) ->
  (length g + length (dump_header_keys todo) < n)%nat ->
  header_loop str n k acc
  = ((k + length g + length (dump_header_keys todo))%nat, acc ++ todo).
Proof.
  induction todo as [|key todo IH]; intros str n k acc g rest Hok Hg Hnil H Hn;
    (destruct n as [|n]; [lia|]); cbn [header_loop].
  - rewrite (Hnil eq_refl) in *. cbn [app dump_header_keys length] in *.
    destruct (left_at_char _ _ _ _ H) as [-> [-> _]].
    cbn [Ascii.eqb Bool.eqb negb andb]. rewrite app_nil_r, !Nat.add_0_r.
    reflexivity.
  - cbn [forallb] in Hok. apply andb_true_iff in Hok. destruct Hok as [Hk Hrest].
    destruct (header_key_parts key Hk)
      as [[c [t [Ekey [Hcb Hcbr]]]] [Hall [Hff Hfl]]].
    rewrite dump_header_keys_cons in H, Hn |- *. rewrite <- app_assoc in H.
    rewrite length_app in Hn.
    assert (Hlen : (1 <= length key)%nat)
      by (rewrite Ekey; cbn [length]; lia).
    set (follow := match todo with
                   | [] => []
                   | _ :: _ => ","%char :: " "%char :: dump_header_keys todo
                   end ++ "}"%char :: rest) in *.
    assert (Hfirst : (k <? size str)%nat
                     && negb (Ascii.eqb (char_at str k) "}") = true).
    { destruct g as [|b g'].
      - rewrite Ekey in H. cbn [app] in H.
        destruct (left_at_char _ _ _ _ H) as [-> [-> _]]. rewrite Hcbr.
        reflexivity.
      - cbn [app] in H. destruct (left_at_char _ _ _ _ H) as [-> [-> _]].
        cbn [forallb] in Hg. apply andb_true_iff in Hg. destruct Hg as [Hb _].
        destruct (Ascii.eqb b "}") eqn:E; [|reflexivity].
        apply Ascii.eqb_eq in E. subst b. discriminate Hb. }
    rewrite Hfirst.
    rewrite (scan_while_at str is_blank k g _ H Hg)
      by (rewrite Ekey; exact Hcb).
    assert (H1 := left_at_advance str k g _ H).
    assert (Hstop : stops (fun c => negb (Ascii.eqb c ",")
                                    && negb (Ascii.eqb c "}")) follow)
      by (subst follow; destruct todo; reflexivity).
    rewrite (scan_while_at str _ (k + length g) key follow H1 Hall Hstop).
    replace (k + length g + length key - (k + length g))%nat
      with (length key) by lia.
    rewrite (substr_at str _ key follow H1), Hff, Hfl.
    replace (substr key 0 (length key - 1 - 0 + 1)) with key.
    2:{ unfold substr. cbn [skipn].
        replace (length key - 1 - 0 + 1)%nat with (length key)
          by (rewrite Ekey; cbn [length]; lia).
        symmetry. apply firstn_all. }
    assert (H2 := left_at_advance str _ key follow H1).
    unfold follow in H2. destruct todo as [|key' todo].
    + cbn [app] in H2. destruct (left_at_char _ _ _ _ H2) as [-> [-> _]].
      cbn [Ascii.eqb Bool.eqb andb].
      rewrite (IH str n _ (acc ++ [key]) [] rest); auto.
      * cbn [length dump_header_keys]. rewrite <- app_assoc, length_app.
        cbn [app length]. f_equal. lia.
      * cbn [length dump_header_keys]. lia.
    + cbn [app] in H2. destruct (left_at_char _ _ _ _ H2) as [-> [-> _]].
      cbn [Ascii.eqb Bool.eqb andb].
      assert (H3 := left_at_advance str _ [","%char] _ H2).
      cbn [length app] in H3.
      rewrite (IH str n _ (acc ++ [key]) [" "%char] rest); auto.
      * rewrite <- app_assoc. cbn [app]. f_equal.
        repeat (rewrite length_app; cbn [length]). lia.
      * discriminate.
      * replace (S (k + length g + length key))
          with (k + length g + length key + 1)%nat by lia.
        exact H3.
      * cbn [length] in Hn |- *. lia.
Qed.

Lemma indent_nat L : indent (Z.of_nat L) = repeat " "%char (2 * L).
Proof.
  unfold indent. rewrite Nat2Z.id. induction L as [|L IH]; [reflexivity|].
  replace (2 * S L)%nat with (S (S (2 * L))) by lia.
  cbn [repeat concat]. rewrite IH. reflexivity.
Qed.

Lemma keys_eqb_eq k : forall l, keys_eqb k l = true -> k = l.
Proof.
  induction k as [|a k IH]; intros [|b l] H; try discriminate H;
    [reflexivity|].
  cbn [keys_eqb] in H. apply andb_true_iff in H. destruct H as [Hab H].
  apply str_eqb_eq in Hab. rewrite Hab, (IH l H). reflexivity.
Qed.

Lemma ascending_keys o1 : forall o2,
  map fst o1 = map fst o2 -> ascending o1 = true -> ascending o2 = true.
Proof.
  induction o1 as [|[k x] o1 IH]; intros [|[k' x'] o2] E H;
    try discriminate E; [reflexivity|].
  cbn [map fst] in E. injection E as <- E.
  cbn [ascending] in *. apply andb_true_iff in H. destruct H as [Hk H].
  rewrite (IH o2 E H), andb_true_r.
  clear IH H. revert o2 E Hk.
  induction o1 as [|[l y] o1 IH]; intros [|[l' y'] o2] E Hk;
    try discriminate E; [reflexivity|].
  cbn [map fst] in E. injection E as <- E.
  cbn [forallb fst] in *. apply andb_true_iff in Hk. destruct Hk as [-> Hk].
  apply (IH o2 E Hk).
Qed.

Lemma dump_cells_skip k x o keys level :
  (forall k', In k' keys -> str_eqb k' k = false) ->
  dump_cells dump ((k, x) :: o) keys level = dump_cells dump o keys level.
Proof.
  induction keys as [|k' keys IH]; intros H; [reflexivity|].
  cbn [dump_cells dump_at]. rewrite (H k') by (left; reflexivity).
  rewrite IH; [reflexivity|]. intros l Hl. apply H. right. exact Hl.
Qed.

Lemma left_at_length str k rest :
  left_at str k rest -> length str = (k + length rest)%nat.
Proof.
  intros H. destruct (left_at_split _ _ _ H) as [pre [-> <-]].
  apply length_app.
Qed.

Lemma parse_array_header_tabular str k keys rest :
  left_at str k
    ("["%char :: "{"%char :: dump_header_keys keys
     ++ "}"%char :: "]"%char :: ":"%char :: rest) ->
  forallb header_key_ok keys = true ->
  parse_array_header str k
  = Some (true, keys, -1, (k + length (dump_header_keys keys) + 5)%nat).
Proof.
  intros H Hok. set (hk := dump_header_keys keys) in *.
  pose proof (left_at_length _ _ _ H) as Hsize.
  cbn [length] in Hsize. rewrite length_app in Hsize. cbn [length] in Hsize.
  assert (H1 := left_at_advance str k ["["%char] _ H).
  cbn [length app] in H1.
  assert (H2 := left_at_advance str _ ["{"%char] _ H1).
  cbn [length app] in H2.
  assert (H3 := left_at_advance str _ hk _ H2).
  assert (H4 := left_at_advance str _ ["}"%char] _ H3).
  cbn [length app] in H4.
  assert (H5 := left_at_advance str _ ["]"%char] _ H4).
  cbn [length app] in H5.
  unfold parse_array_header.
  replace (S k) with (k + 1)%nat by lia.
  destruct (left_at_char _ _ _ _ H1) as [-> [-> _]].
  cbn [Ascii.eqb Bool.eqb andb].
  replace (S (k + 1)) with (k + 1 + 1)%nat by lia.
  rewrite (header_loop_keys keys str _ (k + 1 + 1) [] [] _ Hok eq_refl
             (fun _ => eq_refl) H2)
    by (unfold size; cbn [length]; fold hk; lia).
  cbn [length app]. rewrite Nat.add_0_r. fold hk.
  destruct (left_at_char _ _ _ _ H3) as [_ [-> _]].
  replace (S (k + 1 + 1 + length hk)) with (k + 1 + 1 + length hk + 1)%nat
    by lia.
  rewrite (scan_while_at str _ _ [] _ H4 eq_refl) by reflexivity.
  cbn [length]. rewrite Nat.add_0_r.
  destruct (left_at_char _ _ _ _ H4) as [_ [-> _]].
  replace (S (k + 1 + 1 + length hk + 1))
    with (k + 1 + 1 + length hk + 1 + 1)%nat by lia.
  destruct (left_at_char _ _ _ _ H5) as [-> [-> _]].
  cbn [Ascii.eqb Bool.eqb andb]. do 3 f_equal. lia.
Qed.

(** ** Round trip: the entries of an object *)

Lemma nested_object o :
  nested_value (ToonObject o)
  = negb (match o with [] => true | _ => false end) && ascending o
    && forallb (fun kv => key_ok (fst kv) && nested_value (snd kv)) o.
Proof. reflexivity. Qed.

Lemma fuel_for_entry o kv :
  In kv o -> (fuel_for (snd kv) + length o + 3 <= fuel_for (ToonObject o))%nat.
Proof.
  cbn [fuel_for]. intros H.
  assert (fuel_for (snd kv)
          <= (fix total (l : object) : nat :=
                match l with
                | [] => O
                | kv :: r => fuel_for (snd kv) + total r
                end) o)%nat; [|lia].
  induction o as [|kv' o IH]; [contradiction|].
  destruct H as [->|H]; [lia|]. specialize (IH H). lia.
Qed.

Lemma fuel_for_pos v : (1 <= fuel_for v)%nat.
Proof. destruct v; cbn [fuel_for]; lia. Qed.

Lemma dump_entries_value k x rest first L :
  dump_entries dump ((k, x) :: rest) first (Z.of_nat L)
  = (if first then [] else "010"%char :: repeat " "%char (2 * L))
    ++ k ++ ":"%char :: " "%char :: value_text L x
    ++ dump_entries dump rest false (Z.of_nat L).
Proof.
  cbn [dump_entries]. unfold value_text.
  replace (Z.of_nat L + 1) with (Z.of_nat (S L)) by lia.
  rewrite !indent_nat.
  destruct first, x; cbn [negb is_object is_array orb app lit
                          list_ascii_of_string];
    rewrite <- ?app_assoc; reflexivity.
Qed.

Lemma rest_suffix_text rest L s :
  dump_entries dump rest false (Z.of_nat L) ++ text s
  = text (rest_suffix rest L s).
Proof.
  destruct rest as [|[k x] rest]; [reflexivity|].
  unfold rest_suffix, text at 2. cbn [gap after].
  rewrite !dump_entries_value. cbn [app]. rewrite <- !app_assoc. reflexivity.
Qed.

Lemma suffix_ok_le s P P' : suffix_ok s P -> P <= P' -> suffix_ok s P'.
Proof. destruct s; [auto|]. cbn [suffix_ok]. intros [? ?] ?. split; [lia|auto]. Qed.

(** a value that ends before [s] leaves the decoder before the gap of [s] *)
Lemma returns_inline str p v s P k :
  left_at str k (text s) -> suffix_ok s P ->
  returns_before str p v s (Returns v (set_i p k)).
Proof.
  intros H Hs. exists k, (gap s). split; [reflexivity|].
  split; [apply gap_is_gap|]. split; [exact H|]. split.
  - destruct s as [|m tok]; [reflexivity|]. destruct Hs as [_ [Hne _]].
    intros E. contradiction.
  - intros Hne. destruct s as [|m tok]; [contradiction|].
    cbn [gap width length]. rewrite repeat_length.
    replace (k + S m)%nat with (k + 1 + m)%nat by lia.
    apply (at_line_after str k m tok). exact H.
Qed.

Lemma returns_block str p q v s o :
  returns_at str q v s o -> (forall k, set_i q k = set_i p k) ->
  returns_before str p v s o.
Proof.
  intros [k [E [H Hat]]] Hq. exists k, []. rewrite E, Hq.
  cbn [app length]. rewrite Nat.add_0_r. auto.
Qed.

Lemma key_ok_first k rest :
  key_ok k = true ->
  exists c t, k ++ ":"%char :: rest = c :: t /\ Ascii.eqb c "[" = false.
Proof.
  unfold key_ok. intros H. apply andb_true_iff in H. destruct H as [_ H].
  destruct k as [|c k]; cbn [app].
  - eexists _, _. split; reflexivity.
  - apply andb_true_iff in H. destruct H as [_ H]. apply negb_true_iff in H.
    eexists _, _. split; [reflexivity|exact H].
Qed.

(** ** Round trip: what is not read back *)

Lemma equals_array_refl a :
  (forall x, In x a -> equals x x = Some true) ->
  equals (ToonArray a) (ToonArray a) = Some true.
Proof.
  intros Ha. cbn [equals]. rewrite Nat.eqb_refl. cbn [negb].
  induction a as [|v a IH]; [reflexivity|].
  rewrite (Ha v) by (left; reflexivity).
  apply IH. intros x Hx. apply Ha. right. exact Hx.
Qed.

Lemma equals_object_refl o :
  (forall kv, In kv o -> equals (snd kv) (snd kv) = Some true) ->
  equals (ToonObject o) (ToonObject o) = Some true.
Proof.
  intros Ho. cbn [equals]. rewrite Nat.eqb_refl. cbn [negb].
  induction o as [|[k x] o IH]; [reflexivity|].
  rewrite str_eqb_refl. cbn [negb].
  pose proof (Ho (k, x) (or_introl eq_refl)) as Hx. cbn [snd] in Hx.
  rewrite Hx.
  apply IH. intros kv Hkv. apply Ho. right. exact Hkv.
Qed.

(** One input of each kind that [readable_document] leaves out, and what
    becomes of it: an integer comes back as a double, which [operator==]
    casts to the class of the integer; an exponent is written with a sign
    the number scanner does not take; an unquoted string is cut at a
    keyword, trimmed, or read as a number; a quoted string with a colon at
    the top, a key with a colon or behind a [#], an empty object, objects
    that are not the rows of a table and a header key with a comma are read
    as something else; after a table among the elements of an array, and in
    a row with a table in a cell, the decoder has not returned when its
    fuel is spent. *)
Lemma round_trip_limits :
  read_back (ToonInt 30)
  = Some (ToonDouble (Libc.decimal_to_double false 30 0), None)
  /\ read_back (ToonDouble (Libc.decimal_to_double false 1 20))
     = Some (ToonDouble (Libc.decimal_to_double false 1 0), Some false)
  /\ read_back (ToonString (lit "nullable")) = Some (ToonNull, Some false)
  /\ read_back (ToonString (lit " a"))
     = Some (ToonString (lit "a"), Some false)
  /\ read_back (ToonString (lit "a "))
     = Some (ToonString (lit "a"), Some false)
  /\ read_back (ToonString (lit "1abc"))
     = Some (ToonDouble (Libc.decimal_to_double false 1 0), Some false)
  /\ read_back (ToonString (lit "a:b"))
     = Some (ToonObject [("034"%char :: lit "a",
                          ToonString (lit "b" ++ ["034"%char]))],
             Some false)
  /\ read_back (ToonObject [(lit "a:b", ToonNull)])
     = Some (ToonObject [([], ToonNull); (lit "a", ToonString (lit "b"))],
             Some false)
  /\ read_back (ToonObject [(lit "#k", ToonNull)])
     = Some (ToonNull, Some false)
  /\ read_back (ToonArray [ToonObject []]) = Some (ToonArray [], Some false)
  /\ read_back (ToonArray [ToonObject [(lit "a", ToonNull)];
                           ToonObject [(lit "b", ToonNull)]])
     = Some (ToonArray [ToonString (lit "a"); ToonString []], Some false)
  /\ read_back (ToonArray [ToonNull; ToonObject [(lit "b", ToonNull)]])
     = Some (ToonArray [ToonNull; ToonString (lit "b")], Some false)
  /\ read_back (ToonObject [(lit "o", ToonObject []); (lit "p", ToonNull)])
     = Some (ToonObject [(lit "o", ToonObject [(lit "p", ToonNull)])],
             Some false)
  /\ read_back (ToonArray [ToonObject [(lit "a, b", ToonNull)]])
     = Some (ToonArray [], Some false)
  /\ parse 300
       (dump (ToonArray [ToonArray [ToonObject [(lit "a", ToonNull)]];
                         ToonNull]) 0) []
     = OutOfFuel
  /\ parse 300
       (dump (ToonArray
                [ToonObject
                   [(lit "a", ToonArray [ToonObject [(lit "b", ToonNull)]]);
                    (lit "c", ToonNull)]]) 0) []
     = OutOfFuel.
Proof. vm_compute. repeat split; reflexivity. Qed.

(** C1 as worded fails: the empty object holds no number, its text is
    empty, and the empty text is decoded to Null, which is not equal to
    the empty object. *)
Lemma C1_counterexample :
  (forall fuel err0,
     parse fuel (dump (ToonObject []) 0) err0
     = Returns ToonNull (mkParser 0 err0 false))
  /\ equals ToonNull (ToonObject []) = Some false
  /\ equals (ToonObject []) ToonNull = Some false.
Proof.
  split; [|split]; reflexivity.
Qed.

(** * Further properties of the codec *)

(** ** The decoder: an element count that is not an [int] *)

Lemma parse_array_header_overflow str k digits rest :
  left_at str k ("["%char :: digits ++ rest) ->
  digits <> [] -> forallb Libc.isdigit digits = true ->
  stops Libc.isdigit rest ->
  Libc.INT_MAX < Libc.dec_value digits ->
  parse_array_header str k = None.
Proof.
  intros H Hne Hdig Hrest Hmax.
  assert (H1 : left_at str (S k) (digits ++ rest)).
  { replace (S k) with (k + length ["["%char])%nat by (cbn [length]; lia).
    apply left_at_advance. exact H. }
  unfold parse_array_header.
  destruct digits as [|d ds] eqn:Ed; [contradiction|]. rewrite <- Ed in *.
  assert (H1c := H1). rewrite Ed in H1c. cbn [app] in H1c.
  destruct (left_at_char _ _ _ _ H1c) as [Hc1 [Hlt1 _]].
  rewrite Hlt1, Hc1.
  rewrite isdigit_not_brace
    by (rewrite Ed in Hdig; cbn [forallb] in Hdig;
        apply andb_true_iff in Hdig; tauto).
  cbn [andb].
  rewrite (scan_while_at str Libc.isdigit (S k) digits rest H1 Hdig Hrest).
  replace (S k + length digits - S k)%nat with (length digits) by lia.
  rewrite (substr_at str (S k) digits rest H1).
  rewrite Ed at 1. rewrite <- Ed. unfold Libc.stoi.
  replace (Libc.dec_value digits <=? Libc.INT_MAX) with false
    by (symmetry; apply Z.leb_gt; exact Hmax).
  reflexivity.
Qed.

(** [std::stoi] throws [std::out_of_range] on a count above [INT_MAX], and
    nothing in the decoder catches it: [Toon::parse] throws on an array
    header with such a count, whatever follows it. *)
Theorem parse_count_out_of_range (digits rest : list ascii) (k : nat)
  (err0 : list ascii) :
  digits <> [] -> forallb Libc.isdigit digits = true ->
  stops Libc.isdigit rest ->
  Libc.INT_MAX < Libc.dec_value digits ->
  parse (2 + k) ("["%char :: digits ++ rest) err0 = Throws (lit "stoi").
Proof.
  intros Hne Hdig Hrest Hmax.
  set (str := "["%char :: digits ++ rest).
  rewrite (parse_dispatch str "["%char (digits ++ rest)) by reflexivity.
  cbn [Ascii.eqb Bool.eqb Nat.add parse_value]. unfold parse_value_body.
  assert (H0 : left_at str 0 str) by apply left_at_start.
  rewrite (consume_whitespace_at str _ [] str);
    [|apply left_at_start|reflexivity|reflexivity].
  cbn [i set_i length Nat.add err failed].
  destruct (left_at_char str 0 "["%char (digits ++ rest) H0) as [Hc [_ Hsz]].
  rewrite Hsz, Hc. cbn [Ascii.eqb Bool.eqb parse_array].
  unfold parse_array_body. rewrite i_set_i.
  rewrite (parse_array_header_overflow str 0 digits rest H0 Hne Hdig Hrest Hmax).
  reflexivity.
Qed.

Lemma parse_count_out_of_range_witness :
  parse (2 + 0) ("["%char :: lit "2147483648" ++ lit "]: 1") []
  = Throws (lit "stoi").
Proof.
  apply (parse_count_out_of_range (lit "2147483648") (lit "]: 1") 0 []).
  - discriminate.
  - reflexivity.
  - reflexivity.
  - reflexivity.
Defined.

(** ** The decoder: a row with a cell too many *)

Lemma stuck_char_cases c :
  stuck_char c = true ->
  c = ","%char \/ c = ":"%char \/ c = "]"%char \/ c = "{"%char \/ c = "}"%char.
Proof.
  unfold stuck_char. cbn [existsb]. intros H.
  repeat (apply orb_true_iff in H; destruct H as [H|H];
          [apply Ascii.eqb_eq in H; tauto|]).
  discriminate H.
Qed.

(** at such a byte [parse_value] returns the empty string and does not
    move *)
Lemma parse_value_stuck str m p c rest :
  left_at str (i p) (c :: rest) -> stuck_char c = true ->
  parse_value str (S m) p = Returns (ToonString []) p.
Proof.
  intros H Hc. cbn [parse_value]. unfold parse_value_body.
  assert (Hcases := stuck_char_cases c Hc).
  rewrite (consume_whitespace_at str p [] (c :: rest) H eq_refl)
    by (cbn [stops]; destruct Hcases as [->|[->|[->|[->| ->]]]]; reflexivity).
  cbn [length]. rewrite Nat.add_0_r, set_i_same.
  destruct (left_at_char _ _ _ _ H) as [Hch [_ Hsz]]. rewrite Hsz, Hch.
  destruct (left_at_split _ _ _ H) as [pre [Estr Epre]].
  unfold parse_unquoted_string.
  rewrite (scan_while_at str _ (i p) [] (c :: rest) H eq_refl)
    by (cbn [stops]; destruct Hcases as [->|[->|[->|[->| ->]]]]; reflexivity).
  cbn [length]. rewrite Nat.add_0_r, Nat.sub_diag, set_i_same.
  unfold substr. cbn [firstn find_last_not_of].
  rewrite Estr, <- Epre, !compare_eq_app.
  destruct Hcases as [->|[->|[->|[->| ->]]]]; reflexivity.
Qed.

(** once a row of a one-column table at the top ends before such a byte,
    the row loop reads an empty cell there, appends a row and comes back to
    the same offset: it never leaves *)
Lemma rows_loop_stuck str m k c rest : forall n arr p,
  left_at str (i p) (c :: rest) -> stuck_char c = true -> failed p = false ->
  rows_loop str (parse_value str m) n (-1) [k] arr p = OutOfFuel.
Proof.
  induction n as [|n IH]; intros arr p H Hc Hfl; [reflexivity|].
  cbn [rows_loop].
  assert (Hcases := stuck_char_cases c Hc).
  rewrite (left_at_ltb _ _ _ H) by discriminate.
  rewrite (consume_garbage_at str p [] (c :: rest) H eq_refl)
    by (cbn [token_start];
        destruct Hcases as [->|[->|[->|[->| ->]]]];
        repeat split; discriminate).
  cbn [length]. rewrite Nat.add_0_r, set_i_same.
  destruct (left_at_char _ _ _ _ H) as [Hch [_ Hsz]]. rewrite Hsz.
  cbn [Z.eqb negb andb row_loop].
  rewrite (consume_whitespace_at str p [] (c :: rest) H eq_refl)
    by (cbn [stops]; destruct Hcases as [->|[->|[->|[->| ->]]]]; reflexivity).
  cbn [length]. rewrite Nat.add_0_r, set_i_same, Hsz, Hch.
  replace (is_newline c) with false
    by (destruct Hcases as [->|[->|[->|[->| ->]]]]; reflexivity).
  cbn [orb]. destruct m as [|m]; [reflexivity|].
  rewrite (parse_value_stuck str m p c rest H Hc). cbn [bind].
  rewrite Hfl.
  rewrite (consume_whitespace_at str p [] (c :: rest) H eq_refl)
    by (cbn [stops]; destruct Hcases as [->|[->|[->|[->| ->]]]]; reflexivity).
  cbn [length negb andb]. rewrite Nat.add_0_r, set_i_same.
  cbn [row_loop bind negb]. apply IH; assumption.
Qed.

(** A one-column table at the top whose first row holds a scalar followed
    by a comma (or a colon, a closing bracket or a brace) is never decoded:
    [Toon::parse] does not return, whatever follows and however long it
    runs. *)
Theorem parse_extra_cell_diverges (k : list ascii) (v : Toon) (c : ascii)
  (rest : list ascii) (fuel : nat) (err0 : list ascii) :
  header_key_ok k = true -> scalar v = true -> stuck_char c = true ->
  parse fuel
    ("["%char :: "{"%char :: k ++ "}"%char :: "]"%char :: ":"%char
     :: "010"%char :: dump v 0 ++ c :: rest) err0
  = OutOfFuel.
Proof.
  intros Hk Hv Hc.
  set (body := "010"%char :: dump v 0 ++ c :: rest).
  set (str := "["%char :: "{"%char :: k ++ "}"%char :: "]"%char :: ":"%char
              :: body).
  rewrite (parse_dispatch str "["%char
             ("{"%char :: k ++ "}"%char :: "]"%char :: ":"%char :: body))
    by reflexivity.
  cbn [Ascii.eqb Bool.eqb].
  destruct fuel as [|f]; [reflexivity|].
  cbn [parse_value]. unfold parse_value_body.
  assert (H0 : left_at str 0 str) by apply left_at_start.
  rewrite (consume_whitespace_at str _ [] str);
    [|apply left_at_start|reflexivity|reflexivity].
  cbn [i set_i length Nat.add err failed].
  destruct (left_at_char str 0 "["%char _ H0) as [Hch [_ Hsz]].
  rewrite Hsz, Hch. cbn [Ascii.eqb Bool.eqb].
  destruct f as [|f]; [reflexivity|].
  cbn [parse_array]. unfold parse_array_body. rewrite ?i_set_i. cbn [i].
  assert (Hh : left_at str 0
                 ("["%char :: "{"%char :: dump_header_keys [k]
                  ++ "}"%char :: "]"%char :: ":"%char :: body)).
  { cbn [dump_header_keys app]. rewrite app_nil_r. exact H0. }
  rewrite (parse_array_header_tabular str 0 [k] body Hh)
    by (cbn [forallb]; rewrite Hk; reflexivity).
  cbn [dump_header_keys app]. rewrite app_nil_r. cbn [Nat.add].
  set (j := (length k + 5)%nat).
  change (set_i (set_i (mkParser 0 err0 false) 0) j)
    with (mkParser j err0 false).
  assert (Hj : left_at str j body).
  { replace j with
      (0 + length ("["%char :: "{"%char :: k
                   ++ ["}"%char; "]"%char; ":"%char]))%nat
      by (cbn [length]; rewrite length_app; cbn [length]; unfold j; lia).
    apply left_at_advance. cbn [app]. rewrite <- app_assoc. exact H0. }
  destruct f as [|n]; [reflexivity|]. cbn [rows_loop i].
  rewrite (left_at_ltb _ _ _ Hj) by discriminate.
  destruct (scalar_first_char v 0 Hv) as [c0 [t0 [Ec [Hb [Hnl [Hh' Hbr]]]]]].
  set (p0 := mkParser j err0 false).
  assert (Hp0 : left_at str (i p0) (["010"%char] ++ dump v 0 ++ c :: rest))
    by exact Hj.
  rewrite (consume_garbage_at str p0 ["010"%char] _ Hp0 eq_refl)
    by (rewrite Ec; cbn [app token_start]; repeat split; auto;
        apply Ascii.eqb_neq; exact Hh').
  assert (H1 := left_at_advance str _ ["010"%char] _ Hp0).
  cbn [length] in H1 |- *. rewrite i_set_i.
  assert (H1c := H1). rewrite Ec in H1c. cbn [app] in H1c.
  destruct (left_at_char _ _ _ _ H1c) as [Hc1 [_ Hsz1]]. rewrite Hsz1.
  cbn [Z.eqb negb andb row_loop].
  rewrite (consume_whitespace_at str _ [] (dump v 0 ++ c :: rest));
    [|rewrite i_set_i; exact H1|reflexivity|rewrite Ec; exact Hb].
  cbn [length]. norm_state. rewrite Nat.add_0_r, Hsz1, Hc1, Hnl.
  cbn [orb].
  assert (Hcases := stuck_char_cases c Hc).
  rewrite (parse_value_scalar_at str n (set_i p0 (i p0 + 1)) v 0 (c :: rest) Hv)
    by (rewrite ?i_set_i; auto; cbn [value_end stops];
        destruct Hcases as [->|[->|[->|[->| ->]]]]; reflexivity).
  cbn [bind]. norm_state. rewrite failed_set_i.
  cbn [p0 failed].
  assert (H2 := left_at_advance str _ _ _ H1).
  rewrite (consume_whitespace_at str _ [] (c :: rest));
    [|rewrite i_set_i; exact H2|reflexivity
     |cbn [stops]; destruct Hcases as [->|[->|[->|[->| ->]]]]; reflexivity].
  cbn [length negb andb row_loop bind]. norm_state. rewrite Nat.add_0_r.
  apply (rows_loop_stuck str (S n) k c rest); rewrite ?i_set_i; auto.
Qed.

Lemma parse_extra_cell_diverges_witness :
  parse 1000
    ("["%char :: "{"%char :: lit "x" ++ "}"%char :: "]"%char :: ":"%char
     :: "010"%char :: dump (ToonString (lit "a")) 0 ++ ","%char :: lit " b")
    []
  = OutOfFuel.
Proof.
  apply (parse_extra_cell_diverges (lit "x") (ToonString (lit "a")) ","%char
           (lit " b") 1000 []); reflexivity.
Defined.

(** ** The helpers of the [\u] escape *)

Lemma hex_digit_step c n str i val :
  char_at str i = c -> Libc.isxdigit c = true ->
  0 <= val -> val * 16 + 15 < 2 ^ 32 ->
  helper_toon.hex_loop (S n) str i val
  = helper_toon.hex_loop n str (S i) (val * 16 + Libc.xdigit_val c).
Proof.
  intros Hc Hx H0 Hmax. cbn [helper_toon.hex_loop]. rewrite Hc.
  unfold Libc.isxdigit, Libc.isdigit in Hx. unfold Libc.xdigit_val, Libc.isdigit.
  change (code "0") with 48. change (code "9") with 57.
  change (code "a") with 97. change (code "f") with 102.
  change (code "A") with 65. change (code "F") with 70.
  unfold helper_toon.wrap32. rewrite Z.shiftl_mul_pow2 by lia.
  change (2 ^ 4) with 16.
  rewrite (Z.mod_small (val * 16)) by lia.
  destruct ((48 <=? code c) && (code c <=? 57)) eqn:Ed.
  - apply andb_true_iff in Ed. destruct Ed as [E1 E2].
    apply Z.leb_le in E1, E2. rewrite Z.mod_small by lia. reflexivity.
  - cbn [orb] in Hx.
    destruct ((97 <=? code c) && (code c <=? 102)) eqn:El.
    + apply andb_true_iff in El. destruct El as [E1 E2].
      rewrite E1. apply Z.leb_le in E1, E2. rewrite Z.mod_small by lia.
      reflexivity.
    + cbn [orb] in Hx. rewrite Hx.
      apply andb_true_iff in Hx. destruct Hx as [E1 E2].
      apply Z.leb_le in E1, E2.
      replace (97 <=? code c) with false by (symmetry; apply Z.leb_gt; lia).
      rewrite Z.mod_small by lia. reflexivity.
Qed.

Lemma xdigit_val_range c :
  Libc.isxdigit c = true -> 0 <= Libc.xdigit_val c <= 15.
Proof.
  unfold Libc.isxdigit, Libc.xdigit_val, Libc.isdigit. intros H.
  destruct ((48 <=? code c) && (code c <=? 57)) eqn:Ed.
  - apply andb_true_iff in Ed. destruct Ed as [E1 E2].
    apply Z.leb_le in E1, E2. lia.
  - cbn [orb] in H. apply orb_true_iff in H. destruct H as [H|H];
      apply andb_true_iff in H; destruct H as [E1 E2].
    + rewrite E1. apply Z.leb_le in E1, E2. lia.
    + apply Z.leb_le in E1, E2.
      replace (97 <=? code c) with false by (symmetry; apply Z.leb_gt; lia).
      lia.
Qed.

Lemma hex_loop_digits h : forall pre rest val,
  forallb Libc.isxdigit h = true ->
  0 <= val -> (val + 1) * 16 ^ Z.of_nat (length h) <= 2 ^ 32 ->
  helper_toon.hex_loop (length h) (pre ++ h ++ rest) (length pre) val
  = (fold_left (fun acc c => acc * 16 + Libc.xdigit_val c) h val,
     (length pre + length h)%nat, []).
Proof.
  induction h as [|c h IH]; intros pre rest val Hx H0 Hmax.
  - cbn [length helper_toon.hex_loop fold_left]. rewrite Nat.add_0_r.
    reflexivity.
  - cbn [forallb] in Hx. apply andb_true_iff in Hx. destruct Hx as [Hc Hx].
    pose proof (xdigit_val_range c Hc) as Hr.
    cbn [length] in Hmax |- *. rewrite Nat2Z.inj_succ, Z.pow_succ_r in Hmax by lia.
    assert (Hp : 0 < 16 ^ Z.of_nat (length h)) by (apply Z.pow_pos_nonneg; lia).
    rewrite (hex_digit_step c (length h) _ (length pre) val);
      [|apply char_at_app|exact Hc|exact H0|nia].
    replace (pre ++ (c :: h) ++ rest) with ((pre ++ [c]) ++ h ++ rest)
      by (rewrite <- app_assoc; reflexivity).
    replace (S (length pre)) with (length (pre ++ [c]))
      by (rewrite length_app; cbn [length]; lia).
    rewrite IH; [|exact Hx|lia|nia].
    cbn [fold_left]. rewrite length_app. cbn [length].
    replace (length pre + 1 + length h)%nat
      with (length pre + S (length h))%nat by lia.
    reflexivity.
Qed.

(** [parse_unicode_codepoint], called at the first of four hexadecimal
    digits that are not the last bytes of the text, returns their value, a
    16-bit number, moves past them and reports no error; when the four
    digits end the text it reports "unfinished unicode escape" and does not
    move. *)
Theorem parse_unicode_codepoint_digits (pre h : list ascii) :
  length h = 4%nat -> forallb Libc.isxdigit h = true ->
  (forall c rest,
     helper_toon.parse_unicode_codepoint (pre ++ h ++ c :: rest) (length pre)
     = (Libc.hex_value h, (length pre + 4)%nat, []))
  /\ 0 <= Libc.hex_value h < 65536
  /\ helper_toon.parse_unicode_codepoint (pre ++ h) (length pre)
     = (0, length pre, lit "unfinished unicode escape").
Proof.
  intros Hlen Hx. split; [|split].
  - intros c rest. unfold helper_toon.parse_unicode_codepoint.
    replace (length (pre ++ h ++ c :: rest) <=? length pre + 4)%nat with false
      by (symmetry; apply Nat.leb_gt; rewrite !length_app; cbn [length]; lia).
    rewrite <- Hlen at 1. rewrite hex_loop_digits; auto; try lia.
    + rewrite Hlen. reflexivity.
    + rewrite Hlen. cbn. lia.
  - destruct h as [|a [|b [|c [|d [|e h]]]]]; try discriminate Hlen.
    cbn [forallb] in Hx.
    repeat (apply andb_true_iff in Hx; destruct Hx as [? Hx]).
    pose proof (xdigit_val_range a ltac:(assumption)).
    pose proof (xdigit_val_range b ltac:(assumption)).
    pose proof (xdigit_val_range c ltac:(assumption)).
    pose proof (xdigit_val_range d ltac:(assumption)).
    unfold Libc.hex_value. cbn [fold_left]. lia.
  - unfold helper_toon.parse_unicode_codepoint.
    replace (length (pre ++ h) <=? length pre + 4)%nat with true
      by (symmetry; apply Nat.leb_le; rewrite length_app; lia).
    reflexivity.
Qed.

Lemma parse_unicode_codepoint_digits_witness :
  (forall c rest,
     helper_toon.parse_unicode_codepoint
       (lit "\u" ++ lit "20aC" ++ c :: rest) (length (lit "\u"))
     = (Libc.hex_value (lit "20aC"), (length (lit "\u") + 4)%nat, []))
  /\ 0 <= Libc.hex_value (lit "20aC") < 65536
  /\ helper_toon.parse_unicode_codepoint (lit "\u" ++ lit "20aC")
       (length (lit "\u"))
     = (0, length (lit "\u"), lit "unfinished unicode escape").
Proof.
  apply (parse_unicode_codepoint_digits (lit "\u") (lit "20aC"));
    reflexivity.
Defined.

Lemma code_chr n : 0 <= n < 256 -> code (chr n) = n.
Proof.
  intros H. unfold code, chr. rewrite Z.mod_small by lia.
  rewrite N_ascii_embedding by lia. lia.
Qed.

Lemma lor_disjoint a y k :
  0 <= k -> 0 <= y < 2 ^ k -> a mod 2 ^ k = 0 -> Z.lor a y = a + y.
Proof.
  intros Hk Hy Ha.
  assert (Hl : Z.land a y = 0).
  { rewrite <- (Z.mod_small y (2 ^ k)) by lia.
    rewrite <- (Z.land_ones y k) by lia.
    rewrite (Z.land_comm y), Z.land_assoc, Z.land_ones, Ha by lia.
    apply Z.land_0_l. }
  pose proof (Z.add_lor_land a y). lia.
Qed.

(** the test [(cp & 0xfffe) == 0xfffe] holds of the code points whose low
    16 bits are FFFE or FFFF *)
Lemma noncharacter_test cp :
  (Z.land cp 65534 =? 65534) = (65534 <=? cp mod 65536).
Proof.
  assert (Hm : cp mod 65536 = Z.lor (Z.land cp 65534) (cp mod 2)).
  { change 65536 with (2 ^ 16). rewrite <- Z.land_ones by lia.
    change (Z.ones 16) with (Z.lor 65534 1).
    rewrite Z.land_lor_distr_r. f_equal.
    change 1 with (Z.ones 1). rewrite Z.land_ones by lia. reflexivity. }
  assert (Hl : Z.land cp 65534 = Z.land (cp mod 65536) 65534).
  { change 65536 with (2 ^ 16). rewrite <- Z.land_ones by lia.
    rewrite <- Z.land_assoc. reflexivity. }
  pose proof (Z.mod_pos_bound cp 2 ltac:(lia)) as H2.
  pose proof (Z.mod_pos_bound cp 65536 ltac:(lia)) as H16.
  destruct (Z.land cp 65534 =? 65534) eqn:E.
  - apply Z.eqb_eq in E. rewrite E in Hm. symmetry. apply Z.leb_le.
    assert (C : cp mod 2 = 0 \/ cp mod 2 = 1) by lia.
    destruct C as [C|C]; rewrite C in Hm; rewrite Hm; cbn; lia.
  - apply Z.eqb_neq in E. symmetry. apply Z.leb_gt.
    destruct (Z_lt_le_dec (cp mod 65536) 65534) as [Hlt|Hge]; [exact Hlt|].
    exfalso. apply E. rewrite Hl.
    assert (C : cp mod 65536 = 65534 \/ cp mod 65536 = 65535) by lia.
    destruct C as [C|C]; rewrite C; reflexivity.
Qed.

(** a continuation byte [0x80 | (x & 0x3f)] *)
Lemma continuation_byte x :
  code (chr (Z.lor 128 (Z.land x 63))) = 128 + x mod 64.
Proof.
  change 63 with (Z.ones 6). rewrite Z.land_ones by lia.
  change (2 ^ 6) with 64.
  pose proof (Z.mod_pos_bound x 64 ltac:(lia)).
  rewrite (lor_disjoint 128 (x mod 64) 6) by (cbn; lia || reflexivity).
  apply code_chr. lia.
Qed.

Lemma lead_byte a m x k :
  0 <= k -> m = Z.ones k -> a mod 2 ^ k = 0 -> 0 <= a -> a + 2 ^ k <= 256 ->
  code (chr (Z.lor a (Z.land x m))) = a + x mod 2 ^ k.
Proof.
  intros Hk -> Ha H0 Hmax. rewrite Z.land_ones by lia.
  pose proof (Z.mod_pos_bound x (2 ^ k) ltac:(lia)).
  rewrite (lor_disjoint a (x mod 2 ^ k) k) by (lia || assumption).
  apply code_chr. lia.
Qed.

(** [encode_utf8] emits the well-formed UTF-8 sequence of the code point
    it is given when that is a Unicode character, and the sequence of
    U+FFFD for every other 32-bit value: a value above U+10FFFF, a
    surrogate or a noncharacter. *)
Theorem encode_utf8_decodes (cp : Z) :
  0 <= cp < 2 ^ 32 ->
  utf8_decode (helper_toon.encode_utf8 cp)
  = Some (if unicode_character cp then cp else 65533).
Proof.
  intros Hcp. unfold helper_toon.encode_utf8, unicode_character.
  destruct (1114111 <? cp) eqn:Emax.
  - apply Z.ltb_lt in Emax.
    replace (cp <=? 1114111) with false by (symmetry; apply Z.leb_gt; lia).
    reflexivity.
  - apply Z.ltb_ge in Emax.
    replace (cp <=? 1114111) with true by (symmetry; apply Z.leb_le; lia).
    rewrite noncharacter_test. cbn [andb].
    destruct (((55296 <=? cp) && (cp <=? 57343)
               || (64976 <=? cp) && (cp <=? 65007)
               || (65534 <=? cp mod 65536))) eqn:Erep.
    + replace (negb ((55296 <=? cp) && (cp <=? 57343))
               && negb ((64976 <=? cp) && (cp <=? 65007))
               && negb (65534 <=? cp mod 65536)) with false.
      * reflexivity.
      * destruct ((55296 <=? cp) && (cp <=? 57343));
          destruct ((64976 <=? cp) && (cp <=? 65007));
          destruct (65534 <=? cp mod 65536); try reflexivity;
          discriminate Erep.
    + apply orb_false_iff in Erep. destruct Erep as [Erep Enon].
      apply orb_false_iff in Erep. destruct Erep as [Esur Efd].
      rewrite Esur, Efd, Enon. cbn [negb andb].
      destruct (cp <=? 127) eqn:E1; [|destruct (cp <=? 2047) eqn:E2;
                                       [|destruct (cp <=? 65535) eqn:E3]].
      * apply Z.leb_le in E1. unfold utf8_decode. cbn [map].
        rewrite code_chr by lia.
        replace (cp <=? 127) with true by (symmetry; apply Z.leb_le; lia).
        reflexivity.
      * apply Z.leb_gt in E1. apply Z.leb_le in E2.
        unfold utf8_decode. cbn [map].
        rewrite continuation_byte.
        rewrite (lead_byte 192 31 _ 5) by (reflexivity || lia).
        rewrite Z.shiftr_div_pow2 by lia. change (2 ^ 6) with 64.
        change (2 ^ 5) with 32.
        assert (Hd : cp / 64 mod 32 = cp / 64)
          by (apply Z.mod_small; Z.to_euclidean_division_equations; lia).
        rewrite Hd. unfold continuation.
        replace ((194 <=? 192 + cp / 64) && (192 + cp / 64 <=? 223)
                 && ((128 <=? 128 + cp mod 64) && (128 + cp mod 64 <=? 191)))
          with true.
        -- f_equal. Z.to_euclidean_division_equations. lia.
        -- symmetry. repeat (apply andb_true_iff; split); apply Z.leb_le;
             Z.to_euclidean_division_equations; lia.
      * apply Z.leb_gt in E2. apply Z.leb_le in E3.
        unfold utf8_decode. cbn [map].
        rewrite !continuation_byte.
        rewrite (lead_byte 224 15 _ 4) by (reflexivity || lia).
        rewrite !Z.shiftr_div_pow2 by lia.
        change (2 ^ 6) with 64. change (2 ^ 12) with 4096.
        change (2 ^ 4) with 16.
        assert (Hd : cp / 4096 mod 16 = cp / 4096)
          by (apply Z.mod_small; Z.to_euclidean_division_equations; lia).
        rewrite Hd. unfold continuation.
        assert (Hcp3 : (224 + cp / 4096 - 224) * 4096
                       + (128 + cp / 64 mod 64 - 128) * 64
                       + (128 + cp mod 64 - 128) = cp)
          by (Z.to_euclidean_division_equations; lia).
        rewrite Hcp3.
        replace ((224 <=? 224 + cp / 4096) && (224 + cp / 4096 <=? 239)
                 && ((128 <=? 128 + cp / 64 mod 64)
                     && (128 + cp / 64 mod 64 <=? 191))
                 && ((128 <=? 128 + cp mod 64) && (128 + cp mod 64 <=? 191)))
          with true
          by (symmetry; repeat (apply andb_true_iff; split); apply Z.leb_le;
              Z.to_euclidean_division_equations; lia).
        rewrite Esur.
        replace (2048 <=? cp) with true by (symmetry; apply Z.leb_le; lia).
        reflexivity.
      * apply Z.leb_gt in E3.
        unfold utf8_decode. cbn [map].
        rewrite !continuation_byte.
        rewrite (lead_byte 240 7 _ 3) by (reflexivity || lia).
        rewrite !Z.shiftr_div_pow2 by lia.
        change (2 ^ 6) with 64. change (2 ^ 12) with 4096.
        change (2 ^ 18) with 262144. change (2 ^ 3) with 8.
        assert (Hd : cp / 262144 mod 8 = cp / 262144)
          by (apply Z.mod_small; Z.to_euclidean_division_equations; lia).
        rewrite Hd. unfold continuation.
        assert (Hcp4 : (240 + cp / 262144 - 240) * 262144
                       + (128 + cp / 4096 mod 64 - 128) * 4096
                       + (128 + cp / 64 mod 64 - 128) * 64
                       + (128 + cp mod 64 - 128) = cp)
          by (Z.to_euclidean_division_equations; lia).
        rewrite Hcp4.
        replace ((240 <=? 240 + cp / 262144) && (240 + cp / 262144 <=? 244)
                 && ((128 <=? 128 + cp / 4096 mod 64)
                     && (128 + cp / 4096 mod 64 <=? 191))
                 && ((128 <=? 128 + cp / 64 mod 64)
                     && (128 + cp / 64 mod 64 <=? 191))
                 && ((128 <=? 128 + cp mod 64) && (128 + cp mod 64 <=? 191)))
          with true
          by (symmetry; repeat (apply andb_true_iff; split); apply Z.leb_le;
              Z.to_euclidean_division_equations; lia).
        replace (65536 <=? cp) with true by (symmetry; apply Z.leb_le; lia).
        replace (cp <=? 1114111) with true by (symmetry; apply Z.leb_le; lia).
        reflexivity.
Qed.

Lemma encode_utf8_decodes_witness :
  utf8_decode (helper_toon.encode_utf8 8364)
  = Some (if unicode_character 8364 then 8364 else 65533).
Proof. apply (encode_utf8_decodes 8364). cbn. lia. Defined.

(** ** The decoder: what every call returns *)

Lemma unicode_error_text str k :
  let '(_, _, e) := helper_toon.parse_unicode_codepoint str k in
  e = [] \/ In e error_messages.
Proof.
  unfold helper_toon.parse_unicode_codepoint.
  destruct (length str <=? k + 4)%nat; [right; cbn; tauto|].
  generalize 0 at 1. generalize k. generalize 4%nat.
  induction n as [|n IH]; intros k' val; cbn [helper_toon.hex_loop];
    [left; reflexivity|].
  repeat match goal with
         | |- context [if ?b then _ else _] => destruct b
         end; try apply IH.
  right. cbn. tauto.
Qed.

Lemma scan_loop_le str cond n : forall k,
  (k <= scan_loop str cond n k)%nat.
Proof.
  induction n as [|n IH]; intros k; cbn [scan_loop]; [lia|].
  destruct ((k <? size str)%nat && cond (char_at str k)); [|lia].
  specialize (IH (S k)). lia.
Qed.

Lemma skipn_char_at str k :
  (k < length str)%nat -> skipn k str = char_at str k :: skipn (S k) str.
Proof.
  revert k. induction str as [|c str IH]; intros k Hk;
    [cbn [length] in Hk; lia|].
  destruct k as [|k]; [reflexivity|].
  cbn [skipn]. unfold char_at. cbn [nth].
  apply IH. cbn [length] in Hk. lia.
Qed.

(** what a scan steps over satisfies the condition of the scan *)
Lemma scan_loop_all str cond n : forall k,
  forallb cond (substr str k (scan_loop str cond n k - k)) = true.
Proof.
  induction n as [|n IH]; intros k; cbn [scan_loop].
  - rewrite Nat.sub_diag. reflexivity.
  - destruct (k <? size str)%nat eqn:Elt; cbn [andb];
      [|rewrite Nat.sub_diag; reflexivity].
    destruct (cond (char_at str k)) eqn:Ec;
      [|rewrite Nat.sub_diag; reflexivity].
    apply Nat.ltb_lt in Elt. pose proof (scan_loop_le str cond n (S k)) as Hle.
    unfold substr in *. rewrite (skipn_char_at str k Elt).
    replace (scan_loop str cond n (S k) - k)%nat
      with (S (scan_loop str cond n (S k) - S k)) by lia.
    cbn [firstn forallb]. rewrite Ec. apply IH.
Qed.

Lemma scan_while_all str cond k :
  forallb cond (substr str k (scan_while str cond k - k)) = true.
Proof. apply scan_loop_all. Qed.

Section Invariant.

Variable str : list ascii.
Variable St : ToonParser -> Prop.
Variable V : Toon -> Prop.

Hypothesis St_set_i : forall p k, St p -> St (set_i p k).
Hypothesis St_fail :
  forall p msg, In msg error_messages -> St p -> St (snd (fail msg p)).
Hypothesis V_null : V ToonNull.
Hypothesis V_boolean : forall b, V (ToonBoolean b).
Hypothesis V_string : forall s, V (ToonString s).
Hypothesis V_number :
  forall n, forallb is_number_char n = true ->
            V (ToonDouble (fst (Libc.strtod (Libc.c_str n)))).
Hypothesis V_array_nil : V (ToonArray []).
Hypothesis V_array_push :
  forall a x, V (ToonArray a) -> V x -> V (ToonArray (a ++ [x])).
Hypothesis V_object_nil : V (ToonObject []).
Hypothesis V_object_assign :
  forall o k x, V (ToonObject o) -> V x -> V (ToonObject (map_assign k x o)).

Lemma yields_returns v q : V v -> St q -> yields St V (Returns v q).
Proof. intros Hv Hq v' q' E. injection E as <- <-. auto. Qed.

Lemma yields_fail msg p :
  In msg error_messages -> St p ->
  yields St V (let '(v, q) := fail msg p in Returns v q).
Proof.
  intros Hm Hp. apply yields_returns; [exact V_null|].
  apply (St_fail p msg Hm Hp).
Qed.

Lemma yields_stuck (o : outcome Toon) :
  (forall v q, o <> Returns v q) -> yields St V o.
Proof. intros H v q E. exfalso. exact (H v q E). Qed.

Lemma yields_bind (m : outcome Toon) (k : Toon -> ToonParser -> outcome Toon) :
  yields St V m -> (forall v q, V v -> St q -> yields St V (k v q)) ->
  yields St V (bind m k).
Proof.
  intros Hm Hk w r E. destruct m as [v q| |]; simpl in E; try discriminate.
  destruct (Hm v q eq_refl) as [Hv Hq]. exact (Hk v q Hv Hq w r E).
Qed.

Lemma St_garbage_loop n : forall p, St p -> St (garbage_loop str n p).
Proof.
  induction n as [|n IH]; intros p Hp; cbn [garbage_loop]; [exact Hp|].
  unfold consume_whitespace.
  repeat match goal with
         | |- context [if ?b then _ else _] => destruct b
         end; try apply IH; auto.
Qed.

Lemma St_consume_garbage p : St p -> St (consume_garbage str p).
Proof. apply St_garbage_loop. Qed.

Lemma St_consume_whitespace p : St p -> St (consume_whitespace str p).
Proof. apply St_set_i. Qed.

Lemma yields_quoted_loop n : forall p out,
  St p -> V (fst (quoted_loop str n p out)) /\ St (snd (quoted_loop str n p out)).
Proof.
  assert (Hfail : forall msg p, In msg error_messages -> St p ->
            V (fst (fail msg p)) /\ St (snd (fail msg p))).
  { intros msg p Hm Hp. split; [exact V_null|apply St_fail; assumption]. }
  induction n as [|n IH]; intros p out Hp; cbn [quoted_loop];
    [apply Hfail; [cbn; tauto|exact Hp]|].
  repeat first
    [ progress cbv beta iota
    | match goal with
      | |- context [if ?b then _ else _] => destruct b
      | |- context [helper_toon.parse_unicode_codepoint ?s ?k] =>
          let H := fresh "Hu" in
          pose proof (unicode_error_text s k) as H;
          destruct (helper_toon.parse_unicode_codepoint s k)
            as [[? ?] [|? ?]]
      end ];
    try (apply IH; auto);
    try (apply Hfail; [cbn; tauto|auto]);
    try (split; [apply V_string|cbn [snd]; auto]).
  all: try (destruct Hu as [Hu|Hu]; [discriminate Hu|];
            apply Hfail; auto).
Qed.

Section BodiesInvariant.

Variable pv : ToonParser -> outcome Toon.
Variables pa po : Z -> ToonParser -> outcome Toon.
Hypothesis Hpv : forall p, St p -> yields St V (pv p).
Hypothesis Hpa : forall x p, St p -> yields St V (pa x p).
Hypothesis Hpo : forall x p, St p -> yields St V (po x p).

Lemma yields_parse_value_body p :
  St p -> yields St V (parse_value_body str pa p).
Proof.
  intros Hp. unfold parse_value_body.
  assert (Hw := St_consume_whitespace p Hp).
  set (q := consume_whitespace str p) in *.
  destruct (i q =? size str)%nat;
    [apply yields_fail; [cbn; tauto|exact Hw]|].
  destruct (Ascii.eqb (char_at str (i q)) "034").
  { unfold parse_quoted_string.
    pose proof (yields_quoted_loop (S (size str - i (set_i q (S (i q)))))
                  (set_i q (S (i q))) [] (St_set_i _ _ Hw)) as [H1 H2].
    destruct (quoted_loop str _ _ []) as [v r]. apply yields_returns; assumption. }
  destruct (Ascii.eqb (char_at str (i q)) "["); [apply Hpa; exact Hw|].
  repeat match goal with
         | |- context [if ?b then _ else _] => destruct b
         end;
    first [ solve [apply yields_returns; auto]
          | unfold parse_number, parse_unquoted_string;
            apply yields_returns;
            [first [apply V_number, scan_while_all | apply V_string]|auto] ].
Qed.

Lemma yields_row_loop keys : forall obj p,
  St p -> V (ToonObject obj) -> row_yields St V (row_loop str pv keys obj p).
Proof.
  induction keys as [|key keys IH]; intros obj p Hp Ho; cbn [row_loop].
  - intros r q E. injection E as <- <-. auto.
  - assert (Hw := St_consume_whitespace p Hp).
    set (q := consume_whitespace str p) in *.
    destruct ((i q =? size str)%nat || is_newline (char_at str (i q))).
    + intros r q' E. injection E as <- <-. auto.
    + intros r q' E. destruct (pv q) as [val q1| |] eqn:Epv;
        cbn [bind] in E; try discriminate E.
      destruct (Hpv q Hw val q1 Epv) as [Hval Hq1].
      destruct (failed q1).
      * injection E as <- <-. auto.
      * revert E. apply IH.
        -- match goal with
           | |- St (if ?b then _ else _) => destruct b
           end; auto using St_consume_whitespace.
        -- apply V_object_assign; assumption.
Qed.

Lemma yields_rows_loop n : forall parent_indent keys arr p,
  St p -> V (ToonArray arr) ->
  yields St V (rows_loop str pv n parent_indent keys arr p).
Proof.
  induction n as [|n IH]; intros parent_indent keys arr p Hp Ha;
    cbn [rows_loop]; [apply yields_stuck; discriminate|].
  destruct (i p <? size str)%nat; [|apply yields_returns; assumption].
  assert (Hg := St_consume_garbage p Hp).
  set (q := consume_garbage str p) in *.
  destruct (i q =? size str)%nat; [apply yields_returns; assumption|].
  destruct (negb (parent_indent =? -1) && (get_indent str q <=? parent_indent));
    [apply yields_returns; auto|].
  intros v r E.
  destruct (row_loop str pv keys [] q) as [row q1| |] eqn:Erow;
    cbn [bind] in E; try discriminate E.
  destruct (yields_row_loop keys [] q Hg V_object_nil row q1 Erow)
    as [Hq1 Hrow].
  destruct row as [w|[obj row_failed]].
  - injection E as <- <-. auto.
  - destruct (negb row_failed).
    + revert E. apply IH; [exact Hq1|]. apply V_array_push; assumption.
    + injection E as <- <-. auto.
Qed.

Lemma yields_elements_loop n : forall count k arr p,
  St p -> V (ToonArray arr) ->
  yields St V (elements_loop str pv n count k arr p).
Proof.
  induction n as [|n IH]; intros count k arr p Hp Ha;
    cbn [elements_loop]; [apply yields_stuck; discriminate|].
  destruct ((count <? 0) || (k <? count)); [|apply yields_returns; assumption].
  assert (Hg := St_consume_garbage p Hp).
  set (q := consume_garbage str p) in *.
  destruct (i q =? size str)%nat; [apply yields_returns; assumption|].
  apply yields_bind; [apply Hpv; exact Hg|].
  intros v q1 Hv Hq1.
  assert (Hw := St_consume_whitespace q1 Hq1).
  assert (Hpush := V_array_push arr v Ha Hv).
  repeat match goal with
         | |- context [if ?b then _ else _] => destruct b
         end;
    try (apply IH; auto); apply yields_returns; auto.
Qed.

Lemma yields_parse_array_body n parent_indent p :
  St p -> yields St V (parse_array_body str pv n parent_indent p).
Proof.
  intros Hp. unfold parse_array_body.
  destruct (parse_array_header str (i p)) as [[[[tabular keys] count] j]|];
    [|apply yields_stuck; discriminate].
  destruct tabular.
  - apply yields_rows_loop; auto.
  - apply yields_elements_loop; auto.
Qed.

Lemma yields_entries_loop n : forall parent_indent obj p,
  St p -> V (ToonObject obj) ->
  yields St V (entries_loop str pv pa po n parent_indent obj p).
Proof.
  induction n as [|n IH]; intros parent_indent obj p Hp Ho;
    cbn [entries_loop]; [apply yields_stuck; discriminate|].
  destruct (i p <? size str)%nat; [|apply yields_returns; assumption].
  assert (Hg := St_consume_garbage p Hp).
  set (q := consume_garbage str p) in *.
  destruct ((get_indent str q <=? parent_indent)
            && negb match obj with [] => true | _ :: _ => false end);
    [apply yields_returns; auto|].
  match goal with
  | |- context [if (?a =? ?b)%nat then _ else _] => destruct (a =? b)%nat
  end; [apply yields_returns; auto|].
  apply yields_bind.
  - repeat match goal with
           | |- context [if ?b then _ else _] => destruct b
           end;
      first [apply Hpa | apply Hpo | apply Hpv];
      repeat first [ apply St_consume_garbage | apply St_consume_whitespace
                   | apply St_set_i ];
      assumption.
  - intros v q1 Hv Hq1. apply IH; [exact Hq1|].
    apply V_object_assign; assumption.
Qed.

End BodiesInvariant.

Lemma yields_parse_value_array n :
  (forall p, St p -> yields St V (parse_value str n p)) /\
  (forall x p, St p -> yields St V (parse_array str n x p)).
Proof.
  induction n as [|n [IHv IHa]]; split; intros; cbn [parse_value parse_array];
    try (apply yields_stuck; discriminate).
  - apply yields_parse_value_body; assumption.
  - apply yields_parse_array_body; assumption.
Qed.

Lemma yields_parse_object n : forall x p,
  St p -> yields St V (parse_object str n x p).
Proof.
  induction n as [|n IH]; intros x p Hp; cbn [parse_object];
    [apply yields_stuck; discriminate|].
  unfold parse_object_body. apply yields_entries_loop; auto;
    intros; apply yields_parse_value_array; assumption.
Qed.

Lemma yields_parse fuel err0 :
  St (mkParser 0 err0 false) -> yields St V (parse fuel str err0).
Proof.
  intros Hp. unfold parse.
  assert (Hg := St_consume_garbage _ Hp).
  repeat match goal with
         | |- context [if ?b then _ else _] => destruct b
         end;
    first [ apply yields_returns; assumption
          | apply yields_parse_object; assumption
          | apply yields_parse_value_array; assumption ].
Qed.

End Invariant.

Lemma reported_set_i e0 p k : reported e0 p -> reported e0 (set_i p k).
Proof. exact (fun H => H). Qed.

Lemma reported_fail e0 p msg :
  In msg error_messages -> reported e0 p -> reported e0 (snd (fail msg p)).
Proof.
  unfold reported, fail. cbn [snd failed err]. intros Hm Hp.
  destruct (failed p); cbn [negb]; assumption.
Qed.

(** The error text tells whether the decoder recorded a failure.  When
    [Toon::parse] returns, either no failure was recorded and the error
    text is the caller's, untouched, or one was and the text is one of the
    six messages of the decoder; so a caller that passes an empty text
    finds it non-empty exactly when a failure was recorded. *)
Theorem parse_error_reported (input : list ascii) (fuel : nat)
  (err0 : list ascii) (v : Toon) (p : ToonParser) :
  parse fuel input err0 = Returns v p ->
  (failed p = false /\ err p = err0
   \/ failed p = true /\ In (err p) error_messages)
  /\ (err0 = [] -> (failed p = true <-> err p <> [])).
Proof.
  intros E.
  assert (H : reported err0 p).
  { apply (yields_parse input (reported err0) (fun _ => True)
             (reported_set_i err0) (reported_fail err0)
             I (fun _ => I) (fun _ => I) (fun _ _ => I) I
             (fun _ _ _ _ => I) I (fun _ _ _ _ _ => I)
             fuel err0 eq_refl v p E). }
  unfold reported in H. split.
  - destruct (failed p); [right|left]; auto.
  - intros ->. destruct (failed p).
    + split; [|reflexivity]. intros _ C. rewrite C in H.
      cbn in H. repeat (destruct H as [H|H]; [discriminate H|]). exact H.
    + split; [discriminate|]. intros C. contradiction.
Qed.

Lemma parse_error_reported_witness :
  (failed (mkParser 4 (lit "unfinished string") true) = false
   /\ err (mkParser 4 (lit "unfinished string") true) = []
   \/ failed (mkParser 4 (lit "unfinished string") true) = true
      /\ In (err (mkParser 4 (lit "unfinished string") true)) error_messages)
  /\ (([] : list ascii) = [] ->
      (failed (mkParser 4 (lit "unfinished string") true) = true
       <-> err (mkParser 4 (lit "unfinished string") true) <> [])).
Proof.
  apply (parse_error_reported ("034"%char :: lit "abc") 1 []
           ToonNull (mkParser 4 (lit "unfinished string") true)).
  reflexivity.
Defined.

(** ** [std::map]: the keys stay in ascending order *)

Lemma code_inj a b : code a = code b -> a = b.
Proof.
  unfold code. intros H. apply N2Z.inj in H.
  rewrite <- (ascii_N_embedding a), <- (ascii_N_embedding b), H. reflexivity.
Qed.

Lemma str_ltb_trans s : forall t u,
  str_ltb s t = true -> str_ltb t u = true -> str_ltb s u = true.
Proof.
  induction s as [|a s IH]; intros [|b t] [|c u] H1 H2;
    try discriminate H1; try discriminate H2; [reflexivity|].
  cbn [str_ltb] in *.
  destruct (code a <? code b) eqn:Eab; destruct (code b <? code c) eqn:Ebc;
    destruct (code b <? code a) eqn:Eba; destruct (code c <? code b) eqn:Ecb;
    try discriminate H1; try discriminate H2;
    rewrite ?Z.ltb_lt, ?Z.ltb_ge in *;
    try lia;
    try (replace (code a <? code c) with true
           by (symmetry; apply Z.ltb_lt; lia); reflexivity).
  replace (code a <? code c) with false by (symmetry; apply Z.ltb_ge; lia).
  replace (code c <? code a) with false by (symmetry; apply Z.ltb_ge; lia).
  apply (IH t u); assumption.
Qed.

Lemma str_ltb_connex s : forall t,
  str_ltb s t = false -> str_eqb s t = false -> str_ltb t s = true.
Proof.
  induction s as [|a s IH]; intros [|b t] H1 H2;
    try discriminate H1; try discriminate H2; [reflexivity|].
  cbn [str_ltb str_eqb] in *.
  destruct (code a <? code b) eqn:Eab; [discriminate H1|].
  destruct (code b <? code a) eqn:Eba; [reflexivity|].
  apply Z.ltb_ge in Eab, Eba.
  assert (E : a = b) by (apply code_inj; lia). subst b.
  rewrite Ascii.eqb_refl in H2. apply IH; assumption.
Qed.

Lemma lower_bound_assign l key v : forall m,
  forallb (fun kv => str_ltb l (fst kv)) m = true -> str_ltb l key = true ->
  forallb (fun kv => str_ltb l (fst kv)) (map_assign key v m) = true.
Proof.
  induction m as [|[k x] m IH]; intros Hm Hl; cbn [map_assign].
  - cbn [forallb fst]. rewrite Hl. reflexivity.
  - cbn [forallb fst] in Hm. apply andb_true_iff in Hm. destruct Hm as [Hk Hm].
    destruct (str_eqb key k); [|destruct (str_ltb key k)];
      cbn [forallb fst]; rewrite ?Hl, ?Hk, ?Hm; cbn [andb]; auto.
Qed.

Lemma ascending_map_assign key v : forall m,
  ascending m = true -> ascending (map_assign key v m) = true.
Proof.
  induction m as [|[k x] m IH]; intros Hm; [reflexivity|].
  cbn [ascending] in Hm. apply andb_true_iff in Hm. destruct Hm as [Hk Hm].
  cbn [map_assign].
  destruct (str_eqb key k) eqn:Eeq; [|destruct (str_ltb key k) eqn:Elt].
  - apply str_eqb_eq in Eeq. subst key. cbn [ascending].
    rewrite Hk, Hm. reflexivity.
  - cbn [ascending forallb fst]. rewrite Elt, Hk, Hm. cbn [andb].
    rewrite andb_true_r. apply forallb_forall. intros kv Hin.
    rewrite forallb_forall in Hk. apply (str_ltb_trans key k); auto.
  - cbn [ascending]. rewrite (IH Hm), andb_true_r.
    apply lower_bound_assign; [exact Hk|].
    apply str_ltb_connex; assumption.
Qed.

Lemma forallb_map_assign (P : list ascii * Toon -> bool) key v : forall m,
  forallb P m = true -> P (key, v) = true ->
  forallb P (map_assign key v m) = true.
Proof.
  induction m as [|[k x] m IH]; intros Hm Hv; cbn [map_assign].
  - cbn [forallb]. rewrite Hv. reflexivity.
  - cbn [forallb] in Hm. apply andb_true_iff in Hm. destruct Hm as [Hk Hm].
    destruct (str_eqb key k); [|destruct (str_ltb key k)];
      cbn [forallb]; rewrite ?Hv, ?Hk, ?Hm; cbn [andb]; auto.
Qed.

(** ** [strtod] on the bytes of a number never yields a NaN *)

Lemma iter_pos_keeps {A : Type} (f : A -> A) (P : A -> Prop) :
  (forall x, P x -> P (f x)) ->
  forall n x, P x -> P (iter_pos f n x).
Proof.
  intros Hf. induction n as [n IH|n IH|]; intros x Hx; cbn [iter_pos]; auto.
Qed.

Lemma shr_1_nonneg mrs : 0 <= shr_m mrs -> 0 <= shr_m (shr_1 mrs).
Proof.
  destruct mrs as [m r s]. cbn [shr_m]. intros H.
  destruct m as [|[q|q|]|q]; cbn [shr_1 shr_m]; lia.
Qed.

Lemma shr_fexp_nonneg m e l :
  0 <= m -> 0 <= shr_m (fst (shr_fexp 53 1024 m e l)).
Proof.
  intros H. unfold shr_fexp, shr.
  assert (H0 : 0 <= shr_m (shr_record_of_loc m l))
    by (destruct l as [|[| |]]; exact H).
  destruct (fexp 53 1024 (Zdigits2 m + e) - e) as [|n|n]; cbn [fst]; auto.
  apply (iter_pos_keeps shr_1 (fun r => 0 <= shr_m r)); auto.
  apply shr_1_nonneg.
Qed.

Lemma binary_round_aux_not_nan sx mx ex lx :
  0 <= mx -> is_nan (binary_round_aux 53 1024 sx mx ex lx) = false.
Proof.
  intros H. unfold binary_round_aux.
  pose proof (shr_fexp_nonneg mx ex lx H) as H1.
  destruct (shr_fexp 53 1024 mx ex lx) as [mrs' e']. cbn [fst] in H1.
  assert (H2 : 0 <= round_nearest_even (shr_m mrs') (loc_of_shr_record mrs')).
  { unfold round_nearest_even.
    destruct (loc_of_shr_record mrs') as [|[| |]]; try lia.
    destruct (Z.even (shr_m mrs')); lia. }
  pose proof (shr_fexp_nonneg _ e' loc_Exact H2) as H3.
  destruct (shr_fexp 53 1024 _ e' loc_Exact) as [mrs'' e'']. cbn [fst] in H3.
  destruct (shr_m mrs'') as [|m|m]; [reflexivity| |lia].
  destruct (e'' <=? 1024 - 53); reflexivity.
Qed.

Lemma binary_normalize_not_nan m e sz :
  is_nan (binary_normalize 53 1024 m e sz) = false.
Proof.
  unfold binary_normalize, binary_round.
  destruct m as [|m|m]; [reflexivity|..];
    destruct (shl_align m e _) as [mz ez];
    apply binary_round_aux_not_nan; lia.
Qed.

Lemma SFdiv_finite_not_nan sx mx ex sy my ey :
  is_nan (SFdiv 53 1024 (S754_finite sx mx ex) (S754_finite sy my ey)) = false.
Proof.
  unfold SFdiv, SFdiv_core_binary.
  set (s := _ - _ - Z.min _ _).
  set (m' := match s with Z0 => Zpos mx | Zpos _ => Z.shiftl (Zpos mx) s
                        | Zneg _ => 0 end).
  assert (Hm : 0 <= m').
  { subst m'. destruct s; try lia. apply Z.shiftl_nonneg. lia. }
  assert (Hq : 0 <= fst (Z.div_eucl m' (Zpos my))).
  { pose proof (Z.div_eucl_eq m' (Zpos my) ltac:(lia)) as Heq.
    pose proof (Z.mod_pos_bound m' (Zpos my) ltac:(lia)) as Hr.
    unfold Z.modulo in Hr. destruct (Z.div_eucl m' (Zpos my)) as [q r].
    cbn [fst]. nia. }
  destruct (Z.div_eucl m' (Zpos my)) as [q r]. cbn [fst] in Hq.
  apply binary_round_aux_not_nan. exact Hq.
Qed.

Lemma decimal_to_double_not_nan neg m e :
  is_nan (Libc.decimal_to_double neg m e) = false.
Proof.
  unfold Libc.decimal_to_double.
  destruct (m =? 0); [reflexivity|].
  destruct (0 <=? e).
  - apply binary_normalize_not_nan.
  - apply SFdiv_finite_not_nan.
Qed.

Lemma number_char_lower c :
  is_number_char c = true ->
  Ascii.eqb (Libc.tolower c) "i" = false
  /\ Ascii.eqb (Libc.tolower c) "n" = false
  /\ Ascii.eqb (Libc.tolower c) "x" = false.
Proof.
  intros H.
  destruct c as [[] [] [] [] [] [] [] []]; vm_compute in H;
    try discriminate H; repeat split; reflexivity.
Qed.

Lemma forallb_span {A : Type} (p Q : A -> bool) : forall l,
  forallb Q l = true ->
  forallb Q (fst (span p l)) = true /\ forallb Q (snd (span p l)) = true.
Proof.
  induction l as [|a l IH]; intros H; cbn [span]; [auto|].
  cbn [forallb] in H. apply andb_true_iff in H. destruct H as [Ha Hl].
  destruct (p a).
  - destruct (IH Hl) as [H1 H2]. destruct (span p l) as [u v].
    cbn [fst snd forallb] in *. rewrite Ha. auto.
  - cbn [fst snd forallb]. rewrite Ha, Hl. auto.
Qed.

Lemma starts_with_ci_letter s c t :
  forallb is_number_char s = true ->
  (c = "i" \/ c = "n")%char ->
  Libc.starts_with_ci s (c :: t) = false.
Proof.
  intros Hs Hc. unfold Libc.starts_with_ci.
  destruct s as [|a s]; [reflexivity|].
  cbn [forallb] in Hs. apply andb_true_iff in Hs. destruct Hs as [Ha _].
  destruct (number_char_lower a Ha) as [Hi [Hn _]].
  cbn [length firstn map str_eqb].
  destruct Hc as [-> | ->]; rewrite ?Hi, ?Hn; reflexivity.
Qed.

Lemma starts_with_ci_0x s :
  forallb is_number_char s = true ->
  Libc.starts_with_ci s (lit "0x") = false.
Proof.
  intros Hs. unfold Libc.starts_with_ci.
  destruct s as [|a [|b s]]; [reflexivity|..].
  - cbn. apply andb_false_r.
  - cbn [forallb] in Hs. apply andb_true_iff in Hs. destruct Hs as [_ Hs].
    apply andb_true_iff in Hs. destruct Hs as [Hb _].
    destruct (number_char_lower b Hb) as [_ [_ Hx]].
    cbn [lit list_ascii_of_string length firstn map str_eqb].
    rewrite Hx. cbn [andb]. apply andb_false_r.
Qed.

Lemma strtod_subject_not_nan neg s :
  forallb is_number_char s = true ->
  match Libc.strtod_subject neg s with
  | Some (v, _) => is_nan v = false
  | None => True
  end.
Proof.
  intros Hs. unfold Libc.strtod_subject.
  change (lit "infinity") with ("i"%char :: lit "nfinity").
  change (lit "inf") with ("i"%char :: lit "nf").
  change (lit "nan") with ("n"%char :: lit "an").
  rewrite (starts_with_ci_letter s "i" (lit "nfinity") Hs) by auto.
  rewrite (starts_with_ci_letter s "i" (lit "nf") Hs) by auto.
  rewrite (starts_with_ci_letter s "n" (lit "an") Hs) by auto.
  rewrite (starts_with_ci_0x s Hs).
  destruct (Libc.scan_mantissa Libc.isdigit s) as [[ip fp] r].
  destruct (ip ++ fp) as [|d ds]; [exact I|].
  destruct (Libc.scan_exponent (lit "eE") r) as [e r'].
  apply decimal_to_double_not_nan.
Qed.

Lemma strtod_not_nan n :
  forallb is_number_char n = true ->
  is_nan (fst (Libc.strtod (Libc.c_str n))) = false.
Proof.
  intros Hn. unfold Libc.strtod, Libc.c_str.
  destruct (forallb_span (fun c => negb (Ascii.eqb c NUL)) is_number_char n Hn)
    as [Hc _].
  set (s := fst (span _ n)) in *.
  destruct (forallb_span Libc.isspace is_number_char s Hc) as [_ Hr].
  set (r := snd (span Libc.isspace s)) in *.
  assert (Hsign : forallb is_number_char (snd (Libc.scan_sign r)) = true).
  { unfold Libc.scan_sign. destruct r as [|c r']; [reflexivity|].
    cbn [forallb] in Hr. apply andb_true_iff in Hr.
    destruct (Ascii.eqb c "-"); [cbn [snd]; tauto|].
    destruct (Ascii.eqb c "+"); cbn [snd forallb]; [tauto|].
    apply andb_true_iff. exact Hr. }
  destruct (Libc.scan_sign r) as [neg r']. cbn [snd] in Hsign.
  pose proof (strtod_subject_not_nan neg r' Hsign) as H.
  destruct (Libc.strtod_subject neg r') as [[v rest]|]; [exact H|reflexivity].
Qed.

(** ** The decoder: the shape of what it returns *)

Lemma parsed_object o :
  parsed_shape (ToonObject o)
  = ascending o && forallb (fun kv => parsed_shape (snd kv)) o.
Proof. reflexivity. Qed.

Lemma parsed_shape_push a x :
  parsed_shape (ToonArray a) = true -> parsed_shape x = true ->
  parsed_shape (ToonArray (a ++ [x])) = true.
Proof.
  cbn [parsed_shape]. intros Ha Hx. rewrite forallb_app, Ha.
  cbn [forallb]. rewrite Hx. reflexivity.
Qed.

Lemma parsed_shape_assign o k x :
  parsed_shape (ToonObject o) = true -> parsed_shape x = true ->
  parsed_shape (ToonObject (map_assign k x o)) = true.
Proof.
  rewrite !parsed_object. intros Ho Hx.
  apply andb_true_iff in Ho. destruct Ho as [Hasc Hent].
  rewrite ascending_map_assign by exact Hasc.
  apply (forallb_map_assign (fun kv => parsed_shape (snd kv))); assumption.
Qed.

Lemma parsed_shape_number n :
  forallb is_number_char n = true ->
  parsed_shape (ToonDouble (fst (Libc.strtod (Libc.c_str n)))) = true.
Proof.
  intros Hn. cbn [parsed_shape]. rewrite strtod_not_nan by exact Hn.
  reflexivity.
Qed.

(** Whatever the text, the value [Toon::parse] returns holds no [ToonInt]
    and no NaN: every number in it is a [ToonDouble] that is finite or
    infinite; and the keys of every object in it are in strictly ascending
    order, as [std::map] keeps them. *)
Theorem parse_result_shape (input : list ascii) (fuel : nat)
  (err0 : list ascii) (v : Toon) (p : ToonParser) :
  parse fuel input err0 = Returns v p -> parsed_shape v = true.
Proof.
  intros E.
  apply (yields_parse input (fun _ => True) (fun v => parsed_shape v = true)
           (fun _ _ _ => I) (fun _ _ _ _ => I)
           eq_refl (fun _ => eq_refl) (fun _ => eq_refl)
           parsed_shape_number eq_refl parsed_shape_push eq_refl
           parsed_shape_assign fuel err0 I v p E).
Qed.

Lemma parse_result_shape_witness :
  parsed_shape
    (ToonObject [(lit "a", ToonDouble (Libc.decimal_to_double false 2 0));
                 (lit "b", ToonDouble (Libc.decimal_to_double false 1 0))])
  = true.
Proof.
  apply (parse_result_shape (lit "b: 1" ++ "010"%char :: lit "a: 2") 5 []
           _ (mkParser 9 [] false)).
  vm_compute. reflexivity.
Defined.

(** ** [operator<] and [operator==] *)

Lemma Toon_induction (P : Toon -> Prop) :
  P ToonNull -> (forall d, P (ToonDouble d)) -> (forall n, P (ToonInt n)) ->
  (forall b, P (ToonBoolean b)) -> (forall s, P (ToonString s)) ->
  (forall a, Forall P a -> P (ToonArray a)) ->
  (forall o, Forall (fun kv => P (snd kv)) o -> P (ToonObject o)) ->
  forall v, P v.
Proof.
  intros Hn Hd Hi Hb Hs Ha Ho.
  refine (fix IH (v : Toon) : P v :=
            match v with
            | ToonNull => Hn
            | ToonDouble d => Hd d
            | ToonInt n => Hi n
            | ToonBoolean b => Hb b
            | ToonString s => Hs s
            | ToonArray a =>
                Ha a ((fix aux (l : list Toon) : Forall P l :=
                         match l with
                         | [] => Forall_nil _
                         | x :: r => Forall_cons x (IH x) (aux r)
                         end) a)
            | ToonObject o =>
                Ho o ((fix aux (l : object)
                         : Forall (fun kv => P (snd kv)) l :=
                         match l with
                         | [] => Forall_nil _
                         | kv :: r => Forall_cons kv (IH (snd kv)) (aux r)
                         end) o)
            end).
Qed.

Lemma less_array_cons x xs y ys :
  less (ToonArray (x :: xs)) (ToonArray (y :: ys))
  = match less x y with
    | Some false =>
        match greater x y with
        | Some false => less (ToonArray xs) (ToonArray ys)
        | Some true => Some false
        | None => None
        end
    | r => r
    end.
Proof. reflexivity. Qed.

Lemma greater_array_cons x xs y ys :
  greater (ToonArray (x :: xs)) (ToonArray (y :: ys))
  = match greater x y with
    | Some false =>
        match less x y with
        | Some false => greater (ToonArray xs) (ToonArray ys)
        | Some true => Some false
        | None => None
        end
    | r => r
    end.
Proof. reflexivity. Qed.

Lemma less_object_cons k x xs l y ys :
  less (ToonObject ((k, x) :: xs)) (ToonObject ((l, y) :: ys))
  = match (if str_ltb k l then Some true
           else if str_ltb l k then Some false else less x y) with
    | Some false =>
        match (if str_ltb l k then Some true
               else if str_ltb k l then Some false else greater x y) with
        | Some false => less (ToonObject xs) (ToonObject ys)
        | Some true => Some false
        | None => None
        end
    | r => r
    end.
Proof. reflexivity. Qed.

Lemma greater_object_cons k x xs l y ys :
  greater (ToonObject ((k, x) :: xs)) (ToonObject ((l, y) :: ys))
  = match (if str_ltb l k then Some true
           else if str_ltb k l then Some false else greater x y) with
    | Some false =>
        match (if str_ltb k l then Some true
               else if str_ltb l k then Some false else less x y) with
        | Some false => greater (ToonObject xs) (ToonObject ys)
        | Some true => Some false
        | None => None
        end
    | r => r
    end.
Proof. reflexivity. Qed.

(** [greater a b] is [b < a] *)
Lemma less_greater a : forall b,
  greater a b = less b a /\ less a b = greater b a.
Proof.
  induction a as [|d|n|bv|s|xs IH|xs IH] using Toon_induction; intros b;
    try (destruct b; split; reflexivity).
  - destruct b as [| | | | |ys|]; try (split; reflexivity).
    revert ys. induction IH as [|x xs Hx _ IHxs]; intros [|y ys];
      try (split; reflexivity).
    rewrite !less_array_cons, !greater_array_cons.
    destruct (Hx y) as [-> ->]. destruct (IHxs ys) as [-> ->].
    split; reflexivity.
  - destruct b as [| | | | | |ys]; try (split; reflexivity).
    revert ys. induction IH as [|[k x] xs Hx _ IHxs]; intros [|[l y] ys];
      try (split; reflexivity).
    rewrite !less_object_cons, !greater_object_cons.
    cbn [snd] in Hx. destruct (Hx y) as [-> ->].
    destruct (IHxs ys) as [-> ->].
    split; reflexivity.
Qed.

Lemma SFcompare_antisym x y :
  SFcompare y x = option_map CompOpp (SFcompare x y).
Proof.
  destruct x as [sx|sx| |sx mx ex], y as [sy|sy| |sy my ey];
    cbn [SFcompare option_map CompOpp];
    try reflexivity;
    try (destruct sx; reflexivity);
    try (destruct sy; reflexivity);
    try (destruct sx, sy; reflexivity).
  pose proof (Pos.compare_cont_antisym mx my Eq) as Hm. cbn [CompOpp] in Hm.
  destruct sx, sy; cbn [CompOpp]; try reflexivity;
    rewrite (Z.compare_antisym ex ey);
    destruct (ex ?= ey); cbn [CompOpp]; try reflexivity;
    rewrite <- Hm; destruct (Pos.compare_cont Eq mx my); reflexivity.
Qed.

Lemma SFcompare_defined x y :
  is_nan x = false -> is_nan y = false -> exists c, SFcompare x y = Some c.
Proof.
  destruct x, y; try discriminate; intros _ _; cbn [SFcompare]; eexists;
    reflexivity.
Qed.

Lemma str_compare s t :
  exists c, str_ltb s t = is_lt c /\ str_eqb s t = is_eq c
            /\ str_ltb t s = is_gt c.
Proof.
  destruct (str_ltb s t) eqn:E1.
  - exists Lt. rewrite (str_ltb_asym _ _ E1). repeat split.
    apply str_eqb_neq. intros ->. rewrite str_ltb_irrefl in E1. discriminate.
  - destruct (str_eqb s t) eqn:E2.
    + exists Eq. apply str_eqb_eq in E2. subst t.
      rewrite str_ltb_irrefl. repeat split.
    + exists Gt. rewrite (str_ltb_connex s t E1 E2). repeat split.
Qed.

Lemma equals_array_cons x xs y ys :
  equals (ToonArray (x :: xs)) (ToonArray (y :: ys))
  = if negb (length xs =? length ys)%nat then Some false
    else match equals x y with
         | Some true => equals (ToonArray xs) (ToonArray ys)
         | r => r
         end.
Proof.
  cbn [equals length Nat.eqb].
  destruct (length xs =? length ys)%nat; reflexivity.
Qed.

Lemma equals_object_cons k x xs l y ys :
  equals (ToonObject ((k, x) :: xs)) (ToonObject ((l, y) :: ys))
  = if negb (length xs =? length ys)%nat then Some false
    else if negb (str_eqb k l) then Some false
         else match equals x y with
              | Some true => equals (ToonObject xs) (ToonObject ys)
              | r => r
              end.
Proof.
  cbn [equals length Nat.eqb].
  destruct (length xs =? length ys)%nat; reflexivity.
Qed.

Lemma equals_length_array xs ys :
  (length xs =? length ys)%nat = false ->
  equals (ToonArray xs) (ToonArray ys) = Some false.
Proof. intros H. cbn [equals]. rewrite H. reflexivity. Qed.

Lemma equals_length_object xs ys :
  (length xs =? length ys)%nat = false ->
  equals (ToonObject xs) (ToonObject ys) = Some false.
Proof. intros H. cbn [equals]. rewrite H. reflexivity. Qed.

Lemma ordered_arrays xs :
  Forall (fun x => forall y, parsed_shape x = true -> parsed_shape y = true ->
                             exists c, ordered x y c) xs ->
  forall ys,
    forallb parsed_shape xs = true -> forallb parsed_shape ys = true ->
    exists c, ordered (ToonArray xs) (ToonArray ys) c.
Proof.
  induction 1 as [|x xs Hx _ IH]; intros [|y ys] Hxs Hys.
  - exists Eq. repeat split.
  - exists Lt. repeat split.
  - exists Gt. repeat split.
  - cbn [forallb] in Hxs, Hys.
    apply andb_true_iff in Hxs. destruct Hxs as [Sx Hxs].
    apply andb_true_iff in Hys. destruct Hys as [Sy Hys].
    destruct (Hx y Sx Sy) as [c0 [L [E G]]].
    destruct (IH ys Hxs Hys) as [c [L' [E' G']]].
    unfold ordered.
    rewrite !less_array_cons, equals_array_cons.
    rewrite (proj1 (less_greater x y)), (proj1 (less_greater y x)), L, E, G.
    destruct c0; cbn [is_lt is_eq is_gt].
    + exists c. rewrite L', E', G'.
      destruct (length xs =? length ys)%nat eqn:El; cbn [negb]; auto.
      rewrite (equals_length_array xs ys El) in E'. rewrite <- E'. auto.
    + exists Lt. destruct (negb (length xs =? length ys)%nat); repeat split.
    + exists Gt. destruct (negb (length xs =? length ys)%nat); repeat split.
Qed.

Lemma ordered_objects xs :
  Forall (fun kv => forall y, parsed_shape (snd kv) = true ->
                              parsed_shape y = true ->
                              exists c, ordered (snd kv) y c) xs ->
  forall ys,
    forallb (fun kv => parsed_shape (snd kv)) xs = true ->
    forallb (fun kv => parsed_shape (snd kv)) ys = true ->
    exists c, ordered (ToonObject xs) (ToonObject ys) c.
Proof.
  induction 1 as [|[k x] xs Hx _ IH]; intros [|[l y] ys] Hxs Hys.
  - exists Eq. repeat split.
  - exists Lt. repeat split.
  - exists Gt. repeat split.
  - cbn [forallb snd] in Hxs, Hys, Hx.
    apply andb_true_iff in Hxs. destruct Hxs as [Sx Hxs].
    apply andb_true_iff in Hys. destruct Hys as [Sy Hys].
    destruct (Hx y Sx Sy) as [c0 [L [E G]]].
    destruct (IH ys Hxs Hys) as [c [L' [E' G']]].
    destruct (str_compare k l) as [ck [Kl [Ke Kg]]].
    unfold ordered.
    rewrite !less_object_cons, equals_object_cons.
    rewrite (proj1 (less_greater x y)), (proj1 (less_greater y x)), L, E, G.
    rewrite Kl, Ke, Kg.
    destruct ck; cbn [is_lt is_eq is_gt negb].
    + destruct c0; cbn [is_lt is_eq is_gt].
      * exists c. rewrite L', E', G'.
        destruct (length xs =? length ys)%nat eqn:El; cbn [negb]; auto.
        rewrite (equals_length_object xs ys El) in E'. rewrite <- E'. auto.
      * exists Lt. destruct (negb (length xs =? length ys)%nat); repeat split.
      * exists Gt. destruct (negb (length xs =? length ys)%nat); repeat split.
    + exists Lt. destruct (negb (length xs =? length ys)%nat); repeat split.
    + exists Gt. destruct (negb (length xs =? length ys)%nat); repeat split.
Qed.

Lemma ordered_total (a b : Toon) :
  parsed_shape a = true -> parsed_shape b = true -> exists c, ordered a b c.
Proof.
  revert b. induction a as [|x|n|x|s|xs IH|xs IH] using Toon_induction;
    intros b Ha Hb; try discriminate Ha.
  - destruct b; try discriminate Hb;
      solve [ exists Eq; repeat split | exists Lt; repeat split ].
  - destruct b as [|y| | | | |]; try discriminate Hb;
      try solve [ exists Gt; repeat split | exists Lt; repeat split ].
    cbn [parsed_shape] in Ha, Hb. apply negb_true_iff in Ha, Hb.
    destruct (SFcompare_defined x y Ha Hb) as [c Ec].
    exists c. unfold ordered. cbn [less equals]. unfold SFltb, SFeqb.
    rewrite (SFcompare_antisym x y), Ec. cbn [option_map].
    destruct c; repeat split.
  - destruct b as [| | |y| | |]; try discriminate Hb;
      try solve [ exists Gt; repeat split | exists Lt; repeat split ].
    destruct x, y;
      solve [ exists Eq; repeat split | exists Lt; repeat split
            | exists Gt; repeat split ].
  - destruct b as [| | | |t| |]; try discriminate Hb;
      try solve [ exists Gt; repeat split | exists Lt; repeat split ].
    destruct (str_compare s t) as [c [L [E G]]].
    exists c. unfold ordered. cbn [less equals]. rewrite L, E, G.
    repeat split.
  - destruct b as [| | | | |ys|]; try discriminate Hb;
      try solve [ exists Gt; repeat split | exists Lt; repeat split ].
    apply ordered_arrays; auto.
  - destruct b as [| | | | | |ys]; try discriminate Hb;
      try solve [ exists Gt; repeat split | exists Lt; repeat split ].
    rewrite parsed_object in Ha, Hb.
    apply andb_true_iff in Ha, Hb.
    apply ordered_objects; tauto.
Qed.

(** On values without a [ToonInt] and without a NaN, such as the decoder
    returns, [operator<] and [operator==] are always defined and exactly
    one of [a < b], [a == b], [b < a] holds. *)
Theorem comparison_trichotomy (a b : Toon) :
  parsed_shape a = true -> parsed_shape b = true ->
  exists c, less a b = Some (is_lt c) /\ equals a b = Some (is_eq c)
            /\ less b a = Some (is_gt c).
Proof.
  intros Ha Hb. destruct (ordered_total a b Ha Hb) as [c [L [E G]]].
  exists c. repeat split; assumption.
Qed.

Lemma comparison_trichotomy_witness :
  exists c,
    less (ToonArray [ToonString (lit "a"); ToonBoolean true])
         (ToonArray [ToonString (lit "a"); ToonNull]) = Some (is_lt c)
    /\ equals (ToonArray [ToonString (lit "a"); ToonBoolean true])
              (ToonArray [ToonString (lit "a"); ToonNull]) = Some (is_eq c)
    /\ less (ToonArray [ToonString (lit "a"); ToonNull])
            (ToonArray [ToonString (lit "a"); ToonBoolean true])
       = Some (is_gt c).
Proof.
  apply (comparison_trichotomy
           (ToonArray [ToonString (lit "a"); ToonBoolean true])
           (ToonArray [ToonString (lit "a"); ToonNull]));
    reflexivity.
Defined.

(** ** Numbers: an [int] is read back as the [double] of the same value *)

Lemma print_int_neg q :
  Libc.print_int (Zneg q) = "-"%char :: Libc.print_int (Zpos q).
Proof. reflexivity. Qed.

(** the text of an [int]: an optional minus sign and the digits of its
    absolute value *)
Lemma print_int_text n :
  exists digits,
    digits <> [] /\ forallb Libc.isdigit digits = true
    /\ Libc.dec_value digits = Z.abs n
    /\ Libc.print_int n = if n <? 0 then "-"%char :: digits else digits.
Proof.
  destruct n as [|q|q].
  - exists (lit "0"). repeat split. discriminate.
  - destruct (print_int_nat (Pos.to_nat q)) as [Hd [Hne Hv]].
    rewrite positive_nat_Z in *.
    exists (Libc.print_int (Zpos q)). auto.
  - destruct (print_int_nat (Pos.to_nat q)) as [Hd [Hne Hv]].
    rewrite positive_nat_Z in *.
    exists (Libc.print_int (Zpos q)). rewrite print_int_neg. auto.
Qed.

Lemma isdigit_number_char c : Libc.isdigit c = true -> is_number_char c = true.
Proof. intros H. unfold is_number_char. rewrite H. reflexivity. Qed.

Lemma digits_number_chars ds :
  forallb Libc.isdigit ds = true -> forallb is_number_char ds = true.
Proof.
  intros H. apply forallb_forall. intros c Hc.
  rewrite forallb_forall in H. apply isdigit_number_char, H, Hc.
Qed.

Lemma span_all {A : Type} (p : A -> bool) l :
  forallb p l = true -> span p l = (l, []).
Proof.
  induction l as [|a l IH]; intros H; [reflexivity|].
  cbn [forallb] in H. apply andb_true_iff in H. destruct H as [Ha Hl].
  cbn [span]. rewrite Ha, (IH Hl). reflexivity.
Qed.

Lemma isdigit_facts c :
  Libc.isdigit c = true ->
  Libc.isspace c = false /\ Ascii.eqb c "-" = false /\ Ascii.eqb c "+" = false
  /\ Ascii.eqb c NUL = false /\ Ascii.eqb c "034" = false
  /\ Ascii.eqb c "[" = false /\ is_blank c = false /\ is_newline c = false
  /\ Ascii.eqb c "#" = false /\ Ascii.eqb c "n" = false
  /\ Ascii.eqb c "t" = false /\ Ascii.eqb c "f" = false.
Proof.
  intros H.
  destruct c as [[] [] [] [] [] [] [] []]; vm_compute in H;
    try discriminate H; repeat split; reflexivity.
Qed.

(** [strtod] on a run of digits, with or without a minus sign *)
Lemma strtod_digits (neg : bool) digits :
  digits <> [] -> forallb Libc.isdigit digits = true ->
  Libc.strtod (Libc.c_str (if neg then "-"%char :: digits else digits))
  = (Libc.decimal_to_double neg (Libc.dec_value digits) 0,
     length (if neg then "-"%char :: digits else digits)).
Proof.
  intros Hne Hd.
  assert (Hnum := digits_number_chars digits Hd).
  destruct digits as [|d ds] eqn:Ed; [contradiction|]. rewrite <- Ed in *.
  assert (Hd0 : Libc.isdigit d = true)
    by (rewrite Ed in Hd; cbn [forallb] in Hd; apply andb_true_iff in Hd; tauto).
  destruct (isdigit_facts d Hd0) as [Hsp [Hm [Hp [Hnul _]]]].
  assert (Hcs : forall s, forallb (fun c => negb (Ascii.eqb c NUL)) s = true ->
                          Libc.c_str s = s).
  { intros s Hs. unfold Libc.c_str. rewrite span_all; [reflexivity|exact Hs]. }
  assert (Hnn : forallb (fun c => negb (Ascii.eqb c NUL)) digits = true).
  { apply forallb_forall. intros c Hc. rewrite forallb_forall in Hd.
    destruct (isdigit_facts c (Hd c Hc)) as [_ [_ [_ [-> _]]]]. reflexivity. }
  assert (Hsubj : Libc.strtod_subject neg digits
                  = Some (Libc.decimal_to_double neg (Libc.dec_value digits) 0,
                          [])).
  { unfold Libc.strtod_subject.
    change (lit "infinity") with ("i"%char :: lit "nfinity").
    change (lit "inf") with ("i"%char :: lit "nf").
    change (lit "nan") with ("n"%char :: lit "an").
    rewrite !(starts_with_ci_letter digits "i" _ Hnum) by auto.
    rewrite (starts_with_ci_letter digits "n" _ Hnum) by auto.
    rewrite (starts_with_ci_0x digits Hnum).
    unfold Libc.scan_mantissa. rewrite (span_all _ _ Hd).
    rewrite app_nil_r. rewrite Ed at 1. rewrite <- Ed.
    cbn [Libc.scan_exponent length Z.of_nat Z.sub]. reflexivity. }
  unfold Libc.strtod. destruct neg.
  - rewrite Hcs by (cbn [forallb]; rewrite Hnn; reflexivity).
    cbn [span]. change (Libc.isspace "-") with false.
    cbn [snd Libc.scan_sign Ascii.eqb Bool.eqb].
    rewrite Hsubj. cbn [length]. rewrite Nat.sub_0_r. reflexivity.
  - rewrite Hcs by exact Hnn. rewrite Ed at 1. cbn [span]. rewrite Hsp.
    cbn [snd]. rewrite <- Ed. rewrite Ed at 1. cbn [Libc.scan_sign].
    rewrite Hm, Hp. rewrite <- Ed, Hsubj. rewrite Nat.sub_0_r. reflexivity.
Qed.

(** the [double] nearest to an integer is the [double] of the [int] *)
Lemma decimal_of_int n :
  Libc.decimal_to_double (n <? 0) (Z.abs n) 0 = Libc.int_to_double n.
Proof.
  unfold Libc.decimal_to_double, Libc.int_to_double, Libc.binary64.
  destruct n as [|q|q]; [reflexivity| |];
    cbn [Z.abs Z.eqb Z.ltb Z.leb Z.compare]; change (10 ^ 0) with 1;
    rewrite Z.mul_1_r; reflexivity.
Qed.

Lemma value_end_number suf : value_end suf -> stops is_number_char suf.
Proof.
  destruct suf as [|c r]; [auto|]. cbn [value_end stops]. intros H.
  apply negb_false_iff in H. apply str_contains_In in H.
  cbn in H. repeat (destruct H as [<-|H]; [reflexivity|]). contradiction.
Qed.

Lemma str_eqb_head c d s t :
  Ascii.eqb c d = false -> str_eqb (c :: s) (d :: t) = false.
Proof. intros H. cbn [str_eqb]. rewrite H. reflexivity. Qed.

(** [parse_value] at the text of an [int] *)
Lemma parse_value_int_at str m p n level suf :
  left_at str (i p) (dump (ToonInt n) level ++ suf) -> value_end suf ->
  parse_value str (S m) p
  = Returns (ToonDouble (Libc.int_to_double n))
      (set_i p (i p + length (dump (ToonInt n) level))).
Proof.
  intros H Hsuf. cbn [dump] in *. unfold dump_int in *.
  destruct (print_int_text n) as [digits [Hne [Hd [Hv Ht]]]].
  set (text := Libc.print_int n) in *.
  assert (Hnum : forallb is_number_char text = true).
  { rewrite Ht. destruct (n <? 0); [cbn [forallb]|];
      rewrite digits_number_chars by exact Hd; reflexivity. }
  assert (Hfirst : exists c t, text = c :: t
            /\ is_blank c = false /\ Ascii.eqb c "034" = false
            /\ Ascii.eqb c "[" = false /\ Ascii.eqb c "n" = false
            /\ Ascii.eqb c "t" = false /\ Ascii.eqb c "f" = false
            /\ Libc.isdigit c || Ascii.eqb c "-" = true).
  { rewrite Ht. destruct (n <? 0).
    - eexists _, _. repeat split.
    - destruct digits as [|d ds]; [contradiction|].
      cbn [forallb] in Hd. apply andb_true_iff in Hd. destruct Hd as [Hd0 _].
      destruct (isdigit_facts d Hd0)
        as [_ [_ [_ [_ [? [? [? [_ [_ [? [? ?]]]]]]]]]]].
      exists d, ds. rewrite Hd0. repeat split; auto. }
  destruct Hfirst as [c [t [Ec [Hb [Hq [Hbr [Hn [Htt [Hf Hdm]]]]]]]]].
  cbn [parse_value]. unfold parse_value_body.
  rewrite (consume_whitespace_at str p [] (text ++ suf) H eq_refl)
    by (rewrite Ec; exact Hb).
  cbn [length]. rewrite Nat.add_0_r, set_i_same.
  assert (Hc := H). rewrite Ec in Hc. cbn [app] in Hc.
  destruct (left_at_char _ _ _ _ Hc) as [Hch [_ Hsz]].
  rewrite Hsz, Hch, Hq, Hbr.
  destruct (left_at_split _ _ _ Hc) as [pre [Estr Epre]].
  rewrite Estr, <- Epre, !compare_eq_app.
  cbn [firstn lit list_ascii_of_string].
  rewrite !str_eqb_head by assumption.
  rewrite Hdm. rewrite Epre, <- Estr.
  unfold parse_number.
  rewrite (scan_while_at str is_number_char (i p) text suf H Hnum)
    by (apply value_end_number; exact Hsuf).
  replace (i p + length text - i p)%nat with (length text) by lia.
  rewrite (substr_at str (i p) text suf H).
  rewrite Ht. rewrite (strtod_digits (n <? 0) digits Hne Hd). cbn [fst].
  rewrite Hv, decimal_of_int. rewrite <- Ht. reflexivity.
Qed.

(** ** Round trip: documents with [int]s *)

Lemma decoded_scalar v : scalar v = true -> decoded v = v.
Proof. destruct v; try discriminate; reflexivity. Qed.

Lemma cell_cases v :
  cell v = true -> scalar v = true \/ exists n, v = ToonInt n.
Proof.
  destruct v; try discriminate; intros H; try (left; exact H).
  right. eexists. reflexivity.
Qed.

Lemma parse_value_cell_at str m p v level suf :
  cell v = true ->
  left_at str (i p) (dump v level ++ suf) -> value_end suf ->
  parse_value str (S m) p
  = Returns (decoded v) (set_i p (i p + length (dump v level))).
Proof.
  intros Hv H Hs. destruct (cell_cases v Hv) as [Hsc|[n ->]].
  - rewrite (decoded_scalar v Hsc). apply (parse_value_scalar_at str m p v level suf); assumption.
  - apply (parse_value_int_at str m p n level suf); assumption.
Qed.

Lemma cell_first_char v level :
  cell v = true ->
  exists c t, dump v level = c :: t /\ is_blank c = false
    /\ is_newline c = false /\ Ascii.eqb c "#" = false
    /\ Ascii.eqb c "[" = false.
Proof.
  intros Hv. destruct (cell_cases v Hv) as [Hsc|[n ->]].
  - apply scalar_first_char, Hsc.
  - cbn [dump]. unfold dump_int.
    destruct (print_int_text n) as [digits [Hne [Hd [_ ->]]]].
    destruct (n <? 0).
    + eexists _, _. repeat split.
    + destruct digits as [|d ds]; [contradiction|].
      cbn [forallb] in Hd. apply andb_true_iff in Hd. destruct Hd as [Hd0 _].
      destruct (isdigit_facts d Hd0)
        as [_ [_ [_ [_ [_ [? [? [? [? _]]]]]]]]].
      exists d, ds. repeat split; assumption.
Qed.

Lemma cell_level v l l' : cell v = true -> dump v l = dump v l'.
Proof. destruct v; try discriminate; reflexivity. Qed.

Lemma print_int_no_colon n : str_contains (Libc.print_int n) ":" = false.
Proof.
  destruct (print_int_text n) as [digits [_ [Hd [_ ->]]]].
  assert (H : str_contains digits ":" = false).
  { destruct (str_contains digits ":") eqn:E; [|reflexivity].
    apply str_contains_In in E. rewrite forallb_forall in Hd.
    specialize (Hd _ E). discriminate Hd. }
  destruct (n <? 0); [|exact H].
  unfold str_contains in *. cbn [existsb]. rewrite H. reflexivity.
Qed.

Lemma elements_loop_cells todo : forall str m n count k arr p suf level,
  forallb cell todo = true -> todo <> [] ->
  left_at str (i p) (" "%char :: dump_elements dump todo level ++ suf) ->
  line_end suf ->
  count = k + Z.of_nat (length todo) -> 0 <= k ->
  (length todo < n)%nat ->
  elements_loop str (parse_value str (S m)) n count k arr p
  = Returns (ToonArray (arr ++ map decoded todo))
      (set_i p (i p + 1 + length (dump_elements dump todo level))).
Proof.
  induction todo as [|v rest IH];
    intros str m n count k arr p suf level Hsc Hne H Hsuf Hcount Hk Hn;
    [contradiction|].
  cbn [forallb] in Hsc. apply andb_true_iff in Hsc. destruct Hsc as [Hv Hrest].
  destruct n as [|n]; [lia|]. cbn [elements_loop].
  replace ((count <? 0) || (k <? count)) with true
    by (symmetry; apply orb_true_iff; right; apply Z.ltb_lt;
        cbn [length] in Hcount; lia).
  rewrite dump_elements_cons in H |- *. rewrite <- app_assoc in H.
  destruct (cell_first_char v level Hv) as [c [t [Ec [Hb [Hnl [Hh Hbr]]]]]].
  (* the blank before the element *)
  rewrite (consume_garbage_at str p [" "%char] _ H eq_refl)
    by (rewrite Ec; cbn [app token_start]; repeat split; auto;
        apply Ascii.eqb_neq; assumption).
  assert (H1 := left_at_advance str (i p) [" "%char] _ H).
  cbn [length] in *. norm_state.
  assert (H1c := H1). rewrite Ec in H1c. cbn [app] in H1c.
  destruct (left_at_char _ _ _ _ H1c) as [_ [_ Hsz]]. rewrite Hsz.
  (* the element *)
  set (follow := match rest with
                 | [] => []
                 | _ :: _ => ","%char :: " "%char :: dump_elements dump rest level
                 end ++ suf) in *.
  assert (Hfollow : value_end follow).
  { subst follow. destruct rest; [apply line_end_value_end, Hsuf|reflexivity]. }
  rewrite (parse_value_cell_at str m (set_i p (i p + 1)) v level follow Hv)
    by (rewrite ?i_set_i; assumption).
  cbn [bind]. norm_state.
  assert (H2 := left_at_advance str _ _ _ H1).
  (* what follows the element *)
  assert (Hstop : stops is_blank follow).
  { subst follow. destruct rest; [|reflexivity].
    destruct suf; simpl in *; subst; auto. }
  rewrite (consume_whitespace_at str _ [] follow);
    [|rewrite i_set_i; exact H2|reflexivity|exact Hstop].
  cbn [length]. norm_state. rewrite Nat.add_0_r.
  unfold follow in H2. destruct rest as [|w rest].
  - (* the last element *)
    cbn [app] in H2.
    replace ((i p + 1 + length (dump v level) <? size str)%nat
             && Ascii.eqb (char_at str (i p + 1 + length (dump v level))) ",")
      with false.
    2:{ symmetry. destruct suf as [|c' r'].
        - rewrite (left_at_nil_ltb _ _ H2). reflexivity.
        - destruct (left_at_char _ _ _ _ H2) as [-> _].
          simpl in Hsuf. subst c'. apply andb_false_r. }
    replace (count <? 0) with false by (symmetry; apply Z.ltb_ge; lia).
    destruct n as [|n]; [cbn [length] in Hn; lia|]. cbn [elements_loop].
    replace ((count <? 0) || (k + 1 <? count)) with false
      by (symmetry; apply orb_false_iff; split; apply Z.ltb_ge;
          cbn [length] in Hcount; lia).
    rewrite app_nil_r. reflexivity.
  - (* a comma, and the elements left *)
    cbn [app] in H2.
    destruct (left_at_char _ _ _ _ H2) as [-> [-> _]].
    cbn [Ascii.eqb Bool.eqb andb]. norm_state.
    assert (H3 := left_at_advance str _ [","%char] _ H2). cbn [length] in H3.
    rewrite (IH str m n count (k + 1) (arr ++ [decoded v])
               (set_i p (S (i p + 1 + length (dump v level)))) suf level);
      rewrite ?i_set_i, ?set_i_set_i; auto.
    + rewrite <- app_assoc. cbn [app map]. do 2 f_equal.
      rewrite length_app. cbn [length]. lia.
    + discriminate.
    + replace (S (i p + 1 + length (dump v level)))
        with (i p + 1 + length (dump v level) + 1)%nat by lia.
      exact H3.
    + cbn [length] in Hcount |- *. lia.
    + lia.
    + cbn [length] in Hn |- *. lia.
Qed.

Lemma cells_array_verbose a level :
  forallb cell a = true ->
  dump (ToonArray a) level
  = "["%char :: Libc.print_int (Z.of_nat (length a))
    ++ "]"%char :: ":"%char
       :: match a with
          | [] => []
          | _ => " "%char :: dump_elements dump a level
          end.
Proof.
  intros Ha. cbn [dump]. unfold dump_array. destruct a as [|v a]; [reflexivity|].
  replace (all_objects (v :: a)) with false.
  - reflexivity.
  - cbn [forallb] in Ha. apply andb_true_iff in Ha. destruct Ha as [Hv _].
    destruct v; try discriminate Hv; reflexivity.
Qed.

Lemma parse_array_cells_at a : forall str fuel x p suf level,
  cells_array a = true ->
  left_at str (i p) (dump (ToonArray a) level ++ suf) -> line_end suf ->
  (length a + 2 <= fuel)%nat ->
  parse_array str fuel x p
  = Returns (ToonArray (map decoded a))
      (set_i p (i p + length (dump (ToonArray a) level))).
Proof.
  intros str fuel x p suf level Ha H Hsuf Hfuel.
  unfold cells_array in Ha. apply andb_true_iff in Ha. destruct Ha as [Hsc Hmax].
  apply Z.leb_le in Hmax.
  rewrite (cells_array_verbose a level Hsc) in H |- *.
  destruct fuel as [|fuel]; [lia|]. cbn [parse_array]. unfold parse_array_body.
  cbn [app] in H. rewrite <- app_assoc in H. cbn [app] in H.
  rewrite (parse_array_header_at str (i p) (length a) _ H Hmax).
  set (digits := Libc.print_int (Z.of_nat (length a))) in *.
  assert (H1 : left_at str (i p + length digits + 3)
                 (match a with
                  | [] => []
                  | _ => " "%char :: dump_elements dump a level
                  end ++ suf)).
  { replace (i p + length digits + 3)%nat
      with (i p + length ("["%char :: digits ++ ["]"%char; ":"%char]))%nat
      by (cbn [length]; rewrite length_app; cbn [length]; lia).
    apply left_at_advance. cbn [app]. rewrite <- app_assoc. exact H. }
  destruct a as [|v a].
  - destruct fuel as [|fuel]; [cbn [length] in Hfuel; lia|].
    cbn [elements_loop length Z.of_nat]. cbn [Z.ltb Z.compare orb app map].
    do 2 f_equal. cbn [length]. rewrite length_app. cbn [length]. lia.
  - destruct fuel as [|m]; [lia|].
    rewrite (elements_loop_cells (v :: a) str m (S m) _ 0 []
               (set_i p (i p + length digits + 3)) suf level);
      rewrite ?i_set_i, ?set_i_set_i; auto.
    + cbn [app]. do 2 f_equal. cbn [length]. rewrite length_app.
      cbn [length]. lia.
    + discriminate.
    + lia.
    + cbn [length] in Hfuel |- *. lia.
Qed.

Lemma row_loop_decoded todo : forall str m obj p g suf,
  forallb (fun kv => cell (snd kv)) todo = true ->
  ascending todo = true ->
  (forall kv kv', In kv obj -> In kv' todo ->
                  str_ltb (fst kv) (fst kv') = true) ->
  todo <> [] ->
  forallb is_blank g = true ->
  left_at str (i p) (g ++ cells_text todo ++ suf) ->
  line_end suf -> failed p = false ->
  row_loop str (parse_value str (S m)) (map fst todo) obj p
  = Returns (inr (obj ++ decoded_entries todo, false))
      (set_i p (i p + length g + length (cells_text todo))).
Proof.
  induction todo as [|[k x] rest IH];
    intros str m obj p g suf Hsc Hasc Hobj Hne Hg H Hsuf Hfl;
    [contradiction|].
  cbn [forallb snd] in Hsc. apply andb_true_iff in Hsc.
  destruct Hsc as [Hx Hrest].
  cbn [ascending] in Hasc. apply andb_true_iff in Hasc.
  destruct Hasc as [Hklt Hasc].
  cbn [map fst row_loop]. unfold cells_text in *. cbn [map snd] in *.
  rewrite dump_elements_cons in H |- *. rewrite <- app_assoc in H.
  destruct (cell_first_char x 0 Hx) as [c [t [Ec [Hb [Hnl [Hh Hbr]]]]]].
  rewrite (consume_whitespace_at str p g _ H Hg)
    by (rewrite Ec; exact Hb).
  assert (H1 := left_at_advance str (i p) g _ H).
  norm_state.
  assert (H1c := H1). rewrite Ec in H1c. cbn [app] in H1c.
  destruct (left_at_char _ _ _ _ H1c) as [Hc [_ Hsz]].
  rewrite Hsz, Hc, Hnl. cbn [orb].
  set (follow := match map snd rest with
                 | [] => []
                 | _ :: _ =>
                     ","%char :: " "%char :: dump_elements dump (map snd rest) 0
                 end ++ suf) in *.
  assert (Hfollow : value_end follow).
  { subst follow. destruct (map snd rest);
      [apply line_end_value_end, Hsuf|reflexivity]. }
  rewrite (parse_value_cell_at str m (set_i p (i p + length g)) x 0 follow Hx)
    by (rewrite ?i_set_i; assumption).
  cbn [bind]. norm_state. rewrite failed_set_i, Hfl.
  rewrite map_assign_last.
  2:{ apply forallb_forall. intros kv Hin.
      apply (Hobj kv (k, x) Hin). left. reflexivity. }
  assert (H2 := left_at_advance str _ _ _ H1).
  assert (Hstop : stops is_blank follow).
  { subst follow. destruct (map snd rest); [|reflexivity].
    destruct suf; simpl in *; subst; auto. }
  rewrite (consume_whitespace_at str _ [] follow);
    [|rewrite i_set_i; exact H2|reflexivity|exact Hstop].
  cbn [length]. norm_state. rewrite Nat.add_0_r.
  unfold follow in H2. destruct rest as [|[k' x'] rest].
  - cbn [negb andb map row_loop app]. unfold decoded_entries.
    cbn [map fst snd].
    do 2 f_equal. rewrite length_app. cbn [length]. lia.
  - cbn [map snd app] in H2. cbn [negb andb].
    destruct (left_at_char _ _ _ _ H2) as [-> [-> _]].
    change (match map fst ((k', x') :: rest) with
            | [] => true
            | _ :: _ => false
            end) with false.
    cbn [Ascii.eqb Bool.eqb andb negb]. norm_state.
    assert (H3 := left_at_advance str _ [","%char] _ H2). cbn [length] in H3.
    rewrite (IH str m (obj ++ [(k, decoded x)])
               (set_i p (S (i p + length g + length (dump x 0))))
               [" "%char] suf);
      rewrite ?i_set_i, ?set_i_set_i, ?failed_set_i; auto.
    + rewrite <- app_assoc. unfold decoded_entries. cbn [app map fst snd].
      do 2 f_equal.
      cbn [map snd]. repeat (rewrite length_app; cbn [length]). lia.
    + intros kv kv' Hin Hin'. apply in_app_or in Hin. destruct Hin as [Hin|Hin].
      * apply Hobj; [exact Hin|right; exact Hin'].
      * destruct Hin as [<-|[]]. cbn [fst].
        rewrite forallb_forall in Hklt. apply Hklt, Hin'.
    + discriminate.
    + replace (S (i p + length g + length (dump x 0)))
        with (i p + length g + length (dump x 0) + 1)%nat by lia.
      exact H3.
Qed.

Lemma rows_loop_decoded rows : forall str m n P keys arr p s w,
  Forall (table_row_good keys) rows -> keys <> [] ->
  left_at str (i p) (rows_text rows w ++ text s) ->
  suffix_ok s P -> P < Z.of_nat w -> failed p = false ->
  (length rows < n)%nat ->
  returns_at str p (ToonArray (arr ++ map decoded rows)) s
    (rows_loop str (parse_value str (S m)) n P keys arr p).
Proof.
  induction rows as [|r rest IH];
    intros str m n P keys arr p s w Hrows Hkeys H Hs HP Hfl Hn;
    (destruct n as [|n]; [cbn [length] in Hn; lia|]); cbn [rows_loop].
  - cbn [rows_text flat_map app] in H. cbn [map]. rewrite app_nil_r.
    destruct s as [|m0 tok].
    + rewrite (left_at_nil_ltb _ _ H). exists (i p).
      rewrite set_i_same. repeat split; try apply H. intros C. contradiction.
    + rewrite (left_at_ltb _ _ _ H) by discriminate.
      destruct (suffix_line str p m0 tok P H Hs) as [-> [H1 [Hat [Hind Hsz]]]].
      rewrite i_set_i, Hsz, Hind. destruct Hs as [Hm _].
      replace (negb (P =? -1)) with true
        by (symmetry; apply negb_true_iff, Z.eqb_neq; lia).
      replace (Z.of_nat m0 <=? P) with true by (symmetry; apply Z.leb_le; lia).
      cbn [andb]. norm_state. exists (i p + S m0)%nat.
      repeat split; try apply H1. intros _. exact Hat.
  - apply Forall_cons_iff in Hrows.
    destruct Hrows as [[o [-> [Ek [Hsc Hasc]]]] Hrest].
    cbn [rows_text flat_map object_items] in H.
    fold (rows_text rest w) in H.
    rewrite (left_at_ltb _ _ _ H) by discriminate.
    destruct o as [|[k x] o']; [symmetry in Ek; contradiction|].
    assert (Hx : cell x = true)
      by (cbn [forallb snd] in Hsc; apply andb_true_iff in Hsc; tauto).
    destruct (cell_first_char x 0 Hx) as [c [t [Ec [Hb [Hnl [Hh Hbr]]]]]].
    set (o := (k, x) :: o') in *.
    assert (Ecells : exists t', cells_text o = c :: t').
    { unfold cells_text, o. cbn [map snd]. rewrite dump_elements_cons, Ec.
      eexists. reflexivity. }
    destruct Ecells as [t' Ecells].
    set (follow := rows_text rest w ++ text s) in *.
    assert (H0 : left_at str (i p)
                   (text (Line w (cells_text o ++ follow)))).
    { unfold text. cbn [gap after app]. cbn [app] in H.
      rewrite <- !app_assoc in H. exact H. }
    assert (Hok : suffix_ok (Line w (cells_text o ++ follow)) (Z.of_nat w)).
    { cbn [suffix_ok]. split; [lia|]. rewrite Ecells. cbn [app token_start].
      repeat split; auto; try discriminate. apply Ascii.eqb_neq. exact Hh. }
    destruct (suffix_line str p w _ _ H0 Hok) as [-> [H1 [Hat [Hind Hsz]]]].
    rewrite i_set_i, Hsz, Hind.
    replace (Z.of_nat w <=? P) with false by (symmetry; apply Z.leb_gt; lia).
    rewrite andb_false_r.
    rewrite <- Ek.
    rewrite (row_loop_decoded o str m [] (set_i p (i p + S w)) [] follow);
      rewrite ?i_set_i, ?failed_set_i; auto.
    + cbn [bind negb app length]. norm_state.
      assert (H2 := left_at_advance str _ _ _ H1).
      destruct (IH str m n P (map fst o) (arr ++ [ToonObject (decoded_entries o)])
                  (set_i p (i p + S w + 0 + length (cells_text o))) s w)
        as [q [Eq Hq]]; rewrite ?i_set_i, ?failed_set_i; auto.
      * rewrite Ek. exact Hrest.
      * rewrite Ek. exact Hkeys.
      * rewrite Nat.add_0_r. exact H2.
      * cbn [length] in Hn. lia.
      * exists q. rewrite Eq, set_i_set_i, <- app_assoc. auto.
    + discriminate.
    + apply rows_text_line_end.
Qed.

Lemma table_rows a :
  table a = true ->
  exists o rest,
    a = ToonObject o :: rest /\ o <> []
    /\ forallb header_key_ok (map fst o) = true
    /\ Forall (table_row_good (map fst o)) a.
Proof.
  unfold table. destruct a as [|v rest]; [discriminate|].
  destruct v as [| | | | | |o]; try discriminate. intros H.
  repeat (apply andb_true_iff in H; destruct H as [H ?]).
  exists o, rest. split; [reflexivity|]. split; [|split; [assumption|]].
  - destruct o; [discriminate H|discriminate].
  - apply Forall_forall. intros r Hin.
    match goal with
    | Hall : forallb (table_row _) _ = true |- _ =>
        rewrite forallb_forall in Hall; specialize (Hall r Hin)
    end.
    unfold table_row in *. destruct r as [| | | | | |o']; try discriminate.
    match goal with
    | Hr : _ && _ = true |- _ =>
        apply andb_true_iff in Hr; destruct Hr as [Hk Hsc]
    end.
    apply keys_eqb_eq in Hk. exists o'. repeat split; auto.
    apply (ascending_keys o o'); auto.
Qed.

Lemma dump_cells_table_row o : forall level,
  ascending o = true -> forallb (fun kv => cell (snd kv)) o = true ->
  dump_cells dump o (map fst o) level = cells_text o.
Proof.
  induction o as [|[k x] o IH]; intros level Hasc Hsc; [reflexivity|].
  cbn [ascending] in Hasc. apply andb_true_iff in Hasc.
  destruct Hasc as [Hk Hasc].
  cbn [forallb snd] in Hsc. apply andb_true_iff in Hsc. destruct Hsc as [Hx Hsc].
  unfold cells_text in *. cbn [map fst snd dump_cells dump_at dump_elements].
  rewrite str_eqb_refl, (cell_level x level 0 Hx).
  rewrite dump_cells_skip, (IH level Hasc Hsc).
  - destruct o; reflexivity.
  - intros k' Hin. apply in_map_iff in Hin. destruct Hin as [kv [<- Hin]].
    rewrite forallb_forall in Hk. specialize (Hk kv Hin).
    apply str_eqb_neq. intros E. rewrite E, str_ltb_irrefl in Hk.
    discriminate.
Qed.

Lemma dump_table_rows_text keys L rows :
  Forall (table_row_good keys) rows ->
  match rows with [] => [] | _ => ["010"%char] end
    ++ dump_rows dump rows keys (Z.of_nat L)
  = rows_text rows (2 * S L).
Proof.
  induction rows as [|r rows IH]; intros H; [reflexivity|].
  apply Forall_cons_iff in H. destruct H as [[o [-> [<- [Hsc Hasc]]]] H].
  cbn [dump_rows app rows_text flat_map object_items].
  fold (rows_text rows (2 * S L)). rewrite <- (IH H).
  replace (Z.of_nat L + 1) with (Z.of_nat (S L)) by lia.
  rewrite indent_nat, (dump_cells_table_row o _ Hasc Hsc), <- !app_assoc.
  reflexivity.
Qed.

Lemma all_objects_table_rows keys rows :
  Forall (table_row_good keys) rows -> all_objects_from keys rows = true.
Proof.
  induction rows as [|r rows IH]; intros H; [reflexivity|].
  apply Forall_cons_iff in H. destruct H as [[o [-> [<- [Hsc Hasc]]]] H].
  cbn [all_objects_from is_object object_items negb orb].
  rewrite length_map, Nat.eqb_refl. cbn [negb].
  replace (has_all_keys (map fst o) o) with true; [apply IH, H|].
  symmetry. apply has_all_keys_spec. auto.
Qed.

Lemma table_dump a L :
  table a = true ->
  dump (ToonArray a) (Z.of_nat L)
  = "["%char :: "{"%char :: dump_header_keys (tabular_keys a)
    ++ "}"%char :: "]"%char :: ":"%char :: rows_text a (2 * S L).
Proof.
  intros Ha. destruct (table_rows a Ha) as [o [rest [-> [Hne [_ Hrows]]]]].
  cbn [dump]. unfold dump_array. cbn [tabular_keys all_objects].
  rewrite <- (dump_table_rows_text (map fst o) L _ Hrows).
  apply Forall_cons_iff in Hrows. destruct Hrows as [_ Hrest].
  rewrite (all_objects_table_rows _ _ Hrest).
  destruct o as [|kv o]; [contradiction|].
  change (match map fst (kv :: o) with
          | [] => true
          | _ :: _ => false
          end) with false.
  reflexivity.
Qed.

Lemma parse_array_table a : forall str fuel P p s L,
  table a = true ->
  left_at str (i p) (dump (ToonArray a) (Z.of_nat L) ++ text s) ->
  suffix_ok s P -> P < Z.of_nat (2 * S L) -> failed p = false ->
  (length a + 2 <= fuel)%nat ->
  returns_at str p (ToonArray (map decoded a)) s (parse_array str fuel P p).
Proof.
  intros str fuel P p s L Ha H Hs HP Hfl Hfuel.
  rewrite (table_dump a L Ha) in H.
  destruct (table_rows a Ha) as [o [rest [Ea [Hne [Hok Hrows]]]]].
  assert (Ek : tabular_keys a = map fst o) by (rewrite Ea; reflexivity).
  rewrite Ek in H. cbn [app] in H. rewrite <- app_assoc in H. cbn [app] in H.
  destruct fuel as [|f]; [lia|]. cbn [parse_array]. unfold parse_array_body.
  rewrite (parse_array_header_tabular str (i p) (map fst o) _ H Hok).
  set (j := (i p + length (dump_header_keys (map fst o)) + 5)%nat).
  assert (Hj : left_at str j (rows_text a (2 * S L) ++ text s)).
  { replace j with
      (i p + length ("["%char :: "{"%char :: dump_header_keys (map fst o)
                     ++ ["}"%char; "]"%char; ":"%char]))%nat
      by (cbn [length]; rewrite length_app; cbn [length]; lia).
    apply left_at_advance. cbn [app]. rewrite <- app_assoc. exact H. }
  destruct f as [|m]; [lia|].
  destruct (rows_loop_decoded a str m (S m) P (map fst o) [] (set_i p j) s
              (2 * S L)) as [q [Eq Hq]];
    rewrite ?i_set_i, ?failed_set_i; auto.
  - destruct o; [contradiction|discriminate].
  - lia.
  - exists q. rewrite Eq, set_i_set_i. auto.
Qed.

Lemma numbered_object o :
  numbered_value (ToonObject o)
  = negb (match o with [] => true | _ => false end) && ascending o
    && forallb (fun kv => key_ok (fst kv) && numbered_value (snd kv)) o.
Proof. reflexivity. Qed.

Lemma rest_suffix_numbered rest L s P :
  forallb (fun kv => key_ok (fst kv) && numbered_value (snd kv)) rest = true ->
  suffix_ok s P -> P < Z.of_nat (2 * L) ->
  suffix_ok (rest_suffix rest L s) (Z.of_nat (2 * L)).
Proof.
  intros Hrest Hs HP. destruct rest as [|[k x] rest].
  - apply (suffix_ok_le s P); [exact Hs|lia].
  - cbn [rest_suffix suffix_ok]. split; [lia|].
    cbn [forallb fst] in Hrest. apply andb_true_iff in Hrest.
    destruct Hrest as [Hk _]. apply andb_true_iff in Hk. destruct Hk as [Hk _].
    rewrite dump_entries_value. cbn [app]. rewrite <- app_assoc. split.
    + destruct k; discriminate.
    + apply key_ok_token, Hk.
Qed.

Lemma entry_value_decoded f x str L q s' :
  object_reads_decoded f ->
  numbered_value x = true -> (fuel_for x <= f)%nat ->
  left_at str (i q) (value_text L x ++ text s') ->
  suffix_ok s' (Z.of_nat (2 * L)) -> failed q = false ->
  returns_before str q (decoded x) s'
    (if (i q <? size str)%nat && is_newline (char_at str (i q)) then
       let p := set_i q (S (i q)) in
       let p := consume_garbage str p in
       if Ascii.eqb (char_at str (i p)) "["
       then parse_array str f (Z.of_nat (2 * L)) p
       else parse_object str f (Z.of_nat (2 * L)) p
     else
       if Ascii.eqb (char_at str (i q)) "["
       then parse_array str f (Z.of_nat (2 * L)) q
       else parse_value str f q).
Proof.
  intros IHf Hx Hf H Hs Hfl.
  assert (Hscalar : cell x = true ->
            returns_before str q (decoded x) s'
              (if (i q <? size str)%nat && is_newline (char_at str (i q)) then
                 let p := set_i q (S (i q)) in
                 let p := consume_garbage str p in
                 if Ascii.eqb (char_at str (i p)) "["
                 then parse_array str f (Z.of_nat (2 * L)) p
                 else parse_object str f (Z.of_nat (2 * L)) p
               else
                 if Ascii.eqb (char_at str (i q)) "["
                 then parse_array str f (Z.of_nat (2 * L)) q
                 else parse_value str f q)).
  { intros Hsc.
    assert (Ev : value_text L x = dump x (Z.of_nat L))
      by (destruct x; try discriminate Hsc; reflexivity).
    rewrite Ev in H.
    destruct (cell_first_char x (Z.of_nat L) Hsc)
      as [c [t [Ec [Hb [Hnl [Hh Hbr]]]]]].
    assert (Hc := H). rewrite Ec in Hc. cbn [app] in Hc.
    destruct (left_at_char _ _ _ _ Hc) as [-> _].
    rewrite Hnl, andb_false_r, Hbr.
    destruct f as [|m]; [pose proof (fuel_for_pos x); lia|].
    rewrite (parse_value_cell_at str m q x (Z.of_nat L) (text s') Hsc H)
      by apply line_end_value_end, text_line_end.
    apply (returns_inline str q (decoded x) s' _ _ (left_at_advance _ _ _ _ H) Hs). }
  destruct x as [| | | |sv|a|o]; try discriminate Hx;
    try (apply Hscalar; exact Hx).
  - (* an array *)
    cbn [numbered_value] in Hx. cbn [value_text] in H. cbn [fuel_for] in Hf.
    destruct (cells_array a) eqn:Efl.
    + assert (Hsc : forallb cell a = true)
        by (unfold cells_array in Efl; apply andb_true_iff in Efl; tauto).
      assert (Hc := H). rewrite (cells_array_verbose a _ Hsc) in Hc.
      cbn [app] in Hc. destruct (left_at_char _ _ _ _ Hc) as [-> _].
      cbn [is_newline Ascii.eqb Bool.eqb andb].
      rewrite andb_false_r.
      rewrite (parse_array_cells_at a str f _ q (text s') _ Efl H)
        by (try apply text_line_end; lia).
      apply (returns_inline str q _ s' _ _ (left_at_advance _ _ _ _ H) Hs).
    + cbn [orb] in Hx.
      assert (Hc := H). rewrite (table_dump a _ Hx) in Hc.
      cbn [app] in Hc. destruct (left_at_char _ _ _ _ Hc) as [-> _].
      cbn [is_newline Ascii.eqb Bool.eqb andb].
      rewrite andb_false_r.
      apply (returns_block str q q); [|reflexivity].
      apply (parse_array_table a str f _ q s' (S L) Hx H Hs); auto; lia.
  - (* an object *)
    cbn [value_text] in H. set (w := (2 * S L)%nat) in *.
    set (inner := dump (ToonObject o) (Z.of_nat (S L))) in *.
    assert (H0 : left_at str (i q)
                   (["010"%char] ++ repeat " "%char w ++ inner ++ text s')).
    { cbn [app] in H |- *. rewrite <- app_assoc in H. exact H. }
    clear H. rename H0 into H.
    destruct (left_at_char _ _ _ _ H) as [-> [-> _]].
    cbn [is_newline Ascii.eqb Bool.eqb andb]. cbv zeta.
    assert (H1 := left_at_advance str (i q) ["010"%char] _ H).
    cbn [length] in H1.
    pose proof Hx as Ho. rewrite numbered_object in Ho.
    apply andb_true_iff in Ho. destruct Ho as [Ho Hent].
    apply andb_true_iff in Ho. destruct Ho as [Hne Hasc].
    destruct o as [|[k y] o']; [discriminate Hne|].
    assert (Hk : key_ok k = true).
    { cbn [forallb fst] in Hent. apply andb_true_iff in Hent.
      destruct Hent as [Hk _]. apply andb_true_iff in Hk. tauto. }
    assert (Ed : inner
                 = k ++ ":"%char :: " "%char :: value_text (S L) y
                   ++ dump_entries dump o' false (Z.of_nat (S L))).
    { unfold inner. cbn [dump]. unfold dump_object.
      rewrite dump_entries_value. reflexivity. }
    rewrite (consume_garbage_at str (set_i q (S (i q)))
               (repeat " "%char w) (inner ++ text s'));
      [|rewrite i_set_i; replace (S (i q)) with (i q + 1)%nat by lia; exact H1
       |apply repeat_space_gap
       |rewrite Ed, <- app_assoc; apply key_ok_token, Hk].
    norm_state. rewrite repeat_length.
    assert (H2 : left_at str (S (i q) + w) (inner ++ text s')).
    { replace (S (i q) + w)%nat
        with (i q + 1 + length (repeat " "%char w))%nat
        by (rewrite repeat_length; lia).
      apply left_at_advance. exact H1. }
    assert (Hc := H2). rewrite Ed, <- app_assoc in Hc.
    destruct (key_ok_first k (" "%char :: (value_text (S L) y
                ++ dump_entries dump o' false (Z.of_nat (S L))) ++ text s') Hk)
      as [c [t [Ec Hbr]]].
    cbn [app] in Hc, Ec. rewrite Ec in Hc.
    destruct (left_at_char _ _ _ _ Hc) as [-> _]. rewrite Hbr.
    apply (returns_block str q (set_i q (S (i q) + w)));
      [|intros; apply set_i_set_i].
    apply (IHf _ str (S L) _ _ s'); rewrite ?i_set_i, ?failed_set_i; auto.
    + replace (S (i q) + w)%nat with (i q + 1 + w)%nat by lia.
      apply (at_line_after str (i q) w (inner ++ text s')).
      cbn [app] in H. exact H.
    + lia.
Qed.

Lemma value_text_first_numbered L x :
  numbered_value x = true ->
  exists c t, value_text L x = c :: t /\ is_blank c = false.
Proof.
  intros Hx.
  assert (Hscalar : cell x = true ->
            exists c t, value_text L x = c :: t /\ is_blank c = false).
  { intros Hsc. destruct (cell_first_char x (Z.of_nat L) Hsc)
      as [c [t [Ec [Hb _]]]].
    exists c, t. split; [|exact Hb].
    destruct x; try discriminate Hsc; exact Ec. }
  destruct x as [| | | |sv|a|o]; try discriminate Hx;
    try (apply Hscalar; exact Hx).
  - cbn [numbered_value] in Hx. cbn [value_text].
    destruct (cells_array a) eqn:Efl.
    + assert (Hsc : forallb cell a = true)
        by (unfold cells_array in Efl; apply andb_true_iff in Efl; tauto).
      rewrite (cells_array_verbose a _ Hsc). eexists _, _. split; reflexivity.
    + rewrite (table_dump a _ Hx). eexists _, _. split; reflexivity.
  - cbn [value_text]. eexists _, _. split; reflexivity.
Qed.

Lemma entries_loop_decoded f (IHf : object_reads_decoded f) todo :
  forall str n L P obj p g s,
  forallb (fun kv => key_ok (fst kv) && numbered_value (snd kv)) todo = true ->
  ascending todo = true ->
  (forall kv kv', In kv obj -> In kv' todo ->
                  str_ltb (fst kv) (fst kv') = true) ->
  (obj <> [] \/ todo <> []) ->
  (forall kv, In kv todo -> (fuel_for (snd kv) <= f)%nat) ->
  suffix_ok s P -> P < Z.of_nat (2 * L) ->
  forallb is_gap g = true ->
  left_at str (i p) (g ++ after (rest_suffix todo L s)) ->
  (after (rest_suffix todo L s) = [] -> g = []) ->
  (rest_suffix todo L s <> Eof ->
   at_line str (i p + length g) (width (rest_suffix todo L s))) ->
  failed p = false -> (length todo < n)%nat ->
  returns_at str p (ToonObject (obj ++ decoded_entries todo)) s
    (entries_loop str (parse_value str f) (parse_array str f)
       (parse_object str f) n P obj p).
Proof.
  induction todo as [|[k x] rest IH];
    intros str n L P obj p g s Hok Hasc Hobj Hne Hfuel Hs HP Hg H Hnil Hat
           Hfl Hn;
    (destruct n as [|n]; [cbn [length] in Hn; lia|]); cbn [entries_loop].
  - (* no entry left: the end of the text, or a line of a parent *)
    cbn [rest_suffix] in *. unfold decoded_entries. cbn [map].
    rewrite app_nil_r.
    destruct s as [|m tok].
    + rewrite (Hnil eq_refl) in H. cbn [after app] in H.
      rewrite (left_at_nil_ltb _ _ H). exists (i p).
      rewrite set_i_same. repeat split; try apply H. intros C. contradiction.
    + cbn [after width] in *. destruct Hs as [Hm [Htok Hstart]].
      rewrite (left_at_ltb _ _ _ H) by (destruct g, tok; try discriminate; auto).
      rewrite (consume_garbage_at str p g tok H Hg Hstart).
      assert (H1 := left_at_advance str _ g _ H).
      rewrite i_set_i.
      rewrite (get_indent_at_line str (set_i p (i p + length g)) m tok);
        rewrite ?i_set_i; auto.
      2:{ apply Hat. discriminate. }
      2:{ destruct tok; [exact I|apply Hstart]. }
      replace (Z.of_nat m <=? P) with true by (symmetry; apply Z.leb_le; lia).
      destruct obj as [|kv obj]; [destruct Hne; contradiction|].
      cbn [negb andb]. norm_state. exists (i p + length g)%nat.
      repeat split; try apply H1. intros _. apply Hat. discriminate.
  - (* an entry *)
    cbn [forallb fst snd] in Hok. apply andb_true_iff in Hok.
    destruct Hok as [Hkx Hrest]. apply andb_true_iff in Hkx.
    destruct Hkx as [Hk Hx].
    cbn [ascending] in Hasc. apply andb_true_iff in Hasc.
    destruct Hasc as [Hklt Hasc].
    cbn [rest_suffix after width] in H, Hat.
    rewrite dump_entries_value in H. cbn [app] in H.
    rewrite <- !app_assoc in H. cbn [app] in H.
    rewrite <- app_assoc, rest_suffix_text in H.
    set (s' := rest_suffix rest L s) in *.
    assert (Hs' : suffix_ok s' (Z.of_nat (2 * L)))
      by (apply (rest_suffix_numbered rest L s P); assumption).
    set (tail := ":"%char :: " "%char :: value_text L x ++ text s') in *.
    rewrite (left_at_ltb _ _ _ H) by (destruct g, k; discriminate).
    (* the gap and the key *)
    rewrite (consume_garbage_at str p g _ H Hg)
      by (apply key_ok_token; exact Hk).
    assert (H1 := left_at_advance str _ g _ H).
    rewrite i_set_i.
    rewrite (get_indent_at_line str (set_i p (i p + length g)) (2 * L)
               (k ++ tail)); rewrite ?i_set_i; auto.
    2:{ apply Hat. discriminate. }
    2:{ pose proof (key_ok_token k (" "%char :: value_text L x ++ text s') Hk)
          as Ht. fold tail in Ht. destruct (k ++ tail); [exact I|apply Ht]. }
    replace (Z.of_nat (2 * L) <=? P) with false
      by (symmetry; apply Z.leb_gt; lia).
    cbn [andb].
    assert (Hkey : forallb (fun c => negb (Ascii.eqb c ":")) k = true)
      by (unfold key_ok in Hk; apply andb_true_iff in Hk; tauto).
    rewrite (scan_while_at str _ _ k _ H1 Hkey) by reflexivity.
    replace (i p + length g + length k - (i p + length g))%nat
      with (length k) by lia.
    rewrite (substr_at str _ k _ H1).
    assert (H2 := left_at_advance str _ k _ H1).
    norm_state. destruct (left_at_char _ _ _ _ H2) as [_ [_ Hsz]].
    rewrite Hsz.
    assert (H3 := left_at_advance str _ [":"%char] _ H2).
    cbn [length app] in H3.
    (* the blank and the value *)
    destruct (value_text_first_numbered L x Hx) as [c [t [Ec Hb]]].
    rewrite (consume_whitespace_at str _ [" "%char] (value_text L x ++ text s'));
      [|norm_state;
        replace (S (i p + length g + length k))
          with (i p + length g + length k + 1)%nat by lia; exact H3
       |reflexivity
       |rewrite Ec; exact Hb].
    norm_state. cbn [length].
    set (q := set_i p (S (i p + length g + length k) + 1)).
    assert (H4 : left_at str (i q) (value_text L x ++ text s')).
    { unfold q. rewrite i_set_i.
      replace (S (i p + length g + length k) + 1)%nat
        with (i p + length g + length k + 1 + length [" "%char])%nat
        by (cbn [length]; lia).
      apply left_at_advance. exact H3. }
    assert (Hq : failed q = false) by exact Hfl.
    assert (Hfx : (fuel_for x <= f)%nat)
      by (apply (Hfuel (k, x)); left; reflexivity).
    match goal with
    | |- context [bind ?e _] =>
        destruct (entry_value_decoded f x str L q s' IHf Hx Hfx H4 Hs' Hq
                  : returns_before str q (decoded x) s' e)
          as [k' [g' [Ev [Hg' [H5 [Hnil' Hat']]]]]]
    end.
    rewrite Ev. cbn [bind]. unfold q. norm_state.
    rewrite map_assign_last.
    2:{ apply forallb_forall. intros kv Hin.
        apply (Hobj kv (k, x) Hin). left. reflexivity. }
    destruct (IH str n L P (obj ++ [(k, decoded x)]) (set_i p k') g' s)
      as [k'' [Eo Ho]]; rewrite ?i_set_i, ?failed_set_i; auto.
    + intros kv kv' Hin Hin'. apply in_app_or in Hin. destruct Hin as [Hin|Hin].
      * apply Hobj; [exact Hin|right; exact Hin'].
      * destruct Hin as [<-|[]]. cbn [fst].
        rewrite forallb_forall in Hklt. apply Hklt, Hin'.
    + left. destruct obj; discriminate.
    + intros kv Hin. apply Hfuel. right. exact Hin.
    + cbn [length] in Hn. lia.
    + exists k''. rewrite Eo, set_i_set_i, <- app_assoc.
      split; [reflexivity|exact Ho].
Qed.

Lemma parse_object_decoded f : object_reads_decoded f.
Proof.
  induction f as [|f IH]; intros o str L P p s Hx Hf H Hat Hs HP Hfl.
  - cbn [fuel_for] in Hf. lia.
  - cbn [parse_object]. unfold parse_object_body.
    pose proof Hx as Ho. rewrite numbered_object in Ho.
    apply andb_true_iff in Ho. destruct Ho as [Ho Hent].
    apply andb_true_iff in Ho. destruct Ho as [Hne Hasc].
    assert (Hlen : (length o + 3 <= S f)%nat) by (cbn [fuel_for] in Hf; lia).
    destruct o as [|kv o']; [discriminate Hne|]. set (o := kv :: o') in *.
    change (decoded (ToonObject o))
      with (ToonObject ([] ++ decoded_entries o)).
    apply (entries_loop_decoded f IH o str f L P [] p [] s); auto.
    + right. discriminate.
    + intros kv0 Hin. pose proof (fuel_for_entry o kv0 Hin). lia.
    + cbn [length]. rewrite Nat.add_0_r. intros _. exact Hat.
    + lia.
Qed.

Lemma parse_cell v k err0 :
  cell v = true -> str_contains (dump v 0) ":" = false ->
  parse (1 + k) (dump v 0) err0
  = Returns (decoded v) (mkParser (length (dump v 0)) err0 false).
Proof.
  intros Hv Hc.
  destruct (cell_first_char v 0 Hv) as [c [t [E [Hb [Hnl [Hh Hbr]]]]]].
  rewrite (parse_dispatch _ c t _ _ E Hb Hnl Hh), Hbr, Hc.
  rewrite (parse_value_cell_at (dump v 0) k _ v 0 []);
    [reflexivity|exact Hv|rewrite app_nil_r; apply left_at_start|exact I].
Qed.

Lemma parse_cells_array a k err0 :
  cells_array a = true ->
  parse (length a + 3 + k) (dump (ToonArray a) 0) err0
  = Returns (ToonArray (map decoded a))
      (mkParser (length (dump (ToonArray a) 0)) err0 false).
Proof.
  intros Ha. pose proof Ha as Hsc. unfold cells_array in Hsc.
  apply andb_true_iff in Hsc. destruct Hsc as [Hsc _].
  pose proof (cells_array_verbose a 0 Hsc) as E.
  rewrite (parse_dispatch _ _ _ _ _ E) by reflexivity.
  cbn [Ascii.eqb Bool.eqb].
  replace (length a + 3 + k)%nat with (S (length a + 2 + k)) by lia.
  cbn [parse_value]. unfold parse_value_body.
  rewrite (consume_whitespace_at _ _ [] (dump (ToonArray a) 0));
    [|apply left_at_start|reflexivity|rewrite E; reflexivity].
  cbn [i set_i length Nat.add err failed].
  assert (Hl : left_at (dump (ToonArray a) 0) 0 (dump (ToonArray a) 0 ++ []))
    by (rewrite app_nil_r; apply left_at_start).
  assert (Hl' := Hl). rewrite E in Hl' at 2. cbn [app] in Hl'.
  destruct (left_at_char _ _ _ _ Hl') as [Hc [_ Hsz]].
  rewrite Hsz, Hc. cbn [Ascii.eqb Bool.eqb].
  rewrite (parse_array_cells_at a _ _ _ _ [] 0 Ha); auto.
  - exact I.
  - lia.
Qed.

Lemma parse_table a k err0 :
  table a = true ->
  parse (fuel_for (ToonArray a) + k) (dump (ToonArray a) 0) err0
  = Returns (ToonArray (map decoded a))
      (mkParser (length (dump (ToonArray a) 0)) err0 false).
Proof.
  intros Ha. pose proof (table_dump a 0 Ha) as E. cbn [Z.of_nat] in E.
  rewrite (parse_dispatch _ _ _ _ _ E) by reflexivity.
  cbn [Ascii.eqb Bool.eqb fuel_for].
  replace (length a + 3 + k)%nat with (S (length a + 2 + k)) by lia.
  cbn [parse_value]. unfold parse_value_body.
  set (str := dump (ToonArray a) 0) in *.
  rewrite (consume_whitespace_at str _ [] str);
    [|apply left_at_start|reflexivity|rewrite E; reflexivity].
  cbn [i set_i length Nat.add err failed].
  assert (Hl : left_at str 0 (str ++ text Eof))
    by (cbn [text gap after app]; rewrite app_nil_r; apply left_at_start).
  assert (Hl' := Hl). rewrite E in Hl' at 2. cbn [app] in Hl'.
  destruct (left_at_char _ _ _ _ Hl') as [Hc [_ Hsz]].
  rewrite Hsz, Hc. cbn [Ascii.eqb Bool.eqb].
  destruct (parse_array_table a str (length a + 2 + k) (-1)
              (mkParser 0 err0 false) Eof 0 Ha Hl I)
    as [j [Ej [Hj _]]]; [lia|reflexivity|lia|].
  change (set_i (mkParser 0 err0 false) 0) with (mkParser 0 err0 false).
  rewrite Ej. apply left_at_end in Hj. rewrite Hj. reflexivity.
Qed.

Lemma parse_numbered_object o k err0 :
  numbered_value (ToonObject o) = true ->
  parse (fuel_for (ToonObject o) + k) (dump (ToonObject o) 0) err0
  = Returns (decoded (ToonObject o))
      (mkParser (length (dump (ToonObject o) 0)) err0 false).
Proof.
  intros Hx. pose proof Hx as Ho. rewrite numbered_object in Ho.
  apply andb_true_iff in Ho. destruct Ho as [Ho Hent].
  apply andb_true_iff in Ho. destruct Ho as [Hne Hasc].
  destruct o as [|[key x] rest] eqn:Eo; [discriminate Hne|].
  rewrite <- Eo in *.
  assert (Hk : key_ok key = true).
  { rewrite Eo in Hent. cbn [forallb fst] in Hent.
    apply andb_true_iff in Hent. destruct Hent as [Hk _].
    apply andb_true_iff in Hk. tauto. }
  set (str := dump (ToonObject o) 0) in *.
  assert (E : str = key ++ ":"%char :: " "%char :: value_text O x
                    ++ dump_entries dump rest false 0).
  { unfold str. cbn [dump]. unfold dump_object. rewrite Eo.
    apply (dump_entries_value key x rest true O). }
  assert (Hcolon : str_contains str ":" = true).
  { rewrite E. apply str_contains_In. apply in_or_app. right. left.
    reflexivity. }
  assert (Hfirst : exists c t, str = c :: t
            /\ is_blank c = false /\ is_newline c = false
            /\ Ascii.eqb c "#" = false /\ Ascii.eqb c "[" = false).
  { rewrite E. unfold key_ok in Hk. apply andb_true_iff in Hk.
    destruct Hk as [_ Hk]. destruct key as [|c key].
    - eexists _, _. repeat split.
    - repeat (apply andb_true_iff in Hk; destruct Hk as [Hk ?]).
      repeat match goal with
             | H : negb _ = true |- _ => apply negb_true_iff in H
             end.
      eexists c, _. cbn [app]. auto. }
  destruct Hfirst as [c [t [Ec [Hb [Hnl [Hh Hbr]]]]]].
  rewrite (parse_dispatch _ c t _ _ Ec Hb Hnl Hh), Hbr, Hcolon.
  assert (Hl : left_at str (i (mkParser 0 err0 false))
                 (dump (ToonObject o) (Z.of_nat 0) ++ text Eof)).
  { cbn [text gap after app i]. rewrite app_nil_r. apply left_at_start. }
  destruct (parse_object_decoded (fuel_for (ToonObject o) + k) o str O (-1)
              (mkParser 0 err0 false) Eof Hx (Nat.le_add_r _ _) Hl
              (at_line_start str) I (Z.lt_pred_l 0) eq_refl)
    as [j [Ej [Hj _]]].
  rewrite Ej. apply left_at_end in Hj. rewrite Hj. reflexivity.
Qed.

(** A document whose numbers are [int]s (a scalar or an [int], an array of
    them, a table of them, or a non-empty object of such values, nested to
    any depth) is read back with each [int] as the [double] of the same
    value and everything else as it was: the decoder returns at the end of
    the text, with the error text untouched and the failure flag unset. *)
Theorem numbered_round_trip (v : Toon) (k : nat) (err0 : list ascii) :
  numbered_document v = true ->
  parse (fuel_for v + k) (dump v 0) err0
  = Returns (decoded v) (mkParser (length (dump v 0)) err0 false).
Proof.
  intros Hv.
  destruct v as [| |n|b|sv|a|o]; try discriminate Hv.
  - reflexivity.
  - apply (parse_cell (ToonInt n)); [exact Hv|].
    cbn [dump]. apply print_int_no_colon.
  - destruct b; reflexivity.
  - cbn [numbered_document] in Hv. apply andb_true_iff in Hv.
    destruct Hv as [Hs Hc]. apply negb_true_iff in Hc.
    apply (parse_cell (ToonString sv)); [exact Hs|].
    cbn [dump]. apply dump_string_no_colon; assumption.
  - cbn [numbered_document numbered_value] in Hv. apply orb_true_iff in Hv.
    destruct Hv as [Hv|Hv].
    + apply parse_cells_array, Hv.
    + apply parse_table, Hv.
  - apply parse_numbered_object, Hv.
Qed.

Lemma numbered_round_trip_witness :
  let v := ToonObject
             [(lit "age", ToonInt 30);
              (lit "name", ToonString (lit "Alice"));
              (lit "pos", ToonObject [(lit "x", ToonInt (-2147483648))]);
              (lit "rows",
               ToonArray
                 [ToonObject [(lit "id", ToonInt 1);
                              (lit "ok", ToonBoolean true)];
                  ToonObject [(lit "id", ToonInt 2);
                              (lit "ok", ToonNull)]]);
              (lit "tags", ToonArray [ToonInt 0; ToonString (lit "a")])] in
  numbered_document v = true
  /\ parse (fuel_for v + 0) (dump v 0) []
     = Returns (decoded v) (mkParser (length (dump v 0)) [] false).
Proof.
  split; [reflexivity|].
  apply (numbered_round_trip
           (ToonObject
              [(lit "age", ToonInt 30);
               (lit "name", ToonString (lit "Alice"));
               (lit "pos", ToonObject [(lit "x", ToonInt (-2147483648))]);
               (lit "rows",
                ToonArray
                  [ToonObject [(lit "id", ToonInt 1);
                               (lit "ok", ToonBoolean true)];
                   ToonObject [(lit "id", ToonInt 2);
                               (lit "ok", ToonNull)]]);
               (lit "tags", ToonArray [ToonInt 0; ToonString (lit "a")])])
           0%nat []).
  vm_compute. reflexivity.
Defined.

(** ** Numbers: an [int] converted to [double] and back *)

Lemma digits2_pos_lower q : 2 ^ (Zpos (digits2_pos q) - 1) <= Zpos q.
Proof.
  induction q as [q IH|q IH|]; cbn [digits2_pos].
  - rewrite Pos2Z.inj_succ.
    replace (Z.succ (Zpos (digits2_pos q)) - 1)
      with (Z.succ (Zpos (digits2_pos q) - 1)) by lia.
    rewrite Z.pow_succ_r by lia. lia.
  - rewrite Pos2Z.inj_succ.
    replace (Z.succ (Zpos (digits2_pos q)) - 1)
      with (Z.succ (Zpos (digits2_pos q) - 1)) by lia.
    rewrite Z.pow_succ_r by lia. lia.
  - reflexivity.
Qed.

Lemma digits2_pos_int q :
  Zpos q <= Libc.INT_MAX + 1 -> (digits2_pos q < 53)%positive.
Proof.
  intros H. pose proof (digits2_pos_lower q) as Hl.
  destruct (Pos.ltb_spec (digits2_pos q) 53) as [Hlt|Hge]; [exact Hlt|].
  exfalso.
  assert (2 ^ 52 <= 2 ^ (Zpos (digits2_pos q) - 1))
    by (apply Z.pow_le_mono_r; lia).
  unfold Libc.INT_MAX in H. lia.
Qed.

Lemma iter_xO_digits q k :
  digits2_pos (Pos.iter xO q k) = (digits2_pos q + k)%positive.
Proof.
  induction k as [|k IH] using Pos.peano_ind.
  - cbn [Pos.iter digits2_pos]. rewrite Pos.add_1_r. reflexivity.
  - rewrite Pos.iter_succ. cbn [digits2_pos]. rewrite IH, Pos.add_succ_r.
    reflexivity.
Qed.

Lemma iter_xO_value q k : Zpos (Pos.iter xO q k) = Zpos q * 2 ^ Zpos k.
Proof.
  induction k as [|k IH] using Pos.peano_ind.
  - cbn [Pos.iter]. lia.
  - rewrite Pos.iter_succ, Pos2Z.inj_succ, Z.pow_succ_r by lia.
    rewrite Pos2Z.inj_xO, IH. lia.
Qed.

(** the [double] of a non-zero [int]: the digits of the [int], shifted to 53
    bits *)
Lemma binary_round_int sx q :
  Zpos q <= Libc.INT_MAX + 1 ->
  binary_round 53 1024 sx q 0
  = S754_finite sx (Pos.iter xO q (53 - digits2_pos q))
      (Zpos (digits2_pos q) - 53).
Proof.
  intros H. pose proof (digits2_pos_int q H) as Hd.
  unfold binary_round, shl_align, fexp, emin.
  rewrite Z.add_0_r, Z.sub_0_r.
  rewrite Z.max_l by lia.
  change (Zpos (digits2_pos q) - 53) with (Z.pos_sub (digits2_pos q) 53).
  rewrite (Z.pos_sub_lt _ _ Hd).
  unfold binary_round_aux, shr_fexp, Zdigits2, fexp, emin.
  rewrite iter_xO_digits.
  replace (digits2_pos q + (53 - digits2_pos q))%positive with 53%positive
    by lia.
  replace (Z.max (53 + Z.neg (53 - digits2_pos q) - 53) (3 - 1024 - 53)
           - Z.neg (53 - digits2_pos q)) with 0 by lia.
  cbn [shr shr_record_of_loc shr_m loc_of_shr_record round_nearest_even].
  rewrite iter_xO_digits.
  replace (digits2_pos q + (53 - digits2_pos q))%positive with 53%positive
    by lia.
  replace (Z.max (53 + Z.neg (53 - digits2_pos q) - 53) (3 - 1024 - 53)
           - Z.neg (53 - digits2_pos q)) with 0 by lia.
  cbn [shr shr_m].
  replace (Z.neg (53 - digits2_pos q) <=? 1024 - 53) with true
    by (symmetry; apply Z.leb_le; lia).
  reflexivity.
Qed.

Lemma double_to_int_finite sx q :
  Zpos q <= Libc.INT_MAX + 1 ->
  Libc.double_to_int (binary_round 53 1024 sx q 0)
  = let v := if sx then Zneg q else Zpos q in
    if (Libc.INT_MIN <=? v) && (v <=? Libc.INT_MAX) then Some v else None.
Proof.
  intros H. rewrite (binary_round_int sx q H).
  pose proof (digits2_pos_int q H) as Hd.
  unfold Libc.double_to_int.
  replace (0 <=? Zpos (digits2_pos q) - 53) with false
    by (symmetry; apply Z.leb_gt; lia).
  rewrite iter_xO_value.
  replace (- (Zpos (digits2_pos q) - 53))
    with (Zpos (53 - digits2_pos q)) by lia.
  rewrite Z.div_mul by (apply Z.pow_nonzero; lia).
  destruct sx; reflexivity.
Qed.

(** [ToonInt::number_value] followed by [ToonDouble::int_value]: the
    conversion of an [int] to [double] is exact, and the conversion back
    returns the [int]. *)
Theorem int_value_of_int (n : Z) :
  int_ok n = true ->
  int_value (ToonDouble (number_value (ToonInt n))) = Some n
  /\ int_value (decoded (ToonInt n)) = int_value (ToonInt n).
Proof.
  intros H.
  assert (E : Libc.double_to_int (Libc.int_to_double n) = Some n).
  { unfold int_ok, Libc.INT_MIN, Libc.INT_MAX in H.
    apply andb_true_iff in H. destruct H as [Hlo Hhi].
    pose proof (proj1 (Z.leb_le _ _) Hlo) as Hlo'.
    pose proof (proj1 (Z.leb_le _ _) Hhi) as Hhi'.
    unfold Libc.int_to_double, binary_normalize.
    destruct n as [|q|q]; [reflexivity| |];
      rewrite double_to_int_finite by (unfold Libc.INT_MAX; lia);
      cbv zeta; unfold Libc.INT_MIN, Libc.INT_MAX; rewrite Hlo, Hhi;
      reflexivity. }
  split; exact E.
Qed.

Lemma int_value_of_int_witness :
  int_ok (-2147483648) = true
  /\ int_value (ToonDouble (number_value (ToonInt (-2147483648))))
     = Some (-2147483648)
  /\ int_value (decoded (ToonInt (-2147483648)))
     = int_value (ToonInt (-2147483648)).
Proof.
  split; [reflexivity|]. apply (int_value_of_int (-2147483648)). reflexivity.
Defined.

(** ** What is read back answers the accessors as the document does *)

Lemma map_find_decoded key o :
  map_find key (decoded_entries o)
  = match map_find key o with
    | Some x => Some (decoded x)
    | None => None
    end.
Proof.
  induction o as [|[k x] o IH]; [reflexivity|].
  unfold decoded_entries in *. cbn [map map_find fst snd].
  destruct (str_eqb key k); [reflexivity|exact IH].
Qed.

(** The value that a document with [int]s is read back as has the type of
    the document and the same [number_value], [bool_value] and
    [string_value]; its entry at a key and its element at an index are what
    the entry and the element of the document are read back as. *)
Theorem decoded_accessors (v : Toon) :
  type (decoded v) = type v
  /\ number_value (decoded v) = number_value v
  /\ bool_value (decoded v) = bool_value v
  /\ string_value (decoded v) = string_value v
  /\ (forall key, lookup (decoded v) key = decoded (lookup v key))
  /\ (forall j, index (decoded v) j = decoded (index v j)).
Proof.
  destruct v as [|d|n|b|sv|a|o]; repeat split; try reflexivity.
  - intros j. cbn [decoded index]. rewrite length_map.
    destruct (length a <=? j)%nat; [reflexivity|].
    apply (map_nth decoded a ToonNull j).
  - intros key. change (decoded (ToonObject o))
      with (ToonObject (decoded_entries o)).
    cbn [lookup]. rewrite map_find_decoded.
    destruct (map_find key o); reflexivity.
Qed.

(** ** The decoder: blanks, line ends and comments *)

Lemma drop_garbage_length s : forall m,
  (length (drop_garbage m s) <= length s)%nat.
Proof.
  induction s as [|c r IH]; intros m; cbn [drop_garbage length]; [lia|].
  destruct m; [specialize (IH (negb (is_newline c))); lia|].
  destruct (is_gap c); [specialize (IH false); lia|].
  destruct (Ascii.eqb c "#"); [specialize (IH true); lia|].
  cbn [length]. lia.
Qed.

Lemma drop_garbage_blanks b r :
  forallb is_blank b = true ->
  drop_garbage false (b ++ r) = drop_garbage false r.
Proof.
  induction b as [|c b IH]; intros H; [reflexivity|].
  cbn [forallb] in H. apply andb_true_iff in H. destruct H as [Hc Hb].
  cbn [app drop_garbage]. unfold is_gap. rewrite Hc. cbn [orb].
  apply IH, Hb.
Qed.

Lemma drop_garbage_comment r :
  drop_garbage true r
  = drop_garbage false (snd (span (fun c => negb (is_newline c)) r)).
Proof.
  induction r as [|c r IH]; [reflexivity|].
  cbn [drop_garbage span]. destruct (is_newline c) eqn:E; cbn [negb].
  - cbn [snd drop_garbage]. unfold is_gap. rewrite E, orb_true_r.
    reflexivity.
  - rewrite IH. destruct (span _ r). reflexivity.
Qed.

Lemma garbage_loop_drop n : forall s str p,
  left_at str (i p) s -> (length s < n)%nat ->
  garbage_loop str n p
  = set_i p (i p + (length s - length (drop_garbage false s))).
Proof.
  induction n as [|n IH]; intros s str p H Hn; [lia|].
  cbn [garbage_loop].
  destruct (span_split is_blank s) as [Es [Hb Hrest]].
  destruct (span is_blank s) as [b rest]. cbn [fst snd] in *. subst s.
  rewrite (consume_whitespace_at str p b rest H Hb)
    by (destruct rest; [exact I|exact Hrest]).
  assert (H1 := left_at_advance str (i p) b rest H).
  rewrite (drop_garbage_blanks b rest Hb), !length_app, i_set_i.
  rewrite length_app in Hn.
  destruct rest as [|c r].
  - rewrite (left_at_nil_ltb _ _ H1). cbn [andb drop_garbage length].
    f_equal. lia.
  - destruct (left_at_char _ _ _ _ H1) as [Hc [Hlt _]].
    rewrite Hlt, Hc. clear Hc. cbn [andb]. cbn [length] in Hn.
    pose proof (drop_garbage_length r true) as Lt.
    pose proof (drop_garbage_length r false) as Lf.
    destruct (Ascii.eqb c "#") eqn:Eh.
    + (* a comment, up to the end of its line *)
      apply Ascii.eqb_eq in Eh. subst c.
      cbn [drop_garbage is_gap is_blank is_newline Ascii.eqb Bool.eqb orb].
      rewrite drop_garbage_comment in *.
      destruct (span_split (fun c => negb (is_newline c)) r)
        as [Er [Hbody Hstop]].
      destruct (span (fun c => negb (is_newline c)) r) as [body rest'].
      cbn [fst snd] in *. subst r.
      assert (H2 : left_at str (i p + length b)
                     (("#"%char :: body) ++ rest')) by exact H1.
      rewrite (scan_while_at str _ _ ("#"%char :: body) rest' H2);
        [|cbn [forallb]; rewrite Hbody; reflexivity
         |destruct rest'; [exact I|exact Hstop]].
      assert (H3 := left_at_advance str _ _ _ H2).
      rewrite length_app in *. cbn [length] in *.
      rewrite (IH rest' str _);
        [|rewrite i_set_i; exact H3|lia].
      pose proof (drop_garbage_length rest' false).
      norm_state. rewrite ?length_app. f_equal. lia.
    + destruct (is_newline c) eqn:Enl.
      * (* a line end *)
        cbn [drop_garbage]. unfold is_gap. rewrite Hrest, Enl. cbn [orb].
        assert (H2 := left_at_advance str _ [c] r H1). cbn [length] in H2.
        rewrite (IH r str _);
          [|rewrite i_set_i;
            replace (S (i p + length b)) with (i p + length b + 1)%nat by lia;
            exact H2|lia].
        norm_state. cbn [length]. f_equal. lia.
      * cbn [drop_garbage]. unfold is_gap. rewrite Hrest, Enl, Eh.
        cbn [orb length]. f_equal. lia.
Qed.

Lemma consume_garbage_drop str p s :
  left_at str (i p) s ->
  consume_garbage str p
  = set_i p (i p + (length s - length (drop_garbage false s))).
Proof.
  intros H. unfold consume_garbage. apply garbage_loop_drop; [exact H|].
  unfold size. destruct (left_at_split _ _ _ H) as [pre [-> <-]].
  rewrite length_app. lia.
Qed.

(** [consume_garbage] moves the offset over the blanks, the line ends and
    the comments that begin at it, a comment running from [#] to the end
    of its line, and leaves it at the first byte of another kind, or at
    the end of the text; it changes nothing else. *)
Theorem consume_garbage_skips (pre s err0 : list ascii) (f : bool) :
  consume_garbage (pre ++ s) (mkParser (length pre) err0 f)
  = mkParser (length pre + (length s - length (drop_garbage false s))) err0 f.
Proof.
  rewrite (consume_garbage_drop _ _ s); [reflexivity|].
  cbn [i]. split.
  - rewrite length_app. lia.
  - rewrite skipn_app, skipn_all, Nat.sub_diag. reflexivity.
Qed.

(** A text that holds nothing but blanks, line ends and comments (the empty
    text is one) is decoded to Null, at its end, with no error. *)
Theorem parse_nothing (input : list ascii) (fuel : nat) (err0 : list ascii) :
  drop_garbage false input = [] ->
  parse fuel input err0 = Returns ToonNull (mkParser (length input) err0 false).
Proof.
  intros H. unfold parse.
  rewrite (consume_garbage_drop input _ input) by apply left_at_start.
  rewrite H. cbn [length i set_i Nat.add err failed].
  rewrite Nat.sub_0_r, Nat.eqb_refl. reflexivity.
Qed.

Lemma parse_nothing_witness :
  let input := lit "  # a table: none" ++ "010"%char :: "010"%char
               :: "009"%char :: lit "# the end" in
  drop_garbage false input = []
  /\ parse 0 input [] = Returns ToonNull (mkParser (length input) [] false).
Proof.
  split; [reflexivity|].
  apply (parse_nothing
           (lit "  # a table: none" ++ "010"%char :: "010"%char
            :: "009"%char :: lit "# the end") 0 []).
  reflexivity.
Defined.

(** ** The decoder: the indentation of a line *)

Lemma indent_loop_blanks blanks : forall pre rest n count,
  forallb is_indent blanks = true -> stops is_indent rest ->
  (length blanks + length rest <= n)%nat ->
  indent_loop (pre ++ blanks ++ rest) n (length pre) count
  = count + indent_width blanks.
Proof.
  induction blanks as [|c blanks IH]; intros pre rest n count Hb Hrest Hn.
  - cbn [app indent_width]. rewrite Z.add_0_r.
    destruct n as [|n]; [reflexivity|]. cbn [indent_loop]. unfold size.
    destruct rest as [|c r].
    + rewrite app_nil_r, Nat.ltb_irrefl. reflexivity.
    + rewrite char_at_app. cbn [stops] in Hrest. unfold is_indent in Hrest.
      rewrite Hrest, andb_false_r. reflexivity.
  - cbn [forallb] in Hb. apply andb_true_iff in Hb. destruct Hb as [Hc Hb].
    destruct n as [|n]; [cbn [length] in Hn; lia|].
    cbn [app indent_loop indent_width]. unfold size.
    rewrite ltb_app_cons, char_at_app. unfold is_indent in Hc. rewrite Hc.
    cbn [andb].
    replace (pre ++ c :: blanks ++ rest)
      with ((pre ++ [c]) ++ blanks ++ rest)
      by (rewrite <- app_assoc; reflexivity).
    replace (S (length pre)) with (length (pre ++ [c]))
      by (rewrite length_app; cbn [length]; lia).
    rewrite IH; [lia|exact Hb|exact Hrest|cbn [length] in Hn; lia].
Qed.

Lemma indent_no_newline blanks :
  forallb is_indent blanks = true ->
  forallb (fun c => negb (is_newline c)) blanks = true.
Proof.
  intros H. apply forallb_forall. intros c Hc.
  rewrite forallb_forall in H. specialize (H c Hc). unfold is_indent in H.
  apply orb_true_iff in H.
  destruct H as [H|H]; apply Ascii.eqb_eq in H; subst c; reflexivity.
Qed.

(** At any offset of a line, up to its newline, [get_indent] returns the
    width of the spaces and tabs that begin the line: one for each space
    and eight for each tab, as long as that width is an [int] (the count
    of the source is an [int], and a larger width overflows it). *)
Theorem get_indent_counts (before blanks mid rest err0 : list ascii)
    (k : nat) (f : bool) :
  line_break before ->
  forallb is_indent blanks = true ->
  indent_width blanks <= Libc.INT_MAX ->
  forallb (fun c => negb (is_newline c)) mid = true ->
  stops is_indent (mid ++ rest) ->
  (k <= length (blanks ++ mid))%nat ->
  get_indent (before ++ blanks ++ mid ++ rest)
    (mkParser (length before + k) err0 f)
  = indent_width blanks
  /\ 0 <= get_indent (before ++ blanks ++ mid ++ rest)
            (mkParser (length before + k) err0 f) <= Libc.INT_MAX.
Proof.
  intros Hbefore Hb Hmax Hmid Hstop Hk.
  assert (Hge : 0 <= indent_width blanks).
  { clear. induction blanks as [|c r IH]; cbn [indent_width]; [lia|].
    destruct (Ascii.eqb c "009"); lia. }
  enough (E0 : get_indent (before ++ blanks ++ mid ++ rest)
                 (mkParser (length before + k) err0 f) = indent_width blanks)
    by (rewrite E0; split; [reflexivity|lia]).
  unfold get_indent. cbn [i].
  set (line := blanks ++ mid) in *.
  assert (Hline : forallb (fun c => negb (is_newline c)) line = true)
    by (unfold line; rewrite forallb_app, (indent_no_newline _ Hb), Hmid;
        reflexivity).
  assert (E : before ++ blanks ++ mid ++ rest
              = before ++ firstn k line ++ (skipn k line ++ rest)).
  { rewrite (app_assoc (firstn k line)), firstn_skipn. unfold line.
    rewrite <- app_assoc. reflexivity. }
  rewrite E.
  replace (length before + k)%nat
    with (length before + length (firstn k line))%nat
    by (rewrite firstn_length_le by exact Hk; reflexivity).
  rewrite line_start_app; [| |exact Hbefore].
  - rewrite <- E. unfold size. rewrite indent_loop_blanks; [reflexivity|exact Hb|exact Hstop|].
    rewrite !length_app. lia.
  - rewrite <- (firstn_skipn k line), forallb_app in Hline.
    apply andb_true_iff in Hline. tauto.
Qed.

Lemma get_indent_counts_witness :
  line_break (lit "a:" ++ ["010"%char])
  /\ indent_width ("009"%char :: lit "  ") <= Libc.INT_MAX
  /\ get_indent (lit "a:" ++ "010"%char :: "009"%char :: lit "  b: 1")
       (mkParser 7 [] false) = 10.
Proof.
  split; [right; exists (lit "a:"); reflexivity|].
  split; [vm_compute; discriminate|].
  apply (get_indent_counts (lit "a:" ++ ["010"%char])
           ("009"%char :: lit "  ") (lit "b: 1") [] [] 4 false).
  - right. exists (lit "a:"). reflexivity.
  - reflexivity.
  - vm_compute. discriminate.
  - reflexivity.
  - reflexivity.
  - vm_compute. lia.
Defined.

(** ** The encoder: the text of a string is one line *)

Lemma escape_char_printable c :
  forallb (fun b => 32 <=? code b) (escape_char c) = true.
Proof.
  destruct c as [[] [] [] [] [] [] [] []]; vm_compute; reflexivity.
Qed.

Lemma flat_map_escape_printable s :
  forallb (fun b => 32 <=? code b) (flat_map escape_char s) = true.
Proof.
  induction s as [|c s IH]; [reflexivity|].
  cbn [flat_map]. rewrite forallb_app, escape_char_printable, IH.
  reflexivity.
Qed.

Lemma printable_no_newline body :
  forallb (fun b => 32 <=? code b) body = true ->
  str_contains body "010" = false.
Proof.
  intros H. destruct (str_contains body "010") eqn:E; [|reflexivity].
  apply str_contains_In in E. rewrite forallb_forall in H.
  specialize (H _ E). discriminate H.
Qed.

(** The text of a string holds no newline.  It is the string itself, or it
    stands between two double quotes and holds no control byte: every
    byte below 0x20 of the string is written as an escape. *)
Theorem dump_string_one_line (s : list ascii) (level : Z) :
  str_contains (dump (ToonString s) level) "010" = false
  /\ (dump (ToonString s) level = s
      \/ exists body,
           dump (ToonString s) level = "034"%char :: body ++ ["034"%char]
           /\ forallb (fun b => 32 <=? code b) body = true).
Proof.
  cbn [dump]. unfold dump_string.
  destruct (needs_quoting s) eqn:E; cbn [negb].
  - pose proof (flat_map_escape_printable s) as Hp. split.
    + cbn [app]. unfold str_contains. cbn [existsb Ascii.eqb Bool.eqb orb].
      fold (str_contains (flat_map escape_char s ++ ["034"%char]) "010").
      rewrite str_contains_app, (printable_no_newline _ Hp). reflexivity.
    + right. exists (flat_map escape_char s). split; [reflexivity|exact Hp].
  - split; [|left; reflexivity].
    destruct (needs_quoting_false s E) as [_ Hplain].
    destruct (str_contains s "010") eqn:En; [|reflexivity].
    apply str_contains_In in En. rewrite forallb_forall in Hplain.
    specialize (Hplain _ En). discriminate Hplain.
Qed.

(** ** The decoder: a quoted string that is not closed *)

Lemma quoted_loop_unfinished todo : forall pre p out n,
  i p = length pre -> forallb decodable todo = true ->
  (length (flat_map escape_char todo) < n)%nat ->
  quoted_loop (pre ++ flat_map escape_char todo) n p out
  = fail (lit "unfinished string")
      (set_i p (length pre + length (flat_map escape_char todo))).
Proof.
  induction todo as [|c todo IH]; intros pre p out n Hi Hd Hn.
  - destruct n as [|n]; [simpl in Hn; lia|].
    cbn [flat_map app quoted_loop length]. unfold size.
    rewrite app_nil_r, Hi, Nat.ltb_irrefl, Nat.eqb_refl, Nat.add_0_r.
    cbn [andb]. rewrite <- Hi, set_i_same. reflexivity.
  - cbn [forallb] in Hd. apply andb_true_iff in Hd. destruct Hd as [Hc Hd].
    cbn [flat_map] in *. rewrite length_app in Hn.
    destruct n as [|n]; [lia|].
    rewrite (quoted_loop_step c pre _ p out n Hc Hi).
    rewrite app_assoc, IH.
    + unfold fail, set_i. cbn [i err failed]. rewrite !length_app.
      rewrite Nat.add_assoc. reflexivity.
    + unfold set_i. cbn [i]. rewrite length_app. reflexivity.
    + exact Hd.
    + pose proof (escape_char_length c). lia.
Qed.

(** A text that opens a quoted string and ends before the closing quote is
    decoded to Null with the error [unfinished string]: the decoder stops
    at the end of the text with the failure flag set.  The string may hold
    any byte that is written as itself or as one of the escapes the
    decoder takes; a colon in it sends the text to the object parser
    instead. *)
Theorem parse_unfinished_string (s : list ascii) (k : nat) (err0 : list ascii) :
  forallb decodable s = true ->
  str_contains (flat_map escape_char s) ":" = false ->
  parse (1 + k) ("034"%char :: flat_map escape_char s) err0
  = Returns ToonNull
      (mkParser (S (length (flat_map escape_char s)))
         (lit "unfinished string") true).
Proof.
  intros Hd Hc.
  set (body := flat_map escape_char s) in *.
  rewrite (parse_dispatch _ "034"%char body _ _ eq_refl) by reflexivity.
  cbn [Ascii.eqb Bool.eqb].
  replace (str_contains ("034"%char :: body) ":") with false
    by (unfold str_contains in *; cbn [existsb Ascii.eqb Bool.eqb orb];
        symmetry; exact Hc).
  cbn [Nat.add parse_value]. unfold parse_value_body.
  rewrite (consume_whitespace_at _ _ [] ("034"%char :: body));
    [|apply left_at_start|reflexivity|reflexivity].
  cbn [i set_i length Nat.add err failed size Nat.eqb].
  unfold char_at at 1. cbn [nth Ascii.eqb Bool.eqb].
  unfold parse_quoted_string. cbn [i set_i err failed].
  change ("034"%char :: body) with (["034"%char] ++ body). unfold body.
  rewrite quoted_loop_unfinished;
    [reflexivity|reflexivity|exact Hd|unfold size; rewrite length_app; cbn; lia].
Qed.

Lemma parse_unfinished_string_witness :
  forallb decodable (lit "a" ++ ["009"%char; "034"%char]) = true
  /\ parse 1 ("034"%char :: flat_map escape_char
                               (lit "a" ++ ["009"%char; "034"%char])) []
     = Returns ToonNull (mkParser 6 (lit "unfinished string") true).
Proof.
  split; [reflexivity|].
  apply (parse_unfinished_string (lit "a" ++ ["009"%char; "034"%char]) 0 []);
    reflexivity.
Defined.

(** ** The decoder: the count of an array is not checked *)

Lemma firstn_count (count k : Z) (v : Toon) rest :
  k < count ->
  firstn (Z.to_nat (count - k)) (v :: rest)
  = v :: firstn (Z.to_nat (count - (k + 1))) rest.
Proof.
  intros H. replace (Z.to_nat (count - k))
    with (S (Z.to_nat (count - (k + 1)))) by lia.
  reflexivity.
Qed.

Lemma elements_loop_count todo : forall str m n count k arr p,
  forallb cell todo = true ->
  left_at str (i p)
    (match todo with
     | [] => []
     | _ => " "%char :: dump_elements dump todo 0
     end) ->
  0 <= count -> (length todo < n)%nat ->
  exists j,
    elements_loop str (parse_value str (S m)) n count k arr p
    = Returns
        (ToonArray (arr ++ map decoded (firstn (Z.to_nat (count - k)) todo)))
        (set_i p j).
Proof.
  induction todo as [|v rest IH]; intros str m n count k arr p Hsc H Hc Hn;
    (destruct n as [|n]; [cbn [length] in Hn; lia|]); cbn [elements_loop];
    replace (count <? 0) with false by (symmetry; apply Z.ltb_ge; lia);
    cbn [orb]; (destruct (k <? count) eqn:Ek;
      [apply Z.ltb_lt in Ek
      |exists (i p); apply Z.ltb_ge in Ek;
       replace (Z.to_nat (count - k)) with O by lia;
       cbn [firstn map]; rewrite app_nil_r, set_i_same; reflexivity]).
  - (* the end of the text *)
    rewrite (consume_garbage_at str p [] [] H eq_refl I).
    cbn [length]. rewrite Nat.add_0_r, set_i_same.
    rewrite (left_at_end _ _ H), Nat.eqb_refl.
    exists (length str). rewrite firstn_nil. cbn [map].
    rewrite app_nil_r, <- (left_at_end _ _ H), set_i_same. reflexivity.
  - cbn [forallb] in Hsc. apply andb_true_iff in Hsc.
    destruct Hsc as [Hv Hrest].
    rewrite dump_elements_cons in H.
    destruct (cell_first_char v 0 Hv) as [c [t [Ec [Hb [Hnl [Hh Hbr]]]]]].
    set (follow := match rest with
                   | [] => []
                   | _ :: _ => ","%char :: " "%char :: dump_elements dump rest 0
                   end) in *.
    (* the blank before the element *)
    rewrite (consume_garbage_at str p [" "%char] (dump v 0 ++ follow) H eq_refl)
      by (rewrite Ec; cbn [app token_start]; repeat split; auto;
          apply Ascii.eqb_neq; assumption).
    assert (H1 := left_at_advance str (i p) [" "%char] _ H).
    cbn [length] in *. norm_state.
    assert (H1c := H1). rewrite Ec in H1c. cbn [app] in H1c.
    destruct (left_at_char _ _ _ _ H1c) as [_ [_ Hsz]]. rewrite Hsz.
    (* the element *)
    assert (Hfollow : value_end follow)
      by (subst follow; destruct rest; [exact I|reflexivity]).
    rewrite (parse_value_cell_at str m (set_i p (i p + 1)) v 0 follow Hv)
      by (rewrite ?i_set_i; assumption).
    cbn [bind]. norm_state.
    assert (H2 := left_at_advance str _ _ _ H1).
    assert (Hstop : stops is_blank follow)
      by (subst follow; destruct rest; [exact I|reflexivity]).
    rewrite (consume_whitespace_at str _ [] follow);
      [|rewrite i_set_i; exact H2|reflexivity|exact Hstop].
    cbn [length]. norm_state. rewrite Nat.add_0_r.
    rewrite (firstn_count count k v rest Ek). cbn [map].
    unfold follow in H2. destruct rest as [|w rest].
    + (* the last element: the loop goes on, and ends at the end *)
      rewrite (left_at_nil_ltb _ _ H2). cbn [andb].
      destruct (IH str m n count (k + 1) (arr ++ [decoded v])
                  (set_i p (i p + 1 + length (dump v 0))))
        as [j Ej]; rewrite ?i_set_i; auto.
      * cbn [length] in Hn |- *. lia.
      * exists j. rewrite Ej, set_i_set_i, <- app_assoc. reflexivity.
    + (* a comma, and the elements left *)
      destruct (left_at_char _ _ _ _ H2) as [-> [-> _]].
      cbn [Ascii.eqb Bool.eqb andb]. norm_state.
      assert (H3 := left_at_advance str _ [","%char] _ H2).
      cbn [length] in H3.
      destruct (IH str m n count (k + 1) (arr ++ [decoded v])
                  (set_i p (S (i p + 1 + length (dump v 0)))))
        as [j Ej]; rewrite ?i_set_i; auto.
      * replace (S (i p + 1 + length (dump v 0)))
          with (i p + 1 + length (dump v 0) + 1)%nat by lia.
        exact H3.
      * cbn [length] in Hn |- *. lia.
      * exists j. rewrite Ej, set_i_set_i, <- app_assoc. reflexivity.
Qed.

(** The count in the header of an array is not compared with the
    elements.  With [c] in the header and the elements of [a] in the text,
    the decoder returns the first [c] elements of [a], all of them when
    [a] has fewer, and reports no error: the elements past the count are
    left unread, and a count that is too large is accepted. *)
Theorem parse_count_unchecked (c : nat) (a : array) (k : nat)
    (err0 : list ascii) :
  forallb cell a = true -> Z.of_nat c <= Libc.INT_MAX ->
  exists j,
    parse (length a + 3 + k) (counted_array_text c a) err0
    = Returns (ToonArray (map decoded (firstn c a))) (mkParser j err0 false).
Proof.
  intros Ha Hc. set (str := counted_array_text c a).
  assert (E : str = "["%char :: Libc.print_int (Z.of_nat c)
                    ++ "]"%char :: ":"%char
                       :: match a with
                          | [] => []
                          | _ => " "%char :: dump_elements dump a 0
                          end) by reflexivity.
  rewrite (parse_dispatch _ _ _ _ _ E) by reflexivity.
  cbn [Ascii.eqb Bool.eqb].
  replace (length a + 3 + k)%nat with (S (S (S (length a + k)))) by lia.
  cbn [parse_value]. unfold parse_value_body.
  rewrite (consume_whitespace_at str _ [] str);
    [|apply left_at_start|reflexivity|rewrite E; reflexivity].
  cbn [i set_i length Nat.add err failed].
  assert (Hl : left_at str 0 str) by apply left_at_start.
  assert (Hl' := Hl). rewrite E in Hl' at 2.
  destruct (left_at_char _ _ _ _ Hl') as [Hch [_ Hsz]].
  rewrite Hsz, Hch. cbn [Ascii.eqb Bool.eqb].
  cbn [parse_array]. unfold parse_array_body.
  change (set_i (mkParser 0 err0 false) 0) with (mkParser 0 err0 false).
  cbn [i].
  rewrite (parse_array_header_at str 0 c _ Hl' Hc).
  set (digits := Libc.print_int (Z.of_nat c)) in *.
  assert (H1 : left_at str (0 + length digits + 3)
                 (match a with
                  | [] => []
                  | _ => " "%char :: dump_elements dump a 0
                  end)).
  { replace (0 + length digits + 3)%nat
      with (0 + length ("["%char :: digits ++ ["]"%char; ":"%char]))%nat
      by (cbn [length]; rewrite length_app; cbn [length]; lia).
    apply left_at_advance. cbn [app]. rewrite <- app_assoc. exact Hl'. }
  destruct (elements_loop_count a str (length a + k)%nat (S (length a + k))
              (Z.of_nat c) 0 []
              (set_i (mkParser 0 err0 false) (0 + length digits + 3)))
    as [j Ej]; rewrite ?i_set_i; auto; try lia.
  exists j. rewrite Ej. rewrite Z.sub_0_r, Nat2Z.id. reflexivity.
Qed.

Lemma parse_count_unchecked_witness :
  Z.of_nat 7 <= Libc.INT_MAX
  /\ (exists j,
        parse 5 (counted_array_text 7 [ToonInt 1; ToonString (lit "b")]) []
        = Returns
            (ToonArray
               (map decoded (firstn 7 [ToonInt 1; ToonString (lit "b")])))
            (mkParser j [] false))
  /\ (exists j,
        parse 5 (counted_array_text 1 [ToonInt 1; ToonString (lit "b")]) []
        = Returns
            (ToonArray
               (map decoded (firstn 1 [ToonInt 1; ToonString (lit "b")])))
            (mkParser j [] false)).
Proof.
  split; [vm_compute; discriminate|]. split.
  - apply (parse_count_unchecked 7 [ToonInt 1; ToonString (lit "b")] 0 []);
      [reflexivity|vm_compute; discriminate].
  - apply (parse_count_unchecked 1 [ToonInt 1; ToonString (lit "b")] 0 []);
      [reflexivity|vm_compute; discriminate].
Defined.

(** ** The decoder: blanks around an unquoted string *)

Lemma starts_with_before t : forall s suf,
  stops (str_contains t) suf ->
  str_eqb (firstn (length t) (s ++ suf)) t = starts_with s t.
Proof.
  unfold starts_with.
  induction t as [|a t IH]; intros s suf Hsuf; [reflexivity|].
  assert (Ht : stops (str_contains t) suf).
  { destruct suf as [|c suf]; [exact I|]. cbn [stops] in *.
    unfold str_contains in *. cbn [existsb] in Hsuf.
    apply orb_false_iff in Hsuf. tauto. }
  destruct s as [|b s].
  - cbn [app length firstn]. destruct suf as [|c suf]; [reflexivity|].
    cbn [firstn str_eqb]. cbn [stops] in Hsuf. unfold str_contains in Hsuf.
    cbn [existsb] in Hsuf. apply orb_false_iff in Hsuf.
    destruct Hsuf as [Hc _]. rewrite Hc. reflexivity.
  - cbn [app length firstn str_eqb]. rewrite IH by assumption. reflexivity.
Qed.

Lemma find_last_not_of_blanks trail :
  forallb is_blank trail = true ->
  find_last_not_of trail (lit " " ++ ["009"%char; "013"%char]) = None.
Proof.
  induction trail as [|c trail IH]; intros H; [reflexivity|].
  cbn [forallb] in H. apply andb_true_iff in H. destruct H as [Hc H].
  cbn [find_last_not_of]. rewrite (IH H).
  unfold is_blank in Hc. unfold str_contains.
  cbn [lit list_ascii_of_string app existsb].
  destruct (Ascii.eqb c " "), (Ascii.eqb c "013"), (Ascii.eqb c "009");
    try reflexivity; discriminate Hc.
Qed.

Lemma find_last_not_of_trail trail : forall s,
  s <> [] -> is_blank (last s NUL) = false ->
  forallb is_blank trail = true ->
  find_last_not_of (s ++ trail) (lit " " ++ ["009"%char; "013"%char])
  = Some (length s - 1)%nat.
Proof.
  induction s as [|c s IH]; intros Hne Hlast Ht; [contradiction|].
  destruct s as [|d s].
  - cbn [app find_last_not_of]. rewrite (find_last_not_of_blanks trail Ht).
    cbn [last] in Hlast. unfold is_blank in Hlast. unfold str_contains.
    cbn [lit list_ascii_of_string app existsb].
    destruct (Ascii.eqb c " "), (Ascii.eqb c "013"), (Ascii.eqb c "009");
      try discriminate Hlast. reflexivity.
  - change ((c :: d :: s) ++ trail) with (c :: (d :: s) ++ trail).
    cbn [find_last_not_of]. cbn [find_last_not_of] in IH.
    rewrite IH; [|discriminate|exact Hlast|exact Ht]. simpl. f_equal. lia.
Qed.

Lemma blanks_not_special l :
  forallb is_blank l = true ->
  forallb (fun c => negb (str_contains special c)) l = true.
Proof.
  intros H. apply forallb_forall. intros c Hc.
  rewrite forallb_forall in H. specialize (H c Hc). unfold is_blank in H.
  repeat (apply orb_true_iff in H; destruct H as [H|H]);
    apply Ascii.eqb_eq in H; subst c; reflexivity.
Qed.

(** [parse_value] drops the blanks around an unquoted string.  For a string
    that is written without quotes and read back as itself, with spaces,
    tabs and CRs before and after it and then the end of the text or a
    special byte, it returns the string, without the blanks, and leaves
    the offset after them. *)
Theorem parse_value_trims (pre lead s trail suf err0 : list ascii)
    (f : bool) (m : nat) :
  plain_string s = true ->
  forallb is_blank lead = true -> forallb is_blank trail = true ->
  value_end suf ->
  parse_value (pre ++ lead ++ s ++ trail ++ suf) (S m)
    (mkParser (length pre) err0 f)
  = Returns (ToonString s)
      (mkParser (length pre + length lead + length s + length trail) err0 f).
Proof.
  intros Hs Hlead Htrail Hsuf.
  set (str := pre ++ lead ++ s ++ trail ++ suf).
  set (p := mkParser (length pre) err0 f).
  assert (Hleft : left_at str (i p) (lead ++ s ++ trail ++ suf)).
  { unfold str, p. cbn [i]. split.
    - rewrite length_app. lia.
    - rewrite skipn_app, skipn_all, Nat.sub_diag. reflexivity. }
  unfold plain_string in Hs.
  repeat (apply andb_true_iff in Hs; destruct Hs as [Hs ?]).
  apply negb_true_iff in Hs.
  destruct (needs_quoting_false s Hs) as [Hne Hplain].
  destruct s as [|c0 r] eqn:Es; [contradiction|]. rewrite <- Es in *.
  repeat match goal with
         | H : _ && _ = true |- _ => apply andb_true_iff in H; destruct H
         end.
  repeat match goal with
         | H : negb _ = true |- _ => apply negb_true_iff in H
         end.
  assert (Hc0 : negb (str_contains special c0) = true).
  { rewrite Es in Hplain. cbn [forallb] in Hplain.
    apply andb_true_iff in Hplain. tauto. }
  assert (Hbr : Ascii.eqb c0 "[" = false) by (apply not_special_bracket, Hc0).
  cbn [parse_value]. unfold parse_value_body.
  rewrite (consume_whitespace_at str p lead _ Hleft Hlead)
    by (rewrite Es; cbn [app stops]; assumption).
  assert (Hat1 := left_at_advance str (i p) lead _ Hleft).
  norm_state.
  assert (Hat1c := Hat1). rewrite Es in Hat1c. cbn [app] in Hat1c.
  destruct (left_at_char _ _ _ _ Hat1c) as [Hch [_ Hsz]].
  rewrite Hsz, Hch.
  match goal with
  | Hq : Ascii.eqb c0 "034" = false |- _ => rewrite Hq
  end.
  rewrite Hbr.
  destruct (left_at_split _ _ _ Hat1) as [pre1 [Estr Epre]].
  rewrite Estr, <- Epre, !compare_eq_app.
  assert (Hstop : forall t,
            forallb (fun c => negb (is_blank c)
                              && negb (str_contains special c)) t = true ->
            stops (str_contains t) (trail ++ suf)).
  { intros t Ht. destruct trail as [|b trail].
    - destruct suf as [|c suf]; [exact I|]. cbn [app stops].
      cbn [value_end stops] in Hsuf. apply negb_false_iff in Hsuf.
      destruct (str_contains t c) eqn:E; [|reflexivity].
      apply str_contains_In in E. rewrite forallb_forall in Ht.
      specialize (Ht c E). rewrite Hsuf, andb_false_r in Ht. discriminate.
    - cbn [app stops]. cbn [forallb] in Htrail.
      apply andb_true_iff in Htrail. destruct Htrail as [Hb _].
      destruct (str_contains t b) eqn:E; [|reflexivity].
      apply str_contains_In in E. rewrite forallb_forall in Ht.
      specialize (Ht b E). rewrite Hb in Ht. discriminate. }
  change 4%nat with (length (lit "null")) at 1.
  rewrite (starts_with_before (lit "null")) by (apply Hstop; reflexivity).
  change (length (lit "null")) with (length (lit "true")).
  rewrite (starts_with_before (lit "true")) by (apply Hstop; reflexivity).
  change 5%nat with (length (lit "false")) at 1.
  rewrite (starts_with_before (lit "false")) by (apply Hstop; reflexivity).
  repeat match goal with
         | Hf : _ = false |- _ => rewrite Hf
         end.
  cbn [orb]. rewrite Epre, <- Estr.
  unfold parse_unquoted_string. rewrite i_set_i.
  assert (Hat2 : left_at str (i p + length lead) ((s ++ trail) ++ suf))
    by (rewrite <- app_assoc; exact Hat1).
  rewrite (scan_while_at str _ _ (s ++ trail) suf Hat2)
    by (try exact Hsuf; rewrite forallb_app, Hplain;
        apply blanks_not_special, Htrail).
  replace (i p + length lead + length (s ++ trail) - (i p + length lead))%nat
    with (length (s ++ trail)) by lia.
  rewrite (substr_at str _ (s ++ trail) suf Hat2).
  rewrite (find_last_not_of_trail trail s Hne) by assumption.
  replace (S (length s - 1)) with (length s)
    by (rewrite Es; cbn [length]; lia).
  rewrite firstn_app, firstn_all, Nat.sub_diag, app_nil_r.
  unfold p, set_i. cbn [i err failed]. rewrite length_app.
  do 2 f_equal. lia.
Qed.

Lemma parse_value_trims_witness :
  plain_string (lit "Alice Smith") = true
  /\ parse_value (lit "name:" ++ lit "  " ++ lit "Alice Smith"
                  ++ ("009"%char :: lit " ") ++ lit "# her name") 1
       (mkParser 5 [] false)
     = Returns (ToonString (lit "Alice Smith")) (mkParser 20 [] false).
Proof.
  split; [reflexivity|].
  apply (parse_value_trims (lit "name:") (lit "  ") (lit "Alice Smith")
           ("009"%char :: lit " ") (lit "# her name") [] false 0);
    reflexivity.
Defined.

(** ** The decoder: a key without a value *)

(** A text that ends after a key, its colon and blanks is decoded to an
    object that holds Null at the key, with the error [unexpected end of
    input] and the failure flag set. *)
Theorem parse_missing_value (k blanks : list ascii) (n : nat)
    (err0 : list ascii) :
  key_ok k = true -> forallb is_blank blanks = true ->
  parse (3 + n) (k ++ ":"%char :: blanks) err0
  = Returns (ToonObject [(k, ToonNull)])
      (mkParser (length k + 1 + length blanks)
         (lit "unexpected end of input") true).
Proof.
  intros Hk Hb. set (str := k ++ ":"%char :: blanks).
  assert (Hcolon : str_contains str ":" = true).
  { apply str_contains_In. apply in_or_app. right. left. reflexivity. }
  assert (Hfirst : exists c t, str = c :: t
            /\ is_blank c = false /\ is_newline c = false
            /\ Ascii.eqb c "#" = false /\ Ascii.eqb c "[" = false).
  { unfold str. pose proof Hk as Hk'. unfold key_ok in Hk'.
    apply andb_true_iff in Hk'. destruct Hk' as [_ Hk'].
    destruct k as [|c k'].
    - eexists _, _. repeat split.
    - repeat (apply andb_true_iff in Hk'; destruct Hk' as [Hk' ?]).
      repeat match goal with
             | H : negb _ = true |- _ => apply negb_true_iff in H
             end.
      eexists c, _. cbn [app]. auto. }
  destruct Hfirst as [c [t [Ec [Hbl [Hnl [Hh Hbr]]]]]].
  rewrite (parse_dispatch _ c t _ _ Ec Hbl Hnl Hh), Hbr, Hcolon.
  set (p := mkParser 0 err0 false).
  assert (H : left_at str (i p) (k ++ ":"%char :: blanks))
    by apply left_at_start.
  cbn [Nat.add parse_object]. unfold parse_object_body.
  cbn [entries_loop].
  rewrite (left_at_ltb _ _ _ H) by (destruct k; discriminate).
  rewrite (consume_garbage_at str p [] _ H eq_refl)
    by (apply key_ok_token; exact Hk).
  cbn [length]. rewrite Nat.add_0_r, set_i_same.
  rewrite (get_indent_at_line str p 0 (k ++ ":"%char :: blanks));
    [|apply at_line_start|exact H|fold str; rewrite Ec; exact Hbl].
  cbn [Z.of_nat Z.leb Z.compare andb].
  assert (Hkey : forallb (fun c => negb (Ascii.eqb c ":")) k = true)
    by (unfold key_ok in Hk; apply andb_true_iff in Hk; tauto).
  rewrite (scan_while_at str _ _ k _ H Hkey) by reflexivity.
  replace (i p + length k - i p)%nat with (length k) by lia.
  rewrite (substr_at str _ k _ H).
  assert (H2 := left_at_advance str _ k _ H).
  norm_state. destruct (left_at_char _ _ _ _ H2) as [_ [_ Hsz]]. rewrite Hsz.
  assert (H3 := left_at_advance str _ [":"%char] _ H2).
  cbn [length app] in H3.
  rewrite (consume_whitespace_at str _ blanks []);
    [|norm_state; rewrite app_nil_r;
      replace (S (i p + length k)) with (i p + length k + 1)%nat by lia;
      exact H3
     |exact Hb|exact I].
  norm_state.
  assert (H4 : left_at str (S (i p + length k) + length blanks) []).
  { replace (S (i p + length k) + length blanks)%nat
      with (i p + length k + 1 + length blanks)%nat by lia.
    rewrite <- (app_nil_r blanks) in H3.
    apply (left_at_advance str _ blanks [] H3). }
  rewrite (left_at_nil_ltb _ _ H4). cbn [andb].
  rewrite (left_at_end _ _ H4) at 1. rewrite char_at_end.
  cbn [Ascii.eqb Bool.eqb NUL zero]. cbn [parse_value].
  unfold parse_value_body.
  rewrite (consume_whitespace_at str _ [] []);
    [|rewrite i_set_i; exact H4|reflexivity|exact I].
  norm_state. cbn [length]. rewrite Nat.add_0_r.
  rewrite (left_at_end _ _ H4) at 1. unfold size at 1.
  rewrite Nat.eqb_refl. cbn [fail bind entries_loop i set_i err failed negb].
  cbn [map_assign].
  rewrite (left_at_nil_ltb _ _ H4).
  unfold p. cbn [i]. do 2 f_equal. lia.
Qed.

Lemma parse_missing_value_witness :
  key_ok (lit "name") = true
  /\ parse 3 (lit "name" ++ ":"%char :: lit "  ") []
     = Returns (ToonObject [(lit "name", ToonNull)])
         (mkParser 7 (lit "unexpected end of input") true).
Proof.
  split; [reflexivity|].
  apply (parse_missing_value (lit "name") (lit "  ") 0 []); reflexivity.
Defined.

(** ** The decoder: a row with too few cells *)

Lemma rows_text_follow rows w follow :
  line_end follow -> line_end (rows_text rows w ++ follow).
Proof. intros H. destruct rows; [exact H|reflexivity]. Qed.

Lemma rows_loop_prefix rows : forall str m n P keys arr p w follow,
  Forall (table_row_good keys) rows -> keys <> [] ->
  left_at str (i p) (rows_text rows w ++ follow) -> line_end follow ->
  P < Z.of_nat w -> failed p = false ->
  rows_loop str (parse_value str (S m)) (length rows + n) P keys arr p
  = rows_loop str (parse_value str (S m)) n P keys (arr ++ map decoded rows)
      (set_i p (i p + length (rows_text rows w))).
Proof.
  induction rows as [|r rest IH];
    intros str m n P keys arr p w follow Hrows Hkeys H Hf HP Hfl.
  - cbn [rows_text flat_map length map Nat.add].
    rewrite app_nil_r, Nat.add_0_r, set_i_same. reflexivity.
  - apply Forall_cons_iff in Hrows.
    destruct Hrows as [[o [-> [Ek [Hsc Hasc]]]] Hrest].
    cbn [length Nat.add rows_loop].
    cbn [rows_text flat_map object_items] in H |- *.
    fold (rows_text rest w) in H |- *.
    rewrite (left_at_ltb _ _ _ H) by discriminate.
    destruct o as [|[k x] o']; [symmetry in Ek; contradiction|].
    assert (Hx : cell x = true)
      by (cbn [forallb snd] in Hsc; apply andb_true_iff in Hsc; tauto).
    destruct (cell_first_char x 0 Hx) as [c [t [Ec [Hb [Hnl [Hh Hbr]]]]]].
    set (o := (k, x) :: o') in *.
    assert (Ecells : exists t', cells_text o = c :: t').
    { unfold cells_text, o. cbn [map snd]. rewrite dump_elements_cons, Ec.
      eexists. reflexivity. }
    destruct Ecells as [t' Ecells].
    set (after_row := rows_text rest w ++ follow) in *.
    assert (H0 : left_at str (i p)
                   (text (Line w (cells_text o ++ after_row)))).
    { unfold text. cbn [gap after app]. cbn [app] in H.
      rewrite <- !app_assoc in H. exact H. }
    assert (Hok : suffix_ok (Line w (cells_text o ++ after_row)) (Z.of_nat w)).
    { cbn [suffix_ok]. split; [lia|]. rewrite Ecells. cbn [app token_start].
      repeat split; auto; try discriminate. apply Ascii.eqb_neq. exact Hh. }
    destruct (suffix_line str p w _ _ H0 Hok) as [-> [H1 [Hat [Hind Hsz]]]].
    rewrite i_set_i, Hsz, Hind.
    replace (Z.of_nat w <=? P) with false by (symmetry; apply Z.leb_gt; lia).
    rewrite andb_false_r.
    rewrite <- Ek.
    rewrite (row_loop_decoded o str m [] (set_i p (i p + S w)) [] after_row);
      rewrite ?i_set_i, ?failed_set_i; auto.
    + cbn [bind negb app length]. norm_state.
      assert (H2 := left_at_advance str _ _ _ H1).
      rewrite (IH str m n P (map fst o) (arr ++ [ToonObject (decoded_entries o)])
                 (set_i p (i p + S w + 0 + length (cells_text o))) w follow);
        rewrite ?i_set_i, ?failed_set_i; auto.
      * rewrite set_i_set_i, <- app_assoc.
        change (decoded (ToonObject o)) with (ToonObject (decoded_entries o)).
        cbn [app]. do 2 f_equal.
        repeat (rewrite length_app; cbn [length]). rewrite repeat_length. lia.
      * rewrite Ek. exact Hrest.
      * rewrite Ek. exact Hkeys.
      * rewrite Nat.add_0_r. exact H2.
    + discriminate.
    + apply rows_text_follow, Hf.
Qed.

Lemma row_loop_short todo : forall str m more obj p g suf,
  forallb (fun kv => cell (snd kv)) todo = true -> more <> [] ->
  forallb is_blank g = true ->
  left_at str (i p) (g ++ cells_text todo ++ suf) -> line_end suf ->
  failed p = false ->
  exists obj' j,
    row_loop str (parse_value str (S m)) (map fst todo ++ more) obj p
    = Returns (inr (obj', true)) (set_i p j).
Proof.
  induction todo as [|[k x] rest IH];
    intros str m more obj p g suf Hsc Hmore Hg H Hsuf Hfl.
  - (* the cells are over and keys are left *)
    destruct more as [|key more]; [contradiction|].
    cbn [map app row_loop]. unfold cells_text in H. cbn [map dump_elements app] in H.
    rewrite (consume_whitespace_at str p g suf H Hg)
      by (destruct suf as [|c r]; [exact I|cbn in Hsuf; subst c; reflexivity]).
    assert (H1 := left_at_advance str (i p) g suf H).
    norm_state. exists obj, (i p + length g)%nat.
    destruct suf as [|c r].
    + rewrite (left_at_end _ _ H1). unfold size. rewrite Nat.eqb_refl.
      reflexivity.
    + destruct (left_at_char _ _ _ _ H1) as [Hc _]. cbn in Hsuf. subst c.
      rewrite Hc. cbn [is_newline Ascii.eqb Bool.eqb]. rewrite orb_true_r.
      reflexivity.
  - cbn [forallb snd] in Hsc. apply andb_true_iff in Hsc.
    destruct Hsc as [Hx Hrest].
    cbn [map fst app row_loop]. unfold cells_text in *. cbn [map snd] in *.
    rewrite dump_elements_cons in H. rewrite <- app_assoc in H.
    destruct (cell_first_char x 0 Hx) as [c [t [Ec [Hb [Hnl [Hh Hbr]]]]]].
    rewrite (consume_whitespace_at str p g _ H Hg)
      by (rewrite Ec; exact Hb).
    assert (H1 := left_at_advance str (i p) g _ H).
    norm_state.
    assert (H1c := H1). rewrite Ec in H1c. cbn [app] in H1c.
    destruct (left_at_char _ _ _ _ H1c) as [Hc [_ Hsz]].
    rewrite Hsz, Hc, Hnl. cbn [orb].
    set (follow := match map snd rest with
                   | [] => []
                   | _ :: _ =>
                       ","%char :: " "%char :: dump_elements dump (map snd rest) 0
                   end ++ suf) in *.
    assert (Hfollow : value_end follow).
    { subst follow. destruct (map snd rest);
        [apply line_end_value_end, Hsuf|reflexivity]. }
    rewrite (parse_value_cell_at str m (set_i p (i p + length g)) x 0 follow Hx)
      by (rewrite ?i_set_i; assumption).
    cbn [bind]. norm_state. rewrite failed_set_i, Hfl.
    assert (H2 := left_at_advance str _ _ _ H1).
    assert (Hstop : stops is_blank follow).
    { subst follow. destruct (map snd rest); [|reflexivity].
      destruct suf; simpl in *; subst; auto. }
    rewrite (consume_whitespace_at str _ [] follow);
      [|rewrite i_set_i; exact H2|reflexivity|exact Hstop].
    cbn [length]. norm_state. rewrite Nat.add_0_r.
    assert (Hkeys : exists a b, map fst rest ++ more = a :: b).
    { destruct rest as [|kv rest']; [|eexists _, _; reflexivity].
      destruct more; [contradiction|]. eexists _, _. reflexivity. }
    destruct Hkeys as [a [b Eab]].
    replace (negb match map fst rest ++ more with
                  | [] => true
                  | _ :: _ => false
                  end) with true by (rewrite Eab; reflexivity).
    cbn [andb].
    unfold follow in H2. destruct rest as [|[k' x'] rest].
    + (* the last cell of the row *)
      cbn [map app] in H2.
      replace ((i p + length g + length (dump x 0) <? size str)%nat
               && Ascii.eqb
                    (char_at str (i p + length g + length (dump x 0))) ",")
        with false.
      2:{ symmetry. destruct suf as [|c' r'].
          - rewrite (left_at_nil_ltb _ _ H2). reflexivity.
          - destruct (left_at_char _ _ _ _ H2) as [-> _].
            simpl in Hsuf. subst c'. apply andb_false_r. }
      destruct (IH str m more (map_assign k (decoded x) obj)
                  (set_i p (i p + length g + length (dump x 0))) [] suf)
        as [obj' [j Ej]]; rewrite ?i_set_i, ?failed_set_i; auto.
      exists obj', j. rewrite Ej, set_i_set_i. reflexivity.
    + cbn [map snd app] in H2.
      destruct (left_at_char _ _ _ _ H2) as [-> [-> _]].
      cbn [Ascii.eqb Bool.eqb andb]. norm_state.
      assert (H3 := left_at_advance str _ [","%char] _ H2).
      cbn [length] in H3.
      destruct (IH str m more (map_assign k (decoded x) obj)
                  (set_i p (S (i p + length g + length (dump x 0))))
                  [" "%char] suf)
        as [obj' [j Ej]]; rewrite ?i_set_i, ?failed_set_i; auto.
      * replace (S (i p + length g + length (dump x 0)))
          with (i p + length g + length (dump x 0) + 1)%nat by lia.
        exact H3.
      * exists obj', j. rewrite Ej, set_i_set_i. reflexivity.
Qed.

(** A row with fewer cells than the header has keys ends the table without
    an error: the decoder returns the rows before it, and drops that row
    and every row after it. *)
Theorem parse_short_row (before : array) (o : object) (j : nat)
    (rest : array) (k : nat) (err0 : list ascii) :
  table (before ++ ToonObject o :: rest) = true ->
  (0 < j < length o)%nat ->
  exists pos,
    parse (length before + 3 + k) (short_table_text before o j rest) err0
    = Returns (ToonArray (map decoded before)) (mkParser pos err0 false).
Proof.
  intros Ha Hj. set (a := before ++ ToonObject o :: rest) in *.
  destruct (table_rows a Ha) as [o0 [rest0 [Ea [Hne [Hok Hrows]]]]].
  assert (Ek : tabular_keys a = map fst o0) by (rewrite Ea; reflexivity).
  set (keys := map fst o0) in *.
  assert (Hkeys : keys <> []) by (unfold keys; destruct o0; [contradiction|discriminate]).
  unfold a in Hrows. apply Forall_app in Hrows.
  destruct Hrows as [Hbefore Hrow]. apply Forall_cons_iff in Hrow.
  destruct Hrow as [[o1 [Eo [Eko [Hsc Hasc]]]] _].
  injection Eo as <-.
  set (str := short_table_text before o j rest).
  set (short := "010"%char :: repeat " "%char 2 ++ cells_text (firstn j o)).
  assert (E : str = "["%char :: "{"%char :: dump_header_keys keys
                    ++ "}"%char :: "]"%char :: ":"%char
                       :: rows_text before 2 ++ short ++ rows_text rest 2).
  { unfold str, short_table_text. fold a. rewrite Ek. reflexivity. }
  rewrite (parse_dispatch _ _ _ _ _ E) by reflexivity.
  cbn [Ascii.eqb Bool.eqb].
  replace (length before + 3 + k)%nat
    with (S (S (length before + S k))) by lia.
  cbn [parse_value]. unfold parse_value_body.
  rewrite (consume_whitespace_at str _ [] str);
    [|apply left_at_start|reflexivity|rewrite E; reflexivity].
  cbn [i set_i length Nat.add err failed].
  assert (Hl : left_at str 0 str) by apply left_at_start.
  assert (Hl' := Hl). rewrite E in Hl' at 2.
  destruct (left_at_char _ _ _ _ Hl') as [Hch [_ Hsz]].
  rewrite Hsz, Hch. cbn [Ascii.eqb Bool.eqb].
  cbn [parse_array]. unfold parse_array_body.
  change (set_i (mkParser 0 err0 false) 0) with (mkParser 0 err0 false).
  cbn [i].
  rewrite (parse_array_header_tabular str 0 keys _ Hl' Hok).
  set (j0 := (0 + length (dump_header_keys keys) + 5)%nat).
  assert (Hj0 : left_at str j0 (rows_text before 2 ++ short ++ rows_text rest 2)).
  { replace j0 with
      (0 + length ("["%char :: "{"%char :: dump_header_keys keys
                   ++ ["}"%char; "]"%char; ":"%char]))%nat
      by (unfold j0; cbn [length]; rewrite length_app; cbn [length]; lia).
    apply left_at_advance. cbn [app]. rewrite <- app_assoc. exact Hl'. }
  (* the rows before the short one *)
  replace (parse_value str (length before + S k))
    with (parse_value str (S (length before + k))) by (f_equal; lia).
  rewrite (rows_loop_prefix before str (length before + k)%nat (S k) (-1)
             keys []
             (set_i (mkParser 0 err0 false) j0) 2
             (short ++ rows_text rest 2));
    rewrite ?i_set_i, ?failed_set_i; auto; try reflexivity; try lia.
  cbn [app]. norm_state.
  set (q := set_i (mkParser 0 err0 false)
              (j0 + length (rows_text before 2))).
  assert (Hq : left_at str (i q) (short ++ rows_text rest 2)).
  { unfold q. rewrite i_set_i. apply (left_at_advance str j0 _ _ Hj0). }
  (* the short row *)
  cbn [rows_loop].
  rewrite (left_at_ltb _ _ _ Hq) by discriminate.
  destruct o as [|[k0 x0] o']; [cbn [length] in Hj; lia|].
  destruct j as [|j]; [lia|].
  assert (Hx : cell x0 = true)
    by (cbn [forallb snd] in Hsc; apply andb_true_iff in Hsc; tauto).
  destruct (cell_first_char x0 0 Hx) as [c [t [Ec [Hb [Hnl [Hh Hbr]]]]]].
  set (row := (k0, x0) :: o') in *.
  assert (Ecells : exists t', cells_text (firstn (S j) row) = c :: t').
  { unfold cells_text, row. cbn [firstn map snd].
    rewrite dump_elements_cons, Ec. eexists. reflexivity. }
  destruct Ecells as [t' Ecells].
  set (after_row := rows_text rest 2) in *.
  assert (H0 : left_at str (i q)
                 (text (Line 2 (cells_text (firstn (S j) row) ++ after_row)))).
  { unfold text. cbn [gap after app]. unfold short in Hq. cbn [app] in Hq.
    rewrite <- !app_assoc in Hq. exact Hq. }
  assert (Hok2 : suffix_ok
                   (Line 2 (cells_text (firstn (S j) row) ++ after_row))
                   (Z.of_nat 2)).
  { cbn [suffix_ok]. split; [lia|]. rewrite Ecells. cbn [app token_start].
    repeat split; auto; try discriminate. apply Ascii.eqb_neq. exact Hh. }
  destruct (suffix_line str q 2 _ _ H0 Hok2) as [-> [H1 [Hat [Hind Hsz2]]]].
  rewrite i_set_i, Hsz2. cbn [Z.eqb negb andb].
  assert (Esplit : keys = map fst (firstn (S j) row) ++ map fst (skipn (S j) row)).
  { rewrite <- map_app, firstn_skipn. symmetry. exact Eko. }
  destruct (row_loop_short (firstn (S j) row) str (length before + k)%nat
              (map fst (skipn (S j) row)) [] (set_i q (i q + 3)) []
              after_row)
    as [obj' [j' Ej]]; rewrite ?i_set_i, ?failed_set_i; auto.
  - apply forallb_forall. intros kv Hin. rewrite forallb_forall in Hsc.
    apply Hsc. rewrite <- (firstn_skipn (S j) row). apply in_or_app.
    left. exact Hin.
  - intros Hnil. apply (f_equal (@length _)) in Hnil.
    rewrite length_map, length_skipn in Hnil. cbn [length] in Hnil. lia.
  - unfold after_row. destruct rest; [exact I|reflexivity].
  - rewrite Esplit, Ej. cbn [bind negb]. unfold q. rewrite !set_i_set_i.
    exists j'. reflexivity.
Qed.

Lemma parse_short_row_witness :
  let r1 := ToonObject [(lit "id", ToonInt 1); (lit "ok", ToonBoolean true)] in
  let o := [(lit "id", ToonInt 2); (lit "ok", ToonNull)] in
  let r3 := ToonObject [(lit "id", ToonInt 3); (lit "ok", ToonNull)] in
  table ([r1] ++ ToonObject o :: [r3]) = true
  /\ exists pos,
       parse 4 (short_table_text [r1] o 1 [r3]) []
       = Returns (ToonArray (map decoded [r1])) (mkParser pos [] false).
Proof.
  split; [reflexivity|].
  apply (parse_short_row
           [ToonObject [(lit "id", ToonInt 1); (lit "ok", ToonBoolean true)]]
           [(lit "id", ToonInt 2); (lit "ok", ToonNull)] 1
           [ToonObject [(lit "id", ToonInt 3); (lit "ok", ToonNull)]] 0 []);
    [reflexivity|cbn [length]; lia].
Defined.

(** ** A double that is not finite *)

(** An infinity or a NaN is written as [null], and that text is read back
    as Null: the number is lost, and no error is reported. *)
Theorem nonfinite_read_as_null (d : spec_float) (level : Z) (k : nat)
    (err0 : list ascii) :
  isfinite d = false ->
  dump (ToonDouble d) level = dump ToonNull level
  /\ parse (1 + k) (dump (ToonDouble d) level) err0
     = Returns ToonNull (mkParser 4 err0 false).
Proof.
  intros H. assert (E : dump (ToonDouble d) level = lit "null")
    by (cbn [dump]; unfold dump_double; rewrite H; reflexivity).
  rewrite E. split; reflexivity.
Qed.

Lemma nonfinite_read_as_null_witness :
  isfinite S754_nan = false
  /\ dump (ToonDouble S754_nan) 0 = dump ToonNull 0
  /\ parse 1 (dump (ToonDouble S754_nan) 0) []
     = Returns ToonNull (mkParser 4 [] false).
Proof.
  split; [reflexivity|].
  apply (nonfinite_read_as_null S754_nan 0 0 []). reflexivity.
Defined.

(** ** [operator<] is transitive on the values the decoder returns *)

Lemma SFcompare_key x y :
  x <> S754_nan -> y <> S754_nan ->
  SFcompare x y = Some (lex_compare (float_key x) (float_key y)).
Proof.
  intros Hx Hy.
  destruct x as [sx|sx| |sx mx ex], y as [sy|sy| |sy my ey];
    try contradiction; cbn [SFcompare float_key];
    try (destruct sx; reflexivity);
    try (destruct sy; reflexivity);
    try (destruct sx, sy; reflexivity).
  destruct sx, sy; try reflexivity; unfold lex_compare; cbn [fst snd].
  change (-1 ?= -1) with Eq. cbv iota. rewrite Z.compare_opp.
  rewrite (Z.compare_antisym ex ey).
  destruct (ex ?= ey); cbn [CompOpp]; reflexivity.
Qed.

Lemma lex_compare_spec k l :
  match lex_compare k l with
  | Lt => fst (fst k) < fst (fst l)
          \/ fst (fst k) = fst (fst l)
             /\ (snd (fst k) < snd (fst l)
                 \/ snd (fst k) = snd (fst l) /\ snd k < snd l)
  | Eq => fst (fst k) = fst (fst l) /\ snd (fst k) = snd (fst l)
          /\ snd k = snd l
  | Gt => fst (fst l) < fst (fst k)
          \/ fst (fst k) = fst (fst l)
             /\ (snd (fst l) < snd (fst k)
                 \/ snd (fst k) = snd (fst l) /\ snd l < snd k)
  end.
Proof.
  unfold lex_compare.
  destruct (Z.compare_spec (fst (fst k)) (fst (fst l))); [|lia|lia].
  destruct (Z.compare_spec (snd (fst k)) (snd (fst l))); [|lia|lia].
  destruct (Z.compare_spec (snd k) (snd l)); lia.
Qed.

Lemma lex_compare_compose k l n c3 :
  seq_cmp (lex_compare k l) (lex_compare l n) = Some c3 ->
  lex_compare k n = c3.
Proof.
  pose proof (lex_compare_spec k l) as H1.
  pose proof (lex_compare_spec l n) as H2.
  pose proof (lex_compare_spec k n) as H3.
  destruct (lex_compare k l), (lex_compare l n); cbn [seq_cmp];
    try discriminate; intros [= <-];
    destruct (lex_compare k n); try reflexivity; exfalso; lia.
Qed.

Lemma SFcompare_compose x y z c1 c2 c3 :
  SFcompare x y = Some c1 -> SFcompare y z = Some c2 ->
  seq_cmp c1 c2 = Some c3 -> SFcompare x z = Some c3.
Proof.
  intros H1 H2 H3.
  assert (Hx : x <> S754_nan) by (intros ->; discriminate H1).
  assert (Hy : y <> S754_nan) by (intros ->; destruct x; discriminate H1).
  assert (Hz : z <> S754_nan) by (intros ->; destruct y; discriminate H2).
  rewrite (SFcompare_key x y Hx Hy) in H1.
  rewrite (SFcompare_key y z Hy Hz) in H2.
  rewrite (SFcompare_key x z Hx Hz).
  injection H1 as <-. injection H2 as <-.
  f_equal. apply (lex_compare_compose _ _ _ _ H3).
Qed.

Lemma ordered_fun a b c c' : ordered a b c -> ordered a b c' -> c = c'.
Proof.
  intros [L [E G]] [L' [E' G']].
  rewrite L in L'. rewrite E in E'. rewrite G in G'.
  destruct c, c'; try reflexivity; discriminate.
Qed.

Lemma str_ordered_fun s t c c' :
  str_ordered s t c -> str_ordered s t c' -> c = c'.
Proof.
  intros [L [E G]] [L' [E' G']].
  rewrite L in L'. rewrite E in E'. rewrite G in G'.
  destruct c, c'; try reflexivity; discriminate.
Qed.

Lemma str_ordered_compose k l n c1 c2 c3 c :
  str_ordered k l c1 -> str_ordered l n c2 -> str_ordered k n c3 ->
  seq_cmp c1 c2 = Some c -> c3 = c.
Proof.
  intros H1 H2 H3 Hc.
  destruct c1.
  - destruct H1 as [_ [E _]]. apply str_eqb_eq in E. subst l.
    cbn [seq_cmp] in Hc. injection Hc as <-.
    apply (str_ordered_fun k n); assumption.
  - destruct c2; cbn [seq_cmp] in Hc; try discriminate Hc;
      injection Hc as <-.
    + destruct H2 as [_ [E _]]. apply str_eqb_eq in E. subst n.
      apply (str_ordered_fun k l); assumption.
    + destruct H1 as [L1 _], H2 as [L2 _], H3 as [L3 _].
      rewrite (str_ltb_trans k l n L1 L2) in L3.
      destruct c3; try reflexivity; discriminate L3.
  - destruct c2; cbn [seq_cmp] in Hc; try discriminate Hc;
      injection Hc as <-.
    + destruct H2 as [_ [E _]]. apply str_eqb_eq in E. subst n.
      apply (str_ordered_fun k l); assumption.
    + destruct H1 as [_ [_ G1]], H2 as [_ [_ G2]], H3 as [_ [_ G3]].
      rewrite (str_ltb_trans n l k G2 G1) in G3.
      destruct c3; try reflexivity; discriminate G3.
Qed.

Lemma ordered_array_cons x y xs ys cx ct :
  ordered x y cx -> ordered (ToonArray xs) (ToonArray ys) ct ->
  ordered (ToonArray (x :: xs)) (ToonArray (y :: ys))
    (match cx with Eq => ct | r => r end).
Proof.
  intros [L [E G]] [L' [E' G']]. unfold ordered.
  rewrite !less_array_cons, equals_array_cons.
  rewrite (proj1 (less_greater x y)), (proj1 (less_greater y x)), L, E, G.
  destruct cx; cbn [is_lt is_eq is_gt].
  - rewrite L', E', G'.
    destruct (length xs =? length ys)%nat eqn:El; cbn [negb]; auto.
    rewrite (equals_length_array xs ys El) in E'. rewrite <- E'. auto.
  - destruct (negb (length xs =? length ys)%nat); repeat split.
  - destruct (negb (length xs =? length ys)%nat); repeat split.
Qed.

Lemma ordered_object_cons k l x y xs ys ck cx ct :
  str_ordered k l ck -> ordered x y cx ->
  ordered (ToonObject xs) (ToonObject ys) ct ->
  ordered (ToonObject ((k, x) :: xs)) (ToonObject ((l, y) :: ys))
    (match ck with
     | Eq => match cx with Eq => ct | r => r end
     | r => r
     end).
Proof.
  intros [Kl [Ke Kg]] [L [E G]] [L' [E' G']]. unfold ordered.
  rewrite !less_object_cons, equals_object_cons.
  rewrite (proj1 (less_greater x y)), (proj1 (less_greater y x)), L, E, G.
  rewrite Kl, Ke, Kg.
  destruct ck; cbn [is_lt is_eq is_gt negb].
  - destruct cx; cbn [is_lt is_eq is_gt].
    + rewrite L', E', G'.
      destruct (length xs =? length ys)%nat eqn:El; cbn [negb]; auto.
      rewrite (equals_length_object xs ys El) in E'. rewrite <- E'. auto.
    + destruct (negb (length xs =? length ys)%nat); repeat split.
    + destruct (negb (length xs =? length ys)%nat); repeat split.
  - destruct (negb (length xs =? length ys)%nat); repeat split.
  - destruct (negb (length xs =? length ys)%nat); repeat split.
Qed.

Lemma ordered_total_arrays xs ys :
  forallb parsed_shape xs = true -> forallb parsed_shape ys = true ->
  exists c, ordered (ToonArray xs) (ToonArray ys) c.
Proof.
  apply ordered_arrays. apply Forall_forall. intros x _ y.
  apply ordered_total.
Qed.

Lemma ordered_total_objects xs ys :
  forallb (fun kv => parsed_shape (snd kv)) xs = true ->
  forallb (fun kv => parsed_shape (snd kv)) ys = true ->
  exists c, ordered (ToonObject xs) (ToonObject ys) c.
Proof.
  apply ordered_objects. apply Forall_forall. intros x _ y.
  apply ordered_total.
Qed.

Lemma str_ordered_total s t : exists c, str_ordered s t c.
Proof. apply str_compare. Qed.

(** the two comparisons contradict each other, or the third one is read
    off the values *)
Ltac compose_by_rank H1 H2 H3 :=
  let L := fresh "L" in
  let E := fresh "E" in
  let G := fresh "G" in
  match type of H3 with
  | seq_cmp ?c1 ?c2 = Some _ =>
      destruct c1, c2; cbn [seq_cmp] in H3; try discriminate H3;
      injection H3 as <-;
      first
        [ solve [repeat split; reflexivity]
        | exfalso; destruct H1 as [L [E G]]; cbn in L, E, G;
          solve [discriminate L | discriminate E | discriminate G]
        | exfalso; destruct H2 as [L [E G]]; cbn in L, E, G;
          solve [discriminate L | discriminate E | discriminate G] ]
  end.

Ltac use_compositions :=
  repeat match goal with
         | H : forall c, Some ?v = Some c -> _ |- _ =>
             specialize (H v eq_refl)
         | H : forall c, None = Some c -> _ |- _ => clear H
         end.

Lemma composes_arrays xs :
  Forall composes xs ->
  forall ys zs c1 c2 c3,
    forallb parsed_shape xs = true -> forallb parsed_shape ys = true ->
    forallb parsed_shape zs = true ->
    ordered (ToonArray xs) (ToonArray ys) c1 ->
    ordered (ToonArray ys) (ToonArray zs) c2 ->
    seq_cmp c1 c2 = Some c3 ->
    ordered (ToonArray xs) (ToonArray zs) c3.
Proof.
  induction 1 as [|x xs Hx _ IH]; intros [|y ys] [|z zs] c1 c2 c3 Sxs Sys Szs
    H1 H2 H3; try (compose_by_rank H1 H2 H3).
  cbn [forallb] in Sxs, Sys, Szs.
  apply andb_true_iff in Sxs, Sys, Szs.
  destruct Sxs as [Sx Sxs], Sys as [Sy Sys], Szs as [Sz Szs].
  destruct (ordered_total x y Sx Sy) as [cxy Hxy].
  destruct (ordered_total y z Sy Sz) as [cyz Hyz].
  destruct (ordered_total x z Sx Sz) as [cxz Hxz].
  destruct (ordered_total_arrays xs ys Sxs Sys) as [t1 Ht1].
  destruct (ordered_total_arrays ys zs Sys Szs) as [t2 Ht2].
  destruct (ordered_total_arrays xs zs Sxs Szs) as [t3 Ht3].
  assert (Hhead : forall c, seq_cmp cxy cyz = Some c -> cxz = c).
  { intros c Hc. apply (ordered_fun x z); [exact Hxz|].
    apply (Hx y z cxy cyz c); assumption. }
  assert (Htail : forall c, seq_cmp t1 t2 = Some c -> t3 = c).
  { intros c Hc. apply (ordered_fun (ToonArray xs) (ToonArray zs));
      [exact Ht3|]. apply (IH ys zs t1 t2 c); assumption. }
  rewrite (ordered_fun _ _ _ _ H1 (ordered_array_cons _ _ _ _ _ _ Hxy Ht1))
    in H3.
  rewrite (ordered_fun _ _ _ _ H2 (ordered_array_cons _ _ _ _ _ _ Hyz Ht2))
    in H3.
  assert (E3 : c3 = match cxz with Eq => t3 | r => r end).
  { destruct cxy, cyz, t1, t2; cbn [seq_cmp] in H3, Hhead, Htail;
      try discriminate H3; injection H3 as <-; use_compositions; subst;
      reflexivity. }
  rewrite E3. apply ordered_array_cons; assumption.
Qed.

Lemma composes_objects xs :
  Forall (fun kv => composes (snd kv)) xs ->
  forall ys zs c1 c2 c3,
    forallb (fun kv => parsed_shape (snd kv)) xs = true ->
    forallb (fun kv => parsed_shape (snd kv)) ys = true ->
    forallb (fun kv => parsed_shape (snd kv)) zs = true ->
    ordered (ToonObject xs) (ToonObject ys) c1 ->
    ordered (ToonObject ys) (ToonObject zs) c2 ->
    seq_cmp c1 c2 = Some c3 ->
    ordered (ToonObject xs) (ToonObject zs) c3.
Proof.
  induction 1 as [|[k x] xs Hx _ IH];
    intros [|[l y] ys] [|[n z] zs] c1 c2 c3 Sxs Sys Szs H1 H2 H3;
    try (compose_by_rank H1 H2 H3).
  cbn [forallb snd] in Sxs, Sys, Szs, Hx.
  apply andb_true_iff in Sxs, Sys, Szs.
  destruct Sxs as [Sx Sxs], Sys as [Sy Sys], Szs as [Sz Szs].
  destruct (ordered_total x y Sx Sy) as [cxy Hxy].
  destruct (ordered_total y z Sy Sz) as [cyz Hyz].
  destruct (ordered_total x z Sx Sz) as [cxz Hxz].
  destruct (ordered_total_objects xs ys Sxs Sys) as [t1 Ht1].
  destruct (ordered_total_objects ys zs Sys Szs) as [t2 Ht2].
  destruct (ordered_total_objects xs zs Sxs Szs) as [t3 Ht3].
  destruct (str_ordered_total k l) as [k1 Hk1].
  destruct (str_ordered_total l n) as [k2 Hk2].
  destruct (str_ordered_total k n) as [k3 Hk3].
  assert (Hkey : forall c, seq_cmp k1 k2 = Some c -> k3 = c).
  { intros c Hc. apply (str_ordered_compose k l n k1 k2 k3 c); assumption. }
  assert (Hhead : forall c, seq_cmp cxy cyz = Some c -> cxz = c).
  { intros c Hc. apply (ordered_fun x z); [exact Hxz|].
    apply (Hx y z cxy cyz c); assumption. }
  assert (Htail : forall c, seq_cmp t1 t2 = Some c -> t3 = c).
  { intros c Hc. apply (ordered_fun (ToonObject xs) (ToonObject zs));
      [exact Ht3|]. apply (IH ys zs t1 t2 c); assumption. }
  rewrite (ordered_fun _ _ _ _ H1
             (ordered_object_cons _ _ _ _ _ _ _ _ _ Hk1 Hxy Ht1)) in H3.
  rewrite (ordered_fun _ _ _ _ H2
             (ordered_object_cons _ _ _ _ _ _ _ _ _ Hk2 Hyz Ht2)) in H3.
  assert (E3 : c3 = match k3 with
                    | Eq => match cxz with Eq => t3 | r => r end
                    | r => r
                    end).
  { destruct k1, k2; cbn [seq_cmp] in H3, Hkey; use_compositions; subst;
      try discriminate H3; try (injection H3 as <-; reflexivity);
      destruct cxy, cyz, t1, t2; cbn [seq_cmp] in H3, Hhead, Htail;
      try discriminate H3; injection H3 as <-; use_compositions; subst;
      reflexivity. }
  rewrite E3. apply ordered_object_cons; assumption.
Qed.

Lemma ordered_compose a : composes a.
Proof.
  induction a as [|x|n|x|s|xs IH|xs IH] using Toon_induction;
    intros b c c1 c2 c3 Ha Hb Hc H1 H2 H3; try discriminate Ha.
  - destruct b, c; try discriminate Hb; try discriminate Hc;
      compose_by_rank H1 H2 H3.
  - destruct b as [|y| | | | |]; try discriminate Hb;
      destruct c as [|z| | | | |]; try discriminate Hc;
      try (compose_by_rank H1 H2 H3).
    destruct H1 as [L1 [E1 G1]], H2 as [L2 [E2 G2]].
    cbn [parsed_shape] in Ha, Hb, Hc. apply negb_true_iff in Ha, Hb, Hc.
    destruct (SFcompare_defined x y Ha Hb) as [d1 D1].
    destruct (SFcompare_defined y z Hb Hc) as [d2 D2].
    assert (c1 = d1).
    { cbn [less equals] in L1, E1. unfold SFltb, SFeqb in L1, E1.
      rewrite D1 in L1, E1. destruct c1, d1; try reflexivity; discriminate. }
    assert (c2 = d2).
    { cbn [less equals] in L2, E2. unfold SFltb, SFeqb in L2, E2.
      rewrite D2 in L2, E2. destruct c2, d2; try reflexivity; discriminate. }
    subst d1 d2.
    pose proof (SFcompare_compose x y z c1 c2 c3 D1 D2 H3) as D3.
    unfold ordered. cbn [less equals]. unfold SFltb, SFeqb.
    rewrite (SFcompare_antisym x z), D3. cbn [option_map].
    destruct c3; repeat split.
  - destruct b as [| | |y| | |]; try discriminate Hb;
      destruct c as [| | |z| | |]; try discriminate Hc;
      try (compose_by_rank H1 H2 H3).
    destruct x, y, z; compose_by_rank H1 H2 H3.
  - destruct b as [| | | |t| |]; try discriminate Hb;
      destruct c as [| | | |u| |]; try discriminate Hc;
      try (compose_by_rank H1 H2 H3).
    destruct (str_ordered_total s u) as [c' H'].
    assert (K1 : str_ordered s t c1).
    { destruct H1 as [L [E G]]. cbn [less equals] in L, E, G.
      injection L as L. injection E as E. injection G as G.
      repeat split; assumption. }
    assert (K2 : str_ordered t u c2).
    { destruct H2 as [L [E G]]. cbn [less equals] in L, E, G.
      injection L as L. injection E as E. injection G as G.
      repeat split; assumption. }
    rewrite <- (str_ordered_compose s t u c1 c2 c' c3 K1 K2 H' H3).
    destruct H' as [L [E G]]. unfold ordered. cbn [less equals].
    rewrite L, E, G. repeat split.
  - destruct b as [| | | | |ys|]; try discriminate Hb;
      destruct c as [| | | | |zs|]; try discriminate Hc;
      try (compose_by_rank H1 H2 H3).
    apply (composes_arrays xs IH ys zs c1 c2 c3); assumption.
  - destruct b as [| | | | | |ys]; try discriminate Hb;
      destruct c as [| | | | | |zs]; try discriminate Hc;
      try (compose_by_rank H1 H2 H3).
    rewrite parsed_object in Ha, Hb, Hc.
    apply andb_true_iff in Ha, Hb, Hc.
    apply (composes_objects xs IH ys zs c1 c2 c3); tauto.
Qed.

(** On values without a [ToonInt] and without a NaN, such as the decoder
    returns, [operator<] is transitive; with the trichotomy above it is a
    strict total order, as the standard containers and algorithms
    require of a comparison. *)
Theorem less_transitive (a b c : Toon) :
  parsed_shape a = true -> parsed_shape b = true -> parsed_shape c = true ->
  less a b = Some true -> less b c = Some true -> less a c = Some true.
Proof.
  intros Ha Hb Hc Hab Hbc.
  destruct (ordered_total a b Ha Hb) as [c1 H1].
  destruct (ordered_total b c Hb Hc) as [c2 H2].
  assert (E1 : c1 = Lt).
  { destruct H1 as [L _]. rewrite Hab in L.
    destruct c1; try reflexivity; discriminate L. }
  assert (E2 : c2 = Lt).
  { destruct H2 as [L _]. rewrite Hbc in L.
    destruct c2; try reflexivity; discriminate L. }
  subst c1 c2.
  destruct (ordered_compose a b c Lt Lt Lt Ha Hb Hc H1 H2 eq_refl) as [L _].
  exact L.
Qed.

Lemma less_transitive_witness :
  less (ToonArray [ToonDouble (S754_zero false)])
       (ToonArray [ToonDouble (S754_finite false 1 0); ToonNull]) = Some true
  /\ less (ToonArray [ToonDouble (S754_zero false)])
          (ToonArray [ToonString (lit "a")]) = Some true.
Proof.
  split; [reflexivity|].
  apply (less_transitive
           (ToonArray [ToonDouble (S754_zero false)])
           (ToonArray [ToonDouble (S754_finite false 1 0); ToonNull])
           (ToonArray [ToonString (lit "a")])); reflexivity.
Defined.

(** ** The decoder: the offset never leaves the text *)

Section Bound.

Variable str : list ascii.

Lemma char_at_inside (c : ascii) k :
  char_at str k = c -> c <> NUL -> (k < length str)%nat.
Proof.
  intros H Hc. destruct (Nat.lt_ge_cases k (length str)) as [Hlt|Hge];
    [exact Hlt|].
  exfalso. apply Hc. rewrite <- H. unfold char_at. apply nth_overflow, Hge.
Qed.

Lemma eqb_inside k (c : ascii) :
  Ascii.eqb (char_at str k) c = true -> c <> NUL -> (k < length str)%nat.
Proof.
  intros H Hc. apply Ascii.eqb_eq in H. apply (char_at_inside c k H Hc).
Qed.

Lemma scan_loop_bound cond n : forall k,
  (k <= length str)%nat -> (scan_loop str cond n k <= length str)%nat.
Proof.
  induction n as [|n IH]; intros k Hk; cbn [scan_loop]; [exact Hk|].
  destruct (k <? size str)%nat eqn:E; cbn [andb]; [|exact Hk].
  destruct (cond (char_at str k)); [|exact Hk].
  apply IH. apply Nat.ltb_lt in E. exact E.
Qed.

Lemma scan_while_bound cond k :
  (k <= length str)%nat -> (scan_while str cond k <= length str)%nat.
Proof. apply scan_loop_bound. Qed.

Lemma garbage_loop_bound n : forall p,
  (i p <= length str)%nat -> (i (garbage_loop str n p) <= length str)%nat.
Proof.
  induction n as [|n IH]; intros p Hp; cbn [garbage_loop]; [exact Hp|].
  unfold consume_whitespace. rewrite !i_set_i.
  pose proof (scan_while_bound is_blank (i p) Hp) as Hw.
  set (k := scan_while str is_blank (i p)) in *.
  destruct (k <? size str)%nat eqn:E; cbn [andb].
  - apply Nat.ltb_lt in E. unfold size in E.
    destruct (Ascii.eqb (char_at str k) "#").
    + apply IH. rewrite i_set_i. apply scan_while_bound, Hw.
    + destruct (is_newline (char_at str k));
        [apply IH; rewrite i_set_i; exact E|rewrite i_set_i; exact Hw].
  - rewrite i_set_i. exact Hw.
Qed.

Lemma consume_garbage_bound p :
  (i p <= length str)%nat -> (i (consume_garbage str p) <= length str)%nat.
Proof. apply garbage_loop_bound. Qed.

Lemma consume_whitespace_bound p :
  (i p <= length str)%nat -> (i (consume_whitespace str p) <= length str)%nat.
Proof.
  intros Hp. unfold consume_whitespace. rewrite i_set_i.
  apply scan_while_bound, Hp.
Qed.

Lemma hex_loop_bound n : forall k val,
  (snd (fst (helper_toon.hex_loop n str k val)) <= k + n)%nat.
Proof.
  induction n as [|n IH]; intros k val; cbn [helper_toon.hex_loop];
    [cbn [fst snd]; lia|].
  repeat match goal with
         | |- context [if ?b then _ else _] => destruct b
         end;
    try (match goal with
         | |- context [helper_toon.hex_loop n str (S k) ?v] =>
             specialize (IH (S k) v); lia
         end).
  cbn [fst snd]. lia.
Qed.

Lemma parse_unicode_codepoint_bound k :
  (k <= length str)%nat ->
  (snd (fst (helper_toon.parse_unicode_codepoint str k)) <= length str)%nat.
Proof.
  intros Hk. unfold helper_toon.parse_unicode_codepoint.
  destruct (length str <=? k + 4)%nat eqn:E; [exact Hk|].
  apply Nat.leb_gt in E. pose proof (hex_loop_bound 4 k 0). lia.
Qed.

Lemma quoted_loop_bound n : forall p out,
  (i p <= length str)%nat ->
  (i (snd (quoted_loop str n p out)) <= length str)%nat.
Proof.
  induction n as [|n IH]; intros p out Hp; cbn [quoted_loop]; [exact Hp|].
  destruct ((i p <? size str)%nat
            && negb (Ascii.eqb (char_at str (i p)) "034")) eqn:E.
  - apply andb_true_iff in E. destruct E as [E _]. apply Nat.ltb_lt in E.
    unfold size in E.
    destruct (Ascii.eqb (char_at str (i p)) "\").
    + rewrite !i_set_i.
      assert (Hq : (i (set_i p (S (i p))) <= length str)%nat)
        by (rewrite i_set_i; exact E).
      set (q := set_i p (S (i p))) in *.
      assert (Hstep : forall r out',
                (i r <= length str)%nat ->
                (i (snd (if (i r =? size str)%nat
                         then fail (lit "unfinished escape") r
                         else
                           if Ascii.eqb (char_at str (i r)) "n"
                           then quoted_loop str n (set_i r (S (i r)))
                                  (out' ++ ["010"%char])
                           else
                             if Ascii.eqb (char_at str (i r)) "r"
                             then quoted_loop str n (set_i r (S (i r)))
                                    (out' ++ ["013"%char])
                             else
                               if Ascii.eqb (char_at str (i r)) "t"
                               then quoted_loop str n (set_i r (S (i r)))
                                      (out' ++ ["009"%char])
                               else
                                 if Ascii.eqb (char_at str (i r)) "034"
                                    || Ascii.eqb (char_at str (i r)) "\"
                                 then quoted_loop str n (set_i r (S (i r)))
                                        (out' ++ [char_at str (i r)])
                                 else fail (lit "invalid escape")
                                        (set_i r (S (i r)))))
                 <= length str)%nat).
      { intros r out' Hr.
        destruct (i r =? size str)%nat eqn:Er; [exact Hr|].
        apply Nat.eqb_neq in Er. unfold size in Er.
        assert (Hs : (i (set_i r (S (i r))) <= length str)%nat)
          by (rewrite i_set_i; lia).
        repeat match goal with
               | |- context [if ?b then _ else _] => destruct b
               end; try (apply IH; exact Hs). exact Hs. }
      destruct (Ascii.eqb (char_at str (S (i p))) "u").
      * pose proof (parse_unicode_codepoint_bound (S (i p)) E) as Hu.
        destruct (helper_toon.parse_unicode_codepoint str (S (i p)))
          as [[cp k] [|e0 e]]; cbn [fst snd] in Hu.
        -- apply Hstep. rewrite i_set_i. exact Hu.
        -- cbn [fail snd i set_i]. exact Hu.
      * apply Hstep. exact Hq.
    + apply IH. rewrite i_set_i. exact E.
  - destruct (i p =? size str)%nat eqn:Es; [exact Hp|].
    apply Nat.eqb_neq in Es. unfold size in Es.
    cbn [snd]. rewrite i_set_i. lia.
Qed.

Lemma compare_eq_bound k n t :
  compare_eq str k n t = true -> length t = n -> (0 < n)%nat ->
  (k + n <= length str)%nat.
Proof.
  unfold compare_eq, substr. intros H Ht Hn. apply str_eqb_eq in H.
  apply (f_equal (@length ascii)) in H.
  rewrite length_firstn, length_skipn, Ht in H. lia.
Qed.

Lemma header_loop_bound n : forall k keys,
  (k <= length str)%nat ->
  (fst (header_loop str n k keys) <= length str)%nat.
Proof.
  induction n as [|n IH]; intros k keys Hk; cbn [header_loop]; [exact Hk|].
  destruct ((k <? size str)%nat && negb (Ascii.eqb (char_at str k) "}"));
    [|exact Hk].
  pose proof (scan_while_bound is_blank k Hk) as H1.
  set (k1 := scan_while str is_blank k) in *.
  pose proof (scan_while_bound
                (fun c => negb (Ascii.eqb c ",") && negb (Ascii.eqb c "}"))
                k1 H1) as H2.
  set (j := scan_while str _ k1) in *.
  apply IH.
  destruct (j <? size str)%nat eqn:E; cbn [andb]; [|exact H2].
  apply Nat.ltb_lt in E. unfold size in E.
  destruct (Ascii.eqb (char_at str j) ","); [exact E|exact H2].
Qed.

Lemma parse_array_header_bound k tabular keys count j :
  (k < length str)%nat ->
  parse_array_header str k = Some (tabular, keys, count, j) ->
  (j <= length str)%nat.
Proof.
  intros Hk. unfold parse_array_header.
  assert (Htail : forall k0,
            (k0 <= length str)%nat ->
            let i1 := scan_while str (fun c => negb (Ascii.eqb c "]")) k0 in
            let i2 := if (i1 <? size str)%nat then S i1 else i1 in
            ((if (i2 <? size str)%nat && Ascii.eqb (char_at str i2) ":"
              then S i2 else i2) <= length str)%nat).
  { intros k0 Hk0. cbv zeta.
    pose proof (scan_while_bound (fun c => negb (Ascii.eqb c "]")) k0 Hk0)
      as H1.
    set (i1 := scan_while str _ k0) in *.
    assert (H2 : ((if (i1 <? size str)%nat then S i1 else i1)
                  <= length str)%nat).
    { destruct (i1 <? size str)%nat eqn:E; [|exact H1].
      apply Nat.ltb_lt in E. exact E. }
    set (i2 := if (i1 <? size str)%nat then S i1 else i1) in *.
    destruct (i2 <? size str)%nat eqn:E; cbn [andb]; [|exact H2].
    apply Nat.ltb_lt in E. unfold size in E.
    destruct (Ascii.eqb (char_at str i2) ":"); [exact E|exact H2]. }
  destruct ((S k <? size str)%nat && Ascii.eqb (char_at str (S k)) "{")
    eqn:Eb.
  - apply andb_true_iff in Eb. destruct Eb as [Eb _].
    apply Nat.ltb_lt in Eb. unfold size in Eb.
    pose proof (header_loop_bound (S (size str - S (S k))) (S (S k)) [] Eb)
      as Hh.
    destruct (header_loop str _ (S (S k)) []) as [k1 keys1].
    cbn [fst] in Hh.
    intros [= <- <- <- <-]. apply Htail.
    destruct (k1 <? size str)%nat eqn:E; [|exact Hh].
    apply Nat.ltb_lt in E. exact E.
  - pose proof (scan_while_bound Libc.isdigit (S k) Hk) as Hd.
    set (j0 := scan_while str Libc.isdigit (S k)) in *.
    destruct (substr str (S k) (j0 - S k)) as [|d ds].
    + intros [= <- <- <- <-]. apply Htail, Hd.
    + destruct (Libc.stoi (d :: ds)); [|discriminate].
      intros [= <- <- <- <-]. apply Htail, Hd.
Qed.

Lemma within_returns {A : Type} (v : A) q :
  (i q <= length str)%nat -> within_text str (Returns v q).
Proof. intros H v' q' E. injection E as <- <-. exact H. Qed.

Lemma within_stuck {A : Type} (o : outcome A) :
  (forall v q, o <> Returns v q) -> within_text str o.
Proof. intros H v q E. exfalso. exact (H v q E). Qed.

Lemma within_bind {A B : Type} (m : outcome A)
    (k : A -> ToonParser -> outcome B) :
  within_text str m ->
  (forall v q, (i q <= length str)%nat -> within_text str (k v q)) ->
  within_text str (bind m k).
Proof.
  intros Hm Hk w r E. destruct m as [v q| |]; simpl in E; try discriminate.
  exact (Hk v q (Hm v q eq_refl) w r E).
Qed.

Section BodiesBound.

Variable pv : ToonParser -> outcome Toon.
Variables pa po : Z -> ToonParser -> outcome Toon.
Hypothesis Hpv : forall p, (i p <= length str)%nat -> within_text str (pv p).
Hypothesis Hpa :
  forall x p, (i p < length str)%nat -> within_text str (pa x p).
Hypothesis Hpo :
  forall x p, (i p <= length str)%nat -> within_text str (po x p).

Lemma parse_value_body_bound p :
  (i p <= length str)%nat -> within_text str (parse_value_body str pa p).
Proof.
  intros Hp. unfold parse_value_body.
  assert (Hw := consume_whitespace_bound p Hp).
  set (q := consume_whitespace str p) in *.
  destruct (i q =? size str)%nat eqn:Es; [apply within_returns; exact Hw|].
  apply Nat.eqb_neq in Es. unfold size in Es.
  assert (Hlt : (i q < length str)%nat) by lia.
  destruct (Ascii.eqb (char_at str (i q)) "034").
  { unfold parse_quoted_string.
    pose proof (quoted_loop_bound (S (size str - i (set_i q (S (i q)))))
                  (set_i q (S (i q))) []) as H1.
    rewrite i_set_i in H1. specialize (H1 Hlt).
    destruct (quoted_loop str _ _ []) as [v r]. apply within_returns.
    exact H1. }
  destruct (Ascii.eqb (char_at str (i q)) "["); [apply Hpa; exact Hlt|].
  destruct (compare_eq str (i q) 4 (lit "null")) eqn:E1.
  { apply within_returns. rewrite i_set_i.
    apply (compare_eq_bound _ _ _ E1); [reflexivity|lia]. }
  destruct (compare_eq str (i q) 4 (lit "true")) eqn:E2.
  { apply within_returns. rewrite i_set_i.
    apply (compare_eq_bound _ _ _ E2); [reflexivity|lia]. }
  destruct (compare_eq str (i q) 5 (lit "false")) eqn:E3.
  { apply within_returns. rewrite i_set_i.
    apply (compare_eq_bound _ _ _ E3); [reflexivity|lia]. }
  destruct (Libc.isdigit (char_at str (i q)) || Ascii.eqb (char_at str (i q)) "-");
    unfold parse_number, parse_unquoted_string; apply within_returns;
    rewrite i_set_i; apply scan_while_bound, Hw.
Qed.

Lemma row_loop_bound keys : forall obj p,
  (i p <= length str)%nat -> within_text str (row_loop str pv keys obj p).
Proof.
  induction keys as [|key keys IH]; intros obj p Hp; cbn [row_loop].
  - apply within_returns, Hp.
  - assert (Hw := consume_whitespace_bound p Hp).
    set (q := consume_whitespace str p) in *.
    destruct ((i q =? size str)%nat || is_newline (char_at str (i q)));
      [apply within_returns, Hw|].
    apply within_bind; [apply Hpv, Hw|]. intros val q1 Hq1.
    destruct (failed q1); [apply within_returns, Hq1|].
    apply IH.
    assert (Hw1 := consume_whitespace_bound q1 Hq1).
    set (q2 := consume_whitespace str q1) in *.
    destruct (negb match keys with [] => true | _ :: _ => false end
              && (i q2 <? size str)%nat) eqn:E; cbn [andb]; [|exact Hw1].
    apply andb_true_iff in E. destruct E as [_ E]. apply Nat.ltb_lt in E.
    destruct (Ascii.eqb (char_at str (i q2)) ","); [|exact Hw1].
    rewrite i_set_i. exact E.
Qed.

Lemma rows_loop_bound n : forall parent_indent keys arr p,
  (i p <= length str)%nat ->
  within_text str (rows_loop str pv n parent_indent keys arr p).
Proof.
  induction n as [|n IH]; intros parent_indent keys arr p Hp;
    cbn [rows_loop]; [apply within_stuck; discriminate|].
  destruct (i p <? size str)%nat; [|apply within_returns, Hp].
  assert (Hg := consume_garbage_bound p Hp).
  set (q := consume_garbage str p) in *.
  destruct (i q =? size str)%nat; [apply within_returns, Hg|].
  destruct (negb (parent_indent =? -1) && (get_indent str q <=? parent_indent));
    [apply within_returns; rewrite i_set_i; exact Hg|].
  apply within_bind; [apply row_loop_bound, Hg|].
  intros [w|[obj row_failed]] q1 Hq1; [apply within_returns, Hq1|].
  destruct (negb row_failed); [apply IH, Hq1|apply within_returns, Hq1].
Qed.

Lemma elements_loop_bound n : forall count k arr p,
  (i p <= length str)%nat ->
  within_text str (elements_loop str pv n count k arr p).
Proof.
  induction n as [|n IH]; intros count k arr p Hp;
    cbn [elements_loop]; [apply within_stuck; discriminate|].
  destruct ((count <? 0) || (k <? count)); [|apply within_returns, Hp].
  assert (Hg := consume_garbage_bound p Hp).
  set (q := consume_garbage str p) in *.
  destruct (i q =? size str)%nat; [apply within_returns, Hg|].
  apply within_bind; [apply Hpv, Hg|]. intros v q1 Hq1.
  assert (Hw := consume_whitespace_bound q1 Hq1).
  set (q2 := consume_whitespace str q1) in *.
  destruct (i q2 <? size str)%nat eqn:E; cbn [andb].
  - apply Nat.ltb_lt in E. unfold size in E.
    destruct (Ascii.eqb (char_at str (i q2)) ",").
    + apply IH. rewrite i_set_i. exact E.
    + destruct (count <? 0); [apply within_returns, Hw|apply IH, Hw].
  - destruct (count <? 0); [apply within_returns, Hw|apply IH, Hw].
Qed.

Lemma parse_array_body_bound n parent_indent p :
  (i p < length str)%nat ->
  within_text str (parse_array_body str pv n parent_indent p).
Proof.
  intros Hp. unfold parse_array_body.
  destruct (parse_array_header str (i p)) as [[[[tabular keys] count] j]|]
    eqn:Eh; [|apply within_stuck; discriminate].
  pose proof (parse_array_header_bound _ _ _ _ _ Hp Eh) as Hj.
  destruct tabular.
  - apply rows_loop_bound. rewrite i_set_i. exact Hj.
  - apply elements_loop_bound. rewrite i_set_i. exact Hj.
Qed.

Lemma entries_loop_bound n : forall parent_indent obj p,
  (i p <= length str)%nat ->
  within_text str (entries_loop str pv pa po n parent_indent obj p).
Proof.
  induction n as [|n IH]; intros parent_indent obj p Hp;
    cbn [entries_loop]; [apply within_stuck; discriminate|].
  destruct (i p <? size str)%nat; [|apply within_returns, Hp].
  assert (Hg := consume_garbage_bound p Hp).
  set (q := consume_garbage str p) in *.
  destruct ((get_indent str q <=? parent_indent)
            && negb match obj with [] => true | _ :: _ => false end);
    [apply within_returns; rewrite i_set_i; exact Hg|].
  pose proof (scan_while_bound (fun c => negb (Ascii.eqb c ":")) (i q) Hg)
    as Hj.
  set (j := scan_while str _ (i q)) in *.
  rewrite !i_set_i.
  destruct (j =? size str)%nat eqn:Es;
    [apply within_returns; rewrite i_set_i; exact Hj|].
  apply Nat.eqb_neq in Es. unfold size in Es.
  assert (H1 : (i (set_i (set_i q j) (S j)) <= length str)%nat)
    by (rewrite i_set_i; lia).
  assert (Hw := consume_whitespace_bound _ H1).
  set (q2 := consume_whitespace str (set_i (set_i q j) (S j))) in *.
  apply within_bind; [|intros v q3 Hq3; apply IH, Hq3].
  destruct ((i q2 <? size str)%nat && is_newline (char_at str (i q2))) eqn:En.
  - apply andb_true_iff in En. destruct En as [En _].
    apply Nat.ltb_lt in En. unfold size in En. cbv zeta.
    assert (H2 : (i (set_i q2 (S (i q2))) <= length str)%nat)
      by (rewrite i_set_i; exact En).
    assert (Hg2 := consume_garbage_bound _ H2).
    set (q4 := consume_garbage str (set_i q2 (S (i q2)))) in *.
    destruct (Ascii.eqb (char_at str (i q4)) "[") eqn:Eb.
    + apply Hpa. apply (eqb_inside _ _ Eb). discriminate.
    + apply Hpo, Hg2.
  - destruct (Ascii.eqb (char_at str (i q2)) "[") eqn:Eb.
    + apply Hpa. apply (eqb_inside _ _ Eb). discriminate.
    + apply Hpv, Hw.
Qed.

End BodiesBound.

Lemma parse_value_array_bound n :
  (forall p, (i p <= length str)%nat -> within_text str (parse_value str n p))
  /\ (forall x p, (i p < length str)%nat ->
                  within_text str (parse_array str n x p)).
Proof.
  induction n as [|n [IHv IHa]]; split; intros; cbn [parse_value parse_array];
    try (apply within_stuck; discriminate).
  - apply parse_value_body_bound; assumption.
  - apply parse_array_body_bound; assumption.
Qed.

Lemma parse_object_bound n : forall x p,
  (i p <= length str)%nat -> within_text str (parse_object str n x p).
Proof.
  induction n as [|n IH]; intros x p Hp; cbn [parse_object];
    [apply within_stuck; discriminate|].
  unfold parse_object_body. apply entries_loop_bound; auto;
    intros; apply parse_value_array_bound; assumption.
Qed.

End Bound.

(** Whatever the text, when [Toon::parse] returns, the offset of the decoder
    is at a byte of the text or at its end: the decoder never moves past
    the end of its input.  The same holds of every call of [parse_value],
    [parse_array] and [parse_object] on the way. *)
Theorem offset_within_text (input : list ascii) (fuel : nat)
    (err0 : list ascii) (v : Toon) (p : ToonParser) :
  parse fuel input err0 = Returns v p -> (i p <= length input)%nat.
Proof.
  revert v p. change (within_text input (parse fuel input err0)).
  unfold parse.
  assert (Hg := consume_garbage_bound input (mkParser 0 err0 false)
                  (Nat.le_0_l _)).
  set (q := consume_garbage input (mkParser 0 err0 false)) in *.
  destruct (i q =? length input)%nat; [apply within_returns, Hg|].
  destruct (Ascii.eqb (char_at input (i q)) "[");
    [apply parse_value_array_bound, Hg|].
  destruct (str_contains input ":");
    [apply parse_object_bound, Hg|apply parse_value_array_bound, Hg].
Qed.

Lemma offset_within_text_witness :
  parse 5 (lit "k: " ++ ["034"%char; "\"%char]) []
  = Returns (ToonObject [(lit "k", ToonNull)])
      (mkParser 5 (lit "unfinished escape") true)
  /\ (i (mkParser 5 (lit "unfinished escape") true)
      <= length (lit "k: " ++ ["034"%char; "\"%char]))%nat.
Proof.
  split; [reflexivity|].
  apply (offset_within_text (lit "k: " ++ ["034"%char; "\"%char]) 5 []
           (ToonObject [(lit "k", ToonNull)])
           (mkParser 5 (lit "unfinished escape") true)).
  reflexivity.
Defined.

(** * The round trip of readable documents *)

(** ** Round trip: numbers, and arrays in arrays *)

Lemma float_same_eq x y : float_same x y = true -> x = y.
Proof.
  destruct x as [a|a| |a m e], y as [b|b| |b n f]; try discriminate;
    cbn [float_same]; intros H.
  - apply Bool.eqb_prop in H. subst. reflexivity.
  - apply Bool.eqb_prop in H. subst. reflexivity.
  - reflexivity.
  - apply andb_true_iff in H. destruct H as [H He].
    apply andb_true_iff in H. destruct H as [Hs Hm].
    apply Bool.eqb_prop in Hs. apply Pos.eqb_eq in Hm. apply Z.eqb_eq in He.
    subst. reflexivity.
Qed.

Lemma number_start_facts c :
  Libc.isdigit c || Ascii.eqb c "-" = true ->
  is_blank c = false /\ is_newline c = false /\ Ascii.eqb c "#" = false
  /\ Ascii.eqb c "," = false /\ Ascii.eqb c "034" = false
  /\ Ascii.eqb c "[" = false /\ Ascii.eqb c "n" = false
  /\ Ascii.eqb c "t" = false /\ Ascii.eqb c "f" = false.
Proof.
  intros H.
  destruct c as [[] [] [] [] [] [] [] []]; vm_compute in H;
    try discriminate H; repeat split; reflexivity.
Qed.

(** [parse_value] at a text that [parse_number] takes whole *)
Lemma parse_value_number_at str m p text suf :
  left_at str (i p) (text ++ suf) -> value_end suf ->
  forallb is_number_char text = true ->
  (exists c t, text = c :: t /\ Libc.isdigit c || Ascii.eqb c "-" = true) ->
  parse_value str (S m) p
  = Returns (ToonDouble (fst (Libc.strtod (Libc.c_str text))))
      (set_i p (i p + length text)).
Proof.
  intros H Hsuf Hnum [c [t [Ec Hdm]]].
  destruct (number_start_facts c Hdm)
    as [Hb [_ [_ [_ [Hq [Hbr [Hn [Htt Hf]]]]]]]].
  cbn [parse_value]. unfold parse_value_body.
  rewrite (consume_whitespace_at str p [] (text ++ suf) H eq_refl)
    by (rewrite Ec; exact Hb).
  cbn [length]. rewrite Nat.add_0_r, set_i_same.
  assert (Hc := H). rewrite Ec in Hc. cbn [app] in Hc.
  destruct (left_at_char _ _ _ _ Hc) as [Hch [_ Hsz]].
  rewrite Hsz, Hch, Hq, Hbr.
  destruct (left_at_split _ _ _ Hc) as [pre [Estr Epre]].
  rewrite Estr, <- Epre, !compare_eq_app.
  cbn [firstn lit list_ascii_of_string].
  rewrite !str_eqb_head by assumption.
  rewrite Hdm. rewrite Epre, <- Estr.
  unfold parse_number.
  rewrite (scan_while_at str is_number_char (i p) text suf H Hnum)
    by (apply value_end_number; exact Hsuf).
  replace (i p + length text - i p)%nat with (length text) by lia.
  rewrite (substr_at str (i p) text suf H). reflexivity.
Qed.

Lemma print_int_start n :
  exists c t, Libc.print_int n = c :: t
              /\ Libc.isdigit c || Ascii.eqb c "-" = true.
Proof.
  destruct (print_int_text n) as [digits [Hne [Hd [_ ->]]]].
  destruct (n <? 0); [eexists _, _; split; reflexivity|].
  destruct digits as [|d ds]; [contradiction|].
  cbn [forallb] in Hd. apply andb_true_iff in Hd. destruct Hd as [Hd0 _].
  exists d, ds. rewrite Hd0. split; reflexivity.
Qed.

(** the [%.17g] text of a finite [double] begins with a digit or a minus
    sign *)
Lemma print_g17_start d :
  isfinite d = true ->
  exists c t, Printf.print_g17 d = c :: t
              /\ Libc.isdigit c || Ascii.eqb c "-" = true.
Proof.
  destruct d as [s|s| |s m e]; try discriminate; intros _.
  - destruct s; eexists _, _; split; reflexivity.
  - unfold Printf.print_g17.
    destruct (Printf.decimal17 (Zpos m) e) as [d17 x].
    destruct (print_int_start d17) as [c [t [-> Hc]]].
    destruct s; [eexists _, _; split; reflexivity|].
    cbn [app].
    destruct ((x <? -4) || (17 <=? x)).
    + cbn [firstn app]. eexists _, _. split; [reflexivity|exact Hc].
    + destruct (0 <=? x) eqn:Ex.
      * apply Z.leb_le in Ex.
        replace (Z.to_nat (x + 1)) with (S (Z.to_nat x)) by lia.
        cbn [firstn app]. eexists _, _. split; [reflexivity|exact Hc].
      * eexists _, _. split; reflexivity.
Qed.

Lemma follows_value_end follow : follows_ok follow -> value_end follow.
Proof.
  intros [H|[c [t [-> _]]]]; [apply line_end_value_end, H|reflexivity].
Qed.

Lemma reads_exact v :
  (forall str m p level follow,
     left_at str (i p) (dump v level ++ follow) -> value_end follow ->
     parse_value str (S m) p
     = Returns v (set_i p (i p + length (dump v level)))) ->
  reads v.
Proof.
  intros H str m p level follow _ Hl Hf.
  exists (i p + length (dump v level))%nat, follow.
  split; [apply (H str m p level follow Hl), follows_value_end, Hf|].
  split; [apply left_at_advance, Hl|left; reflexivity].
Qed.

Lemma reads_scalar v : scalar v = true -> reads v.
Proof.
  intros Hv. apply reads_exact. intros str m p level follow Hl Hf.
  apply (parse_value_scalar_at str m p v level follow Hv Hl Hf).
Qed.

Lemma reads_double d : double_ok d = true -> reads (ToonDouble d).
Proof.
  intros Hd. unfold double_ok in Hd.
  apply andb_true_iff in Hd. destruct Hd as [Hd Hsame].
  apply andb_true_iff in Hd. destruct Hd as [Hfin Hnum].
  apply float_same_eq in Hsame.
  apply reads_exact. intros str m p level follow Hl Hf.
  cbn [dump] in *. unfold dump_double in *. rewrite Hfin in *.
  rewrite (parse_value_number_at str m p (Printf.print_g17 d) follow Hl Hf
             Hnum (print_g17_start d Hfin)).
  rewrite Hsame. reflexivity.
Qed.

Lemma inline_array a :
  inline (ToonArray a)
  = (Z.of_nat (length a) <=? Libc.INT_MAX) && forallb inline a.
Proof. reflexivity. Qed.

Lemma inline_first_char v level :
  inline v = true ->
  exists c t, dump v level = c :: t /\ is_blank c = false
    /\ is_newline c = false /\ Ascii.eqb c "#" = false
    /\ Ascii.eqb c "," = false.
Proof.
  intros Hv. destruct v as [|d|n|b|s|a|o]; try discriminate Hv.
  - exists "n"%char, (lit "ull"). repeat split.
  - cbn [inline] in Hv. unfold double_ok in Hv.
    apply andb_true_iff in Hv. destruct Hv as [Hv _].
    apply andb_true_iff in Hv. destruct Hv as [Hfin _].
    cbn [dump]. unfold dump_double. rewrite Hfin.
    destruct (print_g17_start d Hfin) as [c [t [E Hc]]].
    destruct (number_start_facts c Hc) as [? [? [? [? _]]]].
    exists c, t. repeat split; assumption.
  - destruct b.
    + exists "t"%char, (lit "rue"). repeat split.
    + exists "f"%char, (lit "alse"). repeat split.
  - cbn [dump]. unfold dump_string. cbn [inline] in Hv.
    unfold safe_string, plain_string, quoted_string in Hv.
    destruct (needs_quoting s) eqn:Enq; cbn [negb andb orb] in Hv |- *.
    + eexists _, _. repeat split.
    + destruct (needs_quoting_false _ Enq) as [Hne Hplain].
      destruct s as [|c0 r]; [contradiction|].
      repeat (apply andb_true_iff in Hv; destruct Hv as [Hv ?]).
      cbn [forallb] in Hplain. apply andb_true_iff in Hplain.
      destruct Hplain as [Hc0 _].
      destruct (not_special_chars c0 Hc0) as [? [? [? [? _]]]].
      exists c0, r. repeat split; auto.
      apply negb_true_iff. assumption.
  - cbn [dump]. unfold dump_array. destruct a as [|v a].
    + eexists _, _. repeat split.
    + destruct (all_objects (v :: a)
                && negb match tabular_keys (v :: a) with
                        | [] => true
                        | _ :: _ => false
                        end); eexists _, _; repeat split.
Qed.

Lemma inline_array_verbose a level :
  inline (ToonArray a) = true ->
  dump (ToonArray a) level
  = "["%char :: Libc.print_int (Z.of_nat (length a))
    ++ "]"%char :: ":"%char
       :: match a with
          | [] => []
          | _ => " "%char :: dump_elements dump a level
          end.
Proof.
  rewrite inline_array. intros Ha. apply andb_true_iff in Ha.
  destruct Ha as [_ Ha].
  cbn [dump]. unfold dump_array. destruct a as [|v a]; [reflexivity|].
  replace (all_objects (v :: a)) with false.
  - reflexivity.
  - cbn [forallb] in Ha. apply andb_true_iff in Ha. destruct Ha as [Hv _].
    destruct v; try discriminate Hv; reflexivity.
Qed.

Lemma dump_elements_level a l l' :
  Forall (fun x => dump x l = dump x l') a ->
  dump_elements dump a l = dump_elements dump a l'.
Proof.
  induction 1 as [|x a Hx _ IH]; [reflexivity|].
  rewrite !dump_elements_cons, Hx, IH. reflexivity.
Qed.

Lemma inline_level v : forall l l', inline v = true -> dump v l = dump v l'.
Proof.
  induction v as [|d|n|b|s|a IH|o IH] using Toon_induction; intros l l' Hv;
    try discriminate Hv; try reflexivity.
  rewrite !(inline_array_verbose a _ Hv).
  rewrite inline_array in Hv. apply andb_true_iff in Hv.
  destruct Hv as [_ Hv].
  destruct a as [|v a]; [reflexivity|].
  rewrite (dump_elements_level (v :: a) l l'); [reflexivity|].
  apply Forall_forall. intros x Hx. rewrite Forall_forall in IH.
  apply (IH x Hx). rewrite forallb_forall in Hv. apply Hv, Hx.
Qed.

(** what the element loop and the row loop do after a value: they skip the
    blanks and take a comma *)
Lemma after_value str q follow r :
  left_at str (i q) r -> sep follow r ->
  (line_end follow -> r = follow)
  /\ (forall c t,
        follow = ","%char :: " "%char :: c :: t ->
        is_blank c = false -> Ascii.eqb c "," = false ->
        let j := i (consume_whitespace str q) in
        ((j <? size str)%nat = true
         /\ Ascii.eqb (char_at str j) "," = true
         /\ left_at str (S j) (" "%char :: c :: t))
        \/ (((j <? size str)%nat && Ascii.eqb (char_at str j) ",") = false
            /\ left_at str j (c :: t))).
Proof.
  intros H Hsep. split.
  - intros Hle. destruct Hsep as [->|[more [-> _]]]; [reflexivity|].
    discriminate Hle.
  - intros c t E Hb Hc. cbv zeta.
    assert (Hmore : forall k, left_at str k (c :: t) ->
              ((k <? size str)%nat && Ascii.eqb (char_at str k) ",") = false).
    { intros k Hk. destruct (left_at_char _ _ _ _ Hk) as [-> _].
      rewrite Hc. apply andb_false_r. }
    destruct Hsep as [->|[more [E' [->| ->]]]].
    + (* before the comma *)
      left. rewrite E in H.
      rewrite (consume_whitespace_at str q [] _ H eq_refl) by reflexivity.
      cbn [length]. rewrite Nat.add_0_r, set_i_same.
      destruct (left_at_char _ _ _ _ H) as [Hch [Hlt _]].
      rewrite Hlt, Hch. split; [reflexivity|]. split; [reflexivity|].
      replace (S (i q)) with (i q + length [","%char])%nat
        by (cbn [length]; lia).
      apply (left_at_advance str (i q) [","%char] _ H).
    + (* after the comma *)
      right. rewrite E in E'. injection E' as <-.
      rewrite (consume_whitespace_at str q [" "%char] (c :: t) H eq_refl)
        by exact Hb.
      rewrite i_set_i.
      assert (H1 := left_at_advance str (i q) [" "%char] _ H).
      split; [apply Hmore, H1|exact H1].
    + (* after the comma and the space *)
      right. rewrite E in E'. injection E' as <-.
      rewrite (consume_whitespace_at str q [] (c :: t) H eq_refl)
        by exact Hb.
      cbn [length]. rewrite Nat.add_0_r, set_i_same.
      split; [apply Hmore, H|exact H].
Qed.

Lemma blanks_gap g : forallb is_blank g = true -> forallb is_gap g = true.
Proof.
  intros H. rewrite forallb_forall in *. intros c Hc. unfold is_gap.
  rewrite (H c Hc). reflexivity.
Qed.

Lemma line_end_stops suf : line_end suf -> stops is_blank suf.
Proof. destruct suf as [|c r]; [auto|]. cbn. intros ->. reflexivity. Qed.

Lemma line_end_no_comma str k suf :
  left_at str k suf -> line_end suf ->
  ((k <? size str)%nat && Ascii.eqb (char_at str k) ",") = false.
Proof.
  intros H Hle. destruct suf as [|c r].
  - rewrite (left_at_nil_ltb _ _ H). reflexivity.
  - destruct (left_at_char _ _ _ _ H) as [-> _]. cbn in Hle. subst c.
    apply andb_false_r.
Qed.

Lemma elements_follow rest level suf :
  forallb inline rest = true -> follows_ok suf ->
  follows_ok (match rest with
              | [] => []
              | _ :: _ =>
                  ","%char :: " "%char :: dump_elements dump rest level
              end ++ suf).
Proof.
  intros Hin Hsuf. destruct rest as [|y rest]; [exact Hsuf|].
  cbn [forallb] in Hin. apply andb_true_iff in Hin. destruct Hin as [Hy _].
  destruct (inline_first_char y level Hy) as [c [t [Ec [Hb [_ [_ Hc]]]]]].
  right. rewrite dump_elements_cons, Ec. cbn [app].
  eexists c, _. split; [reflexivity|]. split; assumption.
Qed.

(** the element loop over inline values *)
Lemma elements_loop_inline str f level suf (Hsuf : follows_ok suf) :
  forall todo arr n count k p r,
    Forall reads todo -> forallb inline todo = true ->
    Forall (fun x => (fuel_need x <= S f)%nat) todo ->
    left_at str (i p) r ->
    match todo with
    | [] => sep suf r
    | _ => exists g, forallb is_blank g = true
                     /\ r = g ++ dump_elements dump todo level ++ suf
    end ->
    count = k + Z.of_nat (length todo) -> 0 <= k ->
    (length todo < n)%nat ->
    exists j r',
      elements_loop str (parse_value str (S f)) n count k arr p
      = Returns (ToonArray (arr ++ todo)) (set_i p j)
      /\ left_at str j r' /\ sep suf r'.
Proof.
  induction todo as [|x rest IH];
    intros arr n count k p r Hr Hin Hfu H Hhead Hcount Hk Hn.
  - destruct n as [|n]; [cbn [length] in Hn; lia|]. cbn [elements_loop].
    replace ((count <? 0) || (k <? count)) with false
      by (symmetry; apply orb_false_iff; split; apply Z.ltb_ge;
          cbn [length] in Hcount; lia).
    exists (i p), r. rewrite set_i_same, app_nil_r. auto.
  - destruct Hhead as [g [Hg ->]].
    apply Forall_cons_iff in Hr. destruct Hr as [Hx Hrest].
    apply Forall_cons_iff in Hfu. destruct Hfu as [Hfx Hfrest].
    cbn [forallb] in Hin. apply andb_true_iff in Hin.
    destruct Hin as [Hix Hirest].
    cbn [length] in Hcount, Hn. subst count.
    destruct n as [|n]; [lia|]. cbn [elements_loop].
    replace ((k + Z.of_nat (S (length rest)) <? 0)
             || (k <? k + Z.of_nat (S (length rest)))) with true
      by (symmetry; apply orb_true_iff; right; apply Z.ltb_lt; lia).
    rewrite dump_elements_cons in H. rewrite <- app_assoc in H.
    destruct (inline_first_char x level Hix) as [c [t [Ec [Hb [Hnl [Hh _]]]]]].
    (* the blanks before the element *)
    rewrite (consume_garbage_at str p g _ H (blanks_gap g Hg))
      by (rewrite Ec; cbn [app token_start]; repeat split; auto;
          apply Ascii.eqb_neq; assumption).
    assert (H1 := left_at_advance str (i p) g _ H).
    norm_state.
    assert (H1c := H1). rewrite Ec in H1c. cbn [app] in H1c.
    destruct (left_at_char _ _ _ _ H1c) as [_ [_ Hsz]]. rewrite Hsz.
    clear H1c Hsz.
    (* the element *)
    set (follow := match rest with
                   | [] => []
                   | _ :: _ =>
                       ","%char :: " "%char :: dump_elements dump rest level
                   end ++ suf) in *.
    assert (Hfollow : follows_ok follow)
      by (apply elements_follow; assumption).
    destruct (Hx str f (set_i p (i p + length g)) level follow Hfx H1 Hfollow)
      as [k1 [r1 [E1 [Hl1 Hsep1]]]].
    rewrite E1. cbn [bind]. norm_state.
    (* the elements left, wherever the decoder stands *)
    assert (Hgo : forall q r2,
              left_at str (i q) r2 ->
              (line_end follow /\ r2 = follow
               \/ exists c' t', follow = ","%char :: " "%char :: c' :: t'
                    /\ (r2 = " "%char :: c' :: t' \/ r2 = c' :: t')) ->
              exists j r',
                elements_loop str (parse_value str (S f)) n
                  (k + Z.of_nat (S (length rest))) (k + 1) (arr ++ [x]) q
                = Returns (ToonArray (arr ++ x :: rest)) (set_i q j)
                  /\ left_at str j r' /\ sep suf r').
    { intros q r2 Hq Hcase.
      destruct (IH (arr ++ [x]) n (k + Z.of_nat (S (length rest))) (k + 1)
                  q r2 Hrest Hirest Hfrest Hq) as [j [r' [E [Hl Hs]]]];
        try lia.
      - subst follow. destruct rest as [|y rest'].
        + cbn [app] in Hcase.
          destruct Hcase as [[_ ->]|[c' [t' [Ef Hr2]]]]; [left; reflexivity|].
          right. exists (c' :: t'). split; assumption.
        + cbn [app] in Hcase.
          destruct Hcase as [[Hle _]|[c' [t' [Ef [->| ->]]]]].
          * discriminate Hle.
          * injection Ef as Ef. exists [" "%char].
            split; [reflexivity|]. cbn [app]. f_equal. symmetry. exact Ef.
          * injection Ef as Ef. exists [].
            split; [reflexivity|]. symmetry. exact Ef.
      - exists j, r'. rewrite <- app_assoc in E. cbn [app] in E. auto. }
    assert (Hl1' : left_at str (i (set_i p k1)) r1) by exact Hl1.
    destruct (after_value str (set_i p k1) follow r1 Hl1' Hsep1)
      as [Hend Hcomma].
    destruct Hfollow as [Hle|[c' [t' [Ef [Hb' Hc']]]]].
    + (* the end of the line *)
      rewrite (Hend Hle) in Hl1'.
      rewrite (consume_whitespace_at str (set_i p k1) [] follow Hl1' eq_refl)
        by (apply line_end_stops, Hle).
      cbn [length]. norm_state. rewrite Nat.add_0_r.
      rewrite (line_end_no_comma str k1 follow Hl1' Hle).
      replace (k + Z.of_nat (S (length rest)) <? 0) with false
        by (symmetry; apply Z.ltb_ge; lia).
      destruct (Hgo (set_i p k1) follow Hl1') as [j [r' [E [Hl Hs]]]];
        [left; auto|].
      exists j, r'. rewrite E. auto.
    + destruct (Hcomma c' t' Ef Hb' Hc') as [[Hlt [Hch Hl2]]|[Hno Hl2]].
      * (* the comma *)
        rewrite Hlt, Hch. cbn [andb].
        destruct (Hgo (set_i (consume_whitespace str (set_i p k1))
                         (S (i (consume_whitespace str (set_i p k1)))))
                    (" "%char :: c' :: t') Hl2) as [j [r' [E [Hl Hs]]]];
          [right; exists c', t'; auto|].
        exists j, r'. rewrite E. auto.
      * rewrite Hno.
        replace (k + Z.of_nat (S (length rest)) <? 0) with false
          by (symmetry; apply Z.ltb_ge; lia).
        destruct (Hgo (consume_whitespace str (set_i p k1)) (c' :: t') Hl2)
          as [j [r' [E [Hl Hs]]]]; [right; exists c', t'; auto|].
        exists j, r'. rewrite E. auto.
Qed.

Lemma fuel_need_array a :
  fuel_need (ToonArray a)
  = (length a + 3 + list_sum (map fuel_need a))%nat.
Proof.
  transitivity
    (length a + 3
     + (fix total (l : array) : nat :=
          match l with
          | [] => O
          | x :: r => fuel_need x + total r
          end) a)%nat; [reflexivity|].
  f_equal. induction a as [|x a IH]; [reflexivity|].
  change (list_sum (map fuel_need (x :: a)))
    with (fuel_need x + list_sum (map fuel_need a))%nat.
  rewrite <- IH. reflexivity.
Qed.

Lemma fuel_need_object o :
  fuel_need (ToonObject o)
  = (length o + 3 + list_sum (map (fun kv => fuel_need (snd kv)) o))%nat.
Proof.
  transitivity
    (length o + 3
     + (fix total (l : object) : nat :=
          match l with
          | [] => O
          | kv :: r => fuel_need (snd kv) + total r
          end) o)%nat; [reflexivity|].
  f_equal. induction o as [|x o IH]; [reflexivity|].
  change (list_sum (map (fun kv => fuel_need (snd kv)) (x :: o)))
    with (fuel_need (snd x)
          + list_sum (map (fun kv => fuel_need (snd kv)) o))%nat.
  rewrite <- IH. reflexivity.
Qed.

Lemma list_sum_In {A} (g : A -> nat) x l :
  In x l -> (g x <= list_sum (map g l))%nat.
Proof.
  induction l as [|y l IH]; [contradiction|].
  change (list_sum (map g (y :: l))) with (g y + list_sum (map g l))%nat.
  intros [->|H]; [lia|]. specialize (IH H). lia.
Qed.

(** [parse_array] at an array of inline values *)
Lemma parse_array_inline_at a str fuel x p level follow :
  inline (ToonArray a) = true -> Forall reads a ->
  (fuel_need (ToonArray a) <= S fuel)%nat ->
  left_at str (i p) (dump (ToonArray a) level ++ follow) ->
  follows_ok follow ->
  exists j r,
    parse_array str fuel x p = Returns (ToonArray a) (set_i p j)
    /\ left_at str j r /\ sep follow r.
Proof.
  intros Ha Hr Hfuel H Hf.
  rewrite (inline_array_verbose a level Ha) in H.
  rewrite inline_array in Ha. apply andb_true_iff in Ha.
  destruct Ha as [Hmax Hin]. apply Z.leb_le in Hmax.
  rewrite fuel_need_array in Hfuel.
  destruct fuel as [|[|f]]; [lia|lia|].
  cbn [parse_array]. unfold parse_array_body.
  cbn [app] in H. rewrite <- app_assoc in H. cbn [app] in H.
  rewrite (parse_array_header_at str (i p) (length a) _ H Hmax).
  set (digits := Libc.print_int (Z.of_nat (length a))) in *.
  assert (H1 : left_at str (i p + length digits + 3)
                 (match a with
                  | [] => []
                  | _ => " "%char :: dump_elements dump a level
                  end ++ follow)).
  { replace (i p + length digits + 3)%nat
      with (i p + length ("["%char :: digits ++ ["]"%char; ":"%char]))%nat
      by (cbn [length]; rewrite length_app; cbn [length]; lia).
    apply left_at_advance. cbn [app]. rewrite <- app_assoc. exact H. }
  assert (Hfu : Forall (fun y => (fuel_need y <= S f)%nat) a).
  { apply Forall_forall. intros y Hy.
    pose proof (list_sum_In fuel_need y a Hy). lia. }
  assert (Hhead : match a with
                  | [] =>
                      sep follow
                        (match a with
                         | [] => []
                         | _ => " "%char :: dump_elements dump a level
                         end ++ follow)
                  | _ =>
                      exists g,
                        forallb is_blank g = true
                        /\ match a with
                           | [] => []
                           | _ => " "%char :: dump_elements dump a level
                           end ++ follow
                           = g ++ dump_elements dump a level ++ follow
                  end).
  { destruct a as [|y a]; [left; reflexivity|].
    exists [" "%char]. split; reflexivity. }
  destruct (elements_loop_inline str f level follow Hf a [] (S f)
              (Z.of_nat (length a)) 0
              (set_i p (i p + length digits + 3)) _ Hr Hin Hfu H1 Hhead)
    as [j [r [E [Hl Hs]]]]; try lia.
  exists j, r. rewrite E. auto.
Qed.

Lemma reads_array a :
  inline (ToonArray a) = true -> Forall reads a -> reads (ToonArray a).
Proof.
  intros Ha Hr str m p level follow Hfuel H Hf.
  cbn [parse_value]. unfold parse_value_body.
  assert (Hv := H). rewrite (inline_array_verbose a level Ha) in Hv.
  cbn [app] in Hv.
  rewrite (consume_whitespace_at str p [] _ Hv eq_refl) by reflexivity.
  cbn [length]. rewrite Nat.add_0_r, set_i_same.
  destruct (left_at_char _ _ _ _ Hv) as [-> [_ ->]].
  cbn [Ascii.eqb Bool.eqb].
  apply (parse_array_inline_at a str m (-1) p level follow Ha Hr Hfuel H Hf).
Qed.

(** every inline value is read back *)
Lemma inline_reads v : inline v = true -> reads v.
Proof.
  induction v as [|d|n|b|s|a IH|o IH] using Toon_induction; intros Hv;
    try discriminate Hv.
  - apply reads_scalar. reflexivity.
  - apply reads_double, Hv.
  - apply reads_scalar. reflexivity.
  - apply reads_scalar, Hv.
  - apply reads_array; [exact Hv|].
    rewrite inline_array in Hv. apply andb_true_iff in Hv.
    destruct Hv as [_ Hv]. rewrite forallb_forall in Hv.
    rewrite Forall_forall in *. intros x Hx. apply (IH x Hx), Hv, Hx.
Qed.

(** ** Round trip: tables with inline cells *)

Lemma cells_follow (rest : object) suf :
  forallb (fun kv => inline (snd kv)) rest = true -> line_end suf ->
  follows_ok (match map snd rest with
              | [] => []
              | _ :: _ =>
                  ","%char :: " "%char :: dump_elements dump (map snd rest) 0
              end ++ suf).
Proof.
  intros Hin Hsuf. apply elements_follow; [|left; exact Hsuf].
  rewrite forallb_forall in *. intros x Hx.
  apply in_map_iff in Hx. destruct Hx as [kv [<- Hkv]]. apply Hin, Hkv.
Qed.

(** the row loop over inline cells *)
Lemma row_loop_inline todo : forall str f obj p g suf,
  forallb (fun kv => inline (snd kv)) todo = true ->
  Forall (fun kv => (fuel_need (snd kv) <= S f)%nat) todo ->
  ascending todo = true ->
  (forall kv kv', In kv obj -> In kv' todo ->
                  str_ltb (fst kv) (fst kv') = true) ->
  todo <> [] ->
  forallb is_blank g = true ->
  left_at str (i p) (g ++ cells_text todo ++ suf) ->
  line_end suf -> failed p = false ->
  exists j,
    row_loop str (parse_value str (S f)) (map fst todo) obj p
    = Returns (inr (obj ++ todo, false)) (set_i p j)
    /\ left_at str j suf.
Proof.
  induction todo as [|[k x] rest IH];
    intros str f obj p g suf Hsc Hfu Hasc Hobj Hne Hg H Hsuf Hfl;
    [contradiction|].
  cbn [forallb snd] in Hsc. apply andb_true_iff in Hsc.
  destruct Hsc as [Hx Hrest].
  apply Forall_cons_iff in Hfu. destruct Hfu as [Hfx Hfrest].
  cbn [snd] in Hfx.
  cbn [ascending] in Hasc. apply andb_true_iff in Hasc.
  destruct Hasc as [Hklt Hasc].
  cbn [map fst row_loop]. unfold cells_text in *. cbn [map snd] in *.
  rewrite dump_elements_cons in H. rewrite <- app_assoc in H.
  destruct (inline_first_char x 0 Hx) as [c [t [Ec [Hb [Hnl _]]]]].
  rewrite (consume_whitespace_at str p g _ H Hg)
    by (rewrite Ec; exact Hb).
  assert (H1 := left_at_advance str (i p) g _ H).
  norm_state.
  assert (H1c := H1). rewrite Ec in H1c. cbn [app] in H1c.
  destruct (left_at_char _ _ _ _ H1c) as [Hc [_ Hsz]].
  rewrite Hsz, Hc, Hnl. cbn [orb]. clear H1c Hc Hsz.
  set (follow := match map snd rest with
                 | [] => []
                 | _ :: _ =>
                     ","%char :: " "%char :: dump_elements dump (map snd rest) 0
                 end ++ suf) in *.
  assert (Hfollow : follows_ok follow) by (apply cells_follow; assumption).
  destruct (inline_reads x Hx str f (set_i p (i p + length g)) 0 follow
              Hfx H1 Hfollow) as [k1 [r1 [E1 [Hl1 Hsep1]]]].
  rewrite E1. cbn [bind]. norm_state. rewrite failed_set_i, Hfl.
  rewrite map_assign_last.
  2:{ apply forallb_forall. intros kv Hin.
      apply (Hobj kv (k, x) Hin). left. reflexivity. }
  assert (Hl1' : left_at str (i (set_i p k1)) r1) by exact Hl1.
  destruct (after_value str (set_i p k1) follow r1 Hl1' Hsep1)
    as [Hend Hcomma].
  destruct rest as [|[k' x'] rest].
  - (* the last cell *)
    cbn [map app] in follow. subst follow.
    rewrite (Hend Hsuf) in Hl1'.
    rewrite (consume_whitespace_at str (set_i p k1) [] suf Hl1' eq_refl)
      by (apply line_end_stops, Hsuf).
    cbn [length negb andb map row_loop]. norm_state. rewrite Nat.add_0_r.
    exists k1. split; [reflexivity|exact Hl1'].
  - (* a comma, and the cells left *)
    destruct Hfollow as [Hle|[c' [t' [Ef [Hb' Hc']]]]];
      [discriminate Hle|].
    change (match map fst ((k', x') :: rest) with
            | [] => true
            | _ :: _ => false
            end) with false.
    cbn [negb andb].
    assert (Hgo : forall q g',
              failed q = false -> forallb is_blank g' = true ->
              left_at str (i q) (g' ++ c' :: t') ->
              exists j,
                row_loop str (parse_value str (S f))
                  (map fst ((k', x') :: rest)) (obj ++ [(k, x)]) q
                = Returns (inr (obj ++ (k, x) :: (k', x') :: rest, false))
                    (set_i q j)
                /\ left_at str j suf).
    { intros q g' Hq Hg' Hlq.
      destruct (IH str f (obj ++ [(k, x)]) q g' suf Hrest Hfrest Hasc)
        as [j [E Hj]]; auto.
      - intros kv kv' Hin Hin'. apply in_app_or in Hin.
        destruct Hin as [Hin|Hin].
        + apply Hobj; [exact Hin|right; exact Hin'].
        + destruct Hin as [<-|[]]. cbn [fst].
          rewrite forallb_forall in Hklt. apply Hklt, Hin'.
      - discriminate.
      - subst follow. cbn [map app] in Ef. injection Ef as Ef.
        assert (Ef' : dump_elements dump (map snd ((k', x') :: rest)) 0 ++ suf
                      = c' :: t') by exact Ef.
        rewrite Ef'. exact Hlq.
      - exists j. rewrite <- app_assoc in E. auto. }
    destruct (Hcomma c' t' Ef Hb' Hc') as [[Hlt [Hch Hl2]]|[Hno Hl2]].
    + rewrite Hlt, Hch. cbn [andb].
      destruct (Hgo (set_i (consume_whitespace str (set_i p k1))
                       (S (i (consume_whitespace str (set_i p k1)))))
                  [" "%char] Hfl eq_refl Hl2) as [j [E Hj]].
      exists j. rewrite E. auto.
    + rewrite Hno.
      destruct (Hgo (consume_whitespace str (set_i p k1)) [] Hfl eq_refl Hl2)
        as [j [E Hj]].
      exists j. rewrite E. auto.
Qed.

Lemma inline_table_rows a :
  inline_table a = true ->
  exists o rest,
    a = ToonObject o :: rest /\ o <> []
    /\ forallb header_key_ok (map fst o) = true
    /\ Forall (inline_row_good (map fst o)) a.
Proof.
  unfold inline_table. destruct a as [|v rest]; [discriminate|].
  destruct v as [| | | | | |o]; try discriminate. intros H.
  repeat (apply andb_true_iff in H; destruct H as [H ?]).
  exists o, rest. split; [reflexivity|]. split; [|split; [assumption|]].
  - destruct o; [discriminate H|discriminate].
  - apply Forall_forall. intros r Hin.
    match goal with
    | Hall : forallb (inline_row _) _ = true |- _ =>
        rewrite forallb_forall in Hall; specialize (Hall r Hin)
    end.
    unfold inline_row in *. destruct r as [| | | | | |o']; try discriminate.
    match goal with
    | Hr : _ && _ = true |- _ =>
        apply andb_true_iff in Hr; destruct Hr as [Hk Hsc]
    end.
    apply keys_eqb_eq in Hk. exists o'. repeat split; auto.
    apply (ascending_keys o o'); auto.
Qed.

Lemma dump_cells_inline_row o : forall level,
  ascending o = true -> forallb (fun kv => inline (snd kv)) o = true ->
  dump_cells dump o (map fst o) level = cells_text o.
Proof.
  induction o as [|[k x] o IH]; intros level Hasc Hsc; [reflexivity|].
  cbn [ascending] in Hasc. apply andb_true_iff in Hasc.
  destruct Hasc as [Hk Hasc].
  cbn [forallb snd] in Hsc. apply andb_true_iff in Hsc. destruct Hsc as [Hx Hsc].
  unfold cells_text in *. cbn [map fst snd dump_cells dump_at dump_elements].
  rewrite str_eqb_refl, (inline_level x level 0 Hx).
  rewrite dump_cells_skip, (IH level Hasc Hsc).
  - destruct o; reflexivity.
  - intros k' Hin. apply in_map_iff in Hin. destruct Hin as [kv [<- Hin]].
    rewrite forallb_forall in Hk. specialize (Hk kv Hin).
    apply str_eqb_neq. intros E. rewrite E, str_ltb_irrefl in Hk.
    discriminate.
Qed.

Lemma dump_inline_rows_text keys L rows :
  Forall (inline_row_good keys) rows ->
  match rows with [] => [] | _ => ["010"%char] end
    ++ dump_rows dump rows keys (Z.of_nat L)
  = rows_text rows (2 * S L).
Proof.
  induction rows as [|r rows IH]; intros H; [reflexivity|].
  apply Forall_cons_iff in H. destruct H as [[o [-> [<- [Hsc Hasc]]]] H].
  cbn [dump_rows app rows_text flat_map object_items].
  fold (rows_text rows (2 * S L)). rewrite <- (IH H).
  replace (Z.of_nat L + 1) with (Z.of_nat (S L)) by lia.
  rewrite indent_nat, (dump_cells_inline_row o _ Hasc Hsc), <- !app_assoc.
  reflexivity.
Qed.

Lemma all_objects_inline_rows keys rows :
  Forall (inline_row_good keys) rows -> all_objects_from keys rows = true.
Proof.
  induction rows as [|r rows IH]; intros H; [reflexivity|].
  apply Forall_cons_iff in H. destruct H as [[o [-> [<- [Hsc Hasc]]]] H].
  cbn [all_objects_from is_object object_items negb orb].
  rewrite length_map, Nat.eqb_refl. cbn [negb].
  replace (has_all_keys (map fst o) o) with true; [apply IH, H|].
  symmetry. apply has_all_keys_spec. auto.
Qed.

Lemma inline_table_dump a L :
  inline_table a = true ->
  dump (ToonArray a) (Z.of_nat L)
  = "["%char :: "{"%char :: dump_header_keys (tabular_keys a)
    ++ "}"%char :: "]"%char :: ":"%char :: rows_text a (2 * S L).
Proof.
  intros Ha. destruct (inline_table_rows a Ha) as [o [rest [-> [Hne [_ Hrows]]]]].
  cbn [dump]. unfold dump_array. cbn [tabular_keys all_objects].
  rewrite <- (dump_inline_rows_text (map fst o) L _ Hrows).
  apply Forall_cons_iff in Hrows. destruct Hrows as [_ Hrest].
  rewrite (all_objects_inline_rows _ _ Hrest).
  destruct o as [|kv o]; [contradiction|].
  change (match map fst (kv :: o) with
          | [] => true
          | _ :: _ => false
          end) with false.
  reflexivity.
Qed.

Lemma fuel_need_cell o kv :
  In kv o -> (fuel_need (snd kv) <= fuel_need (ToonObject o))%nat.
Proof.
  intros H. rewrite fuel_need_object.
  pose proof (list_sum_In (fun kv => fuel_need (snd kv)) kv o H). lia.
Qed.

Lemma fuel_need_entry o kv :
  In kv o ->
  (fuel_need (snd kv) + length o + 3 <= fuel_need (ToonObject o))%nat.
Proof.
  intros H. rewrite fuel_need_object.
  pose proof (list_sum_In (fun kv => fuel_need (snd kv)) kv o H). lia.
Qed.

Lemma fuel_need_pos v : (1 <= fuel_need v)%nat.
Proof.
  destruct v; cbn [fuel_need]; lia.
Qed.

(** the rows of a table with inline cells *)
Lemma rows_loop_inline rows : forall str f n P keys arr p s w,
  Forall (inline_row_good keys) rows -> keys <> [] ->
  Forall (fun r => (fuel_need r <= S f)%nat) rows ->
  left_at str (i p) (rows_text rows w ++ text s) ->
  suffix_ok s P -> P < Z.of_nat w -> failed p = false ->
  (length rows < n)%nat ->
  returns_at str p (ToonArray (arr ++ rows)) s
    (rows_loop str (parse_value str (S f)) n P keys arr p).
Proof.
  induction rows as [|r rest IH];
    intros str f n P keys arr p s w Hrows Hkeys Hfu H Hs HP Hfl Hn;
    (destruct n as [|n]; [cbn [length] in Hn; lia|]); cbn [rows_loop].
  - cbn [rows_text flat_map app] in H. rewrite app_nil_r.
    destruct s as [|m0 tok].
    + rewrite (left_at_nil_ltb _ _ H). exists (i p).
      rewrite set_i_same. repeat split; try apply H. intros C. contradiction.
    + rewrite (left_at_ltb _ _ _ H) by discriminate.
      destruct (suffix_line str p m0 tok P H Hs) as [-> [H1 [Hat [Hind Hsz]]]].
      rewrite i_set_i, Hsz, Hind. destruct Hs as [Hm _].
      replace (negb (P =? -1)) with true
        by (symmetry; apply negb_true_iff, Z.eqb_neq; lia).
      replace (Z.of_nat m0 <=? P) with true by (symmetry; apply Z.leb_le; lia).
      cbn [andb]. norm_state. exists (i p + S m0)%nat.
      repeat split; try apply H1. intros _. exact Hat.
  - apply Forall_cons_iff in Hrows.
    destruct Hrows as [[o [-> [Ek [Hsc Hasc]]]] Hrest].
    apply Forall_cons_iff in Hfu. destruct Hfu as [Hfo Hfrest].
    cbn [rows_text flat_map object_items] in H.
    fold (rows_text rest w) in H.
    rewrite (left_at_ltb _ _ _ H) by discriminate.
    destruct o as [|[k x] o']; [symmetry in Ek; contradiction|].
    assert (Hx : inline x = true)
      by (cbn [forallb snd] in Hsc; apply andb_true_iff in Hsc; tauto).
    destruct (inline_first_char x 0 Hx) as [c [t [Ec [Hb [Hnl [Hh _]]]]]].
    set (o := (k, x) :: o') in *.
    assert (Ecells : exists t', cells_text o = c :: t').
    { unfold cells_text, o. cbn [map snd]. rewrite dump_elements_cons, Ec.
      eexists. reflexivity. }
    destruct Ecells as [t' Ecells].
    set (follow := rows_text rest w ++ text s) in *.
    assert (H0 : left_at str (i p)
                   (text (Line w (cells_text o ++ follow)))).
    { unfold text. cbn [gap after app]. cbn [app] in H.
      rewrite <- !app_assoc in H. exact H. }
    assert (Hok : suffix_ok (Line w (cells_text o ++ follow)) (Z.of_nat w)).
    { cbn [suffix_ok]. split; [lia|]. rewrite Ecells. cbn [app token_start].
      repeat split; auto; try discriminate. apply Ascii.eqb_neq. exact Hh. }
    destruct (suffix_line str p w _ _ H0 Hok) as [-> [H1 [Hat [Hind Hsz]]]].
    rewrite i_set_i, Hsz, Hind.
    replace (Z.of_nat w <=? P) with false by (symmetry; apply Z.leb_gt; lia).
    rewrite andb_false_r.
    rewrite <- Ek.
    destruct (row_loop_inline o str f [] (set_i p (i p + S w)) [] follow)
      as [j [Er Hj]]; rewrite ?i_set_i, ?failed_set_i; auto.
    + apply Forall_forall. intros kv Hkv.
      pose proof (fuel_need_cell o kv Hkv). lia.
    + discriminate.
    + apply rows_text_line_end.
    + rewrite Er. cbn [bind negb app]. norm_state.
      destruct (IH str f n P (map fst o) (arr ++ [ToonObject o])
                  (set_i p j) s w)
        as [q [Eq Hq]]; rewrite ?i_set_i, ?failed_set_i; auto.
      * rewrite Ek. exact Hrest.
      * rewrite Ek. exact Hkeys.
      * cbn [length] in Hn. lia.
      * exists q. rewrite Eq, set_i_set_i, <- app_assoc. auto.
Qed.

Lemma parse_array_inline_table a : forall str fuel P p s L,
  inline_table a = true ->
  left_at str (i p) (dump (ToonArray a) (Z.of_nat L) ++ text s) ->
  suffix_ok s P -> P < Z.of_nat (2 * S L) -> failed p = false ->
  (fuel_need (ToonArray a) <= S fuel)%nat ->
  returns_at str p (ToonArray a) s (parse_array str fuel P p).
Proof.
  intros str fuel P p s L Ha H Hs HP Hfl Hfuel.
  rewrite (inline_table_dump a L Ha) in H.
  destruct (inline_table_rows a Ha) as [o [rest [Ea [Hne [Hok Hrows]]]]].
  assert (Ek : tabular_keys a = map fst o) by (rewrite Ea; reflexivity).
  rewrite Ek in H. cbn [app] in H. rewrite <- app_assoc in H. cbn [app] in H.
  rewrite fuel_need_array in Hfuel.
  destruct fuel as [|[|f]]; [lia|lia|].
  cbn [parse_array]. unfold parse_array_body.
  rewrite (parse_array_header_tabular str (i p) (map fst o) _ H Hok).
  set (j := (i p + length (dump_header_keys (map fst o)) + 5)%nat).
  assert (Hj : left_at str j (rows_text a (2 * S L) ++ text s)).
  { replace j with
      (i p + length ("["%char :: "{"%char :: dump_header_keys (map fst o)
                     ++ ["}"%char; "]"%char; ":"%char]))%nat
      by (cbn [length]; rewrite length_app; cbn [length]; lia).
    apply left_at_advance. cbn [app]. rewrite <- app_assoc. exact H. }
  destruct (rows_loop_inline a str f (S f) P (map fst o) [] (set_i p j) s
              (2 * S L)) as [q [Eq Hq]];
    rewrite ?i_set_i, ?failed_set_i; auto.
  - destruct o; [contradiction|discriminate].
  - apply Forall_forall. intros r Hr.
    pose proof (list_sum_In fuel_need r a Hr). lia.
  - lia.
  - exists q. rewrite Eq, set_i_set_i. auto.
Qed.

(** ** Round trip: objects of readable values *)

Lemma readable_object o :
  readable (ToonObject o)
  = negb (match o with [] => true | _ => false end) && ascending o
    && forallb (fun kv => key_ok (fst kv) && readable (snd kv)) o.
Proof. reflexivity. Qed.

Lemma rest_suffix_readable rest L s P :
  forallb (fun kv => key_ok (fst kv) && readable (snd kv)) rest = true ->
  suffix_ok s P -> P < Z.of_nat (2 * L) ->
  suffix_ok (rest_suffix rest L s) (Z.of_nat (2 * L)).
Proof.
  intros Hrest Hs HP. destruct rest as [|[k x] rest].
  - apply (suffix_ok_le s P); [exact Hs|lia].
  - cbn [rest_suffix suffix_ok]. split; [lia|].
    cbn [forallb fst] in Hrest. apply andb_true_iff in Hrest.
    destruct Hrest as [Hk _]. apply andb_true_iff in Hk. destruct Hk as [Hk _].
    rewrite dump_entries_value. cbn [app]. rewrite <- app_assoc. split.
    + destruct k; discriminate.
    + apply key_ok_token, Hk.
Qed.

Lemma sep_line_end follow r : line_end follow -> sep follow r -> r = follow.
Proof.
  intros Hle [->|[more [-> _]]]; [reflexivity|discriminate Hle].
Qed.

(** an inline value that is not an array does not begin with a bracket *)
Lemma inline_leaf_first x level :
  inline x = true -> (forall a, x <> ToonArray a) ->
  exists c t, dump x level = c :: t /\ is_blank c = false
    /\ is_newline c = false /\ Ascii.eqb c "[" = false.
Proof.
  intros Hx Hna. destruct x as [|d|n|b|s|a|o]; try discriminate Hx.
  - exists "n"%char, (lit "ull"). repeat split.
  - cbn [inline] in Hx. unfold double_ok in Hx.
    apply andb_true_iff in Hx. destruct Hx as [Hx _].
    apply andb_true_iff in Hx. destruct Hx as [Hfin _].
    cbn [dump]. unfold dump_double. rewrite Hfin.
    destruct (print_g17_start d Hfin) as [c [t [E Hc]]].
    destruct (number_start_facts c Hc) as [? [? [_ [_ [_ [? _]]]]]].
    exists c, t. repeat split; assumption.
  - destruct b.
    + exists "t"%char, (lit "rue"). repeat split.
    + exists "f"%char, (lit "alse"). repeat split.
  - destruct (scalar_first_char (ToonString s) level Hx)
      as [c [t [E [? [? [_ ?]]]]]].
    exists c, t. repeat split; assumption.
  - exfalso. apply (Hna a). reflexivity.
Qed.

Lemma entry_value_readable f x str L q s' :
  object_read_back f ->
  readable x = true -> (fuel_need x <= f)%nat ->
  left_at str (i q) (value_text L x ++ text s') ->
  suffix_ok s' (Z.of_nat (2 * L)) -> failed q = false ->
  returns_before str q x s'
    (if (i q <? size str)%nat && is_newline (char_at str (i q)) then
       let p := set_i q (S (i q)) in
       let p := consume_garbage str p in
       if Ascii.eqb (char_at str (i p)) "["
       then parse_array str f (Z.of_nat (2 * L)) p
       else parse_object str f (Z.of_nat (2 * L)) p
     else
       if Ascii.eqb (char_at str (i q)) "["
       then parse_array str f (Z.of_nat (2 * L)) q
       else parse_value str f q).
Proof.
  intros IHf Hx Hf H Hs Hfl.
  assert (Hleaf : inline x = true -> (forall a, x <> ToonArray a) ->
            returns_before str q x s'
              (if (i q <? size str)%nat && is_newline (char_at str (i q)) then
                 let p := set_i q (S (i q)) in
                 let p := consume_garbage str p in
                 if Ascii.eqb (char_at str (i p)) "["
                 then parse_array str f (Z.of_nat (2 * L)) p
                 else parse_object str f (Z.of_nat (2 * L)) p
               else
                 if Ascii.eqb (char_at str (i q)) "["
                 then parse_array str f (Z.of_nat (2 * L)) q
                 else parse_value str f q)).
  { intros Hsc Hna.
    assert (Ev : value_text L x = dump x (Z.of_nat L)).
    { destruct x; try discriminate Hsc; try reflexivity.
      exfalso. apply (Hna m_value). reflexivity. }
    rewrite Ev in H.
    destruct (inline_leaf_first x (Z.of_nat L) Hsc Hna)
      as [c [t [Ec [Hb [Hnl Hbr]]]]].
    assert (Hc := H). rewrite Ec in Hc. cbn [app] in Hc.
    destruct (left_at_char _ _ _ _ Hc) as [-> _].
    rewrite Hnl, andb_false_r, Hbr.
    destruct f as [|m]; [pose proof (fuel_need_pos x); lia|].
    destruct (inline_reads x Hsc str m q (Z.of_nat L) (text s') Hf H)
      as [k1 [r1 [E1 [Hl1 Hsep1]]]]; [left; apply text_line_end|].
    rewrite E1.
    rewrite (sep_line_end _ _ (text_line_end s') Hsep1) in Hl1.
    apply (returns_inline str q x s' _ _ Hl1 Hs). }
  destruct x as [|d| |b|sv|a|o]; try discriminate Hx;
    try (apply Hleaf; [exact Hx|discriminate]).
  - (* an array *)
    cbn [readable] in Hx. cbn [value_text] in H.
    destruct (inline (ToonArray a)) eqn:Efl.
    + assert (Hc := H). rewrite (inline_array_verbose a _ Efl) in Hc.
      cbn [app] in Hc. destruct (left_at_char _ _ _ _ Hc) as [-> _].
      cbn [is_newline Ascii.eqb Bool.eqb andb].
      rewrite andb_false_r.
      assert (Hr : Forall reads a).
      { rewrite inline_array in Efl. apply andb_true_iff in Efl.
        destruct Efl as [_ Hin]. rewrite forallb_forall in Hin.
        apply Forall_forall. intros y Hy. apply inline_reads, Hin, Hy. }
      destruct (parse_array_inline_at a str f (Z.of_nat (2 * L)) q
                  (Z.of_nat (S L)) (text s') Efl Hr)
        as [k1 [r1 [E1 [Hl1 Hsep1]]]];
        [lia|exact H|left; apply text_line_end|].
      rewrite E1.
      rewrite (sep_line_end _ _ (text_line_end s') Hsep1) in Hl1.
      apply (returns_inline str q _ s' _ _ Hl1 Hs).
    + cbn [orb] in Hx.
      assert (Hc := H). rewrite (inline_table_dump a _ Hx) in Hc.
      cbn [app] in Hc. destruct (left_at_char _ _ _ _ Hc) as [-> _].
      cbn [is_newline Ascii.eqb Bool.eqb andb].
      rewrite andb_false_r.
      apply (returns_block str q q); [|reflexivity].
      apply (parse_array_inline_table a str f _ q s' (S L) Hx H Hs); auto; lia.
  - (* an object *)
    cbn [value_text] in H. set (w := (2 * S L)%nat) in *.
    set (inner := dump (ToonObject o) (Z.of_nat (S L))) in *.
    assert (H0 : left_at str (i q)
                   (["010"%char] ++ repeat " "%char w ++ inner ++ text s')).
    { cbn [app] in H |- *. rewrite <- app_assoc in H. exact H. }
    clear H. rename H0 into H.
    destruct (left_at_char _ _ _ _ H) as [-> [-> _]].
    cbn [is_newline Ascii.eqb Bool.eqb andb]. cbv zeta.
    assert (H1 := left_at_advance str (i q) ["010"%char] _ H).
    cbn [length] in H1.
    pose proof Hx as Ho. rewrite readable_object in Ho.
    apply andb_true_iff in Ho. destruct Ho as [Ho Hent].
    apply andb_true_iff in Ho. destruct Ho as [Hne Hasc].
    destruct o as [|[k y] o']; [discriminate Hne|].
    assert (Hk : key_ok k = true).
    { cbn [forallb fst] in Hent. apply andb_true_iff in Hent.
      destruct Hent as [Hk _]. apply andb_true_iff in Hk. tauto. }
    assert (Ed : inner
                 = k ++ ":"%char :: " "%char :: value_text (S L) y
                   ++ dump_entries dump o' false (Z.of_nat (S L))).
    { unfold inner. cbn [dump]. unfold dump_object.
      rewrite dump_entries_value. reflexivity. }
    rewrite (consume_garbage_at str (set_i q (S (i q)))
               (repeat " "%char w) (inner ++ text s'));
      [|rewrite i_set_i; replace (S (i q)) with (i q + 1)%nat by lia; exact H1
       |apply repeat_space_gap
       |rewrite Ed, <- app_assoc; apply key_ok_token, Hk].
    norm_state. rewrite repeat_length.
    assert (H2 : left_at str (S (i q) + w) (inner ++ text s')).
    { replace (S (i q) + w)%nat
        with (i q + 1 + length (repeat " "%char w))%nat
        by (rewrite repeat_length; lia).
      apply left_at_advance. exact H1. }
    assert (Hc := H2). rewrite Ed, <- app_assoc in Hc.
    destruct (key_ok_first k (" "%char :: (value_text (S L) y
                ++ dump_entries dump o' false (Z.of_nat (S L))) ++ text s') Hk)
      as [c [t [Ec Hbr]]].
    cbn [app] in Hc, Ec. rewrite Ec in Hc.
    destruct (left_at_char _ _ _ _ Hc) as [-> _]. rewrite Hbr.
    apply (returns_block str q (set_i q (S (i q) + w)));
      [|intros; apply set_i_set_i].
    apply (IHf _ str (S L) _ _ s'); rewrite ?i_set_i, ?failed_set_i; auto.
    + replace (S (i q) + w)%nat with (i q + 1 + w)%nat by lia.
      apply (at_line_after str (i q) w (inner ++ text s')).
      cbn [app] in H. exact H.
    + lia.
Qed.

Lemma value_text_first_readable L x :
  readable x = true ->
  exists c t, value_text L x = c :: t /\ is_blank c = false.
Proof.
  intros Hx.
  assert (Hleaf : inline x = true ->
            exists c t, value_text L x = c :: t /\ is_blank c = false).
  { intros Hsc.
    destruct (inline_first_char x (Z.of_nat L) Hsc) as [c [t [Ec [Hb _]]]].
    exists c, t. split; [|exact Hb].
    destruct x; try discriminate Hsc; try exact Ec.
    cbn [value_text]. rewrite (inline_level _ _ (Z.of_nat L) Hsc). exact Ec. }
  destruct x as [|d| |b|sv|a|o]; try discriminate Hx;
    try (apply Hleaf; exact Hx).
  - cbn [readable] in Hx. cbn [value_text].
    destruct (inline (ToonArray a)) eqn:Efl.
    + rewrite (inline_array_verbose a _ Efl). eexists _, _. split; reflexivity.
    + rewrite (inline_table_dump a _ Hx). eexists _, _. split; reflexivity.
  - cbn [value_text]. eexists _, _. split; reflexivity.
Qed.

Lemma entries_loop_readable f (IHf : object_read_back f) todo :
  forall str n L P obj p g s,
  forallb (fun kv => key_ok (fst kv) && readable (snd kv)) todo = true ->
  ascending todo = true ->
  (forall kv kv', In kv obj -> In kv' todo ->
                  str_ltb (fst kv) (fst kv') = true) ->
  (obj <> [] \/ todo <> []) ->
  (forall kv, In kv todo -> (fuel_need (snd kv) <= f)%nat) ->
  suffix_ok s P -> P < Z.of_nat (2 * L) ->
  forallb is_gap g = true ->
  left_at str (i p) (g ++ after (rest_suffix todo L s)) ->
  (after (rest_suffix todo L s) = [] -> g = []) ->
  (rest_suffix todo L s <> Eof ->
   at_line str (i p + length g) (width (rest_suffix todo L s))) ->
  failed p = false -> (length todo < n)%nat ->
  returns_at str p (ToonObject (obj ++ todo)) s
    (entries_loop str (parse_value str f) (parse_array str f)
       (parse_object str f) n P obj p).
Proof.
  induction todo as [|[k x] rest IH];
    intros str n L P obj p g s Hok Hasc Hobj Hne Hfuel Hs HP Hg H Hnil Hat
           Hfl Hn;
    (destruct n as [|n]; [cbn [length] in Hn; lia|]); cbn [entries_loop].
  - (* no entry left: the end of the text, or a line of a parent *)
    cbn [rest_suffix] in *.
    rewrite app_nil_r.
    destruct s as [|m tok].
    + rewrite (Hnil eq_refl) in H. cbn [after app] in H.
      rewrite (left_at_nil_ltb _ _ H). exists (i p).
      rewrite set_i_same. repeat split; try apply H. intros C. contradiction.
    + cbn [after width] in *. destruct Hs as [Hm [Htok Hstart]].
      rewrite (left_at_ltb _ _ _ H) by (destruct g, tok; try discriminate; auto).
      rewrite (consume_garbage_at str p g tok H Hg Hstart).
      assert (H1 := left_at_advance str _ g _ H).
      rewrite i_set_i.
      rewrite (get_indent_at_line str (set_i p (i p + length g)) m tok);
        rewrite ?i_set_i; auto.
      2:{ apply Hat. discriminate. }
      2:{ destruct tok; [exact I|apply Hstart]. }
      replace (Z.of_nat m <=? P) with true by (symmetry; apply Z.leb_le; lia).
      destruct obj as [|kv obj]; [destruct Hne; contradiction|].
      cbn [negb andb]. norm_state. exists (i p + length g)%nat.
      repeat split; try apply H1. intros _. apply Hat. discriminate.
  - (* an entry *)
    cbn [forallb fst snd] in Hok. apply andb_true_iff in Hok.
    destruct Hok as [Hkx Hrest]. apply andb_true_iff in Hkx.
    destruct Hkx as [Hk Hx].
    cbn [ascending] in Hasc. apply andb_true_iff in Hasc.
    destruct Hasc as [Hklt Hasc].
    cbn [rest_suffix after width] in H, Hat.
    rewrite dump_entries_value in H. cbn [app] in H.
    rewrite <- !app_assoc in H. cbn [app] in H.
    rewrite <- app_assoc, rest_suffix_text in H.
    set (s' := rest_suffix rest L s) in *.
    assert (Hs' : suffix_ok s' (Z.of_nat (2 * L)))
      by (apply (rest_suffix_readable rest L s P); assumption).
    set (tail := ":"%char :: " "%char :: value_text L x ++ text s') in *.
    rewrite (left_at_ltb _ _ _ H) by (destruct g, k; discriminate).
    (* the gap and the key *)
    rewrite (consume_garbage_at str p g _ H Hg)
      by (apply key_ok_token; exact Hk).
    assert (H1 := left_at_advance str _ g _ H).
    rewrite i_set_i.
    rewrite (get_indent_at_line str (set_i p (i p + length g)) (2 * L)
               (k ++ tail)); rewrite ?i_set_i; auto.
    2:{ apply Hat. discriminate. }
    2:{ pose proof (key_ok_token k (" "%char :: value_text L x ++ text s') Hk)
          as Ht. fold tail in Ht. destruct (k ++ tail); [exact I|apply Ht]. }
    replace (Z.of_nat (2 * L) <=? P) with false
      by (symmetry; apply Z.leb_gt; lia).
    cbn [andb].
    assert (Hkey : forallb (fun c => negb (Ascii.eqb c ":")) k = true)
      by (unfold key_ok in Hk; apply andb_true_iff in Hk; tauto).
    rewrite (scan_while_at str _ _ k _ H1 Hkey) by reflexivity.
    replace (i p + length g + length k - (i p + length g))%nat
      with (length k) by lia.
    rewrite (substr_at str _ k _ H1).
    assert (H2 := left_at_advance str _ k _ H1).
    norm_state. destruct (left_at_char _ _ _ _ H2) as [_ [_ Hsz]].
    rewrite Hsz.
    assert (H3 := left_at_advance str _ [":"%char] _ H2).
    cbn [length app] in H3.
    (* the blank and the value *)
    destruct (value_text_first_readable L x Hx) as [c [t [Ec Hb]]].
    rewrite (consume_whitespace_at str _ [" "%char] (value_text L x ++ text s'));
      [|norm_state;
        replace (S (i p + length g + length k))
          with (i p + length g + length k + 1)%nat by lia; exact H3
       |reflexivity
       |rewrite Ec; exact Hb].
    norm_state. cbn [length].
    set (q := set_i p (S (i p + length g + length k) + 1)).
    assert (H4 : left_at str (i q) (value_text L x ++ text s')).
    { unfold q. rewrite i_set_i.
      replace (S (i p + length g + length k) + 1)%nat
        with (i p + length g + length k + 1 + length [" "%char])%nat
        by (cbn [length]; lia).
      apply left_at_advance. exact H3. }
    assert (Hq : failed q = false) by exact Hfl.
    assert (Hfx : (fuel_need x <= f)%nat)
      by (apply (Hfuel (k, x)); left; reflexivity).
    match goal with
    | |- context [bind ?e _] =>
        destruct (entry_value_readable f x str L q s' IHf Hx Hfx H4 Hs' Hq
                  : returns_before str q x s' e)
          as [k' [g' [Ev [Hg' [H5 [Hnil' Hat']]]]]]
    end.
    rewrite Ev. cbn [bind]. unfold q. norm_state.
    rewrite map_assign_last.
    2:{ apply forallb_forall. intros kv Hin.
        apply (Hobj kv (k, x) Hin). left. reflexivity. }
    destruct (IH str n L P (obj ++ [(k, x)]) (set_i p k') g' s)
      as [k'' [Eo Ho]]; rewrite ?i_set_i, ?failed_set_i; auto.
    + intros kv kv' Hin Hin'. apply in_app_or in Hin. destruct Hin as [Hin|Hin].
      * apply Hobj; [exact Hin|right; exact Hin'].
      * destruct Hin as [<-|[]]. cbn [fst].
        rewrite forallb_forall in Hklt. apply Hklt, Hin'.
    + left. destruct obj; discriminate.
    + intros kv Hin. apply Hfuel. right. exact Hin.
    + cbn [length] in Hn. lia.
    + exists k''. rewrite Eo, set_i_set_i, <- app_assoc.
      split; [reflexivity|exact Ho].
Qed.

Lemma parse_object_readable f : object_read_back f.
Proof.
  induction f as [|f IH]; intros o str L P p s Hx Hf H Hat Hs HP Hfl.
  - cbn [fuel_need] in Hf. lia.
  - cbn [parse_object]. unfold parse_object_body.
    pose proof Hx as Ho. rewrite readable_object in Ho.
    apply andb_true_iff in Ho. destruct Ho as [Ho Hent].
    apply andb_true_iff in Ho. destruct Ho as [Hne Hasc].
    assert (Hlen : (length o + 3 <= S f)%nat) by (cbn [fuel_need] in Hf; lia).
    destruct o as [|kv o']; [discriminate Hne|]. set (o := kv :: o') in *.
    change (ToonObject o) with (ToonObject ([] ++ o)).
    apply (entries_loop_readable f IH o str f L P [] p [] s); auto.
    + right. discriminate.
    + intros kv0 Hin. pose proof (fuel_need_entry o kv0 Hin). lia.
    + cbn [length]. rewrite Nat.add_0_r. intros _. exact Hat.
    + lia.
Qed.

(** ** Round trip: readable documents *)

(** [parse_value] at the whole text of a value that is read back *)
Lemma parse_value_whole v k err0 :
  reads v ->
  parse_value (dump v 0) (fuel_need v + k) (mkParser 0 err0 false)
  = Returns v (mkParser (length (dump v 0)) err0 false).
Proof.
  intros Hv.
  destruct (fuel_need v + k)%nat as [|m] eqn:Em;
    [pose proof (fuel_need_pos v); lia|].
  destruct (Hv (dump v 0) m (mkParser 0 err0 false) 0 [])
    as [j [r [E [Hl Hs]]]].
  - lia.
  - rewrite app_nil_r. apply left_at_start.
  - left. exact I.
  - rewrite (sep_line_end [] r I Hs) in Hl. apply left_at_end in Hl.
    rewrite E, Hl. reflexivity.
Qed.

Lemma number_chars_no_colon s :
  forallb is_number_char s = true -> str_contains s ":" = false.
Proof.
  intros H. destruct (str_contains s ":") eqn:E; [|reflexivity].
  apply str_contains_In in E. rewrite forallb_forall in H.
  specialize (H _ E). discriminate H.
Qed.

Lemma parse_inline_leaf v k err0 :
  inline v = true -> (forall a, v <> ToonArray a) ->
  str_contains (dump v 0) ":" = false ->
  parse (fuel_need v + k) (dump v 0) err0
  = Returns v (mkParser (length (dump v 0)) err0 false).
Proof.
  intros Hv Hna Hc.
  destruct (inline_first_char v 0 Hv) as [c [t [E [Hb [Hnl [Hh _]]]]]].
  destruct (inline_leaf_first v 0 Hv Hna) as [c' [t' [E' [_ [_ Hbr]]]]].
  rewrite E in E'. injection E' as <- <-.
  rewrite (parse_dispatch _ c t _ _ E Hb Hnl Hh), Hbr, Hc.
  apply parse_value_whole, inline_reads, Hv.
Qed.

Lemma parse_inline_array a k err0 :
  inline (ToonArray a) = true ->
  parse (fuel_need (ToonArray a) + k) (dump (ToonArray a) 0) err0
  = Returns (ToonArray a)
      (mkParser (length (dump (ToonArray a) 0)) err0 false).
Proof.
  intros Ha. pose proof (inline_array_verbose a 0 Ha) as E.
  rewrite (parse_dispatch _ _ _ _ _ E) by reflexivity.
  cbn [Ascii.eqb Bool.eqb].
  apply parse_value_whole, inline_reads, Ha.
Qed.

Lemma parse_inline_table a k err0 :
  inline_table a = true ->
  parse (fuel_need (ToonArray a) + k) (dump (ToonArray a) 0) err0
  = Returns (ToonArray a)
      (mkParser (length (dump (ToonArray a) 0)) err0 false).
Proof.
  intros Ha. pose proof (inline_table_dump a 0 Ha) as E. cbn [Z.of_nat] in E.
  rewrite (parse_dispatch _ _ _ _ _ E) by reflexivity.
  cbn [Ascii.eqb Bool.eqb].
  destruct (fuel_need (ToonArray a) + k)%nat as [|m] eqn:Em;
    [pose proof (fuel_need_pos (ToonArray a)); lia|].
  cbn [parse_value]. unfold parse_value_body.
  set (str := dump (ToonArray a) 0) in *.
  rewrite (consume_whitespace_at str _ [] str);
    [|apply left_at_start|reflexivity|rewrite E; reflexivity].
  cbn [i set_i length Nat.add err failed].
  assert (Hl : left_at str 0 (str ++ text Eof))
    by (cbn [text gap after app]; rewrite app_nil_r; apply left_at_start).
  assert (Hl' := Hl). rewrite E in Hl' at 2. cbn [app] in Hl'.
  destruct (left_at_char _ _ _ _ Hl') as [Hc [_ Hsz]].
  rewrite Hsz, Hc. cbn [Ascii.eqb Bool.eqb].
  destruct (parse_array_inline_table a str m (-1)
              (mkParser 0 err0 false) Eof 0 Ha Hl I)
    as [j [Ej [Hj _]]]; [lia|reflexivity|lia|].
  change (set_i (mkParser 0 err0 false) 0) with (mkParser 0 err0 false).
  rewrite Ej. apply left_at_end in Hj. rewrite Hj. reflexivity.
Qed.

Lemma parse_readable_object o k err0 :
  readable (ToonObject o) = true ->
  parse (fuel_need (ToonObject o) + k) (dump (ToonObject o) 0) err0
  = Returns (ToonObject o)
      (mkParser (length (dump (ToonObject o) 0)) err0 false).
Proof.
  intros Hx. pose proof Hx as Ho. rewrite readable_object in Ho.
  apply andb_true_iff in Ho. destruct Ho as [Ho Hent].
  apply andb_true_iff in Ho. destruct Ho as [Hne Hasc].
  destruct o as [|[key x] rest] eqn:Eo; [discriminate Hne|].
  rewrite <- Eo in *.
  assert (Hk : key_ok key = true).
  { rewrite Eo in Hent. cbn [forallb fst] in Hent.
    apply andb_true_iff in Hent. destruct Hent as [Hk _].
    apply andb_true_iff in Hk. tauto. }
  set (str := dump (ToonObject o) 0) in *.
  assert (E : str = key ++ ":"%char :: " "%char :: value_text O x
                    ++ dump_entries dump rest false 0).
  { unfold str. cbn [dump]. unfold dump_object. rewrite Eo.
    apply (dump_entries_value key x rest true O). }
  assert (Hcolon : str_contains str ":" = true).
  { rewrite E. apply str_contains_In. apply in_or_app. right. left.
    reflexivity. }
  assert (Hfirst : exists c t, str = c :: t
            /\ is_blank c = false /\ is_newline c = false
            /\ Ascii.eqb c "#" = false /\ Ascii.eqb c "[" = false).
  { rewrite E. unfold key_ok in Hk. apply andb_true_iff in Hk.
    destruct Hk as [_ Hk]. destruct key as [|c key].
    - eexists _, _. repeat split.
    - repeat (apply andb_true_iff in Hk; destruct Hk as [Hk ?]).
      repeat match goal with
             | H : negb _ = true |- _ => apply negb_true_iff in H
             end.
      eexists c, _. cbn [app]. auto. }
  destruct Hfirst as [c [t [Ec [Hb [Hnl [Hh Hbr]]]]]].
  rewrite (parse_dispatch _ c t _ _ Ec Hb Hnl Hh), Hbr, Hcolon.
  assert (Hl : left_at str (i (mkParser 0 err0 false))
                 (dump (ToonObject o) (Z.of_nat 0) ++ text Eof)).
  { cbn [text gap after app i]. rewrite app_nil_r. apply left_at_start. }
  destruct (parse_object_readable (fuel_need (ToonObject o) + k) o str O (-1)
              (mkParser 0 err0 false) Eof Hx (Nat.le_add_r _ _) Hl
              (at_line_start str) I (Z.lt_pred_l 0) eq_refl)
    as [j [Ej [Hj _]]].
  rewrite Ej. apply left_at_end in Hj. rewrite Hj. reflexivity.
Qed.

Lemma SFeqb_finite d : isfinite d = true -> SFeqb d d = true.
Proof.
  destruct d as [s|s| |s m e]; try discriminate; intros _.
  - reflexivity.
  - unfold SFeqb. cbn [SFcompare].
    destruct s; rewrite Z.compare_refl, ?Pos.compare_cont_refl;
      cbn [CompOpp]; rewrite ?Pos.compare_refl; reflexivity.
Qed.

Lemma equals_inline v : inline v = true -> equals v v = Some true.
Proof.
  induction v as [|d|n|b|s|a IH|o IH] using Toon_induction; intros Hv;
    try discriminate Hv.
  - reflexivity.
  - cbn [inline] in Hv. unfold double_ok in Hv.
    apply andb_true_iff in Hv. destruct Hv as [Hv _].
    apply andb_true_iff in Hv. destruct Hv as [Hfin _].
    cbn [equals]. rewrite (SFeqb_finite d Hfin). reflexivity.
  - apply equals_scalar. reflexivity.
  - apply equals_scalar, Hv.
  - rewrite inline_array in Hv. apply andb_true_iff in Hv.
    destruct Hv as [_ Hv]. rewrite forallb_forall in Hv.
    apply equals_array_refl. intros x Hx.
    rewrite Forall_forall in IH. apply (IH x Hx), Hv, Hx.
Qed.

Lemma equals_readable n : forall v,
  (fuel_need v <= n)%nat -> readable v = true -> equals v v = Some true.
Proof.
  induction n as [|n IH]; intros v Hn Hv;
    [pose proof (fuel_need_pos v); lia|].
  destruct v as [|d| |b|sv|a|o]; try discriminate Hv;
    try (apply equals_inline; exact Hv).
  - cbn [readable] in Hv. apply orb_true_iff in Hv.
    destruct Hv as [Hv|Hv]; [apply equals_inline, Hv|].
    destruct (inline_table_rows a Hv) as [o [rest [_ [_ [_ Hrows]]]]].
    apply equals_array_refl. intros x Hx.
    rewrite Forall_forall in Hrows.
    destruct (Hrows x Hx) as [o' [-> [_ [Hsc _]]]].
    apply equals_object_refl. intros kv Hkv. apply equals_inline.
    rewrite forallb_forall in Hsc. apply Hsc, Hkv.
  - rewrite readable_object in Hv.
    apply andb_true_iff in Hv. destruct Hv as [_ Hent].
    apply equals_object_refl. intros kv Hkv. apply IH.
    + pose proof (fuel_need_entry o kv Hkv). lia.
    + rewrite forallb_forall in Hent. specialize (Hent kv Hkv).
      apply andb_true_iff in Hent. tauto.
Qed.

Lemma equals_readable_document v :
  readable_document v = true -> equals v v = Some true.
Proof.
  intros Hv. apply (equals_readable (fuel_need v)); [lia|].
  destruct v; try exact Hv.
  cbn [readable_document] in Hv. apply andb_true_iff in Hv.
  cbn [readable inline]. tauto.
Qed.

(** C1 (as the codec stands).  For every readable document, decoding the
    encoded text returns the document itself, at the end of the text, with
    the error text untouched and the failure flag unset, and the document
    equals itself under [operator==].  A readable document is built from
    Null, booleans, strings that are read back as themselves and finite
    [double]s whose [%.17g] text the number scanner takes whole and
    [strtod] converts back; such values and the arrays of them, nested to
    any depth, are the inline values; a readable document is an inline
    value, a table whose cells are inline, or a non-empty object of
    inline values, tables and such objects; a string at the top holds no
    colon. *)
Theorem C1_round_trip (v : Toon) (k : nat) (err0 : list ascii) :
  readable_document v = true ->
  parse (fuel_need v + k) (dump v 0) err0
  = Returns v (mkParser (length (dump v 0)) err0 false)
  /\ equals v v = Some true.
Proof.
  intros Hv. split; [|apply equals_readable_document, Hv].
  destruct v as [|d| |b|sv|a|o]; try discriminate Hv.
  - reflexivity.
  - apply parse_inline_leaf; [exact Hv|discriminate|].
    cbn [readable_document readable inline] in Hv. unfold double_ok in Hv.
    apply andb_true_iff in Hv. destruct Hv as [Hv _].
    apply andb_true_iff in Hv. destruct Hv as [Hfin Hnum].
    cbn [dump]. unfold dump_double. rewrite Hfin.
    apply number_chars_no_colon, Hnum.
  - destruct b; reflexivity.
  - cbn [readable_document] in Hv. apply andb_true_iff in Hv.
    destruct Hv as [Hs Hc]. apply negb_true_iff in Hc.
    apply parse_inline_leaf; [exact Hs|discriminate|].
    cbn [dump]. apply dump_string_no_colon; assumption.
  - cbn [readable_document readable] in Hv. apply orb_true_iff in Hv.
    destruct Hv as [Hv|Hv].
    + apply parse_inline_array, Hv.
    + apply parse_inline_table, Hv.
  - apply parse_readable_object, Hv.
Qed.

Lemma C1_round_trip_witness :
  let half := ToonDouble (S754_finite false 4503599627370496 (-53)) in
  let three_halves := ToonDouble (S754_finite false 6755399441055744 (-52)) in
  let pairs := ToonArray
                 [ToonArray [ToonString (lit "a"); ToonString (lit "b")];
                  ToonArray [ToonString (lit "c")]] in
  let v := ToonObject
             [(lit "a", half);
              (lit "b", ToonArray [three_halves; ToonNull]);
              (lit "meta",
               ToonObject
                 [(lit "id", ToonString (lit "1"));
                  (lit "tags", ToonArray [ToonString (lit "a, b"); pairs])]);
              (lit "name", ToonString (lit "Alice Smith"));
              (lit "rows",
               ToonArray
                 [ToonObject [(lit "x", ToonArray [half; ToonNull]);
                              (lit "y", ToonBoolean true)];
                  ToonObject [(lit "x", ToonArray []);
                              (lit "y", three_halves)]])] in
  (parse (fuel_need half + 0) (dump half 0) []
   = Returns half (mkParser (length (dump half 0)) [] false)
   /\ equals half half = Some true)
  /\ (parse (fuel_need pairs + 0) (dump pairs 0) []
      = Returns pairs (mkParser (length (dump pairs 0)) [] false)
      /\ equals pairs pairs = Some true)
  /\ (parse (fuel_need v + 0) (dump v 0) []
      = Returns v (mkParser (length (dump v 0)) [] false)
      /\ equals v v = Some true).
Proof.
  cbv zeta. split; [|split].
  - apply (C1_round_trip
             (ToonDouble (S754_finite false 4503599627370496 (-53)))
             0%nat []).
    vm_compute. reflexivity.
  - apply (C1_round_trip
             (ToonArray
                [ToonArray [ToonString (lit "a"); ToonString (lit "b")];
                 ToonArray [ToonString (lit "c")]])
             0%nat []).
    vm_compute. reflexivity.
  - apply (C1_round_trip
             (ToonObject
                [(lit "a",
                  ToonDouble (S754_finite false 4503599627370496 (-53)));
                 (lit "b",
                  ToonArray
                    [ToonDouble (S754_finite false 6755399441055744 (-52));
                     ToonNull]);
                 (lit "meta",
                  ToonObject
                    [(lit "id", ToonString (lit "1"));
                     (lit "tags",
                      ToonArray
                        [ToonString (lit "a, b");
                         ToonArray
                           [ToonArray [ToonString (lit "a");
                                       ToonString (lit "b")];
                            ToonArray [ToonString (lit "c")]]])]);
                 (lit "name", ToonString (lit "Alice Smith"));
                 (lit "rows",
                  ToonArray
                    [ToonObject
                       [(lit "x",
                         ToonArray
                           [ToonDouble
                              (S754_finite false 4503599627370496 (-53));
                            ToonNull]);
                        (lit "y", ToonBoolean true)];
                     ToonObject
                       [(lit "x", ToonArray []);
                        (lit "y",
                         ToonDouble
                           (S754_finite false 6755399441055744 (-52)))]])])
             0%nat []).
    vm_compute. reflexivity.
Defined.

(** ** The documents without numbers are readable documents *)

Lemma scalar_inline v : scalar v = true -> inline v = true.
Proof. destruct v; try discriminate; intros H; exact H. Qed.

Lemma forallb_impl {A} (f g : A -> bool) l :
  (forall x, f x = true -> g x = true) ->
  forallb f l = true -> forallb g l = true.
Proof.
  intros Hfg H. rewrite forallb_forall in *. intros x Hx. apply Hfg, H, Hx.
Qed.

Lemma flat_array_inline a :
  flat_array a = true -> inline (ToonArray a) = true.
Proof.
  unfold flat_array. rewrite inline_array. intros H.
  apply andb_true_iff in H. destruct H as [Hsc Hmax].
  rewrite Hmax, (forallb_impl scalar inline a scalar_inline Hsc).
  reflexivity.
Qed.

Lemma row_ok_inline keys r : row_ok keys r = true -> inline_row keys r = true.
Proof.
  destruct r; try discriminate. cbn [row_ok inline_row]. intros H.
  apply andb_true_iff in H. destruct H as [-> Hsc].
  apply (forallb_impl (fun kv => scalar (snd kv))); [|exact Hsc].
  intros kv. apply scalar_inline.
Qed.

Lemma tabular_array_inline a :
  tabular_array a = true -> inline_table a = true.
Proof.
  unfold tabular_array, inline_table.
  destruct a as [|r rest]; [discriminate|].
  destruct r as [| | | | | |o]; try discriminate. intros H.
  apply andb_true_iff in H. destruct H as [-> Hrows].
  apply (forallb_impl (row_ok (map fst o))); [|exact Hrows].
  intros r. apply row_ok_inline.
Qed.

Lemma nested_value_readable v : nested_value v = true -> readable v = true.
Proof.
  induction v as [|d|n|b|s|a IH|o IH] using Toon_induction; intros Hv;
    try discriminate Hv; try exact Hv.
  - cbn [nested_value] in Hv. cbn [readable].
    apply orb_true_iff in Hv. apply orb_true_iff.
    destruct Hv as [Hv|Hv];
      [left; apply flat_array_inline, Hv
      |right; apply tabular_array_inline, Hv].
  - rewrite nested_object in Hv. rewrite readable_object.
    apply andb_true_iff in Hv. destruct Hv as [-> Hent].
    cbn [andb]. rewrite forallb_forall in *. intros kv Hkv.
    specialize (Hent kv Hkv). apply andb_true_iff in Hent.
    destruct Hent as [-> Hx]. rewrite Forall_forall in IH.
    apply (IH kv Hkv Hx).
Qed.

Lemma document_readable v :
  document v = true -> readable_document v = true.
Proof.
  destruct v; try discriminate; try (intros H; exact H).
  - apply nested_value_readable.
  - apply nested_value_readable.
Qed.
